(** * Refinement of elliptical s-reps: a Rocq model of SlicerSRep2

    The development embeds three sources of the repository, and what they
    call.

    - [CommonLibrary/Point3d.cpp]: module [Binary64.Point3d] is the point
      class over IEEE binary64, the arithmetic of the C++ [double], with the
      kernel's primitive floats.
    - [SRepRefinement/Logic/vtkSlicerSRepRefinementLogic.cxx]: modules
      [Fields], [Refiner], [Logic] and [Store] are the refinement engine.
      Its geometry is in exact arithmetic: a [double] is a real number, so
      rounding, overflow and NaN are left out, and a division by zero is
      written out where the code can meet one.  [abs], [max] and [exp] are
      the functions of doubles.  Module [Binary64.Fields] has the functions
      of the bounds on the doubles themselves, for what rounding does to
      them.  Values of type [int], [long], [size_t] and [IndexType] are
      integers of [Z]; the two counters of the progress are stored as
      [int], with the wrap-around at 32 bits written out, and a theorem
      that depends on another integer asks that it stays in the range
      where C++ defines the arithmetic.
    - [SRepCreator/Logic/vtkSlicerSRepCreatorLogic.cxx]: module [Creator]
      is the way from the best fitting ellipsoid of a mesh to the s-rep of
      the ellipsoid, in the same exact arithmetic.
    - The classes the engine uses and whose sources are not among these
      (points, vectors, spokes, skeletal points, the grid, the minimiser)
      are modelled from the specification, each under a comment that says
      so; VTK, ITK and Eigen are the fields of the record [Externals].

    C++ exceptions are explicit: a computation returns [Ok v] or
    [Throw e], and a stateful one also returns the state it leaves behind,
    which is how an exception that escapes a method leaves the object.

    The definitions come first; the facts follow, with a theorem for each
    claim about the program under a comment that names it. *)

From Stdlib Require Import Reals Lra Psatz ZArith Lia List Bool Floats String.
From stdpp Require Import base option list sorting.
Import ListNotations.

#[local] Unset Default Proof Using.

(** * Exceptions and the two monads of the model *)

(** The last one is an exception that is no [std::exception]: it has no
    description, and only [catch (...)] catches it. *)
Inductive exception :=
  | invalid_argument (what : string)
  | runtime_error (what : string)
  | out_of_range (what : string)
  | foreign_exception (what : string)
  | unknown_exception.

Inductive Result (A : Type) : Type :=
  | Ok (a : A)
  | Throw (e : exception).
Arguments Ok {A} a.
Arguments Throw {A} e.

Class Monad (m : Type -> Type) := {
  ret : forall {A}, A -> m A;
  bind : forall {A B}, m A -> (A -> m B) -> m B
}.

Declare Scope monad_scope.
Delimit Scope monad_scope with monad.
Notation "x <- c1 ;; c2" := (bind c1 (fun x => c2))
  (at level 100, c1 at next level, right associativity) : monad_scope.
Notation "c1 ;; c2" := (bind c1 (fun _ => c2))
  (at level 100, right associativity) : monad_scope.
Open Scope monad_scope.

#[global] Instance Result_Monad : Monad Result := {
  ret := fun A a => Ok a;
  bind := fun A B c k => match c with Ok a => k a | Throw e => Throw e end
}.

(** A method of an object with state [S]: the result, and the state left. *)
Definition St (S A : Type) : Type := S -> Result A * S.

#[global] Instance St_Monad (S : Type) : Monad (St S) := {
  ret := fun A a s => (Ok a, s);
  bind := fun A B c k s =>
    match c s with
    | (Ok a, s') => k a s'
    | (Throw e, s') => (Throw e, s')
    end
}.

Definition get {S} : St S S := fun s => (Ok s, s).
Definition gets {S A} (f : S -> A) : St S A := fun s => (Ok (f s), s).
Definition modify {S} (f : S -> S) : St S unit := fun s => (Ok tt, f s).
Definition throw {S A} (e : exception) : St S A := fun s => (Throw e, s).
Definition lift {S A} (r : Result A) : St S A := fun s => (r, s).

(** [try { body } catch (...) { handler }]. *)
Definition try_catch {S A} (body : St S A) (handler : exception -> St S A)
  : St S A :=
  fun s => match body s with
           | (Ok a, s') => (Ok a, s')
           | (Throw e, s') => handler e s'
           end.

(** [for (i = first; ...; ++i) body(i)], [count] iterations. *)
Fixpoint for_from {S} (count : nat) (first : Z) (body : Z -> St S unit)
  : St S unit :=
  match count with
  | O => ret tt
  | S k => body first ;; for_from k (first + 1)%Z body
  end.

(** [for (i = 0; i < n; ++i) body(i)]. *)
Definition for_upto {S} (n : Z) (body : Z -> St S unit) : St S unit :=
  for_from (Z.to_nat n) 0%Z body.

(** * [srep::Point3d] over IEEE binary64 *)

Module Binary64.

(** [CommonLibrary/Point3d.cpp]; a [double] is a primitive float. *)
Module Point3d.

Local Open Scope float_scope.

Record Point3d := mkPoint3d { GetX : float; GetY : float; GetZ : float }.

(** [Point3d::Point3d()]. *)
Definition origin : Point3d := mkPoint3d 0 0 0.

(** [Point3d::Point3d(double x, double y, double z)]. *)
Definition make (x y z : float) : Result Point3d :=
  if is_nan x || is_nan y || is_nan z
  then Throw (invalid_argument "Point cannot have a nan component")
  else Ok (mkPoint3d x y z).

Definition SetX (x : float) (p : Point3d) : Result Point3d :=
  if is_nan x then Throw (invalid_argument "Point cannot have a nan component")
  else Ok (mkPoint3d x (GetY p) (GetZ p)).

Definition SetY (y : float) (p : Point3d) : Result Point3d :=
  if is_nan y then Throw (invalid_argument "Point cannot have a nan component")
  else Ok (mkPoint3d (GetX p) y (GetZ p)).

Definition SetZ (z : float) (p : Point3d) : Result Point3d :=
  if is_nan z then Throw (invalid_argument "Point cannot have a nan component")
  else Ok (mkPoint3d (GetX p) (GetY p) z).

Definition AsArray (p : Point3d) : float * float * float :=
  (GetX p, GetY p, GetZ p).

(** [vtkMath::Distance2BetweenPoints]: the sum of the squared coordinate
    differences, added left to right. *)
Definition Distance2BetweenPoints (p1 p2 : float * float * float) : float :=
  let '(x1, y1, z1) := p1 in
  let '(x2, y2, z2) := p2 in
  (x1 - x2) * (x1 - x2) + (y1 - y2) * (y1 - y2) + (z1 - z2) * (z1 - z2).

(** [pow(d, 0.5)]: on the values a sum of squares takes (no negative number,
    no negative zero) the C library's [pow(d, 0.5)] is the square root:
    zero at zero, infinite at infinity, NaN at NaN. *)
Definition pow_half (d : float) : float := sqrt d.

Definition Distance (a b : Point3d) : float :=
  let distSquared := Distance2BetweenPoints (AsArray a) (AsArray b) in
  pow_half distSquared.

(** [operator<]; [x != y] on doubles is the negation of [x == y]. *)
Definition lt (a b : Point3d) : bool :=
  if negb (GetX a =? GetX b) then GetX a <? GetX b
  else if negb (GetY a =? GetY b) then GetY a <? GetY b
  else GetZ a <? GetZ b.

Definition eq (a b : Point3d) : bool := negb (lt a b) && negb (lt b a).
Definition ne (a b : Point3d) : bool := lt a b || lt b a.
Definition gt (a b : Point3d) : bool := lt b a.
Definition le (a b : Point3d) : bool := negb (lt b a).
Definition ge (a b : Point3d) : bool := negb (lt a b).

End Point3d.

(** [SRepRefinement/Logic/vtkSlicerSRepRefinementLogic.cxx]: the functions
    of the bounds and of the image coordinates on the doubles themselves,
    for what rounding does to them. *)
Module Fields.

Local Open Scope float_scope.

(** [using Bounds = std::array<double, 6>]. *)
Record Bounds := mkBounds {
  b0 : float; b1 : float; b2 : float; b3 : float; b4 : float; b5 : float
}.

(** [x >= y] on doubles. *)
Definition geb (x y : float) : bool := y <=? x.

(** A [vtkMatrix4x4]. *)
Definition Matrix4x4 := nat -> nat -> float.
Definition Zero : Matrix4x4 := fun _ _ => 0.
Definition SetElement (i j : nat) (v : float) (m : Matrix4x4) : Matrix4x4 :=
  fun a b => if (a =? i)%nat && (b =? j)%nat then v else m a b.
Definition GetElement (m : Matrix4x4) (i j : nat) : float := m i j.
Definition MultiplyPoint (m : Matrix4x4) (p : float * float * float * float)
  : float * float * float * float :=
  let '(p0, p1, p2, p3) := p in
  (GetElement m 0 0 * p0 + GetElement m 0 1 * p1
   + GetElement m 0 2 * p2 + GetElement m 0 3 * p3,
   GetElement m 1 0 * p0 + GetElement m 1 1 * p1
   + GetElement m 1 2 * p2 + GetElement m 1 3 * p3,
   GetElement m 2 0 * p0 + GetElement m 2 1 * p1
   + GetElement m 2 2 * p2 + GetElement m 2 3 * p3,
   GetElement m 3 0 * p0 + GetElement m 3 1 * p1
   + GetElement m 3 2 * p2 + GetElement m 3 3 * p3).

Definition CreateBoundsToImageCoordsTransform (bounds : Bounds) : Matrix4x4 :=
  let xRange := b1 bounds - b0 bounds in
  let yRange := b3 bounds - b2 bounds in
  let zRange := b5 bounds - b4 bounds in
  let transfomedRanges :=
    if geb xRange yRange && geb xRange zRange then
      (1, yRange / xRange, zRange / xRange)
    else if geb yRange xRange && geb yRange zRange then
      (xRange / yRange, 1, zRange / yRange)
    else (xRange / zRange, yRange / zRange, 1) in
  let '(xRangeTrans, yRangeTrans, zRangeTrans) := transfomedRanges in
  let xOriginTrans := 0.5 - xRangeTrans / 2 in
  let yOriginTrans := 0.5 - yRangeTrans / 2 in
  let zOriginTrans := 0.5 - zRangeTrans / 2 in
  let mat := Zero in
  let mat := SetElement 0 0 (xRangeTrans / xRange) mat in
  let mat := SetElement 1 1 (yRangeTrans / yRange) mat in
  let mat := SetElement 2 2 (zRangeTrans / zRange) mat in
  let mat := SetElement 0 3 (xOriginTrans - xRangeTrans * b0 bounds / xRange) mat in
  let mat := SetElement 1 3 (yOriginTrans - yRangeTrans * b2 bounds / yRange) mat in
  let mat := SetElement 2 3 (zOriginTrans - zRangeTrans * b4 bounds / zRange) mat in
  SetElement 3 3 1 mat.

(** [indeterminate] is what [newBounds] holds when no branch writes it,
    which takes a range that is a NaN. *)
Definition ComputePolyDataToImageDataNewBounds (indeterminate bounds : Bounds)
  : Bounds :=
  let range0 := b1 bounds - b0 bounds in
  let range1 := b3 bounds - b2 bounds in
  let range2 := b5 bounds - b4 bounds in
  let ratioYX := range1 / range0 in
  let ratioZX := range2 / range0 in
  let ratioZY := range2 / range1 in
  let newCenter0 := 0.5 in
  let newCenter1 := 0.5 in
  let newCenter2 := 0.5 in
  let newBounds := indeterminate in
  if geb range0 range1 && geb range0 range2 then
    mkBounds 0 1
             (newCenter1 - 0.5 * ratioYX) (newCenter1 + 0.5 * ratioYX)
             (newCenter2 - 0.5 * ratioZX) (newCenter2 + 0.5 * ratioZX)
  else if geb range1 range0 && geb range1 range2 then
    mkBounds (newCenter0 - 0.5 / ratioYX) (newCenter0 + 0.5 / ratioYX)
             0 1
             (newCenter2 - 0.5 * ratioZY) (newCenter2 + 0.5 * ratioZY)
  else if geb range2 range0 && geb range2 range1 then
    mkBounds (newCenter0 - 0.5 / ratioZX) (newCenter0 + 0.5 / ratioZX)
             (newCenter1 - 0.5 / ratioZY) (newCenter1 + 0.5 / ratioZY)
             0 1
  else newBounds.

(** The point the loop of [ConvertPolyDataToImageData] computes for a point
    of the mesh, before it stores it. *)
Definition newPt (indeterminate bounds : Bounds)
    (oldPt : float * float * float) : float * float * float :=
  let '(oldPt0, oldPt1, oldPt2) := oldPt in
  let range0 := b1 bounds - b0 bounds in
  let range1 := b3 bounds - b2 bounds in
  let range2 := b5 bounds - b4 bounds in
  let newBounds := ComputePolyDataToImageDataNewBounds indeterminate bounds in
  let rangeTransMesh0 := b1 newBounds - b0 newBounds in
  let rangeTransMesh1 := b3 newBounds - b2 newBounds in
  let rangeTransMesh2 := b5 newBounds - b4 newBounds in
  (rangeTransMesh0 * (oldPt0 - b0 bounds) / range0 + b0 newBounds,
   rangeTransMesh1 * (oldPt1 - b2 bounds) / range1 + b2 newBounds,
   rangeTransMesh2 * (oldPt2 - b4 bounds) / range2 + b4 newBounds).

(** [vtkMath::Norm], [vtkMath::Normalize] and [vtkMath::Dot] on a
    [double[3]]. *)
Definition Norm (v : float * float * float) : float :=
  let '(v0, v1, v2) := v in sqrt (v0 * v0 + v1 * v1 + v2 * v2).
Definition Normalize (v : float * float * float) : float * float * float :=
  let '(v0, v1, v2) := v in
  let den := Norm v in
  if den =? 0 then v else (v0 / den, v1 / den, v2 / den).
Definition Dot (a b : float * float * float) : float :=
  let '(a0, a1, a2) := a in
  let '(b0, b1, b2) := b in
  a0 * b0 + a1 * b1 + a2 * b2.

End Fields.

End Binary64.


(** * Doubles in exact arithmetic *)

Open Scope R_scope.

Definition Rltb (a b : R) : bool := if Rlt_dec a b then true else false.
Definition Rleb (a b : R) : bool := if Rle_dec a b then true else false.
Definition Rgtb (a b : R) : bool := if Rgt_dec a b then true else false.
Definition Rgeb (a b : R) : bool := if Rge_dec a b then true else false.
Definition Reqb (a b : R) : bool := if Req_dec_T a b then true else false.

(** [static_cast<int>(x)] and the conversion of a [double] to [long]:
    truncation toward zero. *)
Definition trunc (x : R) : Z :=
  if Rle_dec 0 x then Int_part x else (- Int_part (- x))%Z.

(** [std::lround]: the nearest integer, halves away from zero. *)
Definition lround (x : R) : Z :=
  if Rle_dec 0 x then Int_part (x + / 2) else (- Int_part (- x + / 2))%Z.

(** A [double] that may be [+inf]: the quotient [1 / m] of a non-negative
    [m], which IEEE arithmetic defines at [m = 0]. *)
Inductive extended := Finite (r : R) | PlusInfinity.

Definition one_over (m : R) : extended :=
  if Reqb m 0 then PlusInfinity else Finite (1 / m).

(** [INT_MAX] of a 32-bit [int]. *)
Definition INT_MAX : Z := 2147483647.

(** The [int] an integer is stored as: itself when it fits, and otherwise
    the [int] that differs from it by a multiple of [2^32].  That is the
    conversion of a wider integer to [int], and what the arithmetic of
    [int] gives on two's complement hardware when it overflows. *)
Definition to_int (z : Z) : Z := ((z + 2 ^ 31) mod 2 ^ 32 - 2 ^ 31)%Z.

(** * The s-rep classes the refinement uses *)

(** Modelled from the spec: [srep::Point3d] in exact arithmetic, "3
    real-valued coordinates"; [Binary64.Point3d] is the same class on the
    doubles of the source. *)
Module Point3d.
Record t := mk { x : R; y : R; z : R }.
End Point3d.

(** Modelled from the spec: [srep::Vector3d], "3 real-valued components,
    derived as (to - from) between two points, or built directly; supports
    unit-normalization, scalar scaling, and elementwise
    subtraction/addition; a zero vector has undefined unit direction".  The
    undefined result is an argument of [Unit]: it may be a vector or an
    exception. *)
Module Vector3d.
Record t := mk { x : R; y : R; z : R }.

Definition between (from to : Point3d.t) : t :=
  mk (Point3d.x to - Point3d.x from) (Point3d.y to - Point3d.y from)
     (Point3d.z to - Point3d.z from).
Definition GetLength (v : t) : R := R_sqrt.sqrt (x v * x v + y v * y v + z v * z v).
Definition add (a b : t) : t := mk (x a + x b) (y a + y b) (z a + z b).
Definition sub (a b : t) : t := mk (x a - x b) (y a - y b) (z a - z b).
Definition mul (v : t) (k : R) : t := mk (x v * k) (y v * k) (z v * k).
Definition div (v : t) (k : R) : t := mk (x v / k) (y v / k) (z v / k).
Definition Unit (of_zero : Result t) (v : t) : Result t :=
  if Reqb (GetLength v) 0 then of_zero else Ok (div v (GetLength v)).
End Vector3d.

(** [point + vector]. *)
Definition translate (p : Point3d.t) (v : Vector3d.t) : Point3d.t :=
  Point3d.mk (Point3d.x p + Vector3d.x v) (Point3d.y p + Vector3d.y v)
             (Point3d.z p + Vector3d.z v).

(** Modelled from the spec: [vtkSRepSpoke], "a skeletal anchor point plus a
    direction vector whose magnitude is the spoke's radius/length.  Boundary
    point = skeletal point + direction.  Mutation operations: set radius
    only (direction unchanged), set direction+magnitude atomically, move the
    skeletal point."  [SetRadius] takes any radius, as the spec notes. *)
Module Spoke.
Record t := mk { GetSkeletalPoint : Point3d.t; GetDirection : Vector3d.t }.

Definition GetRadius (s : t) : R := Vector3d.GetLength (GetDirection s).
Definition GetBoundaryPoint (s : t) : Point3d.t :=
  translate (GetSkeletalPoint s) (GetDirection s).
Definition SetRadius (of_zero : Result Vector3d.t) (radius : R) (s : t)
  : Result t :=
  u <- Vector3d.Unit of_zero (GetDirection s) ;;
  ret (mk (GetSkeletalPoint s) (Vector3d.mul u radius)).
Definition SetDirectionAndMagnitude (v : Vector3d.t) (s : t) : t :=
  mk (GetSkeletalPoint s) v.
Definition SetSkeletalPoint (p : Point3d.t) (s : t) : t :=
  mk p (GetDirection s).
End Spoke.

(** Modelled from the spec: [vtkSRepSkeletalPoint], which "owns an up-spoke
    and a down-spoke always; owns a crest-spoke iff [it is on the fold]". *)
Module SkeletalPoint.
Inductive SpokeOrientation :=
  UpOrientation | DownOrientation | CrestOrientation.

Record t := mk {
  GetUpSpoke : Spoke.t;
  GetDownSpoke : Spoke.t;
  GetCrestSpoke : option Spoke.t
}.

Definition IsCrest (p : t) : bool :=
  match GetCrestSpoke p with Some _ => true | None => false end.

Definition GetSpoke (p : t) (spokeType : SpokeOrientation) : Result Spoke.t :=
  match spokeType with
  | UpOrientation => Ok (GetUpSpoke p)
  | DownOrientation => Ok (GetDownSpoke p)
  | CrestOrientation =>
      match GetCrestSpoke p with
      | Some s => Ok s
      | None => Throw (invalid_argument "no crest spoke")
      end
  end.

Definition SetSpoke (spokeType : SpokeOrientation) (s : Spoke.t) (p : t) : t :=
  match spokeType with
  | UpOrientation => mk s (GetDownSpoke p) (GetCrestSpoke p)
  | DownOrientation => mk (GetUpSpoke p) s (GetCrestSpoke p)
  | CrestOrientation => mk (GetUpSpoke p) (GetDownSpoke p) (Some s)
  end.
End SkeletalPoint.

(** Modelled from the spec: [vtkEllipticalSRep], "an ordered 2D sequence of
    Skeletal Points (lines x steps)"; "every row has the same step-count";
    "grid may be empty (no lines)"; a skeletal point is a crest point iff
    its step is the last one; [Clone] is a deep copy.  The grid is a value
    here, so the deep copy is the grid itself; module [Store] has the grid
    as objects behind pointers. *)
Module EllipticalSRep.
Abbreviation t := (list (list SkeletalPoint.t)).

Definition GetNumberOfLines (g : t) : Z := Z.of_nat (length g).
Definition GetNumberOfSteps (g : t) : Z :=
  match g with
  | [] => 0%Z
  | line :: _ => Z.of_nat (length line)
  end.
Definition IsEmpty (g : t) : bool :=
  match g with [] => true | _ :: _ => false end.

Definition GetSkeletalPoint (g : t) (l s : Z) : Result SkeletalPoint.t :=
  if (0 <=? l)%Z && (0 <=? s)%Z then
    match g !! Z.to_nat l with
    | Some line =>
        match line !! Z.to_nat s with
        | Some p => Ok p
        | None => Throw (out_of_range "step")
        end
    | None => Throw (out_of_range "line")
    end
  else Throw (out_of_range "negative index").

(** The write through the pointer [GetSkeletalPoint(l, s)] returns. *)
Definition update (l s : Z) (f : SkeletalPoint.t -> SkeletalPoint.t) (g : t)
  : t :=
  alter (alter f (Z.to_nat s)) (Z.to_nat l) g.

Definition SmartClone (g : t) : t := g.

(** Which cells own a crest spoke. *)
Definition shape (g : t) : list (list bool) :=
  fmap (M := list) (fmap (M := list) SkeletalPoint.IsCrest) g.

(** The invariants of the class: every line has the same number of steps,
    and the crest points are the last step of each line. *)
Definition Valid (g : t) : Prop :=
  exists stepsToCrest : nat,
    shape g = replicate (length g) (replicate stepsToCrest false ++ [true]).
End EllipticalSRep.

(** * What the engine takes from VTK, ITK, Eigen and the rest of the module *)

(** [using Bounds = std::array<double, 6>]: [b0 .. b5] are [bounds[0]] to
    [bounds[5]], the minimum and the maximum of x, of y and of z. *)
Record Bounds := mkBounds { b0 : R; b1 : R; b2 : R; b3 : R; b4 : R; b5 : R }.

(** The two ITK images, as the pixel at an index; a [float] pixel is read as
    the [double] it converts to. *)
Definition RealImage := Z -> Z -> Z -> R.
Definition VectorImage := Z -> Z -> Z -> Vector3d.t.
Definition SDFAndGradient : Type := RealImage * VectorImage.

(** An [Eigen::Matrix2d]. *)
Record Matrix2d := mkMatrix2d { m00 : R; m01 : R; m10 : R; m11 : R }.

(** Modelled from the spec: the minimiser of [Private/newuoa.h], "a
    derivative-free minimizer as opaque black box": it evaluates the
    objective at points of its choice, each choice made from the values it
    has seen, and ends with the coefficients it leaves in the caller's
    array. *)
Inductive Search :=
  | Finish (x : list R)
  | Probe (x : list R) (next : R -> Search).

(** "for up to [maxIterations] evaluations". *)
Inductive probes_at_most : nat -> Search -> Prop :=
  | pam_Finish n x : probes_at_most n (Finish x)
  | pam_Probe n x next :
      (forall v, probes_at_most n (next v)) ->
      probes_at_most (S n) (Probe x next).

Record Externals := {
  (** a [vtkPolyData], and a [vtkImageData] *)
  vtkPolyData : Type;
  vtkImageData : Type;
  (** what [Vector3d::Unit] does to the zero vector *)
  UnitOfZero : Result Vector3d.t;
  (** the content of a local array that is read before it is written *)
  indeterminate : Bounds;
  (** [vtkPolyData::GetPoint], [GetBounds] *)
  GetPoints : vtkPolyData -> list Point3d.t;
  GetBounds : vtkPolyData -> Bounds;
  (** [vtkPoints::InsertPoint] into the new [vtkPoints], which stores
      [float], then [vtkPolyDataToImageStencil] and [vtkImageStencil] on
      the white image: from the points the loop inserts, with the polygons
      of the mesh, the spacing, the dimension and the origin *)
  PolyDataToImageStencil :
    list Point3d.t -> vtkPolyData -> R -> Z -> Point3d.t -> vtkImageData;
  (** [itk::ApproximateSignedDistanceMapImageFilter], [itk::GradientImageFilter] *)
  ApproximateSignedDistanceMap : vtkImageData -> Result RealImage;
  GradientImage : RealImage -> Result VectorImage;
  (** [vtkMRMLSRepNode::GetSRepBounds] *)
  GetSRepBounds : EllipticalSRep.t -> Bounds;
  (** [vtkSlicerSRepLogic::SmartInterpolateSRep] *)
  SmartInterpolateSRep : EllipticalSRep.t -> Z -> Result EllipticalSRep.t;
  (** [vtkImplicitPolyDataDistance::FunctionValue] *)
  FunctionValue : vtkPolyData -> Point3d.t -> R;
  (** the arrays "Maximum_Curvature" and "Minimum_Curvature" of
      [vtkCurvatures], when the filter makes them *)
  MaximumCurvature : vtkPolyData -> option (Z -> R);
  MinimumCurvature : vtkPolyData -> option (Z -> R);
  (** [vtkPointLocator::FindClosestPoint] *)
  FindClosestPoint : vtkPolyData -> Point3d.t -> Z;
  (** [Eigen::Matrix2d::inverse], and the two eigenvalues of
      [Eigen::SelfAdjointEigenSolver], the smaller first *)
  Eigen_inverse : Matrix2d -> Matrix2d;
  Eigen_eigenvalues : Matrix2d -> R * R;
  (** [min_newuoa(n, x, f, r_start, tol, max_iter)] *)
  min_newuoa : Z -> list R -> R -> R -> Z -> Search
}.

(** * The distance field and the coordinate transform *)

Module Fields.
Section WithExternals.
Context (E : Externals).

Definition Clamp (val min max : R) : R :=
  if Rltb val min then min else if Rgtb val max then max else val.

(** [size_t] arithmetic is modulo [2^64]. *)
Definition size_t (n : Z) : Z := (n mod 2 ^ 64)%Z.

Fixpoint Pow_loop (count : nat) (val ret : Z) : Z :=
  match count with
  | O => ret
  | S k => Pow_loop k val (size_t (ret * val))
  end.

Definition Pow (val exp : Z) : Z := Pow_loop (Z.to_nat exp) val 1%Z.

(** A [vtkMatrix4x4]. *)
Definition Matrix4x4 := nat -> nat -> R.
Definition Zero : Matrix4x4 := fun _ _ => 0.
Definition SetElement (i j : nat) (v : R) (m : Matrix4x4) : Matrix4x4 :=
  fun a b => if (a =? i)%nat && (b =? j)%nat then v else m a b.
Definition GetElement (m : Matrix4x4) (i j : nat) : R := m i j.
Definition MultiplyPoint (m : Matrix4x4) (p : R * R * R * R) : R * R * R * R :=
  let '(p0, p1, p2, p3) := p in
  (GetElement m 0 0 * p0 + GetElement m 0 1 * p1
   + GetElement m 0 2 * p2 + GetElement m 0 3 * p3,
   GetElement m 1 0 * p0 + GetElement m 1 1 * p1
   + GetElement m 1 2 * p2 + GetElement m 1 3 * p3,
   GetElement m 2 0 * p0 + GetElement m 2 1 * p1
   + GetElement m 2 2 * p2 + GetElement m 2 3 * p3,
   GetElement m 3 0 * p0 + GetElement m 3 1 * p1
   + GetElement m 3 2 * p2 + GetElement m 3 3 * p3).

Definition CreateBoundsToImageCoordsTransform (bounds : Bounds) : Matrix4x4 :=
  let xRange := b1 bounds - b0 bounds in
  let yRange := b3 bounds - b2 bounds in
  let zRange := b5 bounds - b4 bounds in
  let transfomedRanges :=
    if Rgeb xRange yRange && Rgeb xRange zRange then
      (1, yRange / xRange, zRange / xRange)
    else if Rgeb yRange xRange && Rgeb yRange zRange then
      (xRange / yRange, 1, zRange / yRange)
    else (xRange / zRange, yRange / zRange, 1) in
  let '(xRangeTrans, yRangeTrans, zRangeTrans) := transfomedRanges in
  let xOriginTrans := 0.5 - xRangeTrans / 2 in
  let yOriginTrans := 0.5 - yRangeTrans / 2 in
  let zOriginTrans := 0.5 - zRangeTrans / 2 in
  let mat := Zero in
  let mat := SetElement 0 0 (xRangeTrans / xRange) mat in
  let mat := SetElement 1 1 (yRangeTrans / yRange) mat in
  let mat := SetElement 2 2 (zRangeTrans / zRange) mat in
  let mat := SetElement 0 3 (xOriginTrans - xRangeTrans * b0 bounds / xRange) mat in
  let mat := SetElement 1 3 (yOriginTrans - yRangeTrans * b2 bounds / yRange) mat in
  let mat := SetElement 2 3 (zOriginTrans - zRangeTrans * b4 bounds / zRange) mat in
  SetElement 3 3 1 mat.

Definition ComputePolyDataToImageDataNewBounds (bounds : Bounds) : Bounds :=
  let range0 := b1 bounds - b0 bounds in
  let range1 := b3 bounds - b2 bounds in
  let range2 := b5 bounds - b4 bounds in
  let ratioYX := range1 / range0 in
  let ratioZX := range2 / range0 in
  let ratioZY := range2 / range1 in
  let newCenter0 := 0.5 in
  let newCenter1 := 0.5 in
  let newCenter2 := 0.5 in
  let newBounds := indeterminate E in
  if Rgeb range0 range1 && Rgeb range0 range2 then
    mkBounds 0 1
             (newCenter1 - 0.5 * ratioYX) (newCenter1 + 0.5 * ratioYX)
             (newCenter2 - 0.5 * ratioZX) (newCenter2 + 0.5 * ratioZX)
  else if Rgeb range1 range0 && Rgeb range1 range2 then
    mkBounds (newCenter0 - 0.5 / ratioYX) (newCenter0 + 0.5 / ratioYX)
             0 1
             (newCenter2 - 0.5 * ratioZY) (newCenter2 + 0.5 * ratioZY)
  else if Rgeb range2 range0 && Rgeb range2 range1 then
    mkBounds (newCenter0 - 0.5 / ratioZX) (newCenter0 + 0.5 / ratioZX)
             (newCenter1 - 0.5 / ratioZY) (newCenter1 + 0.5 / ratioZY)
             0 1
  else newBounds.

Definition ConvertPolyDataToImageData
    (polydata : option (vtkPolyData E)) (bounds : Bounds) (voxelSpacing : R)
  : Result (vtkImageData E) :=
  match polydata with
  | None =>
      Throw (invalid_argument
        "expected non null PolyData when converting PolyData to ImageData")
  | Some polydata =>
      let range0 := b1 bounds - b0 bounds in
      let range1 := b3 bounds - b2 bounds in
      let range2 := b5 bounds - b4 bounds in
      let newBounds := ComputePolyDataToImageDataNewBounds bounds in
      let rangeTransMesh0 := b1 newBounds - b0 newBounds in
      let rangeTransMesh1 := b3 newBounds - b2 newBounds in
      let rangeTransMesh2 := b5 newBounds - b4 newBounds in
      let newPts :=
        map (fun oldPt =>
               Point3d.mk
                 (rangeTransMesh0 * (Point3d.x oldPt - b0 bounds) / range0
                  + b0 newBounds)
                 (rangeTransMesh1 * (Point3d.y oldPt - b2 bounds) / range1
                  + b2 newBounds)
                 (rangeTransMesh2 * (Point3d.z oldPt - b4 bounds) / range2
                  + b4 newBounds))
            (GetPoints E polydata) in
      let spacing := voxelSpacing in
      let dim := trunc (1 / spacing) in
      let origin := Point3d.mk (b0 newBounds) (b2 newBounds) (b4 newBounds) in
      Ok (PolyDataToImageStencil E newPts polydata spacing dim origin)
  end.

(** An ITK exception is thrown again with a longer description. *)
Definition rethrow_described {A} (prefix : string) (r : Result A) : Result A :=
  match r with
  | Ok a => Ok a
  | Throw (foreign_exception what) =>
      Throw (foreign_exception (prefix ++ what))
  | Throw e => Throw e
  end.

Definition CreateApproximateSignedDistanceMap (input : vtkImageData E)
  : Result RealImage :=
  rethrow_described "Error creating ApproximateSignedDistanceMap: "
    (ApproximateSignedDistanceMap E input).

Definition CreateGradientDistanceFilter (image : RealImage) : Result VectorImage :=
  rethrow_described "Error creating GradientDistanceFilter: "
    (GradientImage E image).

Definition CreateAntiAliasSignedDistanceMap
    (polyData : option (vtkPolyData E)) (bounds : Bounds) (voxelSpacing : R)
  : Result SDFAndGradient :=
  imageData <- ConvertPolyDataToImageData polyData bounds voxelSpacing ;;
  antiAliasedSDFImage <- CreateApproximateSignedDistanceMap imageData ;;
  gradDistFilter <- CreateGradientDistanceFilter antiAliasedSDFImage ;;
  ret (antiAliasedSDFImage, gradDistFilter).

Definition ComputeMasterBounds
    (polyData : option (vtkPolyData E)) (srep : EllipticalSRep.t)
  : Result Bounds :=
  match polyData with
  | None => Throw (invalid_argument "Expected existing polydata for computing bounds")
  | Some polyData =>
      let srepBounds := GetSRepBounds E srep in
      let polyDataBounds := GetBounds E polyData in
      Ok (mkBounds
            (Rmin (b0 srepBounds) (b0 polyDataBounds))
            (Rmax (b1 srepBounds) (b1 polyDataBounds))
            (Rmin (b2 srepBounds) (b2 polyDataBounds))
            (Rmax (b3 srepBounds) (b3 polyDataBounds))
            (Rmin (b4 srepBounds) (b4 polyDataBounds))
            (Rmax (b5 srepBounds) (b5 polyDataBounds)))
  end.

End WithExternals.
End Fields.

(** * The refiner: [class Refiner] *)

Module Refiner.
Section WithExternals.
Context (E : Externals).

Definition SpokeType := SkeletalPoint.SpokeOrientation.
Definition IndexType := Z.

(** [std::vector<double>* m_currentCoeff]: null, or one of the two vectors. *)
Inductive CoeffRef := null_coeff | ref_flattenedUpCoeff | ref_flattenedDownCoeff.

(** [std::function<void(double)>]. *)
Definition ProgressCallbackFunction := R -> Result unit.

(** The members of [Refiner], in their order.  [m_polyData] is not null: the
    constructor throws before it builds anything from a null pointer.
    [reported] is not a member: it lists the values [m_progressCallback]
    has been called with, the oldest first. *)
Record t := mk {
  m_voxelSpacing : R;
  m_polyData : vtkPolyData E;
  m_srep : EllipticalSRep.t;
  m_masterBounds : Bounds;
  m_sdfAndGradient : SDFAndGradient;
  m_srepToImageCoordsTransform : Fields.Matrix4x4;
  m_flattenedUpCoeff : list R;
  m_flattenedDownCoeff : list R;
  m_initialRegionSize : R;
  m_finalRegionSize : R;
  m_maxIterations : Z;
  m_interpolationLevel : Z;
  m_currentCoeff : CoeffRef;
  m_L0Weight : R;
  m_L1Weight : R;
  m_L2Weight : R;
  m_iteration : Z;
  m_totalProgressIterations : Z;
  m_progressCallback : option ProgressCallbackFunction;
  reported : list R
}.

Definition set_m_srep (v : EllipticalSRep.t) (r : t) : t :=
  mk (m_voxelSpacing r) (m_polyData r) v (m_masterBounds r)
     (m_sdfAndGradient r) (m_srepToImageCoordsTransform r)
     (m_flattenedUpCoeff r) (m_flattenedDownCoeff r) (m_initialRegionSize r)
     (m_finalRegionSize r) (m_maxIterations r) (m_interpolationLevel r)
     (m_currentCoeff r) (m_L0Weight r) (m_L1Weight r) (m_L2Weight r)
     (m_iteration r) (m_totalProgressIterations r) (m_progressCallback r)
     (reported r).

Definition set_m_flattenedUpCoeff (v : list R) (r : t) : t :=
  mk (m_voxelSpacing r) (m_polyData r) (m_srep r) (m_masterBounds r)
     (m_sdfAndGradient r) (m_srepToImageCoordsTransform r)
     v (m_flattenedDownCoeff r) (m_initialRegionSize r)
     (m_finalRegionSize r) (m_maxIterations r) (m_interpolationLevel r)
     (m_currentCoeff r) (m_L0Weight r) (m_L1Weight r) (m_L2Weight r)
     (m_iteration r) (m_totalProgressIterations r) (m_progressCallback r)
     (reported r).

Definition set_m_flattenedDownCoeff (v : list R) (r : t) : t :=
  mk (m_voxelSpacing r) (m_polyData r) (m_srep r) (m_masterBounds r)
     (m_sdfAndGradient r) (m_srepToImageCoordsTransform r)
     (m_flattenedUpCoeff r) v (m_initialRegionSize r)
     (m_finalRegionSize r) (m_maxIterations r) (m_interpolationLevel r)
     (m_currentCoeff r) (m_L0Weight r) (m_L1Weight r) (m_L2Weight r)
     (m_iteration r) (m_totalProgressIterations r) (m_progressCallback r)
     (reported r).

Definition set_m_currentCoeff (v : CoeffRef) (r : t) : t :=
  mk (m_voxelSpacing r) (m_polyData r) (m_srep r) (m_masterBounds r)
     (m_sdfAndGradient r) (m_srepToImageCoordsTransform r)
     (m_flattenedUpCoeff r) (m_flattenedDownCoeff r) (m_initialRegionSize r)
     (m_finalRegionSize r) (m_maxIterations r) (m_interpolationLevel r)
     v (m_L0Weight r) (m_L1Weight r) (m_L2Weight r)
     (m_iteration r) (m_totalProgressIterations r) (m_progressCallback r)
     (reported r).

Definition set_m_iteration (v : Z) (r : t) : t :=
  mk (m_voxelSpacing r) (m_polyData r) (m_srep r) (m_masterBounds r)
     (m_sdfAndGradient r) (m_srepToImageCoordsTransform r)
     (m_flattenedUpCoeff r) (m_flattenedDownCoeff r) (m_initialRegionSize r)
     (m_finalRegionSize r) (m_maxIterations r) (m_interpolationLevel r)
     (m_currentCoeff r) (m_L0Weight r) (m_L1Weight r) (m_L2Weight r)
     v (m_totalProgressIterations r) (m_progressCallback r)
     (reported r).

Definition set_m_progressCallback (v : option ProgressCallbackFunction) (r : t)
  : t :=
  mk (m_voxelSpacing r) (m_polyData r) (m_srep r) (m_masterBounds r)
     (m_sdfAndGradient r) (m_srepToImageCoordsTransform r)
     (m_flattenedUpCoeff r) (m_flattenedDownCoeff r) (m_initialRegionSize r)
     (m_finalRegionSize r) (m_maxIterations r) (m_interpolationLevel r)
     (m_currentCoeff r) (m_L0Weight r) (m_L1Weight r) (m_L2Weight r)
     (m_iteration r) (m_totalProgressIterations r) v
     (reported r).

Definition set_reported (v : list R) (r : t) : t :=
  mk (m_voxelSpacing r) (m_polyData r) (m_srep r) (m_masterBounds r)
     (m_sdfAndGradient r) (m_srepToImageCoordsTransform r)
     (m_flattenedUpCoeff r) (m_flattenedDownCoeff r) (m_initialRegionSize r)
     (m_finalRegionSize r) (m_maxIterations r) (m_interpolationLevel r)
     (m_currentCoeff r) (m_L0Weight r) (m_L1Weight r) (m_L2Weight r)
     (m_iteration r) (m_totalProgressIterations r) (m_progressCallback r)
     v.

(** A method of the refiner. *)
Definition M (A : Type) : Type := St t A.

Definition Unit (v : Vector3d.t) : Result Vector3d.t :=
  Vector3d.Unit (UnitOfZero E) v.

(** [double*]: the array behind the pointer, by index; past the end of a
    vector the content is not the program's, and reads as zero here. *)
Definition data (v : list R) : nat -> R := fun i => nth i v 0.

(** A method of a spoke, called through a reference to it. *)
Definition SetRadius (radius : R) : St Spoke.t unit :=
  fun spoke =>
    match Spoke.SetRadius (UnitOfZero E) radius spoke with
    | Ok spoke' => (Ok tt, spoke')
    | Throw e => (Throw e, spoke)
    end.

(** [auto& spoke = *skeletalPoint->GetCrestSpoke();] and what follows on
    [spoke]: the method runs on the crest spoke of the skeletal point at
    [(l, s)], and the grid holds the spoke it leaves. *)
Definition on_crest_spoke {A} (l s : IndexType) (body : St Spoke.t A) : M A :=
  fun r =>
    match EllipticalSRep.GetSkeletalPoint (m_srep r) l s with
    | Throw e => (Throw e, r)
    | Ok skeletalPoint =>
        match SkeletalPoint.GetSpoke skeletalPoint SkeletalPoint.CrestOrientation with
        | Throw e => (Throw e, r)
        | Ok spoke =>
            let '(a, spoke') := body spoke in
            (a, set_m_srep
                  (EllipticalSRep.update l s
                     (SkeletalPoint.SetSpoke SkeletalPoint.CrestOrientation spoke')
                     (m_srep r)) r)
        end
    end.

Definition SetProgressCallback (f : option ProgressCallbackFunction) (r : t) : t :=
  set_m_progressCallback f r.

Definition ReportProgress : M unit :=
  callback <- gets m_progressCallback ;;
  match callback with
  | Some f =>
      iteration <- gets m_iteration ;;
      total <- gets m_totalProgressIterations ;;
      let progress := IZR iteration / IZR total in
      modify (fun r => set_reported (reported r ++ [progress]) r) ;;
      lift (f progress)
  | None => ret tt
  end.

Definition IncrementIteration : M unit :=
  modify (fun r => set_m_iteration (to_int (m_iteration r + 1)) r) ;;
  ReportProgress.

(** The loop of [OptimizeCrestSpokeLengths] on one spoke: [count] is what
    is left of [maxIter], and [break] ends the loop. *)
Fixpoint crest_length_loop (polyData : vtkPolyData E) (epsilon : R)
    (count : nat) (dist oldDist thisStepSize : R) : St Spoke.t unit :=
  match count with
  | O => ret tt
  | S count' =>
      if Rleb (Rabs dist) epsilon then ret tt
      else
        radius <- gets Spoke.GetRadius ;;
        (if Rgtb dist 0 then
           (* if spoke is too long, shorten it *)
           SetRadius (radius - thisStepSize)
         else
           (* if spoke is too short, make it larger *)
           SetRadius (radius + thisStepSize)) ;;
        boundary <- gets Spoke.GetBoundaryPoint ;;
        let dist := FunctionValue E polyData boundary in
        let thisStepSize :=
          if Rltb (oldDist * dist) 0 then thisStepSize / 10 else thisStepSize in
        let oldDist := dist in
        crest_length_loop polyData epsilon count' dist oldDist thisStepSize
  end.

(** What [OptimizeCrestSpokeLengths] does to one crest spoke. *)
Definition optimize_crest_spoke (polyData : vtkPolyData E) (epsilon : R)
    (stepSize : R) (maxIter : Z) : St Spoke.t unit :=
  boundary <- gets Spoke.GetBoundaryPoint ;;
  let dist := FunctionValue E polyData boundary in
  let oldDist := dist in
  let thisStepSize := stepSize in
  crest_length_loop polyData epsilon (Z.to_nat maxIter) dist oldDist thisStepSize.

Definition GetSkeletalPoint (l s : IndexType) : M SkeletalPoint.t :=
  srep <- gets m_srep ;;
  lift (EllipticalSRep.GetSkeletalPoint srep l s).

(** The two loops of the crest stage, over every skeletal point of
    [m_srep], have one shape: a crest point counts as one iteration, and
    [body] runs on its crest spoke. *)
Definition for_each_crest_spoke (body : St Spoke.t unit) : M unit :=
  numLines <- gets (fun r => EllipticalSRep.GetNumberOfLines (m_srep r)) ;;
  for_upto numLines (fun l =>
    numSteps <- gets (fun r => EllipticalSRep.GetNumberOfSteps (m_srep r)) ;;
    for_upto numSteps (fun s =>
      skeletalPoint <- GetSkeletalPoint l s ;;
      if SkeletalPoint.IsCrest skeletalPoint then
        IncrementIteration ;;
        (* get spoke by reference so we can update *)
        on_crest_spoke l s body
      else ret tt)).

(** [maxIter] is a [size_t]. *)
Definition OptimizeCrestSpokeLengths (stepSize : R) (maxIter : Z) : M unit :=
  let epsilon := 1e-5 in
  polyData <- gets m_polyData ;;
  for_each_crest_spoke (optimize_crest_spoke polyData epsilon stepSize maxIter).

(** What the second loop of [RefineCrestSpokes] does to one crest spoke.
    [rCrest] is [+inf] when both curvatures are zero: [rDiff] is then
    [-inf], and the spoke is left as it is. *)
Definition correct_crest_spoke (polyData : vtkPolyData E) (maxC minC : Z -> R)
  : St Spoke.t unit :=
  boundary <- gets Spoke.GetBoundaryPoint ;;
  let idNearest := FindClosestPoint E polyData boundary in
  let curMax := maxC idNearest in
  let curMin := minC idNearest in
  match one_over (Rmax (Rabs curMax) (Rabs curMin)) with
  | PlusInfinity => ret tt
  | Finite rCrest =>
      radius <- gets Spoke.GetRadius ;;
      let rDiff := radius - rCrest in
      if Rleb rDiff 0 then ret tt
      else
        (* move skeletal point of this crest outward by rDiff *)
        direction <- gets Spoke.GetDirection ;;
        unitDir <- lift (Unit direction) ;;
        skeletalPoint <- gets Spoke.GetSkeletalPoint ;;
        modify (Spoke.SetSkeletalPoint
                  (Point3d.mk
                     (Point3d.x skeletalPoint + Vector3d.x unitDir * rDiff)
                     (Point3d.y skeletalPoint + Vector3d.y unitDir * rDiff)
                     (Point3d.z skeletalPoint + Vector3d.z unitDir * rDiff))) ;;
        SetRadius rCrest
  end.

(** The second loop of [RefineCrestSpokes]. *)
Definition correct_crest_spokes (maxC minC : Z -> R) : M unit :=
  polyData <- gets m_polyData ;;
  for_each_crest_spoke (correct_crest_spoke polyData maxC minC).

Definition RefineCrestSpokes : M unit :=
  initialRegionSize <- gets m_initialRegionSize ;;
  maxIterations <- gets m_maxIterations ;;
  OptimizeCrestSpokeLengths initialRegionSize (Fields.size_t maxIterations) ;;
  polyData <- gets m_polyData ;;
  match MaximumCurvature E polyData with
  | None => throw (runtime_error "Error getting max curvature")
  | Some maxC =>
      match MinimumCurvature E polyData with
      | None => throw (runtime_error "Error getting min curvature")
      | Some minC => correct_crest_spokes maxC minC
      end
  end.

(** [exp(coeff) * oldRadius], over the arithmetic it is evaluated in: [mul]
    and [exp] are the product and the exponential of that arithmetic. *)
Definition newRadius_in {A : Type} (mul : A -> A -> A) (exp : A -> A)
    (coeff oldRadius : A) : A :=
  mul (exp coeff) oldRadius.

(** The body of the loops of [Refine], on the spoke it is given: [c] is the
    index of its first coefficient. *)
Definition refine_spoke (tolerance : R) (coeff : nat -> R) (c : nat)
    (spoke : Spoke.t) : Result Spoke.t :=
  let oldRadius := Spoke.GetRadius spoke in
  oldUnitDir <- Unit (Spoke.GetDirection spoke) ;;
  let newUnitDir := Vector3d.mk (coeff c) (coeff (c + 1)%nat) (coeff (c + 2)%nat) in
  let newRadius := newRadius_in Rmult exp (coeff (c + 3)%nat) oldRadius in
  if Rgeb (Rabs (oldRadius - newRadius)) tolerance
     || Rgeb (Rabs (Vector3d.x oldUnitDir - Vector3d.x newUnitDir)) tolerance
     || Rgeb (Rabs (Vector3d.y oldUnitDir - Vector3d.y newUnitDir)) tolerance
     || Rgeb (Rabs (Vector3d.z oldUnitDir - Vector3d.z newUnitDir)) tolerance
  then
    ret (Spoke.SetDirectionAndMagnitude (Vector3d.mul newUnitDir newRadius) spoke)
  else ret spoke.

(** this temporary srep is constructed to compute the cost function value;
    the original srep should not be changed by each iteration.  The state
    of the loops is the clone and the coefficient index [c]. *)
Definition Refine (srep : EllipticalSRep.t) (coeff : nat -> R)
    (spokeType : SpokeType) : Result EllipticalSRep.t :=
  let tolerance := 1e-13 in
  let clone := EllipticalSRep.SmartClone srep in
  match spokeType with
  | SkeletalPoint.UpOrientation | SkeletalPoint.DownOrientation =>
      let loops : St (EllipticalSRep.t * nat) unit :=
        for_upto (EllipticalSRep.GetNumberOfLines clone) (fun l =>
          for_upto (EllipticalSRep.GetNumberOfSteps clone) (fun s =>
            clone <- gets fst ;;
            c <- gets snd ;;
            skeletalPoint <- lift (EllipticalSRep.GetSkeletalPoint clone l s) ;;
            spoke <- lift (SkeletalPoint.GetSpoke skeletalPoint spokeType) ;;
            spoke' <- lift (refine_spoke tolerance coeff c spoke) ;;
            modify (fun st =>
              (EllipticalSRep.update l s
                 (SkeletalPoint.SetSpoke spokeType spoke') (fst st),
               (snd st + 4)%nat)))) in
      match loops (clone, 0%nat) with
      | (Ok _, (clone, _)) => Ok clone
      | (Throw e, _) => Throw e
      end
  | SkeletalPoint.CrestOrientation =>
      Throw (invalid_argument "Don't know how to refine spoke of type 2")
  end.

(** [vtkMath::Normalize] and [vtkMath::Dot]. *)
Definition Normalize (v : Vector3d.t) : Vector3d.t :=
  let den := Vector3d.GetLength v in
  if Reqb den 0 then v else Vector3d.div v den.
Definition Dot (a b : Vector3d.t) : R :=
  Vector3d.x a * Vector3d.x b + Vector3d.y a * Vector3d.y b
  + Vector3d.z a * Vector3d.z b.

(** The state of the loops is the pair of the two totals. *)
Definition ComputeDistanceSquaredAndNormalToImage (this : t)
    (srep : EllipticalSRep.t) (spokeType : SpokeType) : Result (R * R) :=
  let totalDistSquared := 0 in
  let totalNormalPenalty := 0 in
  let loops : St (R * R) unit :=
    for_upto (EllipticalSRep.GetNumberOfLines srep) (fun l =>
      for_upto (EllipticalSRep.GetNumberOfSteps srep) (fun s =>
        skeletalPoint <- lift (EllipticalSRep.GetSkeletalPoint srep l s) ;;
        spoke <- lift (SkeletalPoint.GetSpoke skeletalPoint spokeType) ;;
        let boundaryPoint := Spoke.GetBoundaryPoint spoke in
        (* transform boundary to image coordinate system *)
        let boundaryArray :=
          (Point3d.x boundaryPoint, Point3d.y boundaryPoint,
           Point3d.z boundaryPoint, 1) in
        let '(t0, t1, t2, _) :=
          Fields.MultiplyPoint (m_srepToImageCoordsTransform this) boundaryArray in
        (* convert image coordinate system of [0,1] to index into image *)
        let maxIndex := (lround (1 / m_voxelSpacing this) - 1)%Z in
        let x := trunc (Fields.Clamp (IZR (lround (t0 / m_voxelSpacing this)))
                          0 (IZR maxIndex)) in
        let y := trunc (Fields.Clamp (IZR (lround (t1 / m_voxelSpacing this)))
                          0 (IZR maxIndex)) in
        let z := trunc (Fields.Clamp (IZR (lround (t2 / m_voxelSpacing this)))
                          0 (IZR maxIndex)) in
        let dist := fst (m_sdfAndGradient this) x y z in
        let distSquared := dist * dist in
        let grad := snd (m_sdfAndGradient this) x y z in
        (* normalize the normal vector *)
        let normalVector := Normalize grad in
        spokeDirection <- lift (Unit (Spoke.GetDirection spoke)) ;;
        let dotProduct := Dot normalVector spokeDirection in
        modify (fun totals =>
          (fst totals + distSquared,
           snd totals + distSquared * (1 - dotProduct))))) in
  match loops (totalDistSquared, totalNormalPenalty) with
  | (Ok _, totals) => Ok totals
  | (Throw e, _) => Throw e
  end.

(** The six outputs of [ComputeRSradDerivatives]. *)
Record RSradDerivatives := mkRSradDerivatives {
  dxdu : Vector3d.t; dSdu : Vector3d.t; drdu : R;
  dxdv : Vector3d.t; dSdv : Vector3d.t; drdv : R
}.

Definition GetSpokeAt (srep : EllipticalSRep.t) (line step : IndexType)
    (spokeType : SpokeType) : Result Spoke.t :=
  skeletalPoint <- EllipticalSRep.GetSkeletalPoint srep line step ;;
  SkeletalPoint.GetSpoke skeletalPoint spokeType.

Definition ComputeRSradDerivatives (this : t)
    (interpolatedSRep : EllipticalSRep.t) (spokeType : SpokeType)
    (line step : IndexType) : Result RSradDerivatives :=
  let density := Fields.Pow 2 (Fields.size_t (m_interpolationLevel this)) in
  let stepSize := 1 / IZR density in
  let numLines := EllipticalSRep.GetNumberOfLines interpolatedSRep in
  let numSteps := EllipticalSRep.GetNumberOfSteps interpolatedSRep in
  (* U direction *)
  let prevLine := ((numLines + line - 1) mod numLines)%Z in
  let nextLine := ((numLines + line + 1) mod numLines)%Z in
  u1 <- GetSpokeAt interpolatedSRep prevLine step spokeType ;;
  u2 <- GetSpokeAt interpolatedSRep nextLine step spokeType ;;
  let drdu := (Spoke.GetRadius u2 - Spoke.GetRadius u1) / stepSize / 2 in
  u2Unit <- Unit (Spoke.GetDirection u2) ;;
  u1Unit <- Unit (Spoke.GetDirection u1) ;;
  let dxdu := Vector3d.div (Vector3d.div (Vector3d.sub u2Unit u1Unit) stepSize) 2 in
  let dSdu :=
    Vector3d.div
      (Vector3d.div (Vector3d.sub (Spoke.GetDirection u2) (Spoke.GetDirection u1))
         stepSize) 2 in
  (* V direction *)
  let prevStep := if (step =? 0)%Z then 0%Z else (step - 1)%Z in
  let nextStep := if (step =? numSteps - 1)%Z then (numSteps - 1)%Z else (step + 1)%Z in
  let divisor := if (prevStep =? step)%Z || (nextStep =? step)%Z then 1 else 2 in
  v1 <- GetSpokeAt interpolatedSRep line prevStep spokeType ;;
  v2 <- GetSpokeAt interpolatedSRep line nextStep spokeType ;;
  let drdv := (Spoke.GetRadius v2 - Spoke.GetRadius v1) / stepSize / divisor in
  v2Unit <- Unit (Spoke.GetDirection v2) ;;
  v1Unit <- Unit (Spoke.GetDirection v1) ;;
  let dxdv :=
    Vector3d.div (Vector3d.div (Vector3d.sub v2Unit v1Unit) stepSize) divisor in
  let dSdv :=
    Vector3d.div
      (Vector3d.div (Vector3d.sub (Spoke.GetDirection v2) (Spoke.GetDirection v1))
         stepSize) divisor in
  ret (mkRSradDerivatives dxdu dSdu drdu dxdv dSdv drdv).

(** The term one primary spoke adds to the penalty. *)
Definition rSrad_term (this : t) (interpolatedSRep : EllipticalSRep.t)
    (spokeType : SpokeType) (ii jj : IndexType) : Result R :=
  (* u is line-to-line direction, v is step-to-step direction *)
  d <- ComputeRSradDerivatives this interpolatedSRep spokeType ii jj ;;
  spoke <- GetSpokeAt interpolatedSRep ii jj spokeType ;;
  U <- Unit (Spoke.GetDirection spoke) ;;
  let U0 := Vector3d.x U in
  let U1 := Vector3d.y U in
  let U2 := Vector3d.z U in
  (* 2. construct rSrad Matrix: UT*U - I *)
  let UTU00 := U0 * U0 - 1 in
  let UTU01 := U0 * U1 in
  let UTU02 := U0 * U2 in
  let UTU10 := U1 * U0 in
  let UTU11 := U1 * U1 - 1 in
  let UTU12 := U1 * U2 in
  let UTU20 := U2 * U0 in
  let UTU21 := U2 * U1 in
  let UTU22 := U2 * U2 - 1 in
  let du0 := Vector3d.x (dxdu d) in
  let du1 := Vector3d.y (dxdu d) in
  let du2 := Vector3d.z (dxdu d) in
  let dv0 := Vector3d.x (dxdv d) in
  let dv1 := Vector3d.y (dxdv d) in
  let dv2 := Vector3d.z (dxdv d) in
  let Q00 := du0 * UTU00 + du1 * UTU10 + du2 * UTU20 in
  let Q01 := du0 * UTU01 + du1 * UTU11 + du2 * UTU21 in
  let Q02 := du0 * UTU02 + du1 * UTU12 + du2 * UTU22 in
  let Q10 := dv0 * UTU00 + dv1 * UTU10 + dv2 * UTU20 in
  let Q11 := dv0 * UTU01 + dv1 * UTU11 + dv2 * UTU21 in
  let Q12 := dv0 * UTU02 + dv1 * UTU12 + dv2 * UTU22 in
  let leftSide00 := Vector3d.x (dSdu d) - drdu d * U0 in
  let leftSide01 := Vector3d.y (dSdu d) - drdu d * U1 in
  let leftSide02 := Vector3d.z (dSdu d) - drdu d * U2 in
  let leftSide10 := Vector3d.x (dSdv d) - drdv d * U0 in
  let leftSide11 := Vector3d.y (dSdv d) - drdv d * U1 in
  let leftSide12 := Vector3d.z (dSdv d) - drdv d * U2 in
  (* QQT = Q * Q.transpose() *)
  let QQT :=
    mkMatrix2d (Q00 * Q00 + Q01 * Q01 + Q02 * Q02)
               (Q00 * Q10 + Q01 * Q11 + Q02 * Q12)
               (Q10 * Q00 + Q11 * Q01 + Q12 * Q02)
               (Q10 * Q10 + Q11 * Q11 + Q12 * Q12) in
  let QQT_inv := Eigen_inverse E QQT in
  (* rightSide = Q.transpose() * QQT_inv *)
  let rightSide00 := Q00 * m00 QQT_inv + Q10 * m10 QQT_inv in
  let rightSide01 := Q00 * m01 QQT_inv + Q10 * m11 QQT_inv in
  let rightSide10 := Q01 * m00 QQT_inv + Q11 * m10 QQT_inv in
  let rightSide11 := Q01 * m01 QQT_inv + Q11 * m11 QQT_inv in
  let rightSide20 := Q02 * m00 QQT_inv + Q12 * m10 QQT_inv in
  let rightSide21 := Q02 * m01 QQT_inv + Q12 * m11 QQT_inv in
  (* rSradMat = leftSide * rightSide, then transposed in place *)
  let rSrad00 :=
    leftSide00 * rightSide00 + leftSide01 * rightSide10 + leftSide02 * rightSide20 in
  let rSrad01 :=
    leftSide00 * rightSide01 + leftSide01 * rightSide11 + leftSide02 * rightSide21 in
  let rSrad10 :=
    leftSide10 * rightSide00 + leftSide11 * rightSide10 + leftSide12 * rightSide20 in
  let rSrad11 :=
    leftSide10 * rightSide01 + leftSide11 * rightSide11 + leftSide12 * rightSide21 in
  let rSradMat := mkMatrix2d rSrad00 rSrad10 rSrad01 rSrad11 in
  (* 3. compute rSrad penalty *)
  let maxEigen := snd (Eigen_eigenvalues E rSradMat) in
  ret (Rmax 0 (maxEigen - 1)).

(** Uses the interpolated SRep and m_interpolationLevel to know which spokes
    are primary.  The state of the loops is the penalty. *)
Definition ComputeRSradPenalty (this : t) (interpolatedSRep : EllipticalSRep.t)
    (spokeType : SpokeType) : Result R :=
  if EllipticalSRep.IsEmpty interpolatedSRep then Ok 0
  else
    let penalty := 0 in
    let density := Fields.Pow 2 (Fields.size_t (m_interpolationLevel this)) in
    let numLines := (EllipticalSRep.GetNumberOfLines interpolatedSRep / density)%Z in
    let numSteps := (EllipticalSRep.GetNumberOfSteps interpolatedSRep / density)%Z in
    let loops : St R unit :=
      for_upto numLines (fun i =>
        let ii := Fields.size_t (i * density) in
        for_upto numSteps (fun j =>
          let jj := Fields.size_t (j * density) in
          term <- lift (rSrad_term this interpolatedSRep spokeType ii jj) ;;
          modify (fun penalty => penalty + term))) in
    match loops penalty with
    | (Ok _, penalty) => Ok penalty
    | (Throw e, _) => Throw e
    end.

(** this function cannot throw because it will cause a memory leak in
    min_newuoa.  The two [catch] clauses return the same value, and are one
    handler here; what is printed is left out. *)
Definition EvaluateObjectiveFunction (coeff : nat -> R) (spokeType : SpokeType)
  : M R :=
  try_catch
    (srep <- gets m_srep ;;
     tempSRep <- lift (Refine srep coeff spokeType) ;;
     interpolationLevel <- gets m_interpolationLevel ;;
     interpolatedTempSRep <-
       lift (SmartInterpolateSRep E tempSRep interpolationLevel) ;;
     this <- get ;;
     L0AndL1 <-
       lift (ComputeDistanceSquaredAndNormalToImage this interpolatedTempSRep
               spokeType) ;;
     let distanceSquared := fst L0AndL1 in (* L0 *)
     let normalPenalty := snd L0AndL1 in (* L1 *)
     srad <- lift (ComputeRSradPenalty this interpolatedTempSRep spokeType) ;; (* L2 *)
     let val :=
       distanceSquared * m_L0Weight this + normalPenalty * m_L1Weight this
       + srad * m_L2Weight this in
     IncrementIteration ;;
     ret val)
    (fun _ => ret 1e10).

(** The vector [m_currentCoeff] points to, and the write through it. *)
Definition current_coeff (r : t) : list R :=
  match m_currentCoeff r with
  | ref_flattenedUpCoeff => m_flattenedUpCoeff r
  | ref_flattenedDownCoeff => m_flattenedDownCoeff r
  | null_coeff => []
  end.

Definition write_current_coeff (x : list R) (r : t) : t :=
  match m_currentCoeff r with
  | ref_flattenedUpCoeff => set_m_flattenedUpCoeff x r
  | ref_flattenedDownCoeff => set_m_flattenedDownCoeff x r
  | null_coeff => r
  end.

(** [min_newuoa] at work: it writes each point it tries in the caller's
    array and calls the objective on that array; it leaves its result
    there. *)
Fixpoint run_search (search : Search) (f : (nat -> R) -> M R) : M unit :=
  match search with
  | Finish x => modify (write_current_coeff x)
  | Probe x next =>
      modify (write_current_coeff x) ;;
      v <- f (data x) ;;
      run_search (next v) f
  end.

Definition RefineUpDownSpokes (spokeType : SpokeType) : M unit :=
  modify (set_m_currentCoeff
            match spokeType with
            | SkeletalPoint.UpOrientation => ref_flattenedUpCoeff
            | _ => ref_flattenedDownCoeff
            end) ;;
  coeff <- gets current_coeff ;;
  initialRegionSize <- gets m_initialRegionSize ;;
  finalRegionSize <- gets m_finalRegionSize ;;
  maxIterations <- gets m_maxIterations ;;
  run_search
    (min_newuoa E (Z.of_nat (length coeff)) coeff initialRegionSize
       finalRegionSize maxIterations)
    (fun coeff => EvaluateObjectiveFunction coeff spokeType) ;;
  (* note: only the "spokeType" spokes are refined *)
  srep <- gets m_srep ;;
  coeff <- gets current_coeff ;;
  refinedSRep <- lift (Refine srep (data coeff) spokeType) ;;
  (if negb (EllipticalSRep.GetNumberOfLines srep
            =? EllipticalSRep.GetNumberOfLines refinedSRep)%Z
   then throw (runtime_error "Error: expected equal number of lines")
   else ret tt) ;;
  (if negb (EllipticalSRep.GetNumberOfSteps srep
            =? EllipticalSRep.GetNumberOfSteps refinedSRep)%Z
   then throw (runtime_error "Error: expected equal number of steps")
   else ret tt) ;;
  numLines <- gets (fun r => EllipticalSRep.GetNumberOfLines (m_srep r)) ;;
  for_upto numLines (fun l =>
    numSteps <- gets (fun r => EllipticalSRep.GetNumberOfSteps (m_srep r)) ;;
    for_upto numSteps (fun s =>
      (* shallow copy the spoke, but that is ok because refinedSRep will go
         away and m_srep will be sole owner *)
      refinedSpoke <- lift (GetSpokeAt refinedSRep l s spokeType) ;;
      _ <- GetSkeletalPoint l s ;;
      modify (fun r =>
        set_m_srep
          (EllipticalSRep.update l s
             (SkeletalPoint.SetSpoke spokeType refinedSpoke) (m_srep r)) r))).

Definition RefineSpokes (spokeType : SpokeType) : M unit :=
  match spokeType with
  | SkeletalPoint.CrestOrientation => RefineCrestSpokes
  | _ => RefineUpDownSpokes spokeType
  end.

(** WARNING: don't call this more than once *)
Definition Run : M EllipticalSRep.t :=
  empty <- gets (fun r => EllipticalSRep.IsEmpty (m_srep r)) ;;
  (if negb empty then
     modify (set_m_iteration 0%Z) ;; ReportProgress ;;
     RefineSpokes SkeletalPoint.UpOrientation ;;
     modify (fun r => set_m_iteration (to_int (1 * m_maxIterations r)) r) ;;
     ReportProgress ;;
     RefineSpokes SkeletalPoint.DownOrientation ;;
     modify (fun r => set_m_iteration (to_int (2 * m_maxIterations r)) r) ;;
     ReportProgress ;;
     RefineSpokes SkeletalPoint.CrestOrientation ;;
     modify (fun r => set_m_iteration (m_totalProgressIterations r) r)
   else ret tt) ;;
  gets m_srep.

Definition GetInitialCoefficients : M unit :=
  numLines <- gets (fun r => EllipticalSRep.GetNumberOfLines (m_srep r)) ;;
  numSteps <- gets (fun r => EllipticalSRep.GetNumberOfSteps (m_srep r)) ;;
  for_upto numLines (fun l =>
    for_upto numSteps (fun s =>
      skeletalPoint <- GetSkeletalPoint l s ;;
      upUnitDir <-
        lift (Unit (Spoke.GetDirection (SkeletalPoint.GetUpSpoke skeletalPoint))) ;;
      modify (fun r =>
        set_m_flattenedUpCoeff
          (m_flattenedUpCoeff r
           ++ [Vector3d.x upUnitDir; Vector3d.y upUnitDir; Vector3d.z upUnitDir;
               0 (* initial radius starts at 0 *)]) r) ;;
      skeletalPoint <- GetSkeletalPoint l s ;;
      downUnitDir <-
        lift (Unit (Spoke.GetDirection (SkeletalPoint.GetDownSpoke skeletalPoint))) ;;
      modify (fun r =>
        set_m_flattenedDownCoeff
          (m_flattenedDownCoeff r
           ++ [Vector3d.x downUnitDir; Vector3d.y downUnitDir;
               Vector3d.z downUnitDir; 0]) r))).

End WithExternals.
End Refiner.

(** * The entry points: [RefineSRep] and [vtkSlicerSRepRefinementLogic::Run] *)

(** What a run leaves outside the refiner.  [fieldBuilds] counts the calls
    of [CreateAntiAliasSignedDistanceMap]; [progressEvents] lists the
    values of the progress events, the oldest first; [errorLog] is what
    [vtkErrorMacro] printed; [destination] is the s-rep of the destination
    node. *)
Record World := mkWorld {
  fieldBuilds : nat;
  progressEvents : list R;
  errorLog : list string;
  destination : option EllipticalSRep.t
}.

Module Logic.
Section WithExternals.
Context (E : Externals).

(** The observers of [vtkCommand::ProgressEvent]. *)
Context (InvokeProgressEvent : R -> Result unit).

Definition count_field_build (w : World) : World :=
  mkWorld (S (fieldBuilds w)) (progressEvents w) (errorLog w) (destination w).
Definition add_progressEvents (l : list R) (w : World) : World :=
  mkWorld (fieldBuilds w) (progressEvents w ++ l) (errorLog w) (destination w).
Definition vtkErrorMacro (message : string) (w : World) : World :=
  mkWorld (fieldBuilds w) (progressEvents w) (errorLog w ++ [message])
          (destination w).
Definition SetEllipticalSRep (srep : EllipticalSRep.t) (w : World) : World :=
  mkWorld (fieldBuilds w) (progressEvents w) (errorLog w) (Some srep).

(** The constructor of [Refiner]: the member initialisers in the order of
    the members, then the body. *)
Definition Refiner_new (srep : EllipticalSRep.t)
    (polyData : option (vtkPolyData E))
    (initialRegionSize finalRegionSize : R)
    (maxIterations interpolationLevel : Z)
    (L0Weight L1Weight L2Weight : R) : St World (Refiner.t E) :=
  let m_voxelSpacing := 0.005 in
  let m_srep := EllipticalSRep.SmartClone srep in
  m_masterBounds <- lift (Fields.ComputeMasterBounds E polyData m_srep) ;;
  match polyData with
  | None =>
      (* not reached: [ComputeMasterBounds] has thrown *)
      throw (invalid_argument "Expected existing polydata for computing bounds")
  | Some m_polyData =>
      modify count_field_build ;;
      m_sdfAndGradient <-
        lift (Fields.CreateAntiAliasSignedDistanceMap E polyData m_masterBounds
                m_voxelSpacing) ;;
      let m_srepToImageCoordsTransform :=
        Fields.CreateBoundsToImageCoordsTransform m_masterBounds in
      let this :=
        Refiner.mk E m_voxelSpacing m_polyData m_srep m_masterBounds
          m_sdfAndGradient m_srepToImageCoordsTransform [] []
          initialRegionSize finalRegionSize maxIterations interpolationLevel
          Refiner.null_coeff L0Weight L1Weight L2Weight 0%Z
          (* up and down iterations + 2 * # crest points: the product of
             two [int] is an [int], the sum with an index is wider, and
             the member is an [int] *)
          (to_int (to_int (2 * maxIterations)
                   + 2 * EllipticalSRep.GetNumberOfLines m_srep))
          None [] in
      match Refiner.GetInitialCoefficients E this with
      | (Ok _, this) => ret this
      | (Throw e, _) => throw e
      end
  end.

Definition RefineSRep (srep : EllipticalSRep.t)
    (polyData : option (vtkPolyData E))
    (initialRegionSize finalRegionSize : R)
    (maxIterations interpolationLevel : Z)
    (L0Weight L1Weight L2Weight : R)
    (progressCallback : option Refiner.ProgressCallbackFunction)
  : St World EllipticalSRep.t :=
  refiner <- Refiner_new srep polyData initialRegionSize finalRegionSize
               maxIterations interpolationLevel L0Weight L1Weight L2Weight ;;
  let refiner := Refiner.SetProgressCallback E progressCallback refiner in
  let '(result, refiner) := Refiner.Run E refiner in
  modify (add_progressEvents (Refiner.reported E refiner)) ;;
  lift result.

(** A [vtkMRMLModelNode] and a [vtkMRMLEllipticalSRepNode], as far as [Run]
    reads them; [GetSRep] is the same s-rep behind a pointer to its base
    class. *)
Record vtkMRMLModelNode := { GetPolyData : option (vtkPolyData E) }.
Record vtkMRMLEllipticalSRepNode := {
  GetEllipticalSRep : option EllipticalSRep.t
}.
Definition GetSRep (node : vtkMRMLEllipticalSRepNode) := GetEllipticalSRep node.

(** [e.what()] of a [std::exception]. *)
Definition what (e : exception) : option string :=
  match e with
  | invalid_argument w | runtime_error w | out_of_range w
  | foreign_exception w => Some w
  | unknown_exception => None
  end.

(** [vtkSlicerSRepRefinementLogic::Run] with a destination node.  The two
    [catch] clauses log and throw again: the first one catches a
    [std::exception], the second one what is left. *)
Definition Run (model : option vtkMRMLModelNode)
    (srepNode : option vtkMRMLEllipticalSRepNode)
    (initialRegionSize finalRegionSize : R)
    (maxIterations interpolationLevel : Z)
    (L0Weight L1Weight L2Weight : R) : St World unit :=
  try_catch
    (model <-
       match model with
       | None => throw (invalid_argument "Cannot refine an SRep with a null model")
       | Some model => ret model
       end ;;
     srep <-
       match srepNode with
       | None => throw (invalid_argument "Cannot refine an SRep with a null srep")
       | Some srepNode =>
           match GetSRep srepNode with
           | None => throw (invalid_argument "Cannot refine an SRep with a null srep")
           | Some srep =>
               if EllipticalSRep.IsEmpty srep
               then throw (invalid_argument "Cannot refine an SRep with a null srep")
               else ret srep
           end
       end ;;
     (if (maxIterations <? 1)%Z
      then throw (invalid_argument "must have at least one iteration")
      else ret tt) ;;
     (if (interpolationLevel <? 0)%Z
      then throw (invalid_argument "interpolation level must be non-negative")
      else ret tt) ;;
     refinedSRep <-
       RefineSRep srep (GetPolyData model) initialRegionSize finalRegionSize
         maxIterations interpolationLevel L0Weight L1Weight L2Weight
         (Some InvokeProgressEvent) ;;
     modify (SetEllipticalSRep refinedSRep))
    (fun e =>
       match what e with
       | Some description =>
           modify (vtkErrorMacro
                     ("Error running SRep refinement: " ++ description)) ;;
           throw e
       | None =>
           modify (vtkErrorMacro "Unknown error running SRep refinement") ;;
           throw e
       end).

(** [vtkSlicerSRepRefinementLogic::Run] without a destination node.  The
    scene of the logic may be null; the destination is a node it adds to
    the scene, and removes when the refinement throws.  The state is the
    number of nodes of the scene and the world; the node returned is the
    destination of the world. *)
Definition Run_in_new_node (scene : bool) (model : option vtkMRMLModelNode)
    (srepNode : option vtkMRMLEllipticalSRepNode)
    (initialRegionSize finalRegionSize : R)
    (maxIterations interpolationLevel : Z)
    (L0Weight L1Weight L2Weight : R) : St (nat * World) unit :=
  fun st =>
    let '(nodes, w) := st in
    if negb scene then
      (Throw (runtime_error
                "Can't add new vtkMRMLEllipticalSRepNode with null scene"), st)
    else
      let nodes := S nodes in
      let w := mkWorld (fieldBuilds w) (progressEvents w) (errorLog w) None in
      match Run model srepNode initialRegionSize finalRegionSize maxIterations
              interpolationLevel L0Weight L1Weight L2Weight w with
      | (Ok _, w') => (Ok tt, (nodes, w'))
      | (Throw e, w') => (Throw e, (Nat.pred nodes, w'))
      end.

End WithExternals.
End Logic.

(** * The grid behind pointers: what an evaluation can reach *)

(** [Refiner] above holds its grid as a value.  In the source the grid holds
    [vtkSmartPointer]s to skeletal points, which hold smart pointers to
    spokes, and [Refine] writes through references to the spokes of a
    clone.  Here the spokes are objects of a store, addressed by their
    position in it, and a grid holds addresses: two grids may share a
    spoke, and a write through one is then seen through the other. *)
Module Store.

Abbreviation address := nat.

(** The spoke objects; a new object takes the next address. *)
Abbreviation heap := (list Spoke.t).

Record SkeletalPointObject := mkSkeletalPointObject {
  UpSpoke : address;
  DownSpoke : address;
  CrestSpoke : option address
}.

Abbreviation grid := (list (list SkeletalPointObject)).

Section WithExternals.
Context (E : Externals).

Definition load (a : address) : St heap Spoke.t :=
  fun h =>
    match h !! a with
    | Some spoke => (Ok spoke, h)
    | None => (Throw (out_of_range "no spoke at this address"), h)
    end.

Definition store (a : address) (spoke : Spoke.t) : St heap unit :=
  modify (fun h => <[a := spoke]> h).

Definition new_spoke (spoke : Spoke.t) : St heap address :=
  fun h => (Ok (length h), h ++ [spoke]).

Fixpoint mapM {S A B} (f : A -> St S B) (l : list A) : St S (list B) :=
  match l with
  | [] => ret []
  | a :: l' => b <- f a ;; bs <- mapM f l' ;; ret (b :: bs)
  end.

(** The value of a skeletal point, and of a grid. *)
Definition read_point (p : SkeletalPointObject) : St heap SkeletalPoint.t :=
  up <- load (UpSpoke p) ;;
  down <- load (DownSpoke p) ;;
  crest <-
    match CrestSpoke p with
    | Some a => spoke <- load a ;; ret (Some spoke)
    | None => ret None
    end ;;
  ret (SkeletalPoint.mk up down crest).

Definition read_grid (g : grid) : St heap EllipticalSRep.t :=
  mapM (mapM read_point) g.

(** Modelled from the spec: [SmartClone], "Clone() (deep copy)", which
    "must produce a value with no aliasing to the source's spokes": every
    spoke of the clone is a new object with the value of the spoke it
    copies. *)
Definition clone_spoke (a : address) : St heap address :=
  spoke <- load a ;; new_spoke spoke.

Definition clone_point (p : SkeletalPointObject) : St heap SkeletalPointObject :=
  up <- clone_spoke (UpSpoke p) ;;
  down <- clone_spoke (DownSpoke p) ;;
  crest <-
    match CrestSpoke p with
    | Some a => a' <- clone_spoke a ;; ret (Some a')
    | None => ret None
    end ;;
  ret (mkSkeletalPointObject up down crest).

Definition SmartClone (g : grid) : St heap grid :=
  mapM (mapM clone_point) g.

Definition GetNumberOfLines (g : grid) : Z := Z.of_nat (length g).
Definition GetNumberOfSteps (g : grid) : Z :=
  match g with
  | [] => 0%Z
  | line :: _ => Z.of_nat (length line)
  end.

Definition GetSkeletalPoint (g : grid) (l s : Z) : Result SkeletalPointObject :=
  if (0 <=? l)%Z && (0 <=? s)%Z then
    match g !! Z.to_nat l with
    | Some line =>
        match line !! Z.to_nat s with
        | Some p => Ok p
        | None => Throw (out_of_range "step")
        end
    | None => Throw (out_of_range "line")
    end
  else Throw (out_of_range "negative index").

(** The pointer [GetSpoke(spokeType)] returns. *)
Definition GetSpoke (p : SkeletalPointObject)
    (spokeType : SkeletalPoint.SpokeOrientation) : Result address :=
  match spokeType with
  | SkeletalPoint.UpOrientation => Ok (UpSpoke p)
  | SkeletalPoint.DownOrientation => Ok (DownSpoke p)
  | SkeletalPoint.CrestOrientation =>
      match CrestSpoke p with
      | Some a => Ok a
      | None => Throw (invalid_argument "no crest spoke")
      end
  end.

(** A method of the store, in loops that also count. *)
Definition on_heap {A} (m : St heap A) : St (heap * nat) A :=
  fun st => let '(a, h) := m (fst st) in (a, (h, snd st)).

(** [Refine]: the clone is made of new objects, and the loops write
    through the references to its spokes. *)
Definition Refine (srep : grid) (coeff : nat -> R)
    (spokeType : SkeletalPoint.SpokeOrientation) : St heap grid :=
  let tolerance := 1e-13 in
  clone <- SmartClone srep ;;
  match spokeType with
  | SkeletalPoint.UpOrientation | SkeletalPoint.DownOrientation =>
      let loops : St (heap * nat) unit :=
        for_upto (GetNumberOfLines clone) (fun l =>
          for_upto (GetNumberOfSteps clone) (fun s =>
            c <- gets snd ;;
            skeletalPoint <- lift (GetSkeletalPoint clone l s) ;;
            a <- lift (GetSpoke skeletalPoint spokeType) ;;
            spoke <- on_heap (load a) ;;
            spoke' <- lift (Refiner.refine_spoke E tolerance coeff c spoke) ;;
            on_heap (store a spoke') ;;
            modify (fun st => (fst st, (snd st + 4)%nat)))) in
      fun h =>
        match loops (h, 0%nat) with
        | (Ok _, (h', _)) => (Ok clone, h')
        | (Throw e, (h', _)) => (Throw e, h')
        end
  | SkeletalPoint.CrestOrientation =>
      throw (invalid_argument "Don't know how to refine spoke of type 2")
  end.

(** The refiner with its grid behind pointers: [objects] is the store,
    [m_srep] the grid of the refiner, and [members] holds the other members
    (its own grid is not read here). *)
Record t := mk {
  objects : heap;
  m_srep : grid;
  members : Refiner.t E
}.

Definition on_objects {A} (m : St heap A) : St t A :=
  fun st => let '(a, h) := m (objects st) in (a, mk h (m_srep st) (members st)).

Definition on_members {A} (m : Refiner.M E A) : St t A :=
  fun st => let '(a, r) := m (members st) in (a, mk (objects st) (m_srep st) r).

Definition EvaluateObjectiveFunction (coeff : nat -> R)
    (spokeType : SkeletalPoint.SpokeOrientation) : St t R :=
  try_catch
    (srep <- gets m_srep ;;
     tempSRep <- on_objects (Refine srep coeff spokeType) ;;
     interpolationLevel <- gets (fun st => Refiner.m_interpolationLevel E (members st)) ;;
     tempValue <- on_objects (read_grid tempSRep) ;;
     interpolatedTempSRep <-
       lift (SmartInterpolateSRep E tempValue interpolationLevel) ;;
     this <- gets members ;;
     L0AndL1 <-
       lift (Refiner.ComputeDistanceSquaredAndNormalToImage E this
               interpolatedTempSRep spokeType) ;;
     let distanceSquared := fst L0AndL1 in
     let normalPenalty := snd L0AndL1 in
     srad <- lift (Refiner.ComputeRSradPenalty E this interpolatedTempSRep spokeType) ;;
     let val :=
       distanceSquared * Refiner.m_L0Weight E this
       + normalPenalty * Refiner.m_L1Weight E this
       + srad * Refiner.m_L2Weight E this in
     on_members (Refiner.IncrementIteration E) ;;
     ret val)
    (fun _ => ret 1e10).

End WithExternals.
End Store.

(** * The creation of an s-rep: [vtkSlicerSRepCreatorLogic] *)

(** [SRepCreator/Logic/vtkSlicerSRepCreatorLogic.cxx], from the best
    fitting ellipsoid of a flowed mesh to the s-rep of the ellipsoid, in
    exact arithmetic.  The flow of the mesh and the nodes of the scene are
    pipelines of VTK and MRML, and are left out.  A count ([size_t], or the
    [int] of a loop) is a natural number.  The header of the class is not
    among the sources: its constants [ellipse_scale], [eps] and
    [crestShift] and the two medial radii [mrx_o()] and [mry_o()] of an
    ellipsoid are the variables of the section, so that what is proved
    holds whatever they are. *)
Module Creator.

(** An [Eigen::MatrixXd]: its size, and its coefficients; the content
    outside the size is not the program's. *)
Record MatrixXd := mkMatrixXd { rows : nat; cols : nat; coeff : nat -> nat -> R }.

(** An [Eigen::Matrix3d], and a vector or a row of three coefficients. *)
Definition Matrix3d := nat -> nat -> R.
Definition Vector3 : Type := R * R * R.

Definition at3 (v : Vector3) (j : nat) : R :=
  let '(a, b, c) := v in
  match j with 0%nat => a | 1%nat => b | _ => c end.

(** [m.row(i)] of a matrix with three columns, and the matrix of the rows
    [m.row(i) << a, b, c] for [i] below [n]. *)
Definition row (m : MatrixXd) (i : nat) : Vector3 :=
  (coeff m i 0%nat, coeff m i 1%nat, coeff m i 2%nat).
Definition of_rows (n : nat) (f : nat -> Vector3) : MatrixXd :=
  mkMatrixXd n 3 (fun i j => at3 (f i) j).

(** [f 0 + ... + f (n - 1)]. *)
Fixpoint sum_upto (n : nat) (f : nat -> R) : R :=
  match n with
  | O => 0
  | S k => sum_upto k f + f k
  end.

Definition transpose (m : Matrix3d) : Matrix3d := fun i j => m j i.
Definition mul3 (a b : Matrix3d) : Matrix3d :=
  fun i j => a i 0%nat * b 0%nat j + a i 1%nat * b 1%nat j
             + a i 2%nat * b 2%nat j.

(** [transpose(m) * m], for a matrix with three columns. *)
Definition second_moment (m : MatrixXd) : Matrix3d :=
  fun a b => sum_upto (rows m) (fun i => coeff m i a * coeff m i b).

(** [Eigen::MatrixXd ConvertVTKPointsToEigen(vtkPoints&)]. *)
Definition ConvertVTKPointsToEigen (points : list Point3d.t) : MatrixXd :=
  of_rows (length points) (fun i =>
    let p := nth i points (Point3d.mk 0 0 0) in
    (Point3d.x p, Point3d.y p, Point3d.z p)).

Definition VolumeOfEllipsoid (radii1 radii2 radii3 : R) : R :=
  4 / 3 * PI * radii1 * radii2 * radii3.

(** [srep::Point3d PointFromEigen(const Eigen::Vector3d&)]; the constructor
    of the point throws for a NaN, which exact arithmetic has not. *)
Definition PointFromEigen (v : Vector3) : Point3d.t :=
  let '(a, b, c) := v in Point3d.mk a b c.

(** [struct EllipsoidParameters]. *)
Record EllipsoidParameters := mkEllipsoidParameters {
  radii : Vector3;
  center : Vector3;
  rotation : Matrix3d
}.

(** What the creator takes from Eigen and VTK. *)
Record Libraries := {
  vtkPolyData : Type;
  GetPoints : vtkPolyData -> list Point3d.t;
  (** the [double] a [float] reads back as, for the [float] a [double] is
      stored as *)
  single : R -> R;
  (** [vtkMassProperties::GetVolume] *)
  GetVolume : vtkPolyData -> R;
  (** [Eigen::SelfAdjointEigenSolver] on a matrix of size three: the
      eigenvalues, the smallest first, and the eigenvectors *)
  eigenvalues : Matrix3d -> Vector3;
  eigenvectors : Matrix3d -> Matrix3d
}.

(** [vtkPoints::InsertNextPoint] into a [vtkPoints] of the default data
    type, which is [float]: the point that is read back. *)
Definition InsertNextPoint (L : Libraries) (p0 p1 p2 : R) : Point3d.t :=
  Point3d.mk (single L p0) (single L p1) (single L p2).

(** [vtkSmartPointer<vtkPoints> ConvertEigenToVTKPoints(const MatrixXd&)]. *)
Definition ConvertEigenToVTKPoints (L : Libraries) (matrix : MatrixXd)
  : Result (list Point3d.t) :=
  if negb (cols matrix =? 3)%nat then
    Throw (invalid_argument "Expected 3 columns to convert matrix to vtkPoints")
  else
    Ok (map (fun r => InsertNextPoint L (coeff matrix r 0%nat)
                        (coeff matrix r 1%nat) (coeff matrix r 2%nat))
            (seq 0 (rows matrix))).

(** [struct EigenSRep]: the skeletal points and the boundary points of the
    up and the down spokes have a row for each skeletal point, line after
    line; the two crest matrices have a row for each line. *)
Record EigenSRep := mkEigenSRep {
  skeletalPoints : MatrixXd;
  upSpokeBoundaryPoints : MatrixXd;
  downSpokeBoundaryPoints : MatrixXd;
  crestSkeletalPoints : MatrixXd;
  crestSpokeBoundaryPoints : MatrixXd;
  numFoldPoints : nat;
  numStepsToCrest : nat
}.

Section WithHeader.
Context (L : Libraries).
Context (ellipse_scale eps crestShift : R).
Context (mrx_o mry_o : EllipsoidParameters -> R).

(** [pow(x, 1.0 / 3.0)] of a positive [x]. *)
Definition pow_third (x : R) : R := Rpower x (1 / 3).

Definition CalculateBestFitEllipsoid (alreadyFlowedMesh : vtkPolyData L)
  : EllipsoidParameters :=
  let point_matrix := ConvertVTKPointsToEigen (GetPoints L alreadyFlowedMesh) in
  (* point_matrix.colwise().mean() *)
  let center : Vector3 :=
    (sum_upto (rows point_matrix) (fun i => coeff point_matrix i 0%nat)
       / INR (rows point_matrix),
     sum_upto (rows point_matrix) (fun i => coeff point_matrix i 1%nat)
       / INR (rows point_matrix),
     sum_upto (rows point_matrix) (fun i => coeff point_matrix i 2%nat)
       / INR (rows point_matrix)) in
  let centered_point_mat :=
    mkMatrixXd (rows point_matrix) 3
      (fun i j => coeff point_matrix i j - at3 center j) in
  let second_moment := second_moment centered_point_mat in
  let '(radii0, radii1, radii2) := eigenvalues L second_moment in
  let radii0 := R_sqrt.sqrt radii0 in
  let radii1 := R_sqrt.sqrt radii1 in
  let radii2 := R_sqrt.sqrt radii2 in
  let ellipsoid_volume := VolumeOfEllipsoid radii0 radii1 radii2 in
  let volume_factor :=
    pow_third (GetVolume L alreadyFlowedMesh / ellipsoid_volume) in
  mkEllipsoidParameters
    (radii0 * volume_factor, radii1 * volume_factor, radii2 * volume_factor)
    center (eigenvectors L second_moment).

(** The point [(i, j)] of the medial sheet: the line [i] at the step [j]. *)
Definition medial_point (mra mrb deltaTheta stepSize : R) (i j : nat) : R * R :=
  (* go around the entire ellipse radially, starting at pi radians *)
  let theta := PI - deltaTheta * INR i in
  let x := mra * cos theta in
  let y := mrb * sin theta in
  (* this is the middle line (aka the spine) *)
  let mx_ := (mra * mra - mrb * mrb) * cos theta / mra in
  let my_ := 0 in
  let dx_ := x - mx_ in
  let dy_ := y - my_ in
  let tempX_ := mx_ + stepSize * INR j * dx_ in
  let tempY_ := my_ + stepSize * INR j * dy_ in
  (tempX_, tempY_).

Definition GenerateMedialSkeletalSheet (ellipsoid : EllipsoidParameters)
    (numFoldPoints numStepsToCrest : nat) : MatrixXd * MatrixXd :=
  let mra := mrx_o ellipsoid * ellipse_scale in
  let mrb := mry_o ellipsoid * ellipse_scale in
  let deltaTheta := 2 * PI / INR numFoldPoints in
  let stepSize := 1 / INR numStepsToCrest in
  (* the +1 is for the point on the spine *)
  (mkMatrixXd numFoldPoints (numStepsToCrest + 1)
     (fun i j => fst (medial_point mra mrb deltaTheta stepSize i j)),
   mkMatrixXd numFoldPoints (numStepsToCrest + 1)
     (fun i j => snd (medial_point mra mrb deltaTheta stepSize i j))).

(** [Eigen::Vector3d::normalize]: a vector of norm zero is left as it is. *)
Definition norm (v : Vector3) : R :=
  let '(a, b, c) := v in R_sqrt.sqrt (a * a + b * b + c * c).
Definition normalized (v : Vector3) : Vector3 :=
  let '(a, b, c) := v in
  if Rltb 0 (a * a + b * b + c * c)
  then (a / norm v, b / norm v, c / norm v) else v.

(** What the loop of [GenerateEigenSRep] computes at a point [(mx, my)] of
    the medial sheet: the skeletal point and the boundary points of the up
    spoke and of the down spoke, and on the fold the skeletal point and the
    boundary point of the crest spoke. *)
Record SpokesOfPoint := mkSpokesOfPoint {
  skeletal : Vector3;
  upBoundary : Vector3;
  downBoundary : Vector3;
  crestSkeletal : Vector3;
  crestBoundary : Vector3
}.

Definition spokes_of_point (ellipsoid : EllipsoidParameters) (mx my : R)
  : SpokesOfPoint :=
  let mrx_o := mrx_o ellipsoid in
  let mry_o := mry_o ellipsoid in
  let rz := at3 (radii ellipsoid) 0 in
  let ry := at3 (radii ellipsoid) 1 in
  let rx := at3 (radii ellipsoid) 2 in
  let sB := my * mrx_o in
  let cB := mx * mry_o in
  let l := R_sqrt.sqrt (sB * sB + cB * cB) in
  (* sin(theta) *)
  let sB_n := if Rltb l eps then sB else sB / l in
  (* cos(theta) *)
  let cB_n := if Rltb l eps then cB else cB / l in
  let cA := l / (mrx_o * mry_o) in (* cos(phi) *)
  let sA := R_sqrt.sqrt (1 - cA * cA) in (* sin(phi) *)
  let sx := rx * cA * cB_n - mx in
  let sy := ry * cA * sB_n - my in
  let sz := rz * sA in
  let bx := sx + mx in (* up/down spoke boundary point x *)
  let by_ := sy + my in (* up/down spoke boundary point y *)
  let bz := sz in
  (* on the crest (aka fold) *)
  let cx := rx * cB_n - mx in
  let cy := ry * sB_n - my in
  let cz := 0 in
  let v_n := norm (cx, cy, cz) in
  (* v2 is the unit vector pointing out to norm dir *)
  let v2 := normalized (sx, sy, 0) in
  let v3 := (v_n * at3 v2 0, v_n * at3 v2 1, v_n * at3 v2 2) in
  let crest_bx := at3 v3 0 + mx in
  let crest_by := at3 v3 1 + my in
  (* shift the skeletal side of the crest spoke off the interior skeleton
     toward the boundary *)
  let cmx := mx + (crest_bx - mx) * crestShift in
  let cmy := my + (crest_by - my) * crestShift in
  mkSpokesOfPoint (mx, my, 0) (bx, by_, bz) (bx, by_, - bz)
    (cmx, cmy, 0) (crest_bx, crest_by, 0).

(** The row of the skeletal point [(i, j)], and the point it is the row
    of. *)
Definition id_resampled (numStepsToCrest i j : nat) : nat :=
  (i * (numStepsToCrest + 1) + j)%nat.
Definition line_of (numStepsToCrest id : nat) : nat :=
  (id / (numStepsToCrest + 1))%nat.
Definition step_of (numStepsToCrest id : nat) : nat :=
  (id mod (numStepsToCrest + 1))%nat.

(** The s-rep of [GenerateEigenSRep] before its rotation and translation:
    the rows the two loops write. *)
Definition preTransformSRep (ellipsoid : EllipsoidParameters)
    (numFoldPoints numStepsToCrest : nat) : EigenSRep :=
  let medial_sheet :=
    GenerateMedialSkeletalSheet ellipsoid numFoldPoints numStepsToCrest in
  let reformed_points_x := fst medial_sheet in
  let reformed_points_y := snd medial_sheet in
  let at_point (i j : nat) :=
    spokes_of_point ellipsoid (coeff reformed_points_x i j)
      (coeff reformed_points_y i j) in
  let at_row (id : nat) :=
    at_point (line_of numStepsToCrest id) (step_of numStepsToCrest id) in
  let count := (numFoldPoints * (numStepsToCrest + 1))%nat in
  mkEigenSRep
    (of_rows count (fun id => skeletal (at_row id)))
    (of_rows count (fun id => upBoundary (at_row id)))
    (of_rows count (fun id => downBoundary (at_row id)))
    (* the last row of the reformed points x/y is the fold *)
    (of_rows numFoldPoints (fun i => crestSkeletal (at_point i numStepsToCrest)))
    (of_rows numFoldPoints (fun i => crestBoundary (at_point i numStepsToCrest)))
    numFoldPoints numStepsToCrest.

(** [mat * rotation.transpose() + center.replicate(rows, 1)]. *)
Definition transformMat (ellipsoid : EllipsoidParameters) (rotation : Matrix3d)
    (mat : MatrixXd) : MatrixXd :=
  mkMatrixXd (rows mat) 3 (fun i j =>
    coeff mat i 0%nat * transpose rotation 0%nat j
    + coeff mat i 1%nat * transpose rotation 1%nat j
    + coeff mat i 2%nat * transpose rotation 2%nat j
    + at3 (center ellipsoid) j).

Definition transformSRep (ellipsoid : EllipsoidParameters) (rotation : Matrix3d)
    (srep : EigenSRep) : EigenSRep :=
  let transformMat := transformMat ellipsoid rotation in
  mkEigenSRep
    (transformMat (skeletalPoints srep))
    (transformMat (upSpokeBoundaryPoints srep))
    (transformMat (downSpokeBoundaryPoints srep))
    (transformMat (crestSkeletalPoints srep))
    (transformMat (crestSpokeBoundaryPoints srep))
    (numFoldPoints srep) (numStepsToCrest srep).

Definition GenerateEigenSRep (ellipsoid : EllipsoidParameters)
    (numFoldPoints numStepsToCrest : nat) : EigenSRep :=
  let preTransformSRep :=
    preTransformSRep ellipsoid numFoldPoints numStepsToCrest in
  (* rotation and translation *)
  let srep_secondMoment := second_moment (skeletalPoints preTransformSRep) in
  let rot_srep := transpose (eigenvectors L srep_secondMoment) in
  let rotation := mul3 (rotation ellipsoid) rot_srep in
  transformSRep ellipsoid rotation preTransformSRep.

(** [srep::Spoke(skeletalPoint, srep::Vector3d(skeletalPoint, boundaryPoint))]. *)
Definition spoke_to (skeletalPoint boundaryPoint : Point3d.t) : Spoke.t :=
  Spoke.mk skeletalPoint (Vector3d.between skeletalPoint boundaryPoint).

(** The skeletal point the inner loop of [ConvertEigenSRepToEllipticalSRep]
    appends for [(i, j)]. *)
Definition skeletal_point_at (eigenSRep : EigenSRep) (i j : nat)
  : SkeletalPoint.t :=
  let upDownSkeletonIndex := (i * (numStepsToCrest eigenSRep + 1) + j)%nat in
  let skeletalPoint :=
    PointFromEigen (row (skeletalPoints eigenSRep) upDownSkeletonIndex) in
  let upBoundaryPoint :=
    PointFromEigen (row (upSpokeBoundaryPoints eigenSRep) upDownSkeletonIndex) in
  let downBoundaryPoint :=
    PointFromEigen (row (downSpokeBoundaryPoints eigenSRep) upDownSkeletonIndex) in
  let upSpoke := spoke_to skeletalPoint upBoundaryPoint in
  let downSpoke := spoke_to skeletalPoint downBoundaryPoint in
  if (j =? numStepsToCrest eigenSRep)%nat then
    (* crest *)
    let crestSkeletalPoint :=
      PointFromEigen (row (crestSkeletalPoints eigenSRep) i) in
    let crestBoundaryPoint :=
      PointFromEigen (row (crestSpokeBoundaryPoints eigenSRep) i) in
    let crestSpoke := spoke_to crestSkeletalPoint crestBoundaryPoint in
    SkeletalPoint.mk upSpoke downSpoke (Some crestSpoke)
  else
    (* interior, not crest *)
    SkeletalPoint.mk upSpoke downSpoke None.

(** The two loops append the lines in their order, and to each line its
    skeletal points in their order; the constructor of the s-rep takes the
    grid as it is. *)
Definition ConvertEigenSRepToEllipticalSRep (eigenSRep : EigenSRep)
  : EllipticalSRep.t :=
  map (fun i =>
         map (fun j => skeletal_point_at eigenSRep i j)
             (seq 0 (numStepsToCrest eigenSRep + 1)))
      (seq 0 (numFoldPoints eigenSRep)).

Definition GenerateSRep (ellipsoid : EllipsoidParameters)
    (numFoldPoints numStepsToCrest : nat) : EllipticalSRep.t :=
  let eigenSRep := GenerateEigenSRep ellipsoid numFoldPoints numStepsToCrest in
  ConvertEigenSRepToEllipticalSRep eigenSRep.

End WithHeader.
End Creator.

(** * Facts *)

Close Scope R_scope.


(** ** Postconditions of a method

    [post m Q Qe s]: from the state [s] the method [m] either returns a
    value and a state that satisfy [Q], or throws an exception leaving a
    state that satisfies [Qe]. *)
Definition post {S A} (m : St S A) (Q : A -> S -> Prop)
    (Qe : exception -> S -> Prop) (s : S) : Prop :=
  match m s with
  | (Ok a, s') => Q a s'
  | (Throw e, s') => Qe e s'
  end.

Section Post.
Context {S : Type}.
Implicit Types (s : S) (Qe : exception -> S -> Prop).

Lemma post_ret {A} (a : A) (Q : A -> S -> Prop) Qe s :
  Q a s -> post (ret a) Q Qe s.
Proof. intros H; exact H. Qed.

Lemma post_bind {A B} (m : St S A) (k : A -> St S B) (Q : B -> S -> Prop) Qe s :
  post m (fun a s' => post (k a) Q Qe s') Qe s -> post (x <- m ;; k x) Q Qe s.
Proof.
  unfold post; simpl. destruct (m s) as [[a|e] s']; intros H; exact H.
Qed.

Lemma post_get (Q : S -> S -> Prop) Qe s : Q s s -> post get Q Qe s.
Proof. intros H; exact H. Qed.

Lemma post_gets {A} (f : S -> A) (Q : A -> S -> Prop) Qe s :
  Q (f s) s -> post (gets f) Q Qe s.
Proof. intros H; exact H. Qed.

Lemma post_modify (f : S -> S) (Q : unit -> S -> Prop) Qe s :
  Q tt (f s) -> post (modify f) Q Qe s.
Proof. intros H; exact H. Qed.

Lemma post_throw {A} e (Q : A -> S -> Prop) Qe s :
  Qe e s -> post (throw e) Q Qe s.
Proof. intros H; exact H. Qed.

Lemma post_lift {A} (r : Result A) (Q : A -> S -> Prop) Qe s :
  match r with Ok a => Q a s | Throw e => Qe e s end -> post (lift r) Q Qe s.
Proof. unfold post, lift. destruct r; intros H; exact H. Qed.

Lemma post_mono {A} (m : St S A) (Q Q' : A -> S -> Prop) Qe Qe' s :
  (forall a s', Q a s' -> Q' a s') -> (forall e s', Qe e s' -> Qe' e s') ->
  post m Q Qe s -> post m Q' Qe' s.
Proof.
  unfold post. intros HQ HQe. destruct (m s) as [[a|e] s']; auto.
Qed.

Lemma post_try_catch {A} (body : St S A) (handler : exception -> St S A)
    (Q : A -> S -> Prop) Qe s :
  post body Q (fun e s' => post (handler e) Q Qe s') s ->
  post (try_catch body handler) Q Qe s.
Proof.
  unfold post, try_catch. destruct (body s) as [[a|e] s']; intros H; exact H.
Qed.

Lemma post_for_from (count : nat) (first : Z) (body : Z -> St S unit)
    (I : nat -> S -> Prop) Qe s :
  I 0%nat s ->
  (forall (j : nat) s1, (j < count)%nat -> I j s1 ->
     post (body (first + Z.of_nat j)%Z) (fun _ s2 => I (Datatypes.S j) s2) Qe s1) ->
  post (for_from count first body) (fun _ s' => I count s') Qe s.
Proof.
  revert first I s. induction count as [|count IH]; intros first I s H0 Hstep.
  - exact H0.
  - cbn [for_from]. apply post_bind.
    specialize (Hstep 0%nat s ltac:(lia) H0) as H1.
    rewrite Z.add_0_r in H1.
    eapply post_mono; [| |exact H1]; [|auto].
    intros u s1 HI. cbv beta in HI.
    apply (IH (first + 1)%Z (fun j => I (Datatypes.S j))); [exact HI|].
    intros j s2 Hj HIj.
    replace (first + 1 + Z.of_nat j)%Z with (first + Z.of_nat (Datatypes.S j))%Z by lia.
    apply Hstep; [lia|exact HIj].
Qed.

Lemma post_for_upto (n : Z) (body : Z -> St S unit) (I : nat -> S -> Prop) Qe s :
  I 0%nat s ->
  (forall (j : nat) s1, (Z.of_nat j < n)%Z -> I j s1 ->
     post (body (Z.of_nat j)) (fun _ s2 => I (Datatypes.S j) s2) Qe s1) ->
  post (for_upto n body) (fun _ s' => I (Z.to_nat n) s') Qe s.
Proof.
  intros H0 Hstep. unfold for_upto. apply post_for_from; [exact H0|].
  intros j s1 Hj HI. rewrite Z.add_0_l. apply Hstep; [lia|exact HI].
Qed.

(** A loop keeps what each of its iterations keeps. *)
Lemma post_for_upto_const (n : Z) (body : Z -> St S unit) (I : S -> Prop) Qe s :
  I s ->
  (forall (j : nat) s1, (Z.of_nat j < n)%Z -> I s1 ->
     post (body (Z.of_nat j)) (fun _ s2 => I s2) Qe s1) ->
  post (for_upto n body) (fun _ s' => I s') Qe s.
Proof.
  intros H0 Hstep. apply (post_for_upto n body (fun _ => I)); assumption.
Qed.

End Post.

(** ** Facts about the specification of the primitive floats *)

Module SF64.


Definition rnd := binary_round_aux prec emax.

Definition is_real (z : spec_float) : bool :=
  match z with S754_zero _ | S754_finite _ _ _ => true | _ => false end.

Definition nonneg (z : spec_float) : bool :=
  match z with
  | S754_zero false | S754_infinity false | S754_finite false _ _ => true
  | _ => false
  end.

Definition signed_as (s : bool) (z : spec_float) : Prop :=
  match z with
  | S754_zero s' | S754_infinity s' | S754_finite s' _ _ => s' = s
  | S754_nan => False
  end.

Lemma SFcompare_antisym x y :
  SFcompare y x = option_map CompOpp (SFcompare x y).
Proof.
  destruct x as [sx|sx| |sx mx ex], y as [sy|sy| |sy my ey]; simpl;
    try destruct sx; try destruct sy; simpl; try reflexivity;
    rewrite (Z.compare_antisym ex ey), !Pos.compare_cont_spec,
      (Pos.compare_antisym mx my);
    destruct (ex ?= ey)%Z; simpl; try reflexivity;
    destruct (mx ?= my)%positive; reflexivity.
Qed.

Lemma SFltb_asym x y : SFltb x y = true -> SFltb y x = false.
Proof.
  unfold SFltb. rewrite (SFcompare_antisym x y).
  destruct (SFcompare x y) as [[]|]; simpl; congruence.
Qed.

Lemma SFeqb_sym x y : SFeqb x y = SFeqb y x.
Proof.
  unfold SFeqb. rewrite (SFcompare_antisym x y).
  destruct (SFcompare x y) as [[]|]; reflexivity.
Qed.

Lemma shr_1_nonneg mrs : (0 <= shr_m mrs)%Z -> (0 <= shr_m (shr_1 mrs))%Z.
Proof.
  destruct mrs as [m r s]; simpl.
  destruct m as [|[p|p|]|[p|p|]]; simpl; lia.
Qed.

Lemma iter_pos_shr_1_nonneg n mrs :
  (0 <= shr_m mrs)%Z -> (0 <= shr_m (SpecFloat.iter_pos shr_1 n mrs))%Z.
Proof.
  revert mrs. induction n as [n IH|n IH|]; intros mrs H; simpl.
  - apply IH, IH, shr_1_nonneg, H.
  - apply IH, IH, H.
  - apply shr_1_nonneg, H.
Qed.

Lemma shr_fexp_nonneg m e l :
  (0 <= m)%Z -> (0 <= shr_m (fst (shr_fexp prec emax m e l)))%Z.
Proof.
  intros H. unfold shr_fexp, shr.
  assert (H0 : (0 <= shr_m (shr_record_of_loc m l))%Z)
    by (destruct l as [|[]]; exact H).
  destruct (fexp prec emax (Zdigits2 m + e) - e)%Z; simpl; auto.
  apply iter_pos_shr_1_nonneg, H0.
Qed.

Lemma round_nearest_even_nonneg m l :
  (0 <= m)%Z -> (0 <= round_nearest_even m l)%Z.
Proof.
  intros H. destruct l as [|[]]; simpl; try lia.
  destruct (Z.even m); lia.
Qed.

Lemma rnd_signed s m e l : (0 <= m)%Z -> signed_as s (rnd s m e l).
Proof.
  intros H. unfold rnd, binary_round_aux.
  pose proof (shr_fexp_nonneg m e l H) as H1.
  destruct (shr_fexp prec emax m e l) as [mrs' e']. simpl in H1.
  pose proof (shr_fexp_nonneg _ e' loc_Exact
    (round_nearest_even_nonneg _ (loc_of_shr_record mrs') H1)) as H2.
  destruct (shr_fexp prec emax _ e' loc_Exact) as [mrs'' e'']. simpl in H2.
  destruct (shr_m mrs'') as [|p|p]; simpl; try reflexivity; try lia.
  destruct (Z.leb e'' _); simpl; reflexivity.
Qed.

Lemma rnd_opp s m e l : rnd (negb s) m e l = SFopp (rnd s m e l).
Proof.
  unfold rnd, binary_round_aux.
  destruct (shr_fexp prec emax m e l) as [mrs' e'].
  destruct (shr_fexp prec emax _ e' loc_Exact) as [mrs'' e''].
  destruct (shr_m mrs''); try reflexivity.
  destruct (Z.leb e'' _); reflexivity.
Qed.

Lemma binary_round_signed s m e : signed_as s (binary_round prec emax s m e).
Proof.
  unfold binary_round. destruct (shl_align _ _ _) as [mz ez].
  apply rnd_signed. lia.
Qed.

Lemma binary_round_opp s m e :
  binary_round prec emax (negb s) m e = SFopp (binary_round prec emax s m e).
Proof.
  unfold binary_round. destruct (shl_align _ _ _) as [mz ez]. apply rnd_opp.
Qed.

Lemma binary_normalize_not_nan m e :
  binary_normalize prec emax m e false <> S754_nan.
Proof.
  destruct m as [|p|p]; simpl; try discriminate.
  - pose proof (binary_round_signed false p e) as H.
    destruct (binary_round _ _ _ _ _); simpl in H; congruence.
  - pose proof (binary_round_signed true p e) as H.
    destruct (binary_round _ _ _ _ _); simpl in H; congruence.
Qed.

Lemma binary_normalize_opp m e :
  m <> 0%Z ->
  binary_normalize prec emax (- m) e false
  = SFopp (binary_normalize prec emax m e false).
Proof.
  destruct m as [|p|p]; simpl; intros H; try congruence.
  - apply (binary_round_opp false).
  - apply (binary_round_opp true).
Qed.

Lemma SFsub_not_nan x y :
  is_real x = true -> is_real y = true -> SF64sub x y <> S754_nan.
Proof.
  destruct x as [sx|sx| |sx mx ex], y as [sy|sy| |sy my ey]; simpl;
    try discriminate; intros _ _.
  - destruct sx, sy; discriminate.
  - apply binary_normalize_not_nan.
Qed.

Lemma SFsub_swap x y :
  SF64sub y x = SFopp (SF64sub x y)
  \/ (SF64sub x y = S754_zero false /\ SF64sub y x = S754_zero false).
Proof.
  destruct x as [sx|sx| |sx mx ex], y as [sy|sy| |sy my ey];
    try (simpl; try destruct sx; try destruct sy; simpl;
         rewrite ?negb_involutive; auto; fail).
  unfold SF64sub, SFsub. cbv zeta. rewrite (Z.min_comm ey ex).
  set (a := cond_Zopp sx _). set (b := cond_Zopp sy _).
  destruct (Z.eq_dec (a - b)%Z 0%Z) as [E|E].
  - right. replace (b - a)%Z with 0%Z by lia. rewrite E. auto.
  - left. replace (b - a)%Z with (- (a - b))%Z by lia.
    apply binary_normalize_opp, E.
Qed.

Lemma SFmul_opp_square z : SF64mul (SFopp z) (SFopp z) = SF64mul z z.
Proof. destruct z as [s|s| |s m e]; simpl; try destruct s; reflexivity. Qed.

Lemma SFsquare_swap x y :
  SF64mul (SF64sub x y) (SF64sub x y) = SF64mul (SF64sub y x) (SF64sub y x).
Proof.
  destruct (SFsub_swap x y) as [E|[E1 E2]].
  - rewrite E. symmetry. apply SFmul_opp_square.
  - rewrite E1, E2. reflexivity.
Qed.

Lemma signed_as_nonneg z : signed_as false z -> nonneg z = true.
Proof. destruct z as [s|s| |s m e]; simpl; intros H; subst; tauto. Qed.

Lemma SFsquare_nonneg z : z <> S754_nan -> nonneg (SF64mul z z) = true.
Proof.
  destruct z as [s|s| |s m e]; simpl; intros H; try congruence;
    try (destruct s; reflexivity).
  apply signed_as_nonneg. rewrite xorb_nilpotent.
  apply (rnd_signed false). lia.
Qed.

Lemma SFadd_nonneg x y :
  nonneg x = true -> nonneg y = true -> nonneg (SF64add x y) = true.
Proof.
  destruct x as [[]|[]| |[] mx ex], y as [[]|[]| |[] my ey];
    try discriminate; try reflexivity; intros _ _.
  apply signed_as_nonneg. unfold SF64add, SFadd. cbv zeta.
  unfold cond_Zopp. cbn [binary_normalize Z.add].
  apply binary_round_signed.
Qed.

Lemma SFsqrt_nonneg x : nonneg x = true -> nonneg (SF64sqrt x) = true.
Proof.
  destruct x as [[]|[]| |[] m e]; try discriminate; try reflexivity.
  intros _. apply signed_as_nonneg. unfold SF64sqrt, SFsqrt, SFsqrt_core_binary.
  cbv zeta.
  match goal with |- context [Z.sqrtrem ?m'] =>
    pose proof (Z.sqrtrem_sqrt m') as Q; pose proof (Z.sqrt_nonneg m') as N;
    destruct (Z.sqrtrem m') as [q r] end.
  simpl in Q. subst q. apply rnd_signed, N.
Qed.

Lemma SFleb_zero_nonneg z : nonneg z = true -> SFleb (S754_zero false) z = true.
Proof. destruct z as [[]|[]| |[] m e]; cbv; congruence. Qed.

Lemma SFeqb_refl_nonneg z : nonneg z = true -> SFeqb z z = true.
Proof.
  destruct z as [[]|[]| |[] m e]; try discriminate; try reflexivity.
  intros _. unfold SFeqb, SFcompare.
  rewrite Z.compare_refl, Pos.compare_cont_refl. reflexivity.
Qed.

Lemma SFsub_diag x : is_real x = true -> SF64sub x x = S754_zero false.
Proof.
  destruct x as [[]|s| |s m e]; simpl; try discriminate; try reflexivity.
  intros _. rewrite Z.sub_diag. reflexivity.
Qed.


Definition seq_cmp (c1 c2 : comparison) : option comparison :=
  match c1, c2 with
  | Eq, c | c, Eq => Some c
  | Lt, Lt => Some Lt
  | Gt, Gt => Some Gt
  | _, _ => None
  end.

Definition cmp_em (e1 : Z) (m1 : positive) (e2 : Z) (m2 : positive) : comparison :=
  match (e1 ?= e2)%Z with
  | Lt => Lt
  | Gt => Gt
  | Eq => Pos.compare_cont Eq m1 m2
  end.

Lemma cmp_em_spec e1 m1 e2 m2 :
  match cmp_em e1 m1 e2 m2 with
  | Lt => (e1 < e2 \/ (e1 = e2 /\ Z.pos m1 < Z.pos m2))%Z
  | Eq => (e1 = e2 /\ m1 = m2)
  | Gt => (e2 < e1 \/ (e1 = e2 /\ Z.pos m2 < Z.pos m1))%Z
  end.
Proof.
  unfold cmp_em. rewrite Pos.compare_cont_spec.
  destruct (Z.compare_spec e1 e2); try lia.
  destruct (Pos.compare_spec m1 m2); simpl; subst; try lia; auto.
Qed.

Lemma cmp_em_trans e1 m1 e2 m2 e3 m3 c :
  seq_cmp (cmp_em e1 m1 e2 m2) (cmp_em e2 m2 e3 m3) = Some c ->
  cmp_em e1 m1 e3 m3 = c.
Proof.
  pose proof (cmp_em_spec e1 m1 e2 m2) as H12.
  pose proof (cmp_em_spec e2 m2 e3 m3) as H23.
  pose proof (cmp_em_spec e1 m1 e3 m3) as H13.
  destruct (cmp_em e1 m1 e2 m2), (cmp_em e2 m2 e3 m3), (cmp_em e1 m1 e3 m3);
    simpl; intros E; inversion E; subst; try reflexivity; exfalso;
    repeat match goal with H : _ /\ _ |- _ => destruct H end; subst; try lia.
Qed.

Lemma seq_cmp_opp c1 c2 c :
  seq_cmp (CompOpp c1) (CompOpp c2) = Some c -> seq_cmp c1 c2 = Some (CompOpp c).
Proof. destruct c1, c2; simpl; intros E; inversion E; reflexivity. Qed.

Lemma SFcompare_finite s1 m1 e1 s2 m2 e2 :
  SFcompare (S754_finite s1 m1 e1) (S754_finite s2 m2 e2)
  = Some match s1, s2 with
         | true, false => Lt
         | false, true => Gt
         | false, false => cmp_em e1 m1 e2 m2
         | true, true => CompOpp (cmp_em e1 m1 e2 m2)
         end.
Proof.
  destruct s1, s2; simpl; unfold cmp_em; destruct (e1 ?= e2)%Z; reflexivity.
Qed.

Lemma SFcompare_trans x y z c1 c2 c :
  SFcompare x y = Some c1 -> SFcompare y z = Some c2 ->
  seq_cmp c1 c2 = Some c -> SFcompare x z = Some c.
Proof.
  destruct x as [sx|sx| |sx mx ex], y as [sy|sy| |sy my ey],
    z as [sz|sz| |sz mz ez]; rewrite ?SFcompare_finite;
    try (intros E; simpl in E; discriminate E);
    try (intros _ E; simpl in E; discriminate E);
    try destruct sx; try destruct sy; try destruct sz; simpl;
    intros E1 E2 E; inversion E1; inversion E2; subst; clear E1 E2; f_equal;
    try (apply seq_cmp_opp, cmp_em_trans in E; rewrite E; destruct c;
         reflexivity);
    try (eapply cmp_em_trans; exact E);
    repeat match goal with
      | H : context [cmp_em ?a ?b ?c ?d] |- _ => destruct (cmp_em a b c d)
      end; simpl in *; congruence.
Qed.

(** A product of two numbers that are not negative is not below zero: it
    is not negative, or it is NaN. *)
Lemma SFmul_not_below_zero x y :
  nonneg x = true -> nonneg y = true ->
  SFltb (SF64mul x y) (S754_zero false) = false.
Proof.
  destruct x as [[]|[]| |[] mx ex], y as [[]|[]| |[] my ey];
    try discriminate; try reflexivity; intros _ _.
  assert (nonneg (SF64mul (S754_finite false mx ex) (S754_finite false my ey))
          = true) as H.
  { apply signed_as_nonneg. apply (rnd_signed false). lia. }
  destruct (SF64mul _ _) as [[]|[]| |[] m e]; try discriminate; reflexivity.
Qed.

Lemma SFltb_zero_nonneg z : SFltb (S754_zero false) z = true -> nonneg z = true.
Proof. destruct z as [[]|[]| |[] m e]; cbv; congruence. Qed.

End SF64.


(** ** The same facts on the primitive floats *)

Module F64.

Local Open Scope float_scope.

Definition nonneg (x : float) : bool := SF64.nonneg (Prim2SF x).

Lemma ltb_asym x y : (x <? y) = true -> (y <? x) = false.
Proof. rewrite !FloatAxioms.ltb_spec. apply SF64.SFltb_asym. Qed.

Lemma eqb_sym x y : (x =? y) = (y =? x).
Proof. rewrite !FloatAxioms.eqb_spec. apply SF64.SFeqb_sym. Qed.

Lemma ltb_compare x y :
  (x <? y) = true <-> SFcompare (Prim2SF x) (Prim2SF y) = Some Lt.
Proof.
  rewrite FloatAxioms.ltb_spec. unfold SFltb.
  destruct (SFcompare _ _) as [[]|]; split; congruence.
Qed.

Lemma eqb_compare x y :
  (x =? y) = true <-> SFcompare (Prim2SF x) (Prim2SF y) = Some Eq.
Proof.
  rewrite FloatAxioms.eqb_spec. unfold SFeqb.
  destruct (SFcompare _ _) as [[]|]; split; congruence.
Qed.

Lemma ltb_not_eqb x y : (x <? y) = true -> (x =? y) = false.
Proof.
  rewrite FloatAxioms.ltb_spec, FloatAxioms.eqb_spec. unfold SFltb, SFeqb.
  destruct (SFcompare _ _) as [[]|]; congruence.
Qed.

Lemma ltb_trans x y z : (x <? y) = true -> (y <? z) = true -> (x <? z) = true.
Proof.
  rewrite !ltb_compare. intros H1 H2.
  apply (SF64.SFcompare_trans _ _ _ _ _ _ H1 H2). reflexivity.
Qed.

Lemma eqb_trans x y z : (x =? y) = true -> (y =? z) = true -> (x =? z) = true.
Proof.
  rewrite !eqb_compare. intros H1 H2.
  apply (SF64.SFcompare_trans _ _ _ _ _ _ H1 H2). reflexivity.
Qed.

Lemma eqb_ltb_trans x y z :
  (x =? y) = true -> (y <? z) = true -> (x <? z) = true.
Proof.
  rewrite eqb_compare, !ltb_compare. intros H1 H2.
  apply (SF64.SFcompare_trans _ _ _ _ _ _ H1 H2). reflexivity.
Qed.

Lemma ltb_eqb_trans x y z :
  (x <? y) = true -> (y =? z) = true -> (x <? z) = true.
Proof.
  rewrite eqb_compare, !ltb_compare. intros H1 H2.
  apply (SF64.SFcompare_trans _ _ _ _ _ _ H1 H2). reflexivity.
Qed.

Lemma is_finite_real x : is_finite x = true -> SF64.is_real (Prim2SF x) = true.
Proof.
  unfold is_finite, is_nan, is_infinity.
  rewrite !FloatAxioms.eqb_spec, abs_spec.
  destruct (Prim2SF x) as [s|s| |s m e]; try reflexivity.
  - destruct s; vm_compute; discriminate.
  - vm_compute; discriminate.
Qed.

Lemma is_nan_spec x : is_nan x = true <-> Prim2SF x = S754_nan.
Proof.
  unfold is_nan. rewrite FloatAxioms.eqb_spec. split.
  - destruct (Prim2SF x) as [s|s| |s m e]; try reflexivity.
    + discriminate.
    + destruct s; discriminate.
    + unfold SFeqb, SFcompare.
      destruct s; rewrite Z.compare_refl, Pos.compare_cont_refl; discriminate.
  - intros ->. reflexivity.
Qed.

Lemma sub_diag x : is_finite x = true -> x - x = 0.
Proof.
  intros H. apply Prim2SF_inj. rewrite sub_spec.
  rewrite SF64.SFsub_diag by (apply is_finite_real, H). reflexivity.
Qed.

Lemma square_diff_swap x y : (x - y) * (x - y) = (y - x) * (y - x).
Proof.
  apply Prim2SF_inj. rewrite !mul_spec, !sub_spec. apply SF64.SFsquare_swap.
Qed.

Lemma square_diff_nonneg x y :
  is_finite x = true -> is_finite y = true -> nonneg ((x - y) * (x - y)) = true.
Proof.
  intros Hx Hy. unfold nonneg. rewrite mul_spec, sub_spec.
  apply SF64.SFsquare_nonneg, SF64.SFsub_not_nan; apply is_finite_real; assumption.
Qed.

Lemma add_nonneg x y : nonneg x = true -> nonneg y = true -> nonneg (x + y) = true.
Proof. unfold nonneg. rewrite add_spec. apply SF64.SFadd_nonneg. Qed.

Lemma sqrt_nonneg x : nonneg x = true -> nonneg (sqrt x) = true.
Proof. unfold nonneg. rewrite sqrt_spec. apply SF64.SFsqrt_nonneg. Qed.

Lemma nonneg_leb x : nonneg x = true -> (0 <=? x) = true.
Proof. unfold nonneg. rewrite FloatAxioms.leb_spec. apply SF64.SFleb_zero_nonneg. Qed.

Lemma nonneg_eqb_refl x : nonneg x = true -> (x =? x) = true.
Proof. unfold nonneg. rewrite FloatAxioms.eqb_spec. apply SF64.SFeqb_refl_nonneg. Qed.

Lemma mul_not_below_zero x y :
  nonneg x = true -> (0 <? y) = true -> (x * y <? 0) = false.
Proof.
  intros Hx Hy. rewrite FloatAxioms.ltb_spec in Hy |- *. rewrite mul_spec.
  apply SF64.SFmul_not_below_zero; [exact Hx|].
  apply SF64.SFltb_zero_nonneg, Hy.
Qed.

End F64.

(** ** [srep::Point3d]: the order and the distance *)

Module Point3dFacts.
Import Binary64.Point3d.

Local Open Scope float_scope.

(** No component is NaN: what the constructor and the setters check. *)
Definition no_nan (p : Point3d) : bool :=
  negb (is_nan (GetX p) || is_nan (GetY p) || is_nan (GetZ p)).

(** No component is NaN or infinite. *)
Definition finite (p : Point3d) : bool :=
  is_finite (GetX p) && is_finite (GetY p) && is_finite (GetZ p).

Definition exactly_one (p q r : bool) : Prop :=
  (p = true /\ q = false /\ r = false)
  \/ (p = false /\ q = true /\ r = false)
  \/ (p = false /\ q = false /\ r = true).

Lemma make_spec x y z :
  make x y z = Ok (mkPoint3d x y z) <-> no_nan (mkPoint3d x y z) = true.
Proof.
  unfold make, no_nan; simpl.
  destruct (is_nan x || is_nan y || is_nan z); simpl; split; congruence.
Qed.

Lemma make_no_nan x y z p : make x y z = Ok p -> no_nan p = true.
Proof.
  unfold make, no_nan.
  destruct (is_nan x || is_nan y || is_nan z) eqn:E; intros H; inversion H.
  simpl. rewrite E. reflexivity.
Qed.

Lemma is_finite_not_nan x : is_finite x = true -> is_nan x = false.
Proof. unfold is_finite. destruct (is_nan x); simpl; congruence. Qed.

Lemma finite_no_nan p : finite p = true -> no_nan p = true.
Proof.
  unfold finite, no_nan. intros H.
  apply andb_prop in H as [H Hz]. apply andb_prop in H as [Hx Hy].
  rewrite (is_finite_not_nan _ Hx), (is_finite_not_nan _ Hy),
    (is_finite_not_nan _ Hz). reflexivity.
Qed.

Lemma lt_asym a b : lt a b = true -> lt b a = false.
Proof.
  unfold lt.
  rewrite (F64.eqb_sym (GetX b)), (F64.eqb_sym (GetY b)).
  destruct (GetX a =? GetX b), (GetY a =? GetY b); simpl;
    apply F64.ltb_asym.
Qed.

Lemma lt_trans a b c : lt a b = true -> lt b c = true -> lt a c = true.
Proof.
  unfold lt.
  destruct (GetX a =? GetX b) eqn:Xab, (GetX b =? GetX c) eqn:Xbc; simpl.
  - rewrite (F64.eqb_trans _ _ _ Xab Xbc). simpl.
    destruct (GetY a =? GetY b) eqn:Yab, (GetY b =? GetY c) eqn:Ybc; simpl.
    + rewrite (F64.eqb_trans _ _ _ Yab Ybc). simpl. apply F64.ltb_trans.
    + intros _ H. pose proof (F64.eqb_ltb_trans _ _ _ Yab H) as L.
      rewrite (F64.ltb_not_eqb _ _ L). exact L.
    + intros H _. pose proof (F64.ltb_eqb_trans _ _ _ H Ybc) as L.
      rewrite (F64.ltb_not_eqb _ _ L). exact L.
    + intros H1 H2. pose proof (F64.ltb_trans _ _ _ H1 H2) as L.
      rewrite (F64.ltb_not_eqb _ _ L). exact L.
  - intros _ H. pose proof (F64.eqb_ltb_trans _ _ _ Xab H) as L.
    rewrite (F64.ltb_not_eqb _ _ L). exact L.
  - intros H _. pose proof (F64.ltb_eqb_trans _ _ _ H Xbc) as L.
    rewrite (F64.ltb_not_eqb _ _ L). exact L.
  - intros H1 H2. pose proof (F64.ltb_trans _ _ _ H1 H2) as L.
    rewrite (F64.ltb_not_eqb _ _ L). exact L.
Qed.

Lemma lt_irrefl a : lt a a = false.
Proof.
  destruct (lt a a) eqn:E; [|reflexivity].
  pose proof (lt_asym a a E). congruence.
Qed.

Lemma lt_eq_exactly_one a b : exactly_one (lt a b) (eq a b) (lt b a).
Proof.
  unfold exactly_one, eq. pose proof (lt_asym a b). pose proof (lt_asym b a).
  destruct (lt a b), (lt b a); simpl; intuition congruence.
Qed.

Lemma Distance2_swap a b :
  Distance2BetweenPoints (AsArray a) (AsArray b)
  = Distance2BetweenPoints (AsArray b) (AsArray a).
Proof.
  unfold Distance2BetweenPoints, AsArray.
  rewrite (F64.square_diff_swap (GetX a)), (F64.square_diff_swap (GetY a)),
    (F64.square_diff_swap (GetZ a)). reflexivity.
Qed.

Lemma Distance_swap a b : Distance a b = Distance b a.
Proof. unfold Distance. rewrite Distance2_swap. reflexivity. Qed.

Lemma Distance_nonneg a b :
  finite a = true -> finite b = true -> F64.nonneg (Distance a b) = true.
Proof.
  unfold finite. intros Ha Hb.
  apply andb_prop in Ha as [Ha Haz]. apply andb_prop in Ha as [Hax Hay].
  apply andb_prop in Hb as [Hb Hbz]. apply andb_prop in Hb as [Hbx Hby].
  unfold Distance, pow_half, Distance2BetweenPoints, AsArray.
  apply F64.sqrt_nonneg. repeat apply F64.add_nonneg;
    apply F64.square_diff_nonneg; assumption.
Qed.

Lemma Distance_diag a : finite a = true -> Distance a a = 0.
Proof.
  unfold finite. intros Ha.
  apply andb_prop in Ha as [Ha Haz]. apply andb_prop in Ha as [Hax Hay].
  unfold Distance, pow_half, Distance2BetweenPoints, AsArray.
  rewrite !F64.sub_diag by assumption. reflexivity.
Qed.

(** C9.  For all points, [operator<] is a strict total order with
    [operator==] as its equivalence: exactly one of [a < b], [a == b],
    [b < a] holds, and [<] is transitive.  For points whose components are
    finite, [Distance] is symmetric, not negative, and zero from a point to
    itself. *)
Theorem order_of_points_and_distance_of_finite_points (a b c : Point3d) :
  exactly_one (lt a b) (eq a b) (lt b a)
  /\ (lt a b = true -> lt b c = true -> lt a c = true)
  /\ (finite a = true -> finite b = true ->
      (Distance a b =? Distance b a) = true
      /\ (0 <=? Distance a b) = true
      /\ (Distance a a =? 0) = true).
Proof.
  split; [apply lt_eq_exactly_one|].
  split; [apply lt_trans|]. intros Ha Hb. split; [|split].
  - rewrite <- Distance_swap. apply F64.nonneg_eqb_refl, Distance_nonneg; assumption.
  - apply F64.nonneg_leb, Distance_nonneg; assumption.
  - rewrite Distance_diag by assumption. reflexivity.
Qed.

Lemma order_of_points_and_distance_of_finite_points_witness :
  exactly_one (lt (mkPoint3d 1 2 3) (mkPoint3d 1 2 4))
    (eq (mkPoint3d 1 2 3) (mkPoint3d 1 2 4))
    (lt (mkPoint3d 1 2 4) (mkPoint3d 1 2 3))
  /\ (Distance (mkPoint3d 1 2 3) (mkPoint3d 1 2 4)
      =? Distance (mkPoint3d 1 2 4) (mkPoint3d 1 2 3)) = true.
Proof.
  destruct (order_of_points_and_distance_of_finite_points (mkPoint3d 1 2 3)
              (mkPoint3d 1 2 4) origin) as (H1 & _ & H2).
  destruct (H2 eq_refl eq_refl) as (H3 & _).
  split; assumption.
Defined.

(** C9, as stated for points without NaN.  The constructor accepts an
    infinite component, and the distance from such a point to itself is
    NaN: it is not zero, not at least zero, and not equal to itself. *)
Lemma infinite_point_counterexample :
  exists a : Point3d,
    make infinity 0 0 = Ok a
    /\ no_nan a = true
    /\ (Distance a a =? 0) = false
    /\ (0 <=? Distance a a) = false
    /\ (Distance a a =? Distance a a) = false.
Proof.
  exists (mkPoint3d infinity 0 0). repeat split; reflexivity.
Qed.

End Point3dFacts.

(** ** [srep::Point3d]: the class invariant and the six comparisons *)

Module Point3dClass.
Import Binary64.Point3d Point3dFacts.

Local Open Scope float_scope.

(** The points a program can hold: those the constructors return, and what
    the setters make of them. *)
Inductive built : Point3d -> Prop :=
  | built_origin : built origin
  | built_make x y z p : make x y z = Ok p -> built p
  | built_SetX x p p' : built p -> SetX x p = Ok p' -> built p'
  | built_SetY y p p' : built p -> SetY y p = Ok p' -> built p'
  | built_SetZ z p p' : built p -> SetZ z p = Ok p' -> built p'.

Lemma no_nan_components p :
  no_nan p = true <->
  is_nan (GetX p) = false /\ is_nan (GetY p) = false /\ is_nan (GetZ p) = false.
Proof.
  unfold no_nan.
  destruct (is_nan (GetX p)), (is_nan (GetY p)), (is_nan (GetZ p)); simpl;
    intuition congruence.
Qed.

(** Every point a program can hold is free of NaN, and every point free of
    NaN is one the constructor returns. *)
Theorem built_points_are_those_without_nan (p : Point3d) :
  built p <-> no_nan p = true.
Proof.
  split.
  - induction 1 as [|x y z p H|x p p' _ IH H|y p p' _ IH H|z p p' _ IH H].
    + reflexivity.
    + exact (make_no_nan _ _ _ _ H).
    + unfold SetX in H. destruct (is_nan x) eqn:N; [discriminate|].
      injection H as <-. apply no_nan_components in IH.
      apply no_nan_components. simpl. tauto.
    + unfold SetY in H. destruct (is_nan y) eqn:N; [discriminate|].
      injection H as <-. apply no_nan_components in IH.
      apply no_nan_components. simpl. tauto.
    + unfold SetZ in H. destruct (is_nan z) eqn:N; [discriminate|].
      injection H as <-. apply no_nan_components in IH.
      apply no_nan_components. simpl. tauto.
  - intros H. destruct p as [x y z].
    apply (built_make x y z). apply make_spec, H.
Qed.

(** Doubles that are not NaN are equal exactly when neither is below the
    other. *)
Lemma eqb_neither_below x y :
  is_nan x = false -> is_nan y = false ->
  (x =? y) = negb (x <? y) && negb (y <? x).
Proof.
  intros Hx Hy.
  assert (Prim2SF x <> S754_nan) as Nx
    by (intros N; apply F64.is_nan_spec in N; congruence).
  assert (Prim2SF y <> S754_nan) as Ny
    by (intros N; apply F64.is_nan_spec in N; congruence).
  rewrite FloatAxioms.eqb_spec, !FloatAxioms.ltb_spec.
  unfold SFeqb, SFltb. rewrite (SF64.SFcompare_antisym (Prim2SF x) (Prim2SF y)).
  destruct (Prim2SF x) as [sx|sx| |sx mx ex], (Prim2SF y) as [sy|sy| |sy my ey];
    try congruence; simpl;
    try (destruct sx); try (destruct sy); simpl; try reflexivity;
    destruct (ex ?= ey)%Z; simpl; try reflexivity;
    destruct (Pos.compare_cont Eq mx my); reflexivity.
Qed.

Lemma eq_componentwise a b :
  no_nan a = true -> no_nan b = true ->
  eq a b = (GetX a =? GetX b) && (GetY a =? GetY b) && (GetZ a =? GetZ b).
Proof.
  rewrite !no_nan_components. intros (Ax & Ay & Az) (Bx & By & Bz).
  unfold eq, lt.
  rewrite (F64.eqb_sym (GetX b)), (F64.eqb_sym (GetY b)).
  rewrite (eqb_neither_below _ _ Ax Bx), (eqb_neither_below _ _ Ay By),
    (eqb_neither_below _ _ Az Bz).
  pose proof (F64.ltb_asym (GetX a) (GetX b)) as X.
  pose proof (F64.ltb_asym (GetY a) (GetY b)) as Y.
  destruct (GetX a <? GetX b), (GetX b <? GetX a); simpl;
    try reflexivity; try (specialize (X eq_refl); discriminate);
    destruct (GetY a <? GetY b), (GetY b <? GetY a); simpl;
    try reflexivity; specialize (Y eq_refl); discriminate.
Qed.

(** [operator==] on points without NaN is the equality of the doubles,
    component by component, and so an equivalence: with [operator<], a
    strict weak ordering. *)
Theorem equality_of_points (a b c : Point3d) :
  no_nan a = true -> no_nan b = true -> no_nan c = true ->
  eq a b = (GetX a =? GetX b) && (GetY a =? GetY b) && (GetZ a =? GetZ b)
  /\ eq a a = true
  /\ eq a b = eq b a
  /\ (eq a b = true -> eq b c = true -> eq a c = true).
Proof.
  intros Ha Hb Hc. split; [apply eq_componentwise; assumption|].
  split; [unfold eq; rewrite lt_irrefl; reflexivity|].
  split; [unfold eq; apply andb_comm|].
  rewrite !eq_componentwise by assumption. intros H1 H2.
  apply andb_prop in H1 as [H1 Z1]. apply andb_prop in H1 as [X1 Y1].
  apply andb_prop in H2 as [H2 Z2]. apply andb_prop in H2 as [X2 Y2].
  rewrite (F64.eqb_trans _ _ _ X1 X2), (F64.eqb_trans _ _ _ Y1 Y2),
    (F64.eqb_trans _ _ _ Z1 Z2). reflexivity.
Qed.

(** The six comparisons agree with one another, for all points. *)
Theorem comparisons_agree (a b : Point3d) :
  ne a b = negb (eq a b)
  /\ gt a b = lt b a
  /\ le a b = lt a b || eq a b
  /\ ge a b = gt a b || eq a b
  /\ le a b || ge a b = true.
Proof.
  unfold ne, gt, le, ge, eq.
  pose proof (lt_asym a b). pose proof (lt_asym b a).
  destruct (lt a b), (lt b a); simpl; intuition congruence.
Qed.

(** Doubles that compare equal are the same number, or two zeros. *)
Lemma SFeqb_finite x y :
  SFeqb x y = true -> SF64.is_real x = true -> SF64.is_real y = true ->
  x = y \/ exists s s', x = S754_zero s /\ y = S754_zero s'.
Proof.
  unfold SFeqb. intros H Hx Hy.
  destruct x as [sx|sx| |sx mx ex]; try discriminate Hx;
    destruct y as [sy|sy| |sy my ey]; try discriminate Hy; simpl in H.
  - eauto.
  - destruct sy; discriminate.
  - destruct sx; discriminate.
  - destruct sx, sy; try discriminate;
      destruct (ex ?= ey)%Z eqn:He; try discriminate;
      apply Z.compare_eq in He; subst ey;
      destruct (Pos.compare_cont Eq mx my) eqn:Hm; try discriminate;
      apply (Pos.compare_eq mx my) in Hm; subst my; auto.
Qed.

Lemma square_diff_of_equals x y :
  is_finite x = true -> is_finite y = true -> (x =? y) = true ->
  (x - y) * (x - y) = 0.
Proof.
  intros Hx Hy H. apply Prim2SF_inj. rewrite mul_spec, sub_spec.
  rewrite FloatAxioms.eqb_spec in H.
  apply F64.is_finite_real in Hx, Hy.
  destruct (SFeqb_finite _ _ H Hx Hy) as [E|(s & s' & -> & ->)].
  - rewrite <- E, SF64.SFsub_diag by exact Hx. reflexivity.
  - destruct s, s'; reflexivity.
Qed.

(** Two points with finite components that compare equal are at the
    distance zero. *)
Theorem equal_points_are_at_distance_zero (a b : Point3d) :
  finite a = true -> finite b = true -> eq a b = true -> Distance a b = 0.
Proof.
  intros Ha Hb H.
  rewrite eq_componentwise in H by (apply finite_no_nan; assumption).
  unfold finite in Ha, Hb.
  apply andb_prop in Ha as [Ha Haz]. apply andb_prop in Ha as [Hax Hay].
  apply andb_prop in Hb as [Hb Hbz]. apply andb_prop in Hb as [Hbx Hby].
  apply andb_prop in H as [H Hz]. apply andb_prop in H as [Hx Hy].
  unfold Distance, pow_half, Distance2BetweenPoints, AsArray.
  rewrite !square_diff_of_equals by assumption. reflexivity.
Qed.

End Point3dClass.

Open Scope R_scope.

(** ** Comparisons of doubles, and the normalized bounds *)

Lemma Rgeb_true a b : Rgeb a b = true <-> a >= b.
Proof. unfold Rgeb. destruct (Rge_dec a b); split; intros; (congruence || tauto). Qed.
Lemma Rgeb_false a b : Rgeb a b = false <-> a < b.
Proof. unfold Rgeb. destruct (Rge_dec a b); split; intros; try congruence; lra. Qed.
Lemma Rleb_true a b : Rleb a b = true <-> a <= b.
Proof. unfold Rleb. destruct (Rle_dec a b); split; intros; (congruence || tauto). Qed.
Lemma Rleb_false a b : Rleb a b = false <-> b < a.
Proof. unfold Rleb. destruct (Rle_dec a b); split; intros; try congruence; lra. Qed.
Lemma Rltb_true a b : Rltb a b = true <-> a < b.
Proof. unfold Rltb. destruct (Rlt_dec a b); split; intros; (congruence || tauto). Qed.
Lemma Rltb_false a b : Rltb a b = false <-> b <= a.
Proof. unfold Rltb. destruct (Rlt_dec a b); split; intros; try congruence; lra. Qed.
Lemma Rgtb_true a b : Rgtb a b = true <-> a > b.
Proof. unfold Rgtb. destruct (Rgt_dec a b); split; intros; (congruence || tauto). Qed.
Lemma Rgtb_false a b : Rgtb a b = false <-> a <= b.
Proof. unfold Rgtb. destruct (Rgt_dec a b); split; intros; try congruence; lra. Qed.
Lemma Reqb_true a b : Reqb a b = true <-> a = b.
Proof. unfold Reqb. destruct (Req_dec_T a b); split; intros; (congruence || tauto). Qed.
Lemma Reqb_false a b : Reqb a b = false <-> a <> b.
Proof. unfold Reqb. destruct (Req_dec_T a b); split; intros; (congruence || tauto). Qed.

Lemma half_eq : 0.5 = / 2.
Proof. lra. Qed.

Section Bounds.
Context (E : Externals).

(** The range of an axis, and the longest of the three. *)
Definition range0 (b : Bounds) : R := b1 b - b0 b.
Definition range1 (b : Bounds) : R := b3 b - b2 b.
Definition range2 (b : Bounds) : R := b5 b - b4 b.
Definition dominant (b : Bounds) : R := Rmax (range0 b) (Rmax (range1 b) (range2 b)).

Lemma dominant_is_range0 b :
  range0 b >= range1 b -> range0 b >= range2 b -> dominant b = range0 b.
Proof.
  unfold dominant, Rmax. intros.
  destruct (Rle_dec (range1 b) (range2 b)), (Rle_dec (range0 b) _); lra.
Qed.

Lemma dominant_is_range1 b :
  range1 b >= range0 b -> range1 b >= range2 b -> dominant b = range1 b.
Proof.
  unfold dominant, Rmax. intros.
  destruct (Rle_dec (range1 b) (range2 b)), (Rle_dec (range0 b) _); lra.
Qed.

Lemma dominant_is_range2 b :
  range2 b >= range0 b -> range2 b >= range1 b -> dominant b = range2 b.
Proof.
  unfold dominant, Rmax. intros.
  destruct (Rle_dec (range1 b) (range2 b)), (Rle_dec (range0 b) _); lra.
Qed.

Lemma new_bounds_of_positive_ranges (bounds : Bounds) :
  0 < range0 bounds -> 0 < range1 bounds -> 0 < range2 bounds ->
  Fields.ComputePolyDataToImageDataNewBounds E bounds
  = mkBounds (0.5 - range0 bounds / dominant bounds / 2)
             (0.5 + range0 bounds / dominant bounds / 2)
             (0.5 - range1 bounds / dominant bounds / 2)
             (0.5 + range1 bounds / dominant bounds / 2)
             (0.5 - range2 bounds / dominant bounds / 2)
             (0.5 + range2 bounds / dominant bounds / 2).
Proof.
  intros H0 H1 H2. unfold Fields.ComputePolyDataToImageDataNewBounds.
  fold (range0 bounds) (range1 bounds) (range2 bounds).
  destruct (Rgeb (range0 bounds) (range1 bounds)) eqn:A01;
  destruct (Rgeb (range0 bounds) (range2 bounds)) eqn:A02;
  destruct (Rgeb (range1 bounds) (range0 bounds)) eqn:A10;
  destruct (Rgeb (range1 bounds) (range2 bounds)) eqn:A12;
  destruct (Rgeb (range2 bounds) (range0 bounds)) eqn:A20;
  destruct (Rgeb (range2 bounds) (range1 bounds)) eqn:A21;
  rewrite ?Rgeb_true, ?Rgeb_false in *; simpl;
  try (exfalso; lra);
  first
    [ rewrite (dominant_is_range0 bounds) by assumption
    | rewrite (dominant_is_range1 bounds) by assumption
    | rewrite (dominant_is_range2 bounds) by assumption ];
  rewrite half_eq; f_equal; field; lra.
Qed.

Lemma transform_of_positive_ranges (bounds : Bounds) (x y z : R) :
  0 < range0 bounds -> 0 < range1 bounds -> 0 < range2 bounds ->
  let newBounds := Fields.ComputePolyDataToImageDataNewBounds E bounds in
  Fields.MultiplyPoint (Fields.CreateBoundsToImageCoordsTransform bounds)
    (x, y, z, 1)
  = (b0 newBounds + (x - b0 bounds) / dominant bounds,
     b2 newBounds + (y - b2 bounds) / dominant bounds,
     b4 newBounds + (z - b4 bounds) / dominant bounds,
     1).
Proof.
  intros H0 H1 H2 newBounds. subst newBounds.
  rewrite new_bounds_of_positive_ranges by assumption. simpl.
  unfold Fields.CreateBoundsToImageCoordsTransform.
  fold (range0 bounds) (range1 bounds) (range2 bounds).
  destruct (Rgeb (range0 bounds) (range1 bounds)) eqn:A01;
  destruct (Rgeb (range0 bounds) (range2 bounds)) eqn:A02;
  destruct (Rgeb (range1 bounds) (range0 bounds)) eqn:A10;
  destruct (Rgeb (range1 bounds) (range2 bounds)) eqn:A12;
  rewrite ?Rgeb_true, ?Rgeb_false in *; simpl;
  first
    [ rewrite (dominant_is_range0 bounds) by assumption
    | rewrite (dominant_is_range1 bounds) by assumption
    | rewrite (dominant_is_range2 bounds) by lra ];
  unfold Fields.MultiplyPoint, Fields.GetElement, Fields.SetElement, Fields.Zero;
  simpl; rewrite half_eq;
  repeat match goal with |- (_, _) = (_, _) => apply f_equal2 end;
  unfold range0, range1, range2 in *; field; lra.
Qed.
End Bounds.

(** ** The normalized bounds keep the aspect *)

Section NormalizedBounds.
Context (E : Externals).

Lemma dominant_cases b :
  dominant b = range0 b \/ dominant b = range1 b \/ dominant b = range2 b.
Proof.
  unfold dominant, Rmax.
  destruct (Rle_dec (range1 b) (range2 b)), (Rle_dec (range0 b) _); auto.
Qed.

Lemma dominant_bounds b :
  range0 b <= dominant b /\ range1 b <= dominant b /\ range2 b <= dominant b.
Proof.
  unfold dominant, Rmax.
  destruct (Rle_dec (range1 b) (range2 b)), (Rle_dec (range0 b) _); lra.
Qed.

(** C5, in exact arithmetic.  For bounds whose three ranges are strictly
    positive, with [dominant] the longest range: each axis of the new
    bounds is centred at 0.5 and its length is the range of the axis
    divided by [dominant], so an axis with the dominant range is exactly
    [0, 1]; and the transform of [CreateBoundsToImageCoordsTransform] maps
    the box onto the new bounds with the one scale [1 / dominant]. *)
Theorem normalized_bounds_preserve_aspect (bounds : Bounds) :
  0 < range0 bounds -> 0 < range1 bounds -> 0 < range2 bounds ->
  let newBounds := Fields.ComputePolyDataToImageDataNewBounds E bounds in
  ((b0 newBounds + b1 newBounds) / 2 = 0.5
   /\ b1 newBounds - b0 newBounds = range0 bounds / dominant bounds
   /\ (range0 bounds = dominant bounds -> b0 newBounds = 0 /\ b1 newBounds = 1))
  /\ ((b2 newBounds + b3 newBounds) / 2 = 0.5
      /\ b3 newBounds - b2 newBounds = range1 bounds / dominant bounds
      /\ (range1 bounds = dominant bounds -> b2 newBounds = 0 /\ b3 newBounds = 1))
  /\ ((b4 newBounds + b5 newBounds) / 2 = 0.5
      /\ b5 newBounds - b4 newBounds = range2 bounds / dominant bounds
      /\ (range2 bounds = dominant bounds -> b4 newBounds = 0 /\ b5 newBounds = 1))
  /\ forall x y z : R,
       Fields.MultiplyPoint (Fields.CreateBoundsToImageCoordsTransform bounds)
         (x, y, z, 1)
       = (b0 newBounds + (x - b0 bounds) / dominant bounds,
          b2 newBounds + (y - b2 bounds) / dominant bounds,
          b4 newBounds + (z - b4 bounds) / dominant bounds,
          1).
Proof.
  intros H0 H1 H2 newBounds.
  assert (0 < dominant bounds) as Hd
    by (pose proof (dominant_bounds bounds); lra).
  split; [|split; [|split]];
    [| | |intros x y z; apply (transform_of_positive_ranges E); assumption];
    subst newBounds; rewrite new_bounds_of_positive_ranges by assumption;
    cbn [b0 b1 b2 b3 b4 b5];
    (split; [lra|]); (split; [lra|]); intros ->;
    (replace (dominant bounds / dominant bounds) with 1 by (field; lra));
    lra.
Qed.

End NormalizedBounds.

(** ** The normalized bounds on doubles *)

Section DoubleBounds.
Local Open Scope float_scope.

(** A box three times as long as it is wide and high, and a box whose
    corner is not at the origin. *)
Definition long_box : Binary64.Fields.Bounds :=
  Binary64.Fields.mkBounds 0 3 0 1 0 1.
Definition shifted_box : Binary64.Fields.Bounds :=
  Binary64.Fields.mkBounds 0x1.3333333333333p-2 1 0 0.5 0 0.5.

(** C5 on doubles.  For the bounds [(0, 3, 0, 1, 0, 1)] the y axis of the
    new bounds is the interval from 0.33333333333333337 to
    0.6666666666666666: its length, 0.33333333333333326, is below the
    range of the axis divided by the dominant range, 0.3333333333333333. *)
Lemma normalized_bounds_lose_the_aspect_in_doubles :
  (Binary64.Fields.b3
     (Binary64.Fields.ComputePolyDataToImageDataNewBounds long_box long_box)
   - Binary64.Fields.b2
       (Binary64.Fields.ComputePolyDataToImageDataNewBounds long_box long_box)
   <? (Binary64.Fields.b3 long_box - Binary64.Fields.b2 long_box)
      / (Binary64.Fields.b1 long_box - Binary64.Fields.b0 long_box))
  = true.
Proof. vm_compute. reflexivity. Qed.

(** What rounding leaves of it: the axis of the branch that is taken is
    the interval from 0 to 1, exactly. *)
Lemma dominant_axis_is_the_unit_interval_in_doubles
    (indeterminate bounds : Binary64.Fields.Bounds) :
  let range0 := Binary64.Fields.b1 bounds - Binary64.Fields.b0 bounds in
  let range1 := Binary64.Fields.b3 bounds - Binary64.Fields.b2 bounds in
  let range2 := Binary64.Fields.b5 bounds - Binary64.Fields.b4 bounds in
  let newBounds :=
    Binary64.Fields.ComputePolyDataToImageDataNewBounds indeterminate bounds in
  let first := ((range1 <=? range0) && (range2 <=? range0))%bool in
  let second := ((range0 <=? range1) && (range2 <=? range1))%bool in
  let third := ((range0 <=? range2) && (range1 <=? range2))%bool in
  (first = true ->
   Binary64.Fields.b0 newBounds = 0 /\ Binary64.Fields.b1 newBounds = 1)
  /\ (first = false -> second = true ->
      Binary64.Fields.b2 newBounds = 0 /\ Binary64.Fields.b3 newBounds = 1)
  /\ (first = false -> second = false -> third = true ->
      Binary64.Fields.b4 newBounds = 0 /\ Binary64.Fields.b5 newBounds = 1).
Proof.
  intros range0 range1 range2 newBounds first second third.
  subst newBounds.
  unfold Binary64.Fields.ComputePolyDataToImageDataNewBounds,
    Binary64.Fields.geb.
  fold range0 range1 range2. fold first second third.
  repeat split; intros; repeat match goal with H : _ = _ |- _ => rewrite H end;
    reflexivity.
Qed.

(** The mesh and the s-rep on doubles.  For the bounds
    [(0.3, 1, 0, 0.5, 0, 0.5)], the loop of [ConvertPolyDataToImageData]
    sends [x = 0.5] to 0.28571428571428575 and the matrix of
    [CreateBoundsToImageCoordsTransform] sends it to 0.2857142857142857;
    they send the corner [x = 0.3] to 0 and to -5.551115123125783e-17. *)
Lemma mesh_and_matrix_differ_in_doubles :
  fst (fst (Binary64.Fields.newPt shifted_box shifted_box (0.5, 0, 0)))
  = 0x1.2492492492493p-2
  /\ fst (fst (fst (Binary64.Fields.MultiplyPoint
                      (Binary64.Fields.CreateBoundsToImageCoordsTransform
                         shifted_box)
                      (0.5, 0, 0, 1))))
     = 0x1.2492492492492p-2
  /\ fst (fst (Binary64.Fields.newPt shifted_box shifted_box
                 (0x1.3333333333333p-2, 0, 0)))
     = 0
  /\ fst (fst (fst (Binary64.Fields.MultiplyPoint
                      (Binary64.Fields.CreateBoundsToImageCoordsTransform
                         shifted_box)
                      (0x1.3333333333333p-2, 0, 0, 1))))
     = -0x1p-54.
Proof. vm_compute. repeat split; reflexivity. Qed.

End DoubleBounds.

(** ** The grid *)

Lemma GetSkeletalPoint_Ok g l s p :
  EllipticalSRep.GetSkeletalPoint g l s = Ok p <->
  (0 <= l)%Z /\ (0 <= s)%Z
  /\ exists line, g !! Z.to_nat l = Some line /\ line !! Z.to_nat s = Some p.
Proof.
  unfold EllipticalSRep.GetSkeletalPoint.
  destruct (0 <=? l)%Z eqn:Hl, (0 <=? s)%Z eqn:Hs; simpl;
    try (split; [discriminate|intros (? & ? & _); lia]).
  apply Z.leb_le in Hl, Hs.
  destruct (g !! Z.to_nat l) as [line|]; [|split; [discriminate|]].
  - destruct (line !! Z.to_nat s) as [q|] eqn:Q; split.
    + intros [= ->]. eauto 6.
    + intros (_ & _ & line' & [= <-] & Hq). congruence.
    + discriminate.
    + intros (_ & _ & line' & [= <-] & Hq). congruence.
  - intros (_ & _ & line' & ? & _). discriminate.
Qed.

Lemma GetSkeletalPoint_update g l s l' s' f :
  (0 <= l')%Z -> (0 <= s')%Z ->
  EllipticalSRep.GetSkeletalPoint (EllipticalSRep.update l' s' f g) l s
  = match EllipticalSRep.GetSkeletalPoint g l s with
    | Ok p => Ok (if (l =? l')%Z && (s =? s')%Z then f p else p)
    | Throw e => Throw e
    end.
Proof.
  intros Hl' Hs'. unfold EllipticalSRep.GetSkeletalPoint, EllipticalSRep.update.
  destruct (0 <=? l)%Z eqn:Hl, (0 <=? s)%Z eqn:Hs; simpl; try reflexivity.
  apply Z.leb_le in Hl, Hs.
  rewrite list_lookup_alter.
  destruct (decide (Z.to_nat l' = Z.to_nat l)) as [El|El].
  - assert (l = l') as -> by lia. rewrite Z.eqb_refl. simpl.
    destruct (g !! Z.to_nat l') as [line|]; simpl; [|reflexivity].
    rewrite list_lookup_alter.
    destruct (decide (Z.to_nat s' = Z.to_nat s)) as [Es|Es].
    + assert (s = s') as -> by lia. rewrite Z.eqb_refl.
      destruct (line !! Z.to_nat s'); reflexivity.
    + assert ((s =? s')%Z = false) as -> by (apply Z.eqb_neq; lia).
      destruct (line !! Z.to_nat s); reflexivity.
  - assert ((l =? l')%Z = false) as -> by (apply Z.eqb_neq; lia). simpl.
    destruct (g !! Z.to_nat l) as [line|]; [|reflexivity].
    destruct (line !! Z.to_nat s); reflexivity.
Qed.

Lemma shape_update l s f g :
  (forall p, SkeletalPoint.IsCrest (f p) = SkeletalPoint.IsCrest p) ->
  EllipticalSRep.shape (EllipticalSRep.update l s f g) = EllipticalSRep.shape g.
Proof.
  intros Hf. unfold EllipticalSRep.shape, EllipticalSRep.update.
  apply list_eq. intros i. rewrite !list_lookup_fmap, list_lookup_alter.
  destruct (decide (Z.to_nat l = i)) as [<-|]; [|reflexivity].
  destruct (g !! Z.to_nat l) as [line|]; simpl; [|reflexivity].
  f_equal. apply list_eq. intros j.
  rewrite !list_lookup_fmap, list_lookup_alter.
  destruct (decide (Z.to_nat s = j)) as [<-|]; [|reflexivity].
  destruct (line !! Z.to_nat s); simpl; [|reflexivity].
  rewrite Hf. reflexivity.
Qed.

Lemma shape_length g : length (EllipticalSRep.shape g) = length g.
Proof. apply length_fmap. Qed.

Lemma GetNumberOfLines_shape g g' :
  EllipticalSRep.shape g = EllipticalSRep.shape g' ->
  EllipticalSRep.GetNumberOfLines g = EllipticalSRep.GetNumberOfLines g'.
Proof.
  intros H. unfold EllipticalSRep.GetNumberOfLines.
  rewrite <- (shape_length g), <- (shape_length g'), H. reflexivity.
Qed.

Lemma GetNumberOfSteps_shape g g' :
  EllipticalSRep.shape g = EllipticalSRep.shape g' ->
  EllipticalSRep.GetNumberOfSteps g = EllipticalSRep.GetNumberOfSteps g'.
Proof.
  unfold EllipticalSRep.shape, EllipticalSRep.GetNumberOfSteps.
  destruct g as [|line g], g' as [|line' g']; simpl; try discriminate;
    [reflexivity|].
  intros [= H _]. apply (f_equal length) in H.
  rewrite !length_fmap in H. lia.
Qed.

Lemma IsEmpty_shape g g' :
  EllipticalSRep.shape g = EllipticalSRep.shape g' ->
  EllipticalSRep.IsEmpty g = EllipticalSRep.IsEmpty g'.
Proof. destruct g, g'; simpl; try discriminate; reflexivity. Qed.

Lemma IsCrest_shape g g' l s p :
  EllipticalSRep.shape g = EllipticalSRep.shape g' ->
  EllipticalSRep.GetSkeletalPoint g l s = Ok p ->
  exists p', EllipticalSRep.GetSkeletalPoint g' l s = Ok p'
             /\ SkeletalPoint.IsCrest p' = SkeletalPoint.IsCrest p.
Proof.
  intros H. rewrite GetSkeletalPoint_Ok. intros (Hl & Hs & line & Hline & Hp).
  assert (EllipticalSRep.shape g !! Z.to_nat l
          = Some (SkeletalPoint.IsCrest <$> line)) as S1.
  { unfold EllipticalSRep.shape. rewrite list_lookup_fmap, Hline. reflexivity. }
  rewrite H in S1. unfold EllipticalSRep.shape in S1.
  rewrite list_lookup_fmap in S1.
  destruct (g' !! Z.to_nat l) as [line'|] eqn:Hline'; [|discriminate].
  simpl in S1. injection S1 as S1.
  assert ((SkeletalPoint.IsCrest <$> line') !! Z.to_nat s
          = Some (SkeletalPoint.IsCrest p)) as S2.
  { rewrite S1, list_lookup_fmap, Hp. reflexivity. }
  rewrite list_lookup_fmap in S2.
  destruct (line' !! Z.to_nat s) as [p'|] eqn:Hp'; [|discriminate].
  exists p'. split; [|simpl in S2; congruence].
  apply GetSkeletalPoint_Ok. eauto 6.
Qed.

(** In a valid grid the cells are those of a rectangle, and a cell is a
    crest point exactly at the last step. *)
Lemma Valid_cells g :
  EllipticalSRep.Valid g ->
  forall l s : nat,
    (Z.of_nat l < EllipticalSRep.GetNumberOfLines g)%Z ->
    (Z.of_nat s < EllipticalSRep.GetNumberOfSteps g)%Z ->
    exists p,
      EllipticalSRep.GetSkeletalPoint g (Z.of_nat l) (Z.of_nat s) = Ok p
      /\ SkeletalPoint.IsCrest p
         = (Z.of_nat s + 1 =? EllipticalSRep.GetNumberOfSteps g)%Z.
Proof.
  intros [n Hn] l s Hl Hs.
  unfold EllipticalSRep.GetNumberOfLines in Hl.
  assert (EllipticalSRep.GetNumberOfSteps g = Z.of_nat (n + 1)) as Hsteps.
  { destruct g as [|line g]; [simpl in Hl; lia|].
    simpl in Hn. injection Hn as Hn _. simpl.
    apply (f_equal length) in Hn.
    rewrite length_fmap, length_app, length_replicate in Hn. simpl in Hn.
    lia. }
  assert (EllipticalSRep.shape g !! l = Some (replicate n false ++ [true])) as Sl.
  { rewrite Hn. apply lookup_replicate_2. lia. }
  unfold EllipticalSRep.shape in Sl. rewrite list_lookup_fmap in Sl.
  destruct (g !! l) as [line|] eqn:Hline; [|discriminate].
  simpl in Sl. injection Sl as Sl.
  assert ((SkeletalPoint.IsCrest <$> line) !! s
          = Some (Z.of_nat s + 1 =? Z.of_nat (n + 1))%Z) as Ss.
  { rewrite Sl. destruct (decide (s < n)%nat).
    - rewrite lookup_app_l by (rewrite length_replicate; lia).
      rewrite lookup_replicate_2 by lia. f_equal. symmetry.
      apply Z.eqb_neq. lia.
    - rewrite lookup_app_r by (rewrite length_replicate; lia).
      rewrite length_replicate.
      replace (s - n)%nat with 0%nat by lia. simpl. f_equal. symmetry.
      apply Z.eqb_eq. lia. }
  rewrite list_lookup_fmap in Ss.
  destruct (line !! s) as [p|] eqn:Hp; [|discriminate].
  exists p. split.
  - apply GetSkeletalPoint_Ok. rewrite !Nat2Z.id. split; [lia|]. split; [lia|].
    eauto.
  - rewrite Hsteps. simpl in Ss. congruence.
Qed.

Lemma Valid_shape g g' :
  EllipticalSRep.shape g = EllipticalSRep.shape g' ->
  EllipticalSRep.Valid g -> EllipticalSRep.Valid g'.
Proof.
  intros H [n Hn]. exists n. rewrite <- H, Hn.
  rewrite <- (shape_length g'), <- H, shape_length. reflexivity.
Qed.

Lemma Valid_steps_positive g :
  EllipticalSRep.Valid g -> EllipticalSRep.IsEmpty g = false ->
  (0 < EllipticalSRep.GetNumberOfSteps g)%Z.
Proof.
  intros [n Hn] He. destruct g as [|line g]; [discriminate|].
  simpl in Hn. injection Hn as Hn _. simpl.
  apply (f_equal length) in Hn.
  rewrite length_fmap, length_app, length_replicate in Hn. simpl in Hn. lia.
Qed.

(** ** The curvature correction of one crest spoke *)

Lemma GetLength_nonneg v : 0 <= Vector3d.GetLength v.
Proof. apply sqrt_pos. Qed.

Lemma GetLength_square v :
  Vector3d.GetLength v * Vector3d.GetLength v
  = Vector3d.x v * Vector3d.x v + Vector3d.y v * Vector3d.y v
    + Vector3d.z v * Vector3d.z v.
Proof. unfold Vector3d.GetLength. apply sqrt_sqrt. nra. Qed.

Lemma Unit_of_nonzero of_zero v :
  Vector3d.GetLength v <> 0 ->
  Vector3d.Unit of_zero v = Ok (Vector3d.div v (Vector3d.GetLength v)).
Proof.
  intros H. unfold Vector3d.Unit.
  destruct (Reqb _ 0) eqn:D; [apply Reqb_true in D; tauto|reflexivity].
Qed.

(** The length of a unit vector scaled by a non-negative radius. *)
Lemma GetLength_resized v radius :
  Vector3d.GetLength v <> 0 -> 0 <= radius ->
  Vector3d.GetLength
    (Vector3d.mul (Vector3d.div v (Vector3d.GetLength v)) radius) = radius.
Proof.
  intros Hv Hr. pose proof (GetLength_square v) as Sq.
  set (n := Vector3d.GetLength v) in *.
  unfold Vector3d.GetLength at 1. simpl.
  replace (_ + _ + _)
    with (radius * radius
          * ((Vector3d.x v * Vector3d.x v + Vector3d.y v * Vector3d.y v
              + Vector3d.z v * Vector3d.z v) / (n * n)))
    by (field; exact Hv).
  rewrite <- Sq. replace (n * n / (n * n)) with 1 by (field; exact Hv).
  rewrite Rmult_1_r. apply sqrt_square, Hr.
Qed.

Section CrestCorrection.
Context (E : Externals).

Lemma SetRadius_of_nonzero radius spoke :
  Spoke.GetRadius spoke <> 0 ->
  Refiner.SetRadius E radius spoke
  = (Ok tt,
     Spoke.mk (Spoke.GetSkeletalPoint spoke)
       (Vector3d.mul
          (Vector3d.div (Spoke.GetDirection spoke) (Spoke.GetRadius spoke))
          radius)).
Proof.
  intros H. unfold Refiner.SetRadius, Spoke.SetRadius.
  rewrite Unit_of_nonzero by exact H. reflexivity.
Qed.

(** The target radius of a crest spoke: [1 / max(|curMax|, |curMin|)] at the
    mesh point nearest to its boundary point. *)
Definition largest_curvature (polyData : vtkPolyData E) (maxC minC : Z -> R)
    (spoke : Spoke.t) : R :=
  let idNearest := FindClosestPoint E polyData (Spoke.GetBoundaryPoint spoke) in
  Rmax (Rabs (maxC idNearest)) (Rabs (minC idNearest)).

Lemma largest_curvature_nonneg polyData maxC minC spoke :
  0 <= largest_curvature polyData maxC minC spoke.
Proof.
  unfold largest_curvature. eapply Rle_trans; [apply Rabs_pos|apply Rmax_l].
Qed.

Lemma correct_crest_spoke_flat polyData maxC minC spoke :
  largest_curvature polyData maxC minC spoke = 0 ->
  Refiner.correct_crest_spoke E polyData maxC minC spoke = (Ok tt, spoke).
Proof.
  intros H. unfold Refiner.correct_crest_spoke. simpl. unfold gets.
  fold (largest_curvature polyData maxC minC spoke). rewrite H.
  unfold one_over. destruct (Reqb 0 0) eqn:D; [reflexivity|].
  apply Reqb_false in D. tauto.
Qed.

Lemma correct_crest_spoke_short polyData maxC minC spoke :
  largest_curvature polyData maxC minC spoke <> 0 ->
  Spoke.GetRadius spoke <= 1 / largest_curvature polyData maxC minC spoke ->
  Refiner.correct_crest_spoke E polyData maxC minC spoke = (Ok tt, spoke).
Proof.
  intros H Hr. unfold Refiner.correct_crest_spoke. simpl. unfold gets.
  fold (largest_curvature polyData maxC minC spoke).
  unfold one_over. destruct (Reqb _ 0) eqn:D; [apply Reqb_true in D; tauto|].
  destruct (Rleb _ 0) eqn:L; [reflexivity|].
  apply Rleb_false in L. lra.
Qed.

Lemma correct_crest_spoke_long polyData maxC minC spoke :
  let rCrest := 1 / largest_curvature polyData maxC minC spoke in
  let unitDir :=
    Vector3d.div (Spoke.GetDirection spoke) (Spoke.GetRadius spoke) in
  largest_curvature polyData maxC minC spoke <> 0 ->
  rCrest < Spoke.GetRadius spoke ->
  Refiner.correct_crest_spoke E polyData maxC minC spoke
  = (Ok tt,
     Spoke.mk
       (translate (Spoke.GetSkeletalPoint spoke)
          (Vector3d.mul unitDir (Spoke.GetRadius spoke - rCrest)))
       (Vector3d.mul unitDir rCrest)).
Proof.
  intros rCrest unitDir H Hr.
  pose proof (largest_curvature_nonneg polyData maxC minC spoke) as Hc.
  assert (0 < rCrest) as Hpos.
  { unfold rCrest. apply Rdiv_lt_0_compat; lra. }
  assert (Spoke.GetRadius spoke <> 0) as Hnz by lra.
  unfold Refiner.correct_crest_spoke. simpl. unfold gets.
  fold (largest_curvature polyData maxC minC spoke).
  unfold one_over. destruct (Reqb _ 0) eqn:D; [apply Reqb_true in D; tauto|].
  fold rCrest. destruct (Rleb _ 0) eqn:L; [apply Rleb_true in L; lra|].
  unfold lift, Refiner.Unit. rewrite Unit_of_nonzero by exact Hnz.
  unfold modify. rewrite SetRadius_of_nonzero by exact Hnz.
  reflexivity.
Qed.

End CrestCorrection.

(** ** The three energy terms *)

Section Energy.
Context (E : Externals).

(** The three energy terms of an evaluation, when every step that computes
    them returns. *)
Definition energy_terms (this : Refiner.t E) (coeff : nat -> R)
    (spokeType : Refiner.SpokeType) : Result (R * R * R) :=
  tempSRep <- Refiner.Refine E (Refiner.m_srep E this) coeff spokeType ;;
  interpolatedTempSRep <-
    SmartInterpolateSRep E tempSRep (Refiner.m_interpolationLevel E this) ;;
  L0AndL1 <-
    Refiner.ComputeDistanceSquaredAndNormalToImage E this interpolatedTempSRep
      spokeType ;;
  srad <- Refiner.ComputeRSradPenalty E this interpolatedTempSRep spokeType ;;
  ret (fst L0AndL1, snd L0AndL1, srad).

Lemma EvaluateObjectiveFunction_unfold coeff spokeType (this : Refiner.t E) :
  Refiner.EvaluateObjectiveFunction E coeff spokeType this
  = match energy_terms this coeff spokeType with
    | Throw _ => (Ok 1e10, this)
    | Ok (L0, L1, L2) =>
        match Refiner.IncrementIteration E this with
        | (Ok _, this') =>
            (Ok (L0 * Refiner.m_L0Weight E this + L1 * Refiner.m_L1Weight E this
                 + L2 * Refiner.m_L2Weight E this), this')
        | (Throw _, this') => (Ok 1e10, this')
        end
    end.
Proof.
  unfold Refiner.EvaluateObjectiveFunction, energy_terms, try_catch. simpl.
  unfold lift, gets, get. simpl.
  destruct (Refiner.Refine E _ coeff spokeType) as [tempSRep|e]; simpl; [|reflexivity].
  destruct (SmartInterpolateSRep E tempSRep _) as [interp|e]; simpl; [|reflexivity].
  destruct (Refiner.ComputeDistanceSquaredAndNormalToImage E this interp spokeType)
    as [[L0 L1]|e]; simpl; [|reflexivity].
  destruct (Refiner.ComputeRSradPenalty E this interp spokeType) as [L2|e]; simpl;
    [|reflexivity].
  destruct (Refiner.IncrementIteration E this) as [[[]|e] this']; reflexivity.
Qed.
End Energy.

(** ** The objective function returns *)

Lemma Pow_loop_two (count : nat) (ret : Z) :
  (0 <= ret)%Z -> (ret * 2 ^ Z.of_nat count < 2 ^ 64)%Z ->
  Fields.Pow_loop count 2 ret = (ret * 2 ^ Z.of_nat count)%Z.
Proof.
  revert ret. induction count as [|count IH]; intros ret H0 H.
  - simpl. lia.
  - cbn [Fields.Pow_loop]. rewrite Nat2Z.inj_succ, Z.pow_succ_r in * by lia.
    assert (0 < 2 ^ Z.of_nat count)%Z by (apply Z.pow_pos_nonneg; lia).
    assert (Fields.size_t (ret * 2) = ret * 2)%Z as ->.
    { unfold Fields.size_t. apply Z.mod_small. nia. }
    rewrite IH by nia. lia.
Qed.

(** The density of the interpolation is not zero for a level below 64. *)
Lemma Pow_two (level : Z) :
  (0 <= level < 64)%Z -> Fields.Pow 2 (Fields.size_t level) = (2 ^ level)%Z.
Proof.
  intros H. unfold Fields.Pow.
  assert (Fields.size_t level = level) as ->.
  { unfold Fields.size_t. apply Z.mod_small.
    change (2 ^ 64)%Z with 18446744073709551616%Z. lia. }
  rewrite Pow_loop_two; rewrite ?Z2Nat.id by lia; [lia|lia|].
  rewrite Z.mul_1_l. apply Z.pow_lt_mono_r; lia.
Qed.

Section Evaluation.
Context (E : Externals).

(** C1.  [EvaluateObjectiveFunction] returns a value for every coefficient
    vector and every orientation: the weighted sum
    [L0 * m_L0Weight + L1 * m_L1Weight + L2 * m_L2Weight] of the three
    energy terms when every step of the [try] block returns (the four that
    compute the terms, and the report of the iteration), and [1e10] when
    one of them throws.  The interpolation level is one for which the
    density [Pow(2, level)] is not zero, so that the integer divisions of
    the penalty are defined. *)
Theorem EvaluateObjectiveFunction_never_throws (coeff : nat -> R)
    (spokeType : Refiner.SpokeType) (this : Refiner.t E) :
  (0 <= Refiner.m_interpolationLevel E this < 64)%Z ->
  exists (val : R) (this' : Refiner.t E),
    Refiner.EvaluateObjectiveFunction E coeff spokeType this = (Ok val, this')
    /\ match energy_terms E this coeff spokeType,
             fst (Refiner.IncrementIteration E this) with
       | Ok (L0, L1, L2), Ok _ =>
           val = L0 * Refiner.m_L0Weight E this
                 + L1 * Refiner.m_L1Weight E this
                 + L2 * Refiner.m_L2Weight E this
       | _, _ => val = 1e10
       end.
Proof.
  intros _. rewrite EvaluateObjectiveFunction_unfold.
  destruct (energy_terms E this coeff spokeType) as [[[L0 L1] L2]|e].
  - destruct (Refiner.IncrementIteration E this) as [[[]|e] this']; simpl; eauto.
  - eauto.
Qed.

End Evaluation.

(** ** The radius of a refined spoke *)

Lemma exp_mult_nat (x : R) (n : nat) : exp (INR n * x) = exp x ^ n.
Proof.
  induction n as [|n IH].
  - simpl. rewrite Rmult_0_l. apply exp_0.
  - rewrite S_INR, Rmult_plus_distr_r, Rmult_1_l, exp_plus, IH. simpl. ring.
Qed.

(** [e^-1000] is below half of the smallest positive double, [2^-1074]: the
    double nearest to it is [0]. *)
Lemma exp_minus_1000_underflows : exp (-1000) < / 2 ^ 1075.
Proof.
  assert (3 / 2 < exp (/ 2)) as Hhalf.
  { pose proof (exp_ineq1 (/ 2)). lra. }
  assert ((3 / 2) ^ 2000 <= exp 1000) as Hbig.
  { replace 1000 with (INR 2000 * / 2).
    - rewrite exp_mult_nat. apply pow_incr. lra.
    - rewrite INR_IZR_INZ. change (Z.of_nat 2000) with 2000%Z. lra. }
  assert (2 ^ 1075 < (3 / 2) ^ 2000) as Hpow.
  { unfold Rdiv. rewrite Rpow_mult_distr, pow_inv.
    apply (Rmult_lt_reg_r (2 ^ 2000)); [apply pow_lt; lra|].
    rewrite Rmult_assoc, Rinv_l, Rmult_1_r by (apply pow_nonzero; lra).
    rewrite <- pow_add. rewrite !pow_IZR. apply IZR_lt.
    vm_compute. reflexivity. }
  replace (-1000) with (- (1000)) by lra. rewrite exp_Ropp.
  apply Rinv_lt_contravar; [|lra].
  apply Rmult_lt_0_compat; [apply pow_lt; lra|apply exp_pos].
Qed.

Section Radius.
Context (E : Externals).

(** C2, in exact arithmetic.  The radius [Refine] gives a spoke,
    [exp(coeff) * oldRadius], is strictly positive for every coefficient
    when the old radius is. *)
Theorem new_radius_positive_in_exact_arithmetic (coeff oldRadius : R) :
  0 < oldRadius -> 0 < Refiner.newRadius_in Rmult exp coeff oldRadius.
Proof.
  intros H. unfold Refiner.newRadius_in.
  apply Rmult_lt_0_compat; [apply exp_pos|exact H].
Qed.

(** In doubles the radius is not below zero, when [exp] returns a number
    that is not negative. *)
Lemma new_radius_not_negative_in_doubles (exp : float -> float)
    (coeff oldRadius : float) :
  F64.nonneg (exp coeff) = true -> (0 <? oldRadius)%float = true ->
  (Refiner.newRadius_in PrimFloat.mul exp coeff oldRadius <? 0)%float = false.
Proof. apply F64.mul_not_below_zero. Qed.

(** C2, in doubles.  With the coefficient [-1000] and the old radius [1]
    the radius is [0]: [exp] returns [0] there, the double nearest to
    [e^-1000]. *)
Lemma new_radius_zero_in_doubles :
  exists coeff oldRadius : float,
    coeff = (-1000)%float /\ oldRadius = 1%float
    /\ (0 <? oldRadius)%float = true
    /\ forall exp : float -> float,
         exp coeff = 0%float ->
         (0 <? Refiner.newRadius_in PrimFloat.mul exp coeff oldRadius)%float
         = false
         /\ (Refiner.newRadius_in PrimFloat.mul exp coeff oldRadius =? 0)%float
            = true.
Proof.
  exists (-1000)%float, 1%float. do 3 (split; [reflexivity|]).
  intros exp0 H. unfold Refiner.newRadius_in. rewrite H.
  split; reflexivity.
Qed.

End Radius.

(** ** Counting the iterations *)

(** An integer that fits an [int] is stored as it is. *)
Lemma to_int_fits (z : Z) :
  (- 2 ^ 31 <= z <= INT_MAX)%Z -> to_int z = z.
Proof.
  unfold to_int, INT_MAX. intros H. rewrite Z.mod_small by lia. lia.
Qed.

Section Progress.
Context (E : Externals).

Abbreviation t := (Refiner.t E).

(** The members no method writes after the constructor. *)
Definition same_config (r r' : t) : Prop :=
  Refiner.m_voxelSpacing E r' = Refiner.m_voxelSpacing E r
  /\ Refiner.m_polyData E r' = Refiner.m_polyData E r
  /\ Refiner.m_masterBounds E r' = Refiner.m_masterBounds E r
  /\ Refiner.m_sdfAndGradient E r' = Refiner.m_sdfAndGradient E r
  /\ Refiner.m_srepToImageCoordsTransform E r'
     = Refiner.m_srepToImageCoordsTransform E r
  /\ Refiner.m_initialRegionSize E r' = Refiner.m_initialRegionSize E r
  /\ Refiner.m_finalRegionSize E r' = Refiner.m_finalRegionSize E r
  /\ Refiner.m_maxIterations E r' = Refiner.m_maxIterations E r
  /\ Refiner.m_interpolationLevel E r' = Refiner.m_interpolationLevel E r
  /\ Refiner.m_L0Weight E r' = Refiner.m_L0Weight E r
  /\ Refiner.m_L1Weight E r' = Refiner.m_L1Weight E r
  /\ Refiner.m_L2Weight E r' = Refiner.m_L2Weight E r
  /\ Refiner.m_totalProgressIterations E r'
     = Refiner.m_totalProgressIterations E r
  /\ Refiner.m_progressCallback E r' = Refiner.m_progressCallback E r.

(** What the counter holds after [k] increments, from [from]. *)
Definition counted (k : nat) (from : Z) : Z :=
  Nat.iter k (fun i => to_int (i + 1)) from.

(** The progress values of the [k] iterations after [from]. *)
Definition ticks (total from : Z) (k : nat) : list R :=
  (fun j : nat => IZR (counted j from) / IZR total) <$> seq 1 k.

(** From [r] to [r']: [k] iterations were counted and reported, and the
    grid kept its shape. *)
Definition advanced (k : nat) (r r' : t) : Prop :=
  same_config r r'
  /\ EllipticalSRep.shape (Refiner.m_srep E r')
     = EllipticalSRep.shape (Refiner.m_srep E r)
  /\ Refiner.m_iteration E r' = counted k (Refiner.m_iteration E r)
  /\ Refiner.reported E r'
     = Refiner.reported E r
       ++ match Refiner.m_progressCallback E r with
          | Some _ =>
              ticks (Refiner.m_totalProgressIterations E r)
                    (Refiner.m_iteration E r) k
          | None => []
          end.

Lemma same_config_refl r : same_config r r.
Proof. unfold same_config. tauto. Qed.

Lemma same_config_trans r1 r2 r3 :
  same_config r1 r2 -> same_config r2 r3 -> same_config r1 r3.
Proof. unfold same_config. intuition congruence. Qed.

Lemma counted_add j k from :
  counted (j + k) from = counted k (counted j from).
Proof. unfold counted. rewrite Nat.add_comm. apply Nat.iter_add. Qed.

Lemma ticks_app total from j k :
  ticks total from (j + k)
  = ticks total from j ++ ticks total (counted j from) k.
Proof.
  unfold ticks. rewrite seq_app, fmap_app. f_equal.
  replace (1 + j)%nat with (j + 1)%nat by lia.
  rewrite <- (fmap_add_seq j 1 k), <- list_fmap_compose.
  apply list_fmap_ext. intros _ i _. unfold compose.
  rewrite counted_add. reflexivity.
Qed.

Lemma advanced_refl r : advanced 0 r r.
Proof.
  unfold advanced. split; [apply same_config_refl|]. split; [reflexivity|].
  split; [reflexivity|]. unfold ticks. simpl.
  destruct (Refiner.m_progressCallback E r); rewrite app_nil_r; reflexivity.
Qed.

Lemma advanced_trans j k r1 r2 r3 :
  advanced j r1 r2 -> advanced k r2 r3 -> advanced (j + k) r1 r3.
Proof.
  intros (C1 & S1 & I1 & R1) (C2 & S2 & I2 & R2).
  split; [eapply same_config_trans; eassumption|].
  split; [congruence|]. split; [rewrite counted_add, <- I1; exact I2|].
  rewrite R2, R1.
  assert (Refiner.m_progressCallback E r2 = Refiner.m_progressCallback E r1
          /\ Refiner.m_totalProgressIterations E r2
             = Refiner.m_totalProgressIterations E r1) as [-> ->]
    by (unfold same_config in C1; tauto).
  rewrite I1. destruct (Refiner.m_progressCallback E r1).
  - rewrite ticks_app, app_assoc. reflexivity.
  - rewrite app_nil_r. reflexivity.
Qed.

Lemma ReportProgress_post r :
  post (Refiner.ReportProgress E)
    (fun _ r' =>
       same_config r r'
       /\ Refiner.m_srep E r' = Refiner.m_srep E r
       /\ Refiner.m_iteration E r' = Refiner.m_iteration E r
       /\ Refiner.reported E r'
          = Refiner.reported E r
            ++ match Refiner.m_progressCallback E r with
               | Some _ =>
                   [IZR (Refiner.m_iteration E r)
                    / IZR (Refiner.m_totalProgressIterations E r)]
               | None => []
               end)
    (fun _ r' =>
       same_config r r'
       /\ Refiner.m_srep E r' = Refiner.m_srep E r
       /\ Refiner.m_iteration E r' = Refiner.m_iteration E r
       /\ Refiner.reported E r'
          = Refiner.reported E r
            ++ match Refiner.m_progressCallback E r with
               | Some _ =>
                   [IZR (Refiner.m_iteration E r)
                    / IZR (Refiner.m_totalProgressIterations E r)]
               | None => []
               end)
    r.
Proof.
  unfold post, Refiner.ReportProgress. simpl. unfold gets. simpl.
  destruct (Refiner.m_progressCallback E r) as [f|] eqn:Cb; simpl.
  - unfold lift. destruct (f _) as [[]|e]; simpl;
      (split; [unfold same_config; simpl; tauto|]); rewrite ?Cb; auto.
  - split; [apply same_config_refl|]. rewrite app_nil_r. auto.
Qed.

Lemma IncrementIteration_advanced r :
  post (Refiner.IncrementIteration E)
    (fun _ r' => advanced 1 r r') (fun _ r' => advanced 1 r r') r.
Proof.
  unfold Refiner.IncrementIteration. apply post_bind, post_modify.
  eapply post_mono; [| |apply ReportProgress_post];
    cbv beta; intros _ r' (C & S & I & R);
    (split; [unfold same_config in *; simpl in *; tauto|]);
    (split; [simpl in S; rewrite S; reflexivity|]);
    (split; [simpl in I; exact I|]);
    simpl in R; rewrite R; f_equal;
    destruct (Refiner.m_progressCallback E r); reflexivity.
Qed.

End Progress.

(** ** The first two stages *)

Section Minimiser.
Context (E : Externals).

Abbreviation t := (Refiner.t E).

(** The minimiser respects its cap on the evaluations. *)
Definition capped_minimiser : Prop :=
  forall (n : Z) (x : list R) (r_start tol : R) (max_iter : Z),
    probes_at_most (Z.to_nat max_iter) (min_newuoa E n x r_start tol max_iter).

Lemma advanced_weaken k r r' :
  advanced E k r r' -> exists j, (j <= k)%nat /\ advanced E j r r'.
Proof. eauto. Qed.

Lemma EvaluateObjectiveFunction_advanced coeff spokeType (r : t) :
  post (Refiner.EvaluateObjectiveFunction E coeff spokeType)
    (fun _ r' => exists k, (k <= 1)%nat /\ advanced E k r r')
    (fun _ _ => False) r.
Proof.
  unfold post. rewrite EvaluateObjectiveFunction_unfold.
  destruct (energy_terms E r coeff spokeType) as [[[L0 L1] L2]|e].
  - pose proof (IncrementIteration_advanced E r) as H. unfold post in H.
    destruct (Refiner.IncrementIteration E r) as [[[]|e] r']; eauto.
  - exists 0%nat. split; [lia|apply advanced_refl].
Qed.

Lemma write_current_coeff_advanced x (r : t) :
  advanced E 0 r (Refiner.write_current_coeff E x r).
Proof.
  unfold Refiner.write_current_coeff.
  destruct (Refiner.m_currentCoeff E r); try apply advanced_refl;
    (split; [unfold same_config; simpl; tauto|]); simpl;
    (split; [reflexivity|]); (split; [reflexivity|]);
    destruct (Refiner.m_progressCallback E r); rewrite app_nil_r; reflexivity.
Qed.

Lemma run_search_advanced (n : nat) search f (r : t) :
  probes_at_most n search ->
  (forall coeff r1,
     post (f coeff) (fun _ r2 => exists k, (k <= 1)%nat /\ advanced E k r1 r2)
          (fun _ _ => False) r1) ->
  post (Refiner.run_search E search f)
    (fun _ r' => exists k, (k <= n)%nat /\ advanced E k r r')
    (fun _ _ => False) r.
Proof.
  intros Hcap Hf. revert r. induction Hcap as [n x|n x next _ IH]; intros r.
  - simpl. apply post_modify. exists 0%nat. split; [lia|].
    apply write_current_coeff_advanced.
  - cbn [Refiner.run_search]. apply post_bind, post_modify, post_bind.
    eapply post_mono; [| |apply Hf]; [|tauto].
    intros v r1 (k1 & Hk1 & A1). cbv beta.
    eapply post_mono; [| |apply IH]; [|tauto].
    intros _ r2 (k2 & Hk2 & A2). exists (0 + k1 + k2)%nat. split; [lia|].
    eapply advanced_trans; [|exact A2].
    eapply advanced_trans; [|exact A1].
    apply write_current_coeff_advanced.
Qed.

Lemma set_m_srep_advanced (r : t) g :
  EllipticalSRep.shape g = EllipticalSRep.shape (Refiner.m_srep E r) ->
  advanced E 0 r (Refiner.set_m_srep E g r).
Proof.
  intros H. split; [unfold same_config; simpl; tauto|]. simpl.
  split; [exact H|]. split; [reflexivity|].
  destruct (Refiner.m_progressCallback E r); rewrite app_nil_r; reflexivity.
Qed.

Lemma IsCrest_SetSpoke_up_down spokeType spoke p :
  spokeType <> SkeletalPoint.CrestOrientation ->
  SkeletalPoint.IsCrest (SkeletalPoint.SetSpoke spokeType spoke p)
  = SkeletalPoint.IsCrest p.
Proof. destruct spokeType; intros H; try reflexivity. congruence. Qed.

Lemma GetSkeletalPoint_post l s (r : t) (Q : SkeletalPoint.t -> t -> Prop) Qe :
  (forall p, EllipticalSRep.GetSkeletalPoint (Refiner.m_srep E r) l s = Ok p ->
     Q p r) ->
  (forall e, Qe e r) ->
  post (Refiner.GetSkeletalPoint E l s) Q Qe r.
Proof.
  intros HQ HQe. unfold Refiner.GetSkeletalPoint.
  apply post_bind, post_gets, post_lift.
  destruct (EllipticalSRep.GetSkeletalPoint _ l s); auto.
Qed.

Lemma RefineUpDownSpokes_advanced spokeType (r : t) :
  capped_minimiser ->
  spokeType <> SkeletalPoint.CrestOrientation ->
  post (Refiner.RefineUpDownSpokes E spokeType)
    (fun _ r' =>
       exists k, (k <= Z.to_nat (Refiner.m_maxIterations E r))%nat
                 /\ advanced E k r r')
    (fun _ _ => True) r.
Proof.
  intros Hcap Hty. unfold Refiner.RefineUpDownSpokes.
  apply post_bind, post_modify.
  set (r0 := Refiner.set_m_currentCoeff E _ r).
  assert (advanced E 0 r r0) as A0.
  { split; [unfold same_config; simpl; tauto|]. simpl.
    split; [reflexivity|]. split; [reflexivity|].
    destruct (Refiner.m_progressCallback E r); rewrite app_nil_r; reflexivity. }
  do 4 apply post_bind, post_gets. apply post_bind.
  eapply post_mono;
    [| |apply (run_search_advanced
                 (Z.to_nat (Refiner.m_maxIterations E r0)));
        [apply Hcap|intros; apply EvaluateObjectiveFunction_advanced]];
    [|tauto].
  intros _ r1 (k & Hk & A1). cbv beta.
  assert (advanced E k r r1) as A by (apply (advanced_trans E 0 k r r0 r1); assumption).
  clear A0 A1. assert (Refiner.m_maxIterations E r0 = Refiner.m_maxIterations E r)
    as Hmax by reflexivity. rewrite Hmax in Hk. clear Hmax. clearbody r0.
  do 2 apply post_bind, post_gets. apply post_bind, post_lift.
  destruct (Refiner.Refine E _ _ spokeType) as [refinedSRep|e]; [|exact I].
  apply post_bind.
  destruct (negb _); [exact I|]. apply post_ret. apply post_bind.
  destruct (negb _); [exact I|]. apply post_ret.
  apply post_bind, post_gets.
  eapply post_mono;
    [| |apply (post_for_upto_const _ _ (fun r2 => advanced E k r r2)
                 (fun _ _ => True))];
    [intros; eauto| |exact A|]; [tauto|].
  intros j r2 _ A2. apply post_bind, post_gets.
  eapply post_mono;
    [| |apply (post_for_upto_const _ _ (fun r3 => advanced E k r r3)
                 (fun _ _ => True))];
    [intros; eauto| |exact A2|]; [tauto|].
  intros i r3 _ A3. apply post_bind, post_lift.
  destruct (Refiner.GetSpokeAt _ _ _ _) as [refinedSpoke|e]; [|exact I].
  apply post_bind, GetSkeletalPoint_post; [|tauto]. intros p _.
  apply post_modify. replace k with (k + 0)%nat by lia.
  eapply advanced_trans; [exact A3|]. apply set_m_srep_advanced.
  apply shape_update. intros q. apply IsCrest_SetSpoke_up_down, Hty.
Qed.

End Minimiser.

(** ** The crest stage counts its crest points *)

Lemma shape_update_at l s f g :
  (0 <= l)%Z -> (0 <= s)%Z ->
  (forall p, EllipticalSRep.GetSkeletalPoint g l s = Ok p ->
     SkeletalPoint.IsCrest (f p) = SkeletalPoint.IsCrest p) ->
  EllipticalSRep.shape (EllipticalSRep.update l s f g) = EllipticalSRep.shape g.
Proof.
  intros Hl Hs Hf. unfold EllipticalSRep.shape, EllipticalSRep.update.
  apply list_eq. intros i. rewrite !list_lookup_fmap, list_lookup_alter.
  destruct (decide (Z.to_nat l = i)) as [<-|]; [|reflexivity].
  destruct (g !! Z.to_nat l) as [line|] eqn:Hline; simpl; [|reflexivity].
  f_equal. apply list_eq. intros j.
  rewrite !list_lookup_fmap, list_lookup_alter.
  destruct (decide (Z.to_nat s = j)) as [<-|]; [|reflexivity].
  destruct (line !! Z.to_nat s) as [p|] eqn:Hp; simpl; [|reflexivity].
  rewrite Hf; [reflexivity|]. apply GetSkeletalPoint_Ok. eauto 6.
Qed.

Lemma GetSkeletalPoint_nonneg g l s p :
  EllipticalSRep.GetSkeletalPoint g l s = Ok p -> (0 <= l)%Z /\ (0 <= s)%Z.
Proof. rewrite GetSkeletalPoint_Ok. tauto. Qed.

Lemma GetSkeletalPoint_lines g l s p :
  EllipticalSRep.GetSkeletalPoint g l s = Ok p ->
  (l < EllipticalSRep.GetNumberOfLines g)%Z.
Proof.
  rewrite GetSkeletalPoint_Ok. intros (Hl & _ & line & Hline & _).
  apply lookup_lt_Some in Hline. unfold EllipticalSRep.GetNumberOfLines. lia.
Qed.

Lemma IsCrest_GetCrestSpoke p spoke :
  SkeletalPoint.GetCrestSpoke p = Some spoke -> SkeletalPoint.IsCrest p = true.
Proof. unfold SkeletalPoint.IsCrest. intros ->. reflexivity. Qed.

Lemma SetSpoke_crest_same p spoke :
  SkeletalPoint.GetCrestSpoke p = Some spoke ->
  SkeletalPoint.SetSpoke SkeletalPoint.CrestOrientation spoke p = p.
Proof. destruct p as [u d c]. simpl. intros ->. reflexivity. Qed.

Section CrestCount.
Context (E : Externals).

Abbreviation t := (Refiner.t E).

Lemma on_crest_spoke_advanced l s (body : St Spoke.t unit) (r : t) :
  (0 <= l)%Z -> (0 <= s)%Z ->
  post (Refiner.on_crest_spoke E l s body)
    (fun _ r' => advanced E 0 r r') (fun _ r' => advanced E 0 r r') r.
Proof.
  intros Hl Hs. unfold post, Refiner.on_crest_spoke.
  destruct (EllipticalSRep.GetSkeletalPoint _ l s) as [p|e] eqn:Hp;
    [|apply advanced_refl].
  unfold SkeletalPoint.GetSpoke.
  destruct (SkeletalPoint.GetCrestSpoke p) as [spoke|] eqn:Hc;
    [|apply advanced_refl].
  assert (forall spoke',
    advanced E 0 r
      (Refiner.set_m_srep E
         (EllipticalSRep.update l s
            (SkeletalPoint.SetSpoke SkeletalPoint.CrestOrientation spoke')
            (Refiner.m_srep E r)) r)) as A.
  { intros spoke'. apply set_m_srep_advanced, shape_update_at; try assumption.
    intros q Hq. rewrite Hp in Hq. injection Hq as <-.
    rewrite (IsCrest_GetCrestSpoke p spoke Hc). reflexivity. }
  destruct (body spoke) as [[[]|e] spoke']; apply A.
Qed.

(** A crest stage counts one iteration for every line of a valid grid. *)
Lemma for_each_crest_spoke_advanced (body : St Spoke.t unit) (r : t) :
  EllipticalSRep.Valid (Refiner.m_srep E r) ->
  post (Refiner.for_each_crest_spoke E body)
    (fun _ r' =>
       advanced E (Z.to_nat (EllipticalSRep.GetNumberOfLines (Refiner.m_srep E r)))
         r r')
    (fun _ _ => True) r.
Proof.
  intros HV. unfold Refiner.for_each_crest_spoke.
  apply post_bind, post_gets.
  apply (post_for_upto _ _ (fun j r1 => advanced E j r r1) (fun _ _ => True));
    [apply advanced_refl|].
  intros j r1 Hj A1. apply post_bind, post_gets.
  pose proof A1 as (_ & S1 & _).
  assert (EllipticalSRep.GetNumberOfSteps (Refiner.m_srep E r1)
          = EllipticalSRep.GetNumberOfSteps (Refiner.m_srep E r)) as Hsteps
    by (apply GetNumberOfSteps_shape, S1).
  rewrite Hsteps. set (N := EllipticalSRep.GetNumberOfSteps (Refiner.m_srep E r)).
  assert (0 < N)%Z as HN.
  { apply Valid_steps_positive; [exact HV|]. cbv beta in Hj.
    unfold EllipticalSRep.GetNumberOfLines in Hj.
    destruct (Refiner.m_srep E r); [simpl in Hj; lia|reflexivity]. }
  eapply post_mono;
    [| |apply (post_for_upto N _
                 (fun k r2 =>
                    advanced E (j + (if (Z.of_nat k =? N)%Z then 1 else 0))%nat r r2)
                 (fun _ _ => True))]; [| tauto| |].
  - intros u r2. cbv beta. rewrite Z2Nat.id by lia. rewrite Z.eqb_refl.
    replace (j + 1)%nat with (S j) by lia. tauto.
  - cbv beta. change (Z.of_nat 0) with 0%Z.
    replace (0 =? N)%Z with false by (symmetry; apply Z.eqb_neq; lia).
    rewrite Nat.add_0_r. exact A1.
  - intros k r2 Hk A2.
    replace (Z.of_nat k =? N)%Z with false in A2
      by (symmetry; apply Z.eqb_neq; lia).
    rewrite Nat.add_0_r in A2.
    pose proof A2 as (_ & S2 & _).
    assert (EllipticalSRep.Valid (Refiner.m_srep E r2)) as HV2
      by (eapply Valid_shape; [symmetry; exact S2|exact HV]).
    destruct (Valid_cells _ HV2 j k) as (p & Hp & Hcrest).
    { rewrite (GetNumberOfLines_shape _ _ S2). exact Hj. }
    { rewrite (GetNumberOfSteps_shape _ _ S2). exact Hk. }
    rewrite (GetNumberOfSteps_shape _ _ S2) in Hcrest. fold N in Hcrest.
    apply post_bind, GetSkeletalPoint_post; [|tauto].
    intros q Hq. rewrite Hp in Hq. injection Hq as <-.
    rewrite Hcrest.
    replace (Z.of_nat (S k) =? N)%Z with (Z.of_nat k + 1 =? N)%Z
      by (f_equal; lia).
    destruct (Z.of_nat k + 1 =? N)%Z.
    + apply post_bind.
      eapply post_mono; [| |apply IncrementIteration_advanced]; [|tauto].
      intros u3 r3 A3. cbv beta.
      eapply post_mono; [| |apply on_crest_spoke_advanced]; [| |lia|lia];
        [|tauto].
      intros u4 r4 A4. cbv beta.
      replace (j + 1)%nat with (j + 1 + 0)%nat by lia.
      eapply advanced_trans; [|exact A4].
      eapply advanced_trans; [exact A2|exact A3].
    + apply post_ret. rewrite Nat.add_0_r. exact A2.
Qed.

End CrestCount.

(** ** The progress values of a run *)

(** The numerators of [ticks], and what they are while the counter stays
    an [int]. *)
Definition tick_numbers (from : Z) (k : nat) : list Z :=
  (fun j : nat => counted j from) <$> seq 1 k.

Definition plain_numbers (from : Z) (k : nat) : list Z :=
  (fun j : nat => (from + Z.of_nat j)%Z) <$> seq 1 k.

(** A list of progress values, as the claim describes it. *)
Definition nondecreasing (l : list R) : Prop :=
  forall (i j : nat) (x y : R),
    (i <= j)%nat -> l !! i = Some x -> l !! j = Some y -> x <= y.

Definition progress_stream (l : list R) : Prop :=
  nondecreasing l /\ (forall x, x ∈ l -> 0 <= x <= 1) /\ last l = Some 1.

Lemma ticks_tick_numbers total from k :
  ticks total from k = (fun n => IZR n / IZR total) <$> tick_numbers from k.
Proof.
  unfold ticks, tick_numbers. rewrite <- list_fmap_compose. reflexivity.
Qed.

Lemma counted_fits k from :
  (- 2 ^ 31 <= from)%Z -> (from + Z.of_nat k <= INT_MAX)%Z ->
  counted k from = (from + Z.of_nat k)%Z.
Proof.
  intros Hfrom. induction k as [|k IH]; intros Hk.
  - simpl. lia.
  - change (counted (S k) from) with (to_int (counted k from + 1)).
    rewrite IH by lia. rewrite to_int_fits by (unfold INT_MAX in *; lia). lia.
Qed.

Lemma tick_numbers_fit from k :
  (- 2 ^ 31 <= from)%Z -> (from + Z.of_nat k <= INT_MAX)%Z ->
  tick_numbers from k = plain_numbers from k.
Proof.
  intros Hfrom Hk. unfold tick_numbers, plain_numbers.
  apply list_fmap_ext. intros i j Hj. apply lookup_seq in Hj as [-> Hi].
  apply counted_fits; lia.
Qed.

Lemma plain_numbers_between from k n :
  n ∈ plain_numbers from k -> (from < n <= from + Z.of_nat k)%Z.
Proof.
  unfold plain_numbers. rewrite list_elem_of_fmap. intros (j & -> & Hj).
  apply elem_of_seq in Hj. lia.
Qed.

Lemma plain_numbers_sorted from k : StronglySorted Z.le (plain_numbers from k).
Proof.
  unfold plain_numbers. generalize 1%nat as start.
  induction k as [|k IH]; intros start; simpl; constructor.
  - apply IH.
  - apply Forall_forall. intros n Hn. apply list_elem_of_fmap in Hn.
    destruct Hn as (j & -> & Hj). apply elem_of_seq in Hj. lia.
Qed.

Lemma plain_numbers_last from k :
  last (plain_numbers from (S k)) = Some (from + Z.of_nat (S k))%Z.
Proof.
  unfold plain_numbers. rewrite seq_S, fmap_app. simpl.
  rewrite last_snoc. reflexivity.
Qed.

Lemma StronglySorted_nondecreasing l :
  StronglySorted Rle l -> nondecreasing l.
Proof.
  intros HS. induction HS as [|a l HS IH Ha]; intros i j x y Hij Hi Hj.
  - rewrite lookup_nil in Hi. discriminate.
  - destruct i as [|i], j as [|j]; simpl in Hi, Hj.
    + injection Hi as <-. injection Hj as <-. lra.
    + injection Hi as <-. rewrite Forall_forall in Ha. apply Ha.
      eapply list_elem_of_lookup_2. exact Hj.
    + lia.
    + apply (IH i j); [lia|assumption|assumption].
Qed.

(** A sorted list of numerators between [0] and [total] that ends with
    [total] gives a progress stream. *)
Lemma progress_stream_of_numbers (total : Z) (l : list Z) :
  (0 < total)%Z ->
  StronglySorted Z.le l -> (forall n, n ∈ l -> (0 <= n <= total)%Z) ->
  last l = Some total ->
  progress_stream ((fun n => IZR n / IZR total) <$> l).
Proof.
  intros HT HS HB HL.
  assert (0 < IZR total) as HT' by (apply IZR_lt; exact HT).
  split; [|split].
  - apply StronglySorted_nondecreasing.
    clear HB HL. induction HS as [|a l HS IH Ha]; simpl; constructor.
    + exact IH.
    + apply Forall_forall. intros x Hx.
      apply list_elem_of_fmap in Hx. destruct Hx as (n & -> & Hn).
      apply Rmult_le_compat_r; [left; apply Rinv_0_lt_compat; exact HT'|].
      apply IZR_le. revert n Hn. apply Forall_forall. exact Ha.
  - intros x Hx. apply list_elem_of_fmap in Hx. destruct Hx as (n & -> & Hn).
    destruct (HB n Hn) as [H0 H1]. apply IZR_le in H0, H1. split.
    + apply Rmult_le_pos; [exact H0|left; apply Rinv_0_lt_compat; exact HT'].
    + apply (Rmult_le_reg_r (IZR total)); [exact HT'|].
      unfold Rdiv. rewrite Rmult_assoc, Rinv_l by lra. lra.
  - rewrite fmap_last, HL. simpl. f_equal. unfold Rdiv.
    apply Rinv_r. lra.
Qed.

Section RunTrace.
Context (E : Externals).

Abbreviation t := (Refiner.t E).

Lemma advanced_Valid k (r r' : t) :
  advanced E k r r' -> EllipticalSRep.Valid (Refiner.m_srep E r) ->
  EllipticalSRep.Valid (Refiner.m_srep E r').
Proof. intros (_ & HS & _) HV. eapply Valid_shape; [symmetry; exact HS|exact HV]. Qed.

Lemma advanced_lines k (r r' : t) :
  advanced E k r r' ->
  EllipticalSRep.GetNumberOfLines (Refiner.m_srep E r')
  = EllipticalSRep.GetNumberOfLines (Refiner.m_srep E r).
Proof. intros (_ & HS & _). apply GetNumberOfLines_shape, HS. Qed.

(** The crest stage counts two iterations for every line. *)
Lemma RefineCrestSpokes_advanced (r : t) :
  EllipticalSRep.Valid (Refiner.m_srep E r) ->
  post (Refiner.RefineCrestSpokes E)
    (fun _ r' =>
       advanced E
         (2 * Z.to_nat (EllipticalSRep.GetNumberOfLines (Refiner.m_srep E r)))
         r r')
    (fun _ _ => True) r.
Proof.
  intros HV. unfold Refiner.RefineCrestSpokes.
  do 2 apply post_bind, post_gets. apply post_bind.
  unfold Refiner.OptimizeCrestSpokeLengths. apply post_bind, post_gets.
  eapply post_mono; [| |apply for_each_crest_spoke_advanced; exact HV];
    [|tauto].
  intros ? r1 A1. cbv beta in A1 |- *. apply post_bind, post_gets.
  destruct (MaximumCurvature E _) as [maxC|]; [|exact I].
  destruct (MinimumCurvature E _) as [minC|]; [|exact I].
  unfold Refiner.correct_crest_spokes. apply post_bind, post_gets.
  eapply post_mono;
    [| |apply for_each_crest_spoke_advanced, (advanced_Valid _ _ _ A1 HV)];
    [|tauto].
  intros ? r2 A2. cbv beta. rewrite (advanced_lines _ _ _ A1) in A2.
  replace (2 * _)%nat with
    (Z.to_nat (EllipticalSRep.GetNumberOfLines (Refiner.m_srep E r))
     + Z.to_nat (EllipticalSRep.GetNumberOfLines (Refiner.m_srep E r)))%nat
    by lia.
  exact (advanced_trans E _ _ _ _ _ A1 A2).
Qed.

(** The values a complete run reports, when it starts with a callback:
    the start of each stage, the evaluations of the first two stages that
    succeed, and two iterations for every line in the crest stage. *)
Definition run_trace (maxIterations : Z) (lines k1 k2 : nat) : list Z :=
  [0%Z] ++ tick_numbers 0 k1
  ++ [to_int maxIterations] ++ tick_numbers (to_int maxIterations) k2
  ++ [to_int (2 * maxIterations)]
  ++ tick_numbers (to_int (2 * maxIterations)) (2 * lines).

Lemma Run_reports (r : t) :
  capped_minimiser E ->
  EllipticalSRep.Valid (Refiner.m_srep E r) ->
  EllipticalSRep.IsEmpty (Refiner.m_srep E r) = false ->
  Refiner.m_progressCallback E r <> None ->
  post (Refiner.Run E)
    (fun srep r' =>
       srep = Refiner.m_srep E r'
       /\ exists k1 k2 : nat,
         (k1 <= Z.to_nat (Refiner.m_maxIterations E r))%nat
         /\ (k2 <= Z.to_nat (Refiner.m_maxIterations E r))%nat
         /\ Refiner.reported E r'
            = Refiner.reported E r
              ++ ((fun n => IZR n / IZR (Refiner.m_totalProgressIterations E r))
                    <$> run_trace (Refiner.m_maxIterations E r)
                          (Z.to_nat (EllipticalSRep.GetNumberOfLines
                                       (Refiner.m_srep E r)))
                          k1 k2))
    (fun _ _ => True) r.
Proof.
  intros Hcap HV Hne Hcb. unfold Refiner.Run.
  apply post_bind, post_gets. rewrite Hne. simpl negb. cbv iota.
  apply post_bind.
  set (T := Refiner.m_totalProgressIterations E r).
  set (mx := Refiner.m_maxIterations E r).
  set (L := Z.to_nat (EllipticalSRep.GetNumberOfLines (Refiner.m_srep E r))).
  destruct (Refiner.m_progressCallback E r) as [f|] eqn:Hf; [clear Hcb|congruence].
  (* what is kept from one step to the next *)
  pose (inv := fun (it : Z) (tr : list Z) (r1 : t) =>
    same_config E r r1
    /\ EllipticalSRep.shape (Refiner.m_srep E r1)
       = EllipticalSRep.shape (Refiner.m_srep E r)
    /\ Refiner.m_iteration E r1 = it
    /\ Refiner.reported E r1
       = Refiner.reported E r ++ ((fun n => IZR n / IZR T) <$> tr)).
  assert (forall it tr r1, inv it tr r1 ->
            Refiner.m_progressCallback E r1 = Some f
            /\ Refiner.m_totalProgressIterations E r1 = T
            /\ Refiner.m_maxIterations E r1 = mx
            /\ EllipticalSRep.Valid (Refiner.m_srep E r1)
            /\ EllipticalSRep.GetNumberOfLines (Refiner.m_srep E r1)
               = EllipticalSRep.GetNumberOfLines (Refiner.m_srep E r)) as Hinv.
  { intros it tr r1 (C & S1 & _). unfold same_config in C.
    repeat split; try (rewrite <- Hf); try tauto.
    - eapply Valid_shape; [symmetry; exact S1|exact HV].
    - apply GetNumberOfLines_shape, S1. }
  assert (forall it tr r1, inv it tr r1 ->
            forall it', inv it' tr (Refiner.set_m_iteration E it' r1)) as Hset.
  { intros it tr r1 (C & S1 & I1 & R1) it'.
    split; [unfold same_config in *; simpl; tauto|]. simpl. auto. }
  assert (forall it tr r1, inv it tr r1 ->
            post (Refiner.ReportProgress E)
              (fun _ r2 => inv it (tr ++ [it]) r2) (fun _ _ => True) r1) as Hrep.
  { intros it tr r1 H1. destruct (Hinv _ _ _ H1) as (Cb & HT & _).
    destruct H1 as (C & S1 & I1 & R1).
    eapply post_mono; [| |apply ReportProgress_post]; [|tauto].
    intros ? r2 (C2 & S2 & I2 & R2). cbv beta.
    split; [eapply same_config_trans; eassumption|].
    split; [congruence|]. split; [congruence|].
    rewrite R2, R1, Cb, HT, I1, fmap_app, app_assoc. reflexivity. }
  assert (forall it tr r1 k r2, inv it tr r1 -> advanced E k r1 r2 ->
            inv (counted k it) (tr ++ tick_numbers it k) r2) as Hadv.
  { intros it tr r1 k r2 H1 (C2 & S2 & I2 & R2).
    destruct (Hinv _ _ _ H1) as (Cb & HT & _).
    destruct H1 as (C & S1 & I1 & R1).
    split; [eapply same_config_trans; eassumption|].
    split; [congruence|]. split; [congruence|].
    rewrite R2, R1, Cb, HT, I1, fmap_app, app_assoc, ticks_tick_numbers.
    reflexivity. }
  assert (inv (Refiner.m_iteration E r) [] r) as H0.
  { split; [apply same_config_refl|]. simpl. rewrite app_nil_r. auto. }
  (* the first stage *)
  apply post_bind, post_modify. apply post_bind.
  eapply post_mono; [| |apply (Hrep 0%Z []), (Hset _ _ _ H0)]; [|tauto].
  intros ? r1 H1. cbv beta. apply post_bind. cbn [Refiner.RefineSpokes].
  eapply post_mono; [| |apply RefineUpDownSpokes_advanced]; [|tauto| |];
    [|exact Hcap|discriminate].
  intros ? r2 (k1 & Hk1 & A2). cbv beta.
  pose proof (Hadv _ _ _ _ _ H1 A2) as H2.
  destruct (Hinv _ _ _ H1) as (_ & _ & Hmx1 & _). rewrite Hmx1 in Hk1.
  (* the second stage *)
  apply post_bind, post_modify. apply post_bind.
  destruct (Hinv _ _ _ H2) as (_ & _ & Hmx2 & _). rewrite Hmx2.
  eapply post_mono; [| |apply (Hrep (to_int (1 * mx))), (Hset _ _ _ H2)];
    [|tauto].
  intros ? r3 H3. cbv beta. apply post_bind. cbn [Refiner.RefineSpokes].
  eapply post_mono; [| |apply RefineUpDownSpokes_advanced]; [|tauto| |];
    [|exact Hcap|discriminate].
  intros ? r4 (k2 & Hk2 & A4). cbv beta.
  pose proof (Hadv _ _ _ _ _ H3 A4) as H4.
  destruct (Hinv _ _ _ H3) as (_ & _ & Hmx3 & HV3 & HL3). rewrite Hmx3 in Hk2.
  (* the crest stage *)
  apply post_bind, post_modify. apply post_bind.
  destruct (Hinv _ _ _ H4) as (_ & _ & Hmx4 & _). rewrite Hmx4.
  eapply post_mono; [| |apply (Hrep (to_int (2 * mx))), (Hset _ _ _ H4)];
    [|tauto].
  intros ? r5 H5. cbv beta. apply post_bind. cbn [Refiner.RefineSpokes].
  destruct (Hinv _ _ _ H5) as (_ & _ & _ & HV5 & HL5).
  eapply post_mono; [| |apply RefineCrestSpokes_advanced; exact HV5]; [|tauto].
  intros ? r6 A6. cbv beta. rewrite HL5 in A6. fold L in A6.
  pose proof (Hadv _ _ _ _ _ H5 A6) as H6.
  apply post_modify, post_gets. split; [reflexivity|].
  exists k1, k2. split; [exact Hk1|]. split; [exact Hk2|].
  destruct H6 as (_ & _ & _ & R6). simpl. rewrite R6. f_equal. f_equal.
  unfold run_trace. rewrite Z.mul_1_l. simpl. rewrite <- !app_assoc. simpl.
  reflexivity.
Qed.

End RunTrace.

(** The trace of a run while the counter stays an [int]. *)
Lemma run_trace_fits (maxIterations : Z) (lines k1 k2 : nat) :
  (1 <= maxIterations)%Z ->
  (k1 <= Z.to_nat maxIterations)%nat -> (k2 <= Z.to_nat maxIterations)%nat ->
  (2 * maxIterations + 2 * Z.of_nat lines <= INT_MAX)%Z ->
  run_trace maxIterations lines k1 k2
  = [0%Z] ++ plain_numbers 0 k1
    ++ [maxIterations] ++ plain_numbers maxIterations k2
    ++ [(2 * maxIterations)%Z] ++ plain_numbers (2 * maxIterations) (2 * lines).
Proof.
  intros Hmx Hk1 Hk2 Hfit. unfold run_trace.
  rewrite !to_int_fits by (unfold INT_MAX in *; lia).
  rewrite !tick_numbers_fit by (unfold INT_MAX in *; lia). reflexivity.
Qed.

(** The trace of a run is a progress stream when the total is the one the
    constructor computes, and an [int]. *)
Lemma run_trace_progress_stream (maxIterations : Z) (lines k1 k2 : nat) :
  (1 <= maxIterations)%Z -> (1 <= lines)%nat ->
  (k1 <= Z.to_nat maxIterations)%nat -> (k2 <= Z.to_nat maxIterations)%nat ->
  (2 * maxIterations + 2 * Z.of_nat lines <= INT_MAX)%Z ->
  let total := (2 * maxIterations + 2 * Z.of_nat lines)%Z in
  progress_stream
    ((fun n => IZR n / IZR total) <$> run_trace maxIterations lines k1 k2).
Proof.
  intros Hmx HL Hk1 Hk2 Hfit total.
  rewrite run_trace_fits by assumption.
  apply progress_stream_of_numbers; [unfold total; lia| | |].
  - repeat (apply StronglySorted_app_2 || apply plain_numbers_sorted
            || (constructor; [constructor|constructor])).
    all: intros x y Hx Hy;
      repeat match goal with
      | H : _ ∈ _ ++ _ |- _ => apply elem_of_app in H; destruct H as [H|H]
      | H : _ ∈ [_] |- _ => apply list_elem_of_singleton in H; subst
      | H : _ ∈ plain_numbers _ _ |- _ => apply plain_numbers_between in H
      end; lia.
  - intros n Hn.
    repeat match goal with
      | H : _ ∈ _ ++ _ |- _ => apply elem_of_app in H; destruct H as [H|H]
      | H : _ ∈ [_] |- _ => apply list_elem_of_singleton in H; subst
      | H : _ ∈ plain_numbers _ _ |- _ => apply plain_numbers_between in H
      end; unfold total; lia.
  - rewrite !app_assoc.
    destruct lines as [|lines]; [lia|].
    replace (2 * S lines)%nat with (S (2 * lines + 1)) by lia.
    rewrite last_app, plain_numbers_last. unfold total. f_equal. lia.
Qed.

(** ** The constructor and the entry point *)

Section Constructor.
Context (E : Externals).

Abbreviation t := (Refiner.t E).

(** [GetInitialCoefficients] writes the two coefficient vectors only. *)
Definition same_but_coeffs (r r' : t) : Prop :=
  same_config E r r'
  /\ Refiner.m_srep E r' = Refiner.m_srep E r
  /\ Refiner.m_iteration E r' = Refiner.m_iteration E r
  /\ Refiner.reported E r' = Refiner.reported E r.

Lemma same_but_coeffs_refl r : same_but_coeffs r r.
Proof. split; [apply same_config_refl|auto]. Qed.

Lemma GetInitialCoefficients_post (r : t) :
  post (Refiner.GetInitialCoefficients E)
    (fun _ r' => same_but_coeffs r r') (fun _ _ => True) r.
Proof.
  unfold Refiner.GetInitialCoefficients. do 2 apply post_bind, post_gets.
  apply (post_for_upto_const _ _ (fun r1 => same_but_coeffs r r1)
           (fun _ _ => True)); [apply same_but_coeffs_refl|].
  intros l r1 _ H1.
  apply (post_for_upto_const _ _ (fun r2 => same_but_coeffs r r2)
           (fun _ _ => True)); [exact H1|].
  clear r1 H1. intros s r1 _ H1.
  apply post_bind, GetSkeletalPoint_post; [|tauto]. intros p _.
  apply post_bind, post_lift. destruct (Refiner.Unit E _) as [up|e]; [|exact I].
  apply post_bind, post_modify.
  apply post_bind, GetSkeletalPoint_post; [|tauto]. intros q _.
  apply post_bind, post_lift. destruct (Refiner.Unit E _) as [down|e]; [|exact I].
  apply post_modify. destruct H1 as (C & S1 & I1 & R1).
  split; [unfold same_config in *; simpl; tauto|]. simpl. auto.
Qed.

(** What the constructor leaves, when it returns. *)
Lemma Refiner_new_post srep polyData initialRegionSize finalRegionSize
    maxIterations interpolationLevel L0Weight L1Weight L2Weight (w : World) :
  post (Logic.Refiner_new E srep polyData initialRegionSize finalRegionSize
          maxIterations interpolationLevel L0Weight L1Weight L2Weight)
    (fun this w' =>
       Refiner.m_srep E this = srep
       /\ Refiner.m_maxIterations E this = maxIterations
       /\ Refiner.m_totalProgressIterations E this
          = to_int (to_int (2 * maxIterations)
                    + 2 * EllipticalSRep.GetNumberOfLines srep)
       /\ Refiner.reported E this = []
       /\ progressEvents w' = progressEvents w)
    (fun _ _ => True) w.
Proof.
  unfold Logic.Refiner_new. apply post_bind, post_lift.
  destruct (Fields.ComputeMasterBounds E polyData _) as [bounds|e]; [|exact I].
  destruct polyData as [polyData|]; [|exact I].
  apply post_bind, post_modify, post_bind, post_lift.
  destruct (Fields.CreateAntiAliasSignedDistanceMap E _ _ _) as [field|e];
    [|exact I].
  match goal with
  | |- context [Refiner.GetInitialCoefficients E ?r0] =>
      pose proof (GetInitialCoefficients_post r0) as H; unfold post in H;
      destruct (Refiner.GetInitialCoefficients E r0) as [[[]|e] this]
  end; [|exact I].
  apply post_ret. destruct H as (C & S1 & I1 & R1).
  unfold same_config in C. simpl in *. intuition congruence.
Qed.

(** The progress events of a complete run. *)
Lemma RefineSRep_events srep polyData initialRegionSize
    finalRegionSize maxIterations interpolationLevel L0Weight L1Weight
    L2Weight callback (w : World) :
  capped_minimiser E ->
  EllipticalSRep.Valid srep -> EllipticalSRep.IsEmpty srep = false ->
  post (Logic.RefineSRep E srep polyData initialRegionSize finalRegionSize
          maxIterations interpolationLevel L0Weight L1Weight L2Weight
          (Some callback))
    (fun _ w' =>
       exists k1 k2 : nat,
         (k1 <= Z.to_nat maxIterations)%nat
         /\ (k2 <= Z.to_nat maxIterations)%nat
         /\ progressEvents w'
            = progressEvents w
              ++ ((fun n =>
                     IZR n
                     / IZR (to_int
                              (to_int (2 * maxIterations)
                               + 2 * EllipticalSRep.GetNumberOfLines srep)))
                    <$> run_trace maxIterations (length srep) k1 k2))
    (fun _ _ => True) w.
Proof.
  intros Hcap HV Hne. unfold Logic.RefineSRep. apply post_bind.
  eapply post_mono; [| |apply Refiner_new_post]; [|tauto].
  intros this w1 (Hsrep & Hmax & Htotal & Hrep & Hev). cbv beta.
  set (r0 := Refiner.SetProgressCallback E (Some callback) this).
  pose proof (Run_reports E r0 Hcap) as H. unfold post in H.
  destruct (Refiner.Run E r0) as [[refined|e] r1].
  - apply post_bind, post_modify, post_lift.
    destruct H as (_ & k1 & k2 & Hk1 & Hk2 & HR);
      [simpl; rewrite Hsrep; assumption..|simpl; congruence|].
    simpl in Hk1, Hk2, HR. rewrite Hmax in Hk1, Hk2.
    exists k1, k2. split; [exact Hk1|]. split; [exact Hk2|].
    simpl. rewrite HR, Hrep, Hev, Htotal, Hmax, Hsrep. simpl.
    unfold EllipticalSRep.GetNumberOfLines. rewrite Nat2Z.id. reflexivity.
  - apply post_bind, post_modify, post_lift. exact I.
Qed.

End Constructor.

(** ** The progress of a complete run *)

Section CompleteRun.
Context (E : Externals).

(** A refinement that returns, [RefineSRep] on a grid that is valid
    and not empty, with at least one iteration, a total of iterations that
    is an [int], and a minimiser that evaluates the objective at most
    [maxIterations] times: the values the callback was called with are in
    non-decreasing order, each is between 0 and 1, and the last one is 1. *)
Theorem progress_of_a_complete_run (srep : EllipticalSRep.t)
    (polyData : option (vtkPolyData E)) (initialRegionSize finalRegionSize : R)
    (maxIterations interpolationLevel : Z) (L0Weight L1Weight L2Weight : R)
    (callback : Refiner.ProgressCallbackFunction) (w w' : World)
    (refined : EllipticalSRep.t) :
  capped_minimiser E ->
  EllipticalSRep.Valid srep -> EllipticalSRep.IsEmpty srep = false ->
  (1 <= maxIterations)%Z ->
  (2 * maxIterations + 2 * EllipticalSRep.GetNumberOfLines srep <= INT_MAX)%Z ->
  Logic.RefineSRep E srep polyData initialRegionSize finalRegionSize
    maxIterations interpolationLevel L0Weight L1Weight L2Weight (Some callback) w
  = (Ok refined, w') ->
  exists values : list R,
    progressEvents w' = progressEvents w ++ values
    /\ (forall (i j : nat) (x y : R),
          (i <= j)%nat -> values !! i = Some x -> values !! j = Some y -> x <= y)
    /\ (forall x, x ∈ values -> 0 <= x <= 1)
    /\ last values = Some 1.
Proof.
  intros Hcap HV Hne Hmax Hfit Hrun.
  pose proof (RefineSRep_events E srep polyData initialRegionSize
                finalRegionSize maxIterations interpolationLevel L0Weight
                L1Weight L2Weight callback w Hcap HV Hne) as H.
  unfold post in H. rewrite Hrun in H.
  destruct H as (k1 & k2 & Hk1 & Hk2 & Hev).
  unfold EllipticalSRep.GetNumberOfLines in Hfit, Hev.
  rewrite (to_int_fits (2 * maxIterations)) in Hev
    by (unfold INT_MAX in *; lia).
  rewrite to_int_fits in Hev by (unfold INT_MAX in *; lia).
  eexists. split; [exact Hev|].
  assert (1 <= length srep)%nat as Hlines
    by (destruct srep; [discriminate|simpl; lia]).
  apply (run_trace_progress_stream maxIterations (length srep) k1 k2);
    assumption.
Qed.

End CompleteRun.

(** ** What a crest stage does to each cell *)

(** Comparisons of integers, from booleans to propositions. *)
Ltac Zbool :=
  repeat match goal with
  | H : (_ <? _)%Z = true |- _ => apply Z.ltb_lt in H
  | H : (_ <? _)%Z = false |- _ => apply Z.ltb_ge in H
  | H : (_ =? _)%Z = true |- _ => apply Z.eqb_eq in H
  | H : (_ =? _)%Z = false |- _ => apply Z.eqb_neq in H
  end.

Lemma GetSkeletalPoint_steps g l s p :
  EllipticalSRep.Valid g ->
  EllipticalSRep.GetSkeletalPoint g l s = Ok p ->
  (s < EllipticalSRep.GetNumberOfSteps g)%Z.
Proof.
  intros [n Hn]. rewrite GetSkeletalPoint_Ok.
  intros (Hl & Hs & line & Hline & Hp).
  assert (forall i line', g !! i = Some line' -> length line' = (n + 1)%nat) as Hlen.
  { intros i line' Hi.
    assert (EllipticalSRep.shape g !! i = Some (SkeletalPoint.IsCrest <$> line'))
      as S1 by (unfold EllipticalSRep.shape; rewrite list_lookup_fmap, Hi;
                reflexivity).
    rewrite Hn in S1. apply lookup_replicate in S1. destruct S1 as [S1 _].
    apply (f_equal length) in S1.
    rewrite length_fmap, length_app, length_replicate in S1. simpl in S1. lia. }
  apply lookup_lt_Some in Hp. rewrite (Hlen _ _ Hline) in Hp.
  destruct g as [|line0 g]; [rewrite lookup_nil in Hline; discriminate|].
  simpl. rewrite (Hlen 0%nat line0 eq_refl). lia.
Qed.

(** What a crest stage leaves of a skeletal point: [body] has run on its
    crest spoke, when it has one. *)
Definition crest_processed (body : St Spoke.t unit) (p : SkeletalPoint.t)
  : SkeletalPoint.t :=
  match SkeletalPoint.GetCrestSpoke p with
  | Some spoke =>
      SkeletalPoint.SetSpoke SkeletalPoint.CrestOrientation (snd (body spoke)) p
  | None => p
  end.

(** The cells before line [j], and those of line [j] before step [k]. *)
Definition visited (j k : nat) (l s : Z) : bool :=
  (l <? Z.of_nat j)%Z || ((l =? Z.of_nat j)%Z && (s <? Z.of_nat k)%Z).

Section CrestCells.
Context (E : Externals).

Abbreviation t := (Refiner.t E).

(** The grid of [r1] is the grid of [r] with the cells [done] processed,
    and [body] has returned on each of them. *)
Definition cells_after (body : St Spoke.t unit) (r : t)
    (done : Z -> Z -> bool) (r1 : t) : Prop :=
  forall l s p,
    EllipticalSRep.GetSkeletalPoint (Refiner.m_srep E r) l s = Ok p ->
    EllipticalSRep.GetSkeletalPoint (Refiner.m_srep E r1) l s
    = Ok (if done l s then crest_processed body p else p)
    /\ (done l s = true ->
        forall spoke, SkeletalPoint.GetCrestSpoke p = Some spoke ->
                      fst (body spoke) = Ok tt).

(** Every cell is as it was, or processed. *)
Definition cells_partly (body : St Spoke.t unit) (r r1 : t) : Prop :=
  forall l s p,
    EllipticalSRep.GetSkeletalPoint (Refiner.m_srep E r) l s = Ok p ->
    EllipticalSRep.GetSkeletalPoint (Refiner.m_srep E r1) l s = Ok p
    \/ EllipticalSRep.GetSkeletalPoint (Refiner.m_srep E r1) l s
       = Ok (crest_processed body p).

Lemma cells_after_partly body r done r1 :
  cells_after body r done r1 -> cells_partly body r r1.
Proof.
  intros H l s p Hp. destruct (H l s p Hp) as [H1 _].
  destruct (done l s); auto.
Qed.

Lemma cells_after_same_srep body r done r1 r2 :
  Refiner.m_srep E r2 = Refiner.m_srep E r1 ->
  cells_after body r done r1 -> cells_after body r done r2.
Proof. unfold cells_after. intros ->. auto. Qed.

Lemma IncrementIteration_srep (r : t) :
  post (Refiner.IncrementIteration E)
    (fun _ r' => Refiner.m_srep E r' = Refiner.m_srep E r)
    (fun _ r' => Refiner.m_srep E r' = Refiner.m_srep E r) r.
Proof.
  unfold Refiner.IncrementIteration. apply post_bind, post_modify.
  eapply post_mono; [| |apply ReportProgress_post]; cbv beta;
    intros ? r' (_ & S1 & _); exact S1.
Qed.

(** One step of a crest stage, on the cell [(j, k)] that is next. *)
Lemma crest_step_cells body (r r2 : t) (j k : nat) p0 :
  EllipticalSRep.GetSkeletalPoint (Refiner.m_srep E r) (Z.of_nat j) (Z.of_nat k)
  = Ok p0 ->
  EllipticalSRep.shape (Refiner.m_srep E r2)
  = EllipticalSRep.shape (Refiner.m_srep E r) ->
  cells_after body r (visited j k) r2 ->
  post (if SkeletalPoint.IsCrest p0
        then Refiner.IncrementIteration E ;;
             Refiner.on_crest_spoke E (Z.of_nat j) (Z.of_nat k) body
        else ret tt)
    (fun _ r3 =>
       EllipticalSRep.shape (Refiner.m_srep E r3)
       = EllipticalSRep.shape (Refiner.m_srep E r)
       /\ cells_after body r (visited j (S k)) r3)
    (fun _ r3 => cells_partly body r r3) r2.
Proof.
  intros Hp0 S2 C2.
  assert (forall l s, (l, s) <> (Z.of_nat j, Z.of_nat k) ->
            visited j (S k) l s = visited j k l s) as Hother.
  { intros l s Hne. unfold visited. f_equal.
    destruct (l =? Z.of_nat j)%Z eqn:El; [|reflexivity]. cbn [andb].
    apply Z.eqb_eq in El. subst l.
    destruct (s <? Z.of_nat k)%Z eqn:A, (s <? Z.of_nat (S k))%Z eqn:B;
      try reflexivity; Zbool; try lia.
    assert (s = Z.of_nat k) by lia. congruence. }
  assert (visited j (S k) (Z.of_nat j) (Z.of_nat k) = true) as Hnow.
  { unfold visited. rewrite Z.eqb_refl.
    replace (Z.of_nat k <? Z.of_nat (S k))%Z with true
      by (symmetry; apply Z.ltb_lt; lia).
    apply orb_true_r. }
  assert (visited j k (Z.of_nat j) (Z.of_nat k) = false) as Hbefore.
  { unfold visited. rewrite !Z.ltb_irrefl, andb_false_r. reflexivity. }
  destruct (C2 _ _ _ Hp0) as [Hq _]. rewrite Hbefore in Hq.
  destruct (SkeletalPoint.GetCrestSpoke p0) as [spoke|] eqn:Hc.
  - rewrite (IsCrest_GetCrestSpoke p0 spoke Hc). apply post_bind.
    eapply post_mono; [| |apply IncrementIteration_srep]; cbv beta.
    2:{ intros e r3 S3. eapply cells_after_partly, cells_after_same_srep;
          eassumption. }
    intros u r3 S3. unfold post, Refiner.on_crest_spoke.
    rewrite S3, Hq. unfold SkeletalPoint.GetSpoke. rewrite Hc.
    destruct (body spoke) as [a spoke'] eqn:Hbody.
    assert (forall l s p,
      EllipticalSRep.GetSkeletalPoint (Refiner.m_srep E r) l s = Ok p ->
      EllipticalSRep.GetSkeletalPoint
        (EllipticalSRep.update (Z.of_nat j) (Z.of_nat k)
           (SkeletalPoint.SetSpoke SkeletalPoint.CrestOrientation spoke')
           (Refiner.m_srep E r2)) l s
      = Ok (if visited j (S k) l s then crest_processed body p else p)) as Hcell.
    { intros l s p Hp. rewrite GetSkeletalPoint_update by lia.
      destruct (C2 l s p Hp) as [-> _].
      destruct ((l =? Z.of_nat j)%Z && (s =? Z.of_nat k)%Z) eqn:Here.
      - apply andb_true_iff in Here. destruct Here as [El Es].
        apply Z.eqb_eq in El, Es. subst l s.
        rewrite Hnow, Hbefore. rewrite Hp0 in Hp. injection Hp as <-.
        unfold crest_processed. rewrite Hc, Hbody. reflexivity.
      - rewrite Hother; [reflexivity|]. intros [= -> ->].
        rewrite !Z.eqb_refl in Here. discriminate. }
    destruct a as [[]|e]; simpl.
    + split.
      * rewrite <- S2. apply shape_update_at; [lia|lia|].
        intros q Hq'. rewrite Hq in Hq'. injection Hq' as <-.
        rewrite (IsCrest_GetCrestSpoke p0 spoke Hc). reflexivity.
      * intros l s p Hp. split; [apply Hcell, Hp|].
        intros Hv spoke0 Hs0.
        destruct (decide ((l, s) = (Z.of_nat j, Z.of_nat k))) as [[= -> ->]|Hne].
        -- rewrite Hp0 in Hp. injection Hp as <-.
           rewrite Hc in Hs0. injection Hs0 as <-. rewrite Hbody. reflexivity.
        -- rewrite Hother in Hv by exact Hne.
           destruct (C2 l s p Hp) as [_ Hok]. apply Hok; assumption.
    + intros l s p Hp. pose proof (Hcell l s p Hp) as Hc'.
      destruct (visited j (S k) l s); [right|left]; exact Hc'.
  - assert (SkeletalPoint.IsCrest p0 = false) as ->
      by (unfold SkeletalPoint.IsCrest; rewrite Hc; reflexivity).
    apply post_ret. split; [exact S2|].
    intros l s p Hp. destruct (C2 l s p Hp) as [Hcell Hok].
    destruct (decide ((l, s) = (Z.of_nat j, Z.of_nat k))) as [[= -> ->]|Hne].
    + rewrite Hp0 in Hp. injection Hp as <-. rewrite Hnow. split.
      * rewrite Hq. unfold crest_processed. rewrite Hc. reflexivity.
      * intros _ spoke0 Hs0. congruence.
    + rewrite Hother by exact Hne. auto.
Qed.

(** A crest stage on a valid grid: when it returns, [body] has run on the
    crest spoke of every crest point, and it has returned each time; when
    it throws, every cell is as it was or processed. *)
Lemma for_each_crest_spoke_cells (body : St Spoke.t unit) (r : t) :
  EllipticalSRep.Valid (Refiner.m_srep E r) ->
  post (Refiner.for_each_crest_spoke E body)
    (fun _ r' => cells_after body r (fun _ _ => true) r')
    (fun _ r' => cells_partly body r r') r.
Proof.
  intros HV. unfold Refiner.for_each_crest_spoke.
  apply post_bind, post_gets.
  set (inv := fun (j k : nat) (r1 : t) =>
    EllipticalSRep.shape (Refiner.m_srep E r1)
    = EllipticalSRep.shape (Refiner.m_srep E r)
    /\ cells_after body r (visited j k) r1).
  eapply post_mono;
    [| |apply (post_for_upto _ _ (fun j r1 => inv j 0%nat r1)
                 (fun _ r' => cells_partly body r r'))].
  - intros u r' [_ C] l s p Hp. destruct (C l s p Hp) as [Hcell Hok].
    assert (visited
              (Z.to_nat (EllipticalSRep.GetNumberOfLines (Refiner.m_srep E r)))
              0 l s = true) as Hv.
    { unfold visited. apply orb_true_iff. left. apply Z.ltb_lt.
      pose proof (GetSkeletalPoint_lines _ _ _ _ Hp). lia. }
    rewrite Hv in Hcell. auto.
  - tauto.
  - split; [reflexivity|]. intros l s p Hp.
    assert (visited 0 0 l s = false) as ->; [|split; [exact Hp|discriminate]].
    unfold visited. change (Z.of_nat 0) with 0%Z.
    destruct (GetSkeletalPoint_nonneg _ _ _ _ Hp) as [Hl Hs].
    replace (l <? 0)%Z with false by (symmetry; apply Z.ltb_ge; lia).
    replace (s <? 0)%Z with false by (symmetry; apply Z.ltb_ge; lia).
    destruct (l =? 0)%Z; reflexivity.
  - intros j r1 Hj [S1 C1]. apply post_bind, post_gets.
    rewrite (GetNumberOfSteps_shape _ _ S1).
    set (N := EllipticalSRep.GetNumberOfSteps (Refiner.m_srep E r)).
    eapply post_mono;
      [| |apply (post_for_upto N _ (fun k r2 => inv j k r2)
                   (fun _ r' => cells_partly body r r'))].
    + intros u r2 [S2 C2]. split; [exact S2|].
      intros l s p Hp. destruct (C2 l s p Hp) as [Hcell Hok].
      assert (visited (S j) 0 l s = visited j (Z.to_nat N) l s) as ->; [|auto].
      pose proof (GetSkeletalPoint_steps _ _ _ _ HV Hp) as Hs. fold N in Hs.
      destruct (GetSkeletalPoint_nonneg _ _ _ _ Hp) as [Hl Hs0].
      unfold visited.
      replace (s <? Z.of_nat 0)%Z with false by (symmetry; apply Z.ltb_ge; lia).
      replace (s <? Z.of_nat (Z.to_nat N))%Z with true
        by (symmetry; apply Z.ltb_lt; lia).
      rewrite andb_false_r, andb_true_r, orb_false_r.
      destruct (l <? Z.of_nat j)%Z eqn:A, (l =? Z.of_nat j)%Z eqn:B,
               (l <? Z.of_nat (S j))%Z eqn:C; try reflexivity; Zbool; lia.
    + tauto.
    + split; assumption.
    + intros k r2 Hk [S2 C2].
      destruct (Valid_cells _ HV j k Hj Hk) as (p0 & Hp0 & _).
      destruct (C2 _ _ _ Hp0) as [Hq _].
      assert (visited j k (Z.of_nat j) (Z.of_nat k) = false) as Hbefore.
      { unfold visited. rewrite !Z.ltb_irrefl, andb_false_r. reflexivity. }
      rewrite Hbefore in Hq.
      apply post_bind, GetSkeletalPoint_post.
      * intros q Hq'. rewrite Hq in Hq'. injection Hq' as <-.
        apply crest_step_cells; assumption.
      * intros e. eapply cells_after_partly. exact C2.
Qed.

End CrestCells.

(** ** The two crest passes on one spoke *)

Lemma Unit_mul_radius v :
  Vector3d.GetLength v <> 0 ->
  Vector3d.mul (Vector3d.div v (Vector3d.GetLength v)) (Vector3d.GetLength v) = v.
Proof.
  intros H. destruct v as [x y z]. unfold Vector3d.mul, Vector3d.div.
  cbn [Vector3d.x Vector3d.y Vector3d.z].
  set (n := Vector3d.GetLength _) in *. f_equal; field; exact H.
Qed.

Section CrestSpokes.
Context (E : Externals).

Abbreviation t := (Refiner.t E).

(** The length loop leaves a spoke whose boundary point is on the surface. *)
Lemma optimize_crest_spoke_on_surface polyData stepSize maxIter spoke :
  FunctionValue E polyData (Spoke.GetBoundaryPoint spoke) = 0 ->
  Refiner.optimize_crest_spoke E polyData 1e-5 stepSize maxIter spoke
  = (Ok tt, spoke).
Proof.
  intros H. unfold Refiner.optimize_crest_spoke. simpl. unfold gets.
  rewrite H. destruct (Z.to_nat maxIter) as [|count]; [reflexivity|].
  cbn [Refiner.crest_length_loop].
  assert (Rleb (Rabs 0) 1e-5 = true) as ->; [|reflexivity].
  apply Rleb_true. rewrite Rabs_R0. lra.
Qed.

(** The curvature correction never throws, and what it leaves. *)
Lemma correct_crest_spoke_result polyData maxC minC spoke :
  exists spoke',
    Refiner.correct_crest_spoke E polyData maxC minC spoke = (Ok tt, spoke')
    /\ match one_over (largest_curvature E polyData maxC minC spoke) with
       | Finite rCrest =>
           (rCrest < Spoke.GetRadius spoke ->
            let unitDir :=
              Vector3d.div (Spoke.GetDirection spoke) (Spoke.GetRadius spoke) in
            Spoke.GetSkeletalPoint spoke'
            = translate (Spoke.GetSkeletalPoint spoke)
                (Vector3d.mul unitDir (Spoke.GetRadius spoke - rCrest))
            /\ Spoke.GetDirection spoke' = Vector3d.mul unitDir rCrest
            /\ Spoke.GetRadius spoke' = rCrest)
           /\ (Spoke.GetRadius spoke <= rCrest -> spoke' = spoke)
       | PlusInfinity => spoke' = spoke
       end.
Proof.
  pose proof (largest_curvature_nonneg E polyData maxC minC spoke) as Hc.
  unfold one_over.
  destruct (Reqb (largest_curvature E polyData maxC minC spoke) 0) eqn:D.
  - apply Reqb_true in D. exists spoke. split; [|reflexivity].
    apply correct_crest_spoke_flat, D.
  - apply Reqb_false in D.
    set (rCrest := 1 / largest_curvature E polyData maxC minC spoke).
    assert (0 < rCrest) as Hpos by (unfold rCrest; apply Rdiv_lt_0_compat; lra).
    destruct (Rle_dec (Spoke.GetRadius spoke) rCrest) as [Hle|Hgt].
    + exists spoke. split; [apply correct_crest_spoke_short; assumption|].
      split; [lra|reflexivity].
    + apply Rnot_le_lt in Hgt. eexists.
      split; [apply correct_crest_spoke_long; assumption|].
      fold rCrest. split; [|lra]. intros _. cbn zeta.
      cbn [Spoke.GetSkeletalPoint Spoke.GetDirection].
      split; [reflexivity|]. split; [reflexivity|].
      unfold Spoke.GetRadius at 1. cbn [Spoke.GetDirection].
      apply GetLength_resized; [unfold Spoke.GetRadius in *; lra|lra].
Qed.

Lemma crest_processed_same body p :
  (forall spoke, SkeletalPoint.GetCrestSpoke p = Some spoke ->
                 snd (body spoke) = spoke) ->
  crest_processed body p = p.
Proof.
  intros H. unfold crest_processed.
  destruct (SkeletalPoint.GetCrestSpoke p) as [spoke|] eqn:Hc; [|reflexivity].
  rewrite (H spoke eq_refl). apply SetSpoke_crest_same, Hc.
Qed.

End CrestSpokes.

(** ** The two crest passes on the grid *)

Section CrestPasses.
Context (E : Externals).

Abbreviation t := (Refiner.t E).

(** C8.  The crest length-correction pass, [OptimizeCrestSpokeLengths], on
    a valid grid: a crest point whose crest spoke has its boundary point
    on the implicit surface (the distance [FunctionValue] is 0 there) is
    the same skeletal point after the pass, whether the pass returns or
    throws at another spoke; so the radius, the direction and the skeletal
    point of that crest spoke are what they were. *)
Theorem crest_length_pass_keeps_spoke_on_surface (r : t) (stepSize : R)
    (maxIter : Z) (l s : Z) (p : SkeletalPoint.t) (spoke : Spoke.t) :
  EllipticalSRep.Valid (Refiner.m_srep E r) ->
  EllipticalSRep.GetSkeletalPoint (Refiner.m_srep E r) l s = Ok p ->
  SkeletalPoint.GetCrestSpoke p = Some spoke ->
  FunctionValue E (Refiner.m_polyData E r) (Spoke.GetBoundaryPoint spoke) = 0 ->
  EllipticalSRep.GetSkeletalPoint
    (Refiner.m_srep E
       (snd (Refiner.OptimizeCrestSpokeLengths E stepSize maxIter r))) l s
  = Ok p.
Proof.
  intros HV Hp Hc Hdist.
  set (body := Refiner.optimize_crest_spoke E (Refiner.m_polyData E r) 1e-5
                 stepSize maxIter).
  assert (crest_processed body p = p) as Hsame.
  { apply crest_processed_same. intros spoke0 Hs0.
    rewrite Hc in Hs0. injection Hs0 as <-. unfold body.
    rewrite optimize_crest_spoke_on_surface by exact Hdist. reflexivity. }
  pose proof (for_each_crest_spoke_cells E body r HV) as H. unfold post in H.
  change (Refiner.OptimizeCrestSpokeLengths E stepSize maxIter r)
    with (Refiner.for_each_crest_spoke E body r).
  destruct (Refiner.for_each_crest_spoke E body r) as [[[]|e] r']; simpl.
  - destruct (H l s p Hp) as [-> _]. rewrite Hsame. reflexivity.
  - destruct (H l s p Hp) as [->| ->]; rewrite ?Hsame; reflexivity.
Qed.

(** C6.  The curvature-based correction pass, the second loop of
    [RefineCrestSpokes], on a valid grid, when it returns: the crest spoke
    of every crest point has been replaced by a spoke [spoke'] such that,
    with [rCrest = 1 / max(|curMax|, |curMin|)] at the mesh point nearest
    to the boundary point of the old spoke, if the old radius exceeds
    [rCrest] the skeletal point has moved by [radius - rCrest] along the
    unit direction and the radius is [rCrest], and if the old radius is
    at most [rCrest] ([+inf] when both curvatures are zero) the spoke is
    the old one. *)
Theorem curvature_pass_corrects_crest_spokes (r r' : t) (maxC minC : Z -> R)
    (l s : Z) (p : SkeletalPoint.t) (spoke : Spoke.t) :
  EllipticalSRep.Valid (Refiner.m_srep E r) ->
  Refiner.correct_crest_spokes E maxC minC r = (Ok tt, r') ->
  EllipticalSRep.GetSkeletalPoint (Refiner.m_srep E r) l s = Ok p ->
  SkeletalPoint.GetCrestSpoke p = Some spoke ->
  exists spoke',
    EllipticalSRep.GetSkeletalPoint (Refiner.m_srep E r') l s
    = Ok (SkeletalPoint.SetSpoke SkeletalPoint.CrestOrientation spoke' p)
    /\ match one_over
               (largest_curvature E (Refiner.m_polyData E r) maxC minC spoke)
       with
       | Finite rCrest =>
           (rCrest < Spoke.GetRadius spoke ->
            let unitDir :=
              Vector3d.div (Spoke.GetDirection spoke) (Spoke.GetRadius spoke) in
            Spoke.GetSkeletalPoint spoke'
            = translate (Spoke.GetSkeletalPoint spoke)
                (Vector3d.mul unitDir (Spoke.GetRadius spoke - rCrest))
            /\ Spoke.GetDirection spoke' = Vector3d.mul unitDir rCrest
            /\ Spoke.GetRadius spoke' = rCrest)
           /\ (Spoke.GetRadius spoke <= rCrest -> spoke' = spoke)
       | PlusInfinity => spoke' = spoke
       end.
Proof.
  intros HV Hrun Hp Hc.
  set (body := Refiner.correct_crest_spoke E (Refiner.m_polyData E r) maxC minC).
  pose proof (for_each_crest_spoke_cells E body r HV) as H. unfold post in H.
  change (Refiner.correct_crest_spokes E maxC minC r)
    with (Refiner.for_each_crest_spoke E body r) in Hrun.
  rewrite Hrun in H. destruct (H l s p Hp) as [Hcell _].
  destruct (correct_crest_spoke_result E (Refiner.m_polyData E r) maxC minC spoke)
    as (spoke' & Hbody & Hspoke').
  exists spoke'. split; [|exact Hspoke'].
  rewrite Hcell. unfold crest_processed. rewrite Hc. unfold body.
  rewrite Hbody. reflexivity.
Qed.

(** C10.  In the same pass, a crest spoke that is modified (its radius
    exceeds the finite [rCrest]) keeps its boundary point: the skeletal
    point plus the direction is the same point before and after, in exact
    arithmetic. *)
Theorem curvature_pass_preserves_boundary_point (r r' : t) (maxC minC : Z -> R)
    (l s : Z) (p : SkeletalPoint.t) (spoke : Spoke.t) (rCrest : R) :
  EllipticalSRep.Valid (Refiner.m_srep E r) ->
  Refiner.correct_crest_spokes E maxC minC r = (Ok tt, r') ->
  EllipticalSRep.GetSkeletalPoint (Refiner.m_srep E r) l s = Ok p ->
  SkeletalPoint.GetCrestSpoke p = Some spoke ->
  one_over (largest_curvature E (Refiner.m_polyData E r) maxC minC spoke)
  = Finite rCrest ->
  rCrest < Spoke.GetRadius spoke ->
  exists p' spoke',
    EllipticalSRep.GetSkeletalPoint (Refiner.m_srep E r') l s = Ok p'
    /\ SkeletalPoint.GetCrestSpoke p' = Some spoke'
    /\ Spoke.GetRadius spoke' = rCrest
    /\ Spoke.GetBoundaryPoint spoke' = Spoke.GetBoundaryPoint spoke.
Proof.
  intros HV Hrun Hp Hc Hr Hlong.
  set (body := Refiner.correct_crest_spoke E (Refiner.m_polyData E r) maxC minC).
  pose proof (for_each_crest_spoke_cells E body r HV) as H. unfold post in H.
  change (Refiner.correct_crest_spokes E maxC minC r)
    with (Refiner.for_each_crest_spoke E body r) in Hrun.
  rewrite Hrun in H. destruct (H l s p Hp) as [Hcell _].
  destruct (correct_crest_spoke_result E (Refiner.m_polyData E r) maxC minC spoke)
    as (spoke' & Hbody & Hspoke').
  rewrite Hr in Hspoke'. destruct Hspoke' as [Hmoved _].
  destruct (Hmoved Hlong) as (Hsk & Hdir & Hrad).
  exists (SkeletalPoint.SetSpoke SkeletalPoint.CrestOrientation spoke' p), spoke'.
  split; [|split; [reflexivity|split; [exact Hrad|]]].
  - rewrite Hcell. unfold crest_processed. rewrite Hc. unfold body.
    rewrite Hbody. reflexivity.
  - assert (0 < rCrest) as Hpos.
    { pose proof (largest_curvature_nonneg E (Refiner.m_polyData E r) maxC minC
                    spoke) as Hc0.
      unfold one_over in Hr. destruct (Reqb _ 0) eqn:D; [discriminate|].
      apply Reqb_false in D. injection Hr as <-.
      apply Rdiv_lt_0_compat; lra. }
    assert (Vector3d.GetLength (Spoke.GetDirection spoke) <> 0) as Hnz
      by (unfold Spoke.GetRadius in Hlong; lra).
    pose proof (Unit_mul_radius _ Hnz) as Hunit.
    unfold Spoke.GetBoundaryPoint. rewrite Hsk, Hdir.
    unfold Spoke.GetRadius in *.
    set (n := Vector3d.GetLength (Spoke.GetDirection spoke)) in *.
    destruct (Spoke.GetDirection spoke) as [dx dy dz].
    destruct (Spoke.GetSkeletalPoint spoke) as [px py pz].
    unfold translate, Vector3d.mul, Vector3d.div in *.
    cbn [Vector3d.x Vector3d.y Vector3d.z Point3d.x Point3d.y Point3d.z] in *.
    f_equal; field; exact Hnz.
Qed.

End CrestPasses.

(** ** An evaluation keeps the grid of the refiner *)

Lemma post_mapM {S A B} (f : A -> St S B) (I : S -> Prop) (Q : B -> Prop)
    (l : list A) (s : S) :
  (forall a s1, I s1 ->
     post (f a) (fun b s2 => I s2 /\ Q b) (fun _ s2 => I s2) s1) ->
  I s ->
  post (Store.mapM f l) (fun bs s' => I s' /\ Forall Q bs) (fun _ s' => I s') s.
Proof.
  intros Hf. revert s. induction l as [|a l IH]; intros s Hs.
  - apply post_ret. auto.
  - cbn [Store.mapM]. apply post_bind.
    eapply post_mono; [| |apply Hf, Hs]; [|tauto].
    intros b s1 [H1 Hb]. cbv beta. apply post_bind.
    eapply post_mono; [| |apply IH, H1]; [|tauto].
    intros bs s2 [H2 Hbs]. cbv beta. apply post_ret. auto.
Qed.

Section BaseGrid.
Context (E : Externals).

(** The spokes of a skeletal point are objects made after [h0]. *)
Definition fresh_point (h0 : Store.heap) (p : Store.SkeletalPointObject) : Prop :=
  (length h0 <= Store.UpSpoke p)%nat /\ (length h0 <= Store.DownSpoke p)%nat
  /\ forall a, Store.CrestSpoke p = Some a -> (length h0 <= a)%nat.

Lemma load_post (a : Store.address) (h : Store.heap) (Q : Spoke.t -> Store.heap -> Prop) Qe :
  (forall spoke, h !! a = Some spoke -> Q spoke h) -> (forall e, Qe e h) ->
  post (Store.load a) Q Qe h.
Proof.
  intros HQ HQe. unfold post, Store.load. destruct (h !! a); auto.
Qed.

Lemma clone_spoke_post (h0 : Store.heap) a (h : Store.heap) :
  h0 `prefix_of` h ->
  post (Store.clone_spoke a)
    (fun a' h' => h0 `prefix_of` h' /\ (length h0 <= a')%nat)
    (fun _ h' => h0 `prefix_of` h') h.
Proof.
  intros Hpre. unfold Store.clone_spoke. apply post_bind, load_post; [|auto].
  intros spoke _. unfold post, Store.new_spoke. split.
  - etransitivity; [exact Hpre|]. apply prefix_app_r. reflexivity.
  - apply prefix_length, Hpre.
Qed.

Lemma clone_point_post (h0 : Store.heap) p (h : Store.heap) :
  h0 `prefix_of` h ->
  post (Store.clone_point p)
    (fun p' h' => h0 `prefix_of` h' /\ fresh_point h0 p')
    (fun _ h' => h0 `prefix_of` h') h.
Proof.
  intros Hpre. unfold Store.clone_point. apply post_bind.
  eapply post_mono; [| |apply clone_spoke_post, Hpre]; [|tauto].
  intros up h1 [H1 Hup]. cbv beta. apply post_bind.
  eapply post_mono; [| |apply clone_spoke_post, H1]; [|tauto].
  intros down h2 [H2 Hdown]. cbv beta. apply post_bind.
  destruct (Store.CrestSpoke p) as [a|].
  - apply post_bind.
    eapply post_mono; [| |apply clone_spoke_post, H2]; [|tauto].
    intros a' h3 [H3 Ha']. cbv beta. do 2 apply post_ret.
    split; [exact H3|]. split; [exact Hup|]. split; [exact Hdown|].
    simpl. intros ? [= <-]. exact Ha'.
  - do 2 apply post_ret.
    split; [exact H2|]. split; [exact Hup|]. split; [exact Hdown|].
    simpl. discriminate.
Qed.

(** The clone is made of new objects, and the objects there were are kept. *)
Lemma SmartClone_post (h0 : Store.heap) g :
  post (Store.SmartClone g)
    (fun clone h' => h0 `prefix_of` h' /\ Forall (Forall (fresh_point h0)) clone)
    (fun _ h' => h0 `prefix_of` h') h0.
Proof.
  unfold Store.SmartClone.
  apply (post_mapM _ (fun h => h0 `prefix_of` h)); [|reflexivity].
  intros line h1 H1.
  apply (post_mapM _ (fun h => h0 `prefix_of` h)); [|exact H1].
  intros p h2 H2. apply clone_point_post, H2.
Qed.

Lemma GetSkeletalPoint_Forall (P : Store.SkeletalPointObject -> Prop) g l s p :
  Forall (Forall P) g -> Store.GetSkeletalPoint g l s = Ok p -> P p.
Proof.
  intros HP. unfold Store.GetSkeletalPoint.
  destruct ((0 <=? l)%Z && (0 <=? s)%Z); [|discriminate].
  destruct (g !! Z.to_nat l) as [line|] eqn:Hline; [|discriminate].
  destruct (line !! Z.to_nat s) as [q|] eqn:Hq; [|discriminate].
  intros [= <-].
  eapply Forall_lookup_1; [|exact Hq]. eapply Forall_lookup_1; eassumption.
Qed.

Lemma GetSpoke_fresh h0 p spokeType a :
  fresh_point h0 p -> Store.GetSpoke p spokeType = Ok a -> (length h0 <= a)%nat.
Proof.
  intros (Hup & Hdown & Hcrest). destruct spokeType; simpl.
  - intros [= <-]. exact Hup.
  - intros [= <-]. exact Hdown.
  - destruct (Store.CrestSpoke p) as [c|]; [|discriminate].
    intros [= <-]. apply Hcrest. reflexivity.
Qed.

Lemma store_fresh (h0 h : Store.heap) (a : nat) (spoke : Spoke.t) :
  h0 `prefix_of` h -> (length h0 <= a)%nat -> h0 `prefix_of` <[a := spoke]> h.
Proof.
  intros [tail ->] Ha. rewrite insert_app_r_alt by exact Ha.
  apply prefix_app_r. reflexivity.
Qed.

(** Whatever [Refine] does, the objects there were before are kept. *)
Lemma Refine_keeps_objects srep coeff spokeType (h0 : Store.heap) :
  post (Store.Refine E srep coeff spokeType)
    (fun _ h' => h0 `prefix_of` h') (fun _ h' => h0 `prefix_of` h') h0.
Proof.
  unfold Store.Refine. apply post_bind.
  eapply post_mono; [| |apply SmartClone_post]; [|tauto].
  intros clone h1 [H1 Hfresh]. cbv beta.
  assert (forall st : Store.heap * nat, h0 `prefix_of` fst st ->
    post (for_upto (Store.GetNumberOfLines clone) (fun l =>
            for_upto (Store.GetNumberOfSteps clone) (fun s =>
              c <- gets snd ;;
              skeletalPoint <- lift (Store.GetSkeletalPoint clone l s) ;;
              a <- lift (Store.GetSpoke skeletalPoint spokeType) ;;
              spoke <- Store.on_heap (Store.load a) ;;
              spoke' <- lift (Refiner.refine_spoke E 1e-13 coeff c spoke) ;;
              Store.on_heap (Store.store a spoke') ;;
              modify (fun st => (fst st, (snd st + 4)%nat)))))
      (fun _ st' => h0 `prefix_of` fst st')
      (fun _ st' => h0 `prefix_of` fst st') st) as Hloops.
  { intros st Hst.
    apply (post_for_upto_const _ _ (fun st => h0 `prefix_of` fst st));
      [exact Hst|].
    intros l st1 _ Hst1.
    apply (post_for_upto_const _ _ (fun st => h0 `prefix_of` fst st));
      [exact Hst1|].
    clear st1 Hst1. intros s st1 _ Hst1.
    apply post_bind, post_gets, post_bind, post_lift.
    destruct (Store.GetSkeletalPoint clone _ _) as [p|e] eqn:Hp; [|exact Hst1].
    apply post_bind, post_lift.
    destruct (Store.GetSpoke p spokeType) as [a|e] eqn:Ha; [|exact Hst1].
    pose proof (GetSpoke_fresh h0 p spokeType a
                  (GetSkeletalPoint_Forall _ _ _ _ _ Hfresh Hp) Ha) as Hfa.
    apply post_bind. unfold post at 1, Store.on_heap, Store.load.
    destruct (fst st1 !! a) as [spoke|]; simpl; [|exact Hst1].
    destruct (Refiner.refine_spoke E _ coeff _ spoke) as [spoke'|e];
      simpl; [|exact Hst1].
    apply store_fresh; assumption. }
  destruct spokeType; try (exact H1);
    unfold post; specialize (Hloops (h1, 0%nat) H1); unfold post in Hloops;
    match goal with
    | |- context [for_upto ?n ?b (h1, 0%nat)] =>
        destruct (for_upto n b (h1, 0%nat)) as [[[]|e] [h2 c2]]
    end; exact Hloops.
Qed.

Lemma read_point_heap p h : snd (Store.read_point p h) = h.
Proof.
  unfold Store.read_point, Store.load. simpl.
  destruct (h !! Store.UpSpoke p); simpl; [|reflexivity].
  destruct (h !! Store.DownSpoke p); simpl; [|reflexivity].
  destruct (Store.CrestSpoke p) as [a|]; simpl; [|reflexivity].
  destruct (h !! a); reflexivity.
Qed.

Lemma mapM_heap {A B} (f : A -> St Store.heap B) l h :
  (forall a h1, snd (f a h1) = h1) -> snd (Store.mapM f l h) = h.
Proof.
  intros Hf. revert h. induction l as [|a l IH]; intros h; [reflexivity|].
  cbn [Store.mapM]. simpl. pose proof (Hf a h) as H1.
  destruct (f a h) as [[b|e] h1]; simpl in *; subst h1; [|reflexivity].
  pose proof (IH h) as H2.
  destruct (Store.mapM f l h) as [[bs|e] h2]; simpl in *; subst h2; reflexivity.
Qed.

Lemma read_grid_heap g h : snd (Store.read_grid g h) = h.
Proof.
  apply mapM_heap. intros line h1. apply mapM_heap. intros p h2.
  apply read_point_heap.
Qed.

(** Reading a grid in a store that kept the objects gives the same value. *)
Lemma read_point_prefix p h h' v :
  h `prefix_of` h' ->
  Store.read_point p h = (Ok v, h) -> Store.read_point p h' = (Ok v, h').
Proof.
  intros Hpre. unfold Store.read_point, Store.load. simpl.
  destruct (h !! Store.UpSpoke p) as [up|] eqn:Hup; simpl; [|discriminate].
  rewrite (prefix_lookup_Some _ _ _ _ Hup Hpre). simpl.
  destruct (h !! Store.DownSpoke p) as [down|] eqn:Hdown; simpl; [|discriminate].
  rewrite (prefix_lookup_Some _ _ _ _ Hdown Hpre). simpl.
  destruct (Store.CrestSpoke p) as [a|]; simpl.
  - destruct (h !! a) as [crest|] eqn:Hcrest; simpl; [|discriminate].
    rewrite (prefix_lookup_Some _ _ _ _ Hcrest Hpre). simpl.
    intros [= <-]. reflexivity.
  - intros [= <-]. reflexivity.
Qed.

Lemma mapM_prefix {A B} (f : A -> St Store.heap B) l (h h' : Store.heap) :
  (forall a h1, snd (f a h1) = h1) ->
  (forall a b, f a h = (Ok b, h) -> f a h' = (Ok b, h')) ->
  forall bs, Store.mapM f l h = (Ok bs, h) -> Store.mapM f l h' = (Ok bs, h').
Proof.
  intros Hheap Hf. induction l as [|a l IH]; intros bs.
  - simpl. intros [= <-]. reflexivity.
  - cbn [Store.mapM]. simpl. pose proof (Hheap a h) as H1.
    destruct (f a h) as [[b|e] h1] eqn:Hb; simpl in H1; subst h1;
      [|discriminate].
    rewrite (Hf a b Hb).
    pose proof (mapM_heap f l h Hheap) as H2.
    destruct (Store.mapM f l h) as [[bs'|e] h2] eqn:Hbs; simpl in H2; subst h2;
      [|discriminate].
    rewrite (IH bs' eq_refl). intros [= <-]. reflexivity.
Qed.

Lemma read_grid_prefix g h h' v :
  h `prefix_of` h' ->
  Store.read_grid g h = (Ok v, h) -> Store.read_grid g h' = (Ok v, h').
Proof.
  intros Hpre. unfold Store.read_grid. apply mapM_prefix.
  - intros line h1. apply mapM_heap. intros p h2. apply read_point_heap.
  - intros line b. apply mapM_prefix.
    + intros p h2. apply read_point_heap.
    + intros p b'. apply read_point_prefix, Hpre.
Qed.

(** What an evaluation keeps: the pointers of the grid, and the objects. *)
Definition base_kept (st st' : Store.t E) : Prop :=
  Store.m_srep E st' = Store.m_srep E st
  /\ Store.objects E st `prefix_of` Store.objects E st'.

Lemma EvaluateObjectiveFunction_base_kept coeff spokeType (st : Store.t E) :
  post (Store.EvaluateObjectiveFunction E coeff spokeType)
    (fun _ st' => base_kept st st') (fun _ st' => base_kept st st') st.
Proof.
  unfold Store.EvaluateObjectiveFunction. apply post_try_catch.
  assert (base_kept st st) as H0 by (split; reflexivity).
  eapply post_mono with (Qe := fun _ st' => base_kept st st');
    [intros ? ? H; exact H|intros e st' H; apply post_ret, H|].
  apply post_bind, post_gets, post_bind.
  pose proof (Refine_keeps_objects (Store.m_srep E st) coeff spokeType
                (Store.objects E st)) as HR.
  unfold post in HR. unfold post at 1, Store.on_objects.
  destruct (Store.Refine E _ coeff spokeType (Store.objects E st))
    as [[tempSRep|e] h1]; [|split; [reflexivity|exact HR]].
  set (st1 := Store.mk E h1 (Store.m_srep E st) (Store.members E st)).
  assert (base_kept st st1) as H1 by (split; [reflexivity|exact HR]).
  apply post_bind, post_gets, post_bind.
  unfold post at 1, Store.on_objects.
  pose proof (read_grid_heap tempSRep (Store.objects E st1)) as Hread.
  destruct (Store.read_grid tempSRep (Store.objects E st1)) as [[tempValue|e] h2];
    simpl in Hread; subst h2; [|exact H1].
  change (Store.mk E (Store.objects E st1) (Store.m_srep E st1)
            (Store.members E st1)) with st1.
  apply post_bind, post_lift.
  destruct (SmartInterpolateSRep E tempValue _) as [interp|e]; [|exact H1].
  apply post_bind, post_gets, post_bind, post_lift.
  destruct (Refiner.ComputeDistanceSquaredAndNormalToImage E _ interp spokeType)
    as [L0AndL1|e]; [|exact H1].
  apply post_bind, post_lift.
  destruct (Refiner.ComputeRSradPenalty E _ interp spokeType) as [srad|e];
    [|exact H1].
  apply post_bind. unfold post, Store.on_members, base_kept in *. simpl.
  destruct (Refiner.IncrementIteration E _) as [[[]|e] r']; simpl; tauto.
Qed.

(** C7.  An evaluation of the objective function, with the grid of the
    refiner behind pointers: whatever the coefficients and whether the
    evaluation succeeds or returns the penalty, the grid of the refiner
    holds the same pointers after it, every spoke object that existed
    before holds the same value, and so the grid reads as the same value:
    [Refine] writes only to the spokes of the clone, which are new
    objects. *)
Theorem evaluation_keeps_base_grid (coeff : nat -> R)
    (spokeType : SkeletalPoint.SpokeOrientation) (st : Store.t E) :
  let st' := snd (Store.EvaluateObjectiveFunction E coeff spokeType st) in
  Store.m_srep E st' = Store.m_srep E st
  /\ (forall a spoke, Store.objects E st !! a = Some spoke ->
                      Store.objects E st' !! a = Some spoke)
  /\ (forall g, fst (Store.read_grid (Store.m_srep E st) (Store.objects E st))
                = Ok g ->
                fst (Store.read_grid (Store.m_srep E st') (Store.objects E st'))
                = Ok g).
Proof.
  pose proof (EvaluateObjectiveFunction_base_kept coeff spokeType st) as H.
  unfold post in H.
  destruct (Store.EvaluateObjectiveFunction E coeff spokeType st) as [[v|e] st'];
    simpl; destruct H as [Hsrep Hpre];
    (split; [exact Hsrep|]);
    (split; [intros a spoke Ha; eapply prefix_lookup_Some; eassumption|]);
    intros g Hg; rewrite Hsrep;
    pose proof (read_grid_heap (Store.m_srep E st) (Store.objects E st)) as Hh;
    destruct (Store.read_grid (Store.m_srep E st) (Store.objects E st))
      as [r h] eqn:Hread; simpl in Hg, Hh; subst r h;
    rewrite (read_grid_prefix _ _ _ _ Hpre Hread); reflexivity.
Qed.

End BaseGrid.

(** ** Invalid arguments *)

Section InvalidArguments.
Context (E : Externals).
Context (InvokeProgressEvent : R -> Result unit).

(** [!srepNode || !srepNode->GetSRep() || srepNode->GetSRep()->IsEmpty()] *)
Definition null_or_empty (srepNode : option (Logic.vtkMRMLEllipticalSRepNode))
  : Prop :=
  match srepNode with
  | None => True
  | Some node =>
      match Logic.GetSRep node with
      | None => True
      | Some srep => EllipticalSRep.IsEmpty srep = true
      end
  end.

(** C4.  [vtkSlicerSRepRefinementLogic::Run] with a destination node: with
    a null model, a null or empty s-rep, [maxIterations < 1] or
    [interpolationLevel < 0] it throws [std::invalid_argument], and it has
    built no distance field, sent no progress event and left the
    destination as it was: only the error log has grown. *)
Theorem Run_rejects_invalid_arguments_first
    (model : option (Logic.vtkMRMLModelNode E))
    (srepNode : option Logic.vtkMRMLEllipticalSRepNode)
    (initialRegionSize finalRegionSize : R)
    (maxIterations interpolationLevel : Z)
    (L0Weight L1Weight L2Weight : R) (w : World) :
  model = None \/ null_or_empty srepNode
  \/ (maxIterations < 1)%Z \/ (interpolationLevel < 0)%Z ->
  exists (message : string) (w' : World),
    Logic.Run E InvokeProgressEvent model srepNode initialRegionSize
      finalRegionSize maxIterations interpolationLevel L0Weight L1Weight
      L2Weight w
    = (Throw (invalid_argument message), w')
    /\ fieldBuilds w' = fieldBuilds w
    /\ progressEvents w' = progressEvents w
    /\ destination w' = destination w
    /\ errorLog w'
       = errorLog w ++ ["Error running SRep refinement: " ++ message]%string.
Proof.
  intros H. unfold Logic.Run, try_catch. simpl.
  destruct model as [model|]; simpl;
    [|eexists _, _; split; [reflexivity|simpl; auto]].
  assert (null_or_empty srepNode \/ (maxIterations < 1)%Z
          \/ (interpolationLevel < 0)%Z) as H'
    by (destruct H as [H|H]; [discriminate|exact H]).
  clear H. unfold null_or_empty in H'.
  destruct srepNode as [node|]; simpl;
    [|eexists _, _; split; [reflexivity|simpl; auto]].
  destruct (Logic.GetSRep node) as [srep|]; simpl;
    [|eexists _, _; split; [reflexivity|simpl; auto]].
  destruct (EllipticalSRep.IsEmpty srep) eqn:He; simpl;
    [eexists _, _; split; [reflexivity|simpl; auto]|].
  destruct (maxIterations <? 1)%Z eqn:Hm; simpl;
    [eexists _, _; split; [reflexivity|simpl; auto]|].
  destruct (interpolationLevel <? 0)%Z eqn:Hi; simpl;
    [eexists _, _; split; [reflexivity|simpl; auto]|].
  apply Z.ltb_ge in Hm, Hi. destruct H' as [H'|[H'|H']]; [discriminate|lia|lia].
Qed.

(** The overload without a destination node, with the same arguments: with
    a null scene it throws [std::runtime_error] before it looks at them;
    with a scene the exception is [std::invalid_argument], the node it
    added is removed, and no distance field is built. *)
Lemma Run_in_new_node_rejects_invalid_arguments (scene : bool)
    (model : option (Logic.vtkMRMLModelNode E))
    (srepNode : option Logic.vtkMRMLEllipticalSRepNode)
    (initialRegionSize finalRegionSize : R)
    (maxIterations interpolationLevel : Z)
    (L0Weight L1Weight L2Weight : R) (nodes : nat) (w : World) :
  model = None \/ null_or_empty srepNode
  \/ (maxIterations < 1)%Z \/ (interpolationLevel < 0)%Z ->
  exists (e : exception) (w' : World),
    Logic.Run_in_new_node E InvokeProgressEvent scene model srepNode
      initialRegionSize finalRegionSize maxIterations interpolationLevel
      L0Weight L1Weight L2Weight (nodes, w)
    = (Throw e, (nodes, w'))
    /\ fieldBuilds w' = fieldBuilds w
    /\ progressEvents w' = progressEvents w
    /\ if scene then exists message, e = invalid_argument message
       else exists message, e = runtime_error message.
Proof.
  intros H. unfold Logic.Run_in_new_node. destruct scene; cbn [negb];
    [|eexists _, w; split; [reflexivity|]; eauto].
  unfold Logic.Run, try_catch. simpl.
  destruct model as [model|]; simpl;
    [|eexists _, _; split; [reflexivity|simpl; eauto]].
  assert (null_or_empty srepNode \/ (maxIterations < 1)%Z
          \/ (interpolationLevel < 0)%Z) as H'
    by (destruct H as [H|H]; [discriminate|exact H]).
  clear H. unfold null_or_empty in H'.
  destruct srepNode as [node|]; simpl;
    [|eexists _, _; split; [reflexivity|simpl; eauto]].
  destruct (Logic.GetSRep node) as [srep|]; simpl;
    [|eexists _, _; split; [reflexivity|simpl; eauto]].
  destruct (EllipticalSRep.IsEmpty srep) eqn:He; simpl;
    [eexists _, _; split; [reflexivity|simpl; eauto]|].
  destruct (maxIterations <? 1)%Z eqn:Hm; simpl;
    [eexists _, _; split; [reflexivity|simpl; eauto]|].
  destruct (interpolationLevel <? 0)%Z eqn:Hi; simpl;
    [eexists _, _; split; [reflexivity|simpl; eauto]|].
  apply Z.ltb_ge in Hm, Hi. destruct H' as [H'|[H'|H']]; [discriminate|lia|lia].
Qed.

End InvalidArguments.

(** ** A refinement returns *)

Section Returns.
Context (E : Externals) (v0 : Vector3d.t).
Hypothesis unit_of_zero : UnitOfZero E = Ok v0.

Abbreviation t := (Refiner.t E).

Lemma Unit_returns v : exists u, Refiner.Unit E v = Ok u.
Proof.
  unfold Refiner.Unit, Vector3d.Unit. rewrite unit_of_zero.
  destruct (Reqb _ 0); eauto.
Qed.

Lemma SetRadius_returns radius spoke :
  exists spoke', Refiner.SetRadius E radius spoke = (Ok tt, spoke').
Proof.
  unfold Refiner.SetRadius, Spoke.SetRadius.
  destruct (Unit_returns (Spoke.GetDirection spoke)) as [u Hu].
  unfold Refiner.Unit in Hu. rewrite Hu. simpl. eauto.
Qed.

Lemma refine_spoke_returns tolerance coeff c spoke :
  exists spoke', Refiner.refine_spoke E tolerance coeff c spoke = Ok spoke'.
Proof.
  unfold Refiner.refine_spoke.
  destruct (Unit_returns (Spoke.GetDirection spoke)) as [u ->]. simpl.
  destruct (_ || _); eauto.
Qed.

Lemma crest_length_loop_returns polyData epsilon count dist oldDist step spoke :
  exists spoke',
    Refiner.crest_length_loop E polyData epsilon count dist oldDist step spoke
    = (Ok tt, spoke').
Proof.
  revert dist oldDist step spoke.
  induction count as [|count IH]; intros dist oldDist step spoke;
    cbn [Refiner.crest_length_loop]; [eexists; reflexivity|].
  destruct (Rleb _ _); [eexists; reflexivity|].
  simpl. unfold gets.
  destruct (Rgtb dist 0).
  - destruct (SetRadius_returns (Spoke.GetRadius spoke - step) spoke)
      as [spoke1 ->]. apply IH.
  - destruct (SetRadius_returns (Spoke.GetRadius spoke + step) spoke)
      as [spoke1 ->]. apply IH.
Qed.

Lemma optimize_crest_spoke_returns polyData epsilon stepSize maxIter spoke :
  exists spoke',
    Refiner.optimize_crest_spoke E polyData epsilon stepSize maxIter spoke
    = (Ok tt, spoke').
Proof.
  unfold Refiner.optimize_crest_spoke. simpl. unfold gets.
  apply crest_length_loop_returns.
Qed.

(** The callback, when there is one, returns. *)
Definition callback_total (r : t) : Prop :=
  match Refiner.m_progressCallback E r with
  | Some f => forall x, f x = Ok tt
  | None => True
  end.

Definition good (r : t) : Prop :=
  EllipticalSRep.Valid (Refiner.m_srep E r) /\ callback_total r.

(** From [r] to [r']: the configuration and the shape of the grid are kept. *)
Definition steady (r r' : t) : Prop :=
  same_config E r r'
  /\ EllipticalSRep.shape (Refiner.m_srep E r')
     = EllipticalSRep.shape (Refiner.m_srep E r).

Lemma steady_refl r : steady r r.
Proof. split; [apply same_config_refl|reflexivity]. Qed.

Lemma steady_trans r1 r2 r3 : steady r1 r2 -> steady r2 r3 -> steady r1 r3.
Proof.
  intros [C1 S1] [C2 S2]. split; [eapply same_config_trans; eassumption|].
  congruence.
Qed.

Lemma steady_good r r' : steady r r' -> good r -> good r'.
Proof.
  intros [C S1] [HV Hcb]. split.
  - eapply Valid_shape; [symmetry; exact S1|exact HV].
  - unfold callback_total in *.
    replace (Refiner.m_progressCallback E r')
      with (Refiner.m_progressCallback E r)
      by (unfold same_config in C; symmetry; tauto).
    exact Hcb.
Qed.

Lemma advanced_steady k r r' : advanced E k r r' -> steady r r'.
Proof. intros (C & S1 & _). split; assumption. Qed.

Lemma ReportProgress_steady r :
  callback_total r ->
  post (Refiner.ReportProgress E) (fun _ r' => steady r r') (fun _ _ => False) r.
Proof.
  intros Hcb. unfold callback_total in Hcb.
  unfold post, Refiner.ReportProgress. simpl. unfold gets. simpl.
  destruct (Refiner.m_progressCallback E r) as [f|] eqn:Cb; simpl.
  - unfold lift. rewrite Hcb.
    split; [unfold same_config; simpl; tauto|reflexivity].
  - apply steady_refl.
Qed.

Lemma IncrementIteration_steady r :
  callback_total r ->
  post (Refiner.IncrementIteration E) (fun _ r' => steady r r')
    (fun _ _ => False) r.
Proof.
  intros Hcb. unfold Refiner.IncrementIteration. apply post_bind, post_modify.
  eapply post_mono; [| |apply ReportProgress_steady]; [|tauto|exact Hcb].
  intros u r' [C S1]. split; [unfold same_config in *; simpl in *; tauto|].
  exact S1.
Qed.

Lemma write_current_coeff_steady x r :
  steady r (Refiner.write_current_coeff E x r).
Proof. eapply advanced_steady, write_current_coeff_advanced. Qed.

Lemma run_search_steady search f (r : t) :
  (forall coeff r1, post (f coeff) (fun _ r2 => steady r1 r2) (fun _ _ => False) r1) ->
  post (Refiner.run_search E search f) (fun _ r' => steady r r')
    (fun _ _ => False) r.
Proof.
  intros Hf. revert r. induction search as [x|x next IH]; intros r.
  - simpl. apply post_modify, write_current_coeff_steady.
  - cbn [Refiner.run_search]. apply post_bind, post_modify, post_bind.
    eapply post_mono; [| |apply Hf]; [|tauto].
    intros v r1 A1. cbv beta.
    eapply post_mono; [| |apply IH]; [|tauto].
    intros u r2 A2. cbv beta.
    eapply steady_trans; [apply write_current_coeff_steady|].
    exact (steady_trans _ _ _ A1 A2).
Qed.

Lemma EvaluateObjectiveFunction_steady coeff spokeType (r : t) :
  post (Refiner.EvaluateObjectiveFunction E coeff spokeType)
    (fun _ r' => steady r r') (fun _ _ => False) r.
Proof.
  eapply post_mono; [| |apply EvaluateObjectiveFunction_advanced]; [|tauto].
  intros v r' (k & _ & A). eapply advanced_steady, A.
Qed.

(** [Refine] returns on a valid grid, and the grid it returns has the
    same shape. *)
Lemma Refine_returns g coeff spokeType :
  EllipticalSRep.Valid g -> spokeType <> SkeletalPoint.CrestOrientation ->
  exists g', Refiner.Refine E g coeff spokeType = Ok g'
             /\ EllipticalSRep.shape g' = EllipticalSRep.shape g.
Proof.
  intros HV Hty. unfold Refiner.Refine, EllipticalSRep.SmartClone.
  assert (post
    (for_upto (EllipticalSRep.GetNumberOfLines g) (fun l =>
       for_upto (EllipticalSRep.GetNumberOfSteps g) (fun s =>
         clone <- gets fst ;;
         c <- gets snd ;;
         skeletalPoint <- lift (EllipticalSRep.GetSkeletalPoint clone l s) ;;
         spoke <- lift (SkeletalPoint.GetSpoke skeletalPoint spokeType) ;;
         spoke' <- lift (Refiner.refine_spoke E 1e-13 coeff c spoke) ;;
         modify (fun st : EllipticalSRep.t * nat =>
           (EllipticalSRep.update l s
              (SkeletalPoint.SetSpoke spokeType spoke') (fst st),
            (snd st + 4)%nat)))))
    (fun _ st => EllipticalSRep.shape (fst st) = EllipticalSRep.shape g)
    (fun _ _ => False) (g, 0%nat)) as H.
  { apply (post_for_upto_const _ _
             (fun st : EllipticalSRep.t * nat =>
                EllipticalSRep.shape (fst st) = EllipticalSRep.shape g));
      [reflexivity|].
    intros l st1 Hl S1.
    apply (post_for_upto_const _ _
             (fun st : EllipticalSRep.t * nat =>
                EllipticalSRep.shape (fst st) = EllipticalSRep.shape g));
      [exact S1|].
    clear st1 S1. intros s st1 Hs S1.
    do 2 apply post_bind, post_gets. apply post_bind, post_lift.
    destruct (Valid_cells (fst st1)) with (l := l) (s := s) as (p & -> & _).
    { eapply Valid_shape; [symmetry; exact S1|exact HV]. }
    { rewrite (GetNumberOfLines_shape _ _ S1). exact Hl. }
    { rewrite (GetNumberOfSteps_shape _ _ S1). exact Hs. }
    apply post_bind, post_lift.
    assert (exists spoke, SkeletalPoint.GetSpoke p spokeType = Ok spoke)
      as [spoke ->] by (destruct spokeType; simpl; eauto; congruence).
    apply post_bind, post_lift.
    destruct (refine_spoke_returns 1e-13 coeff (snd st1) spoke) as [spoke' ->].
    apply post_modify. simpl. rewrite <- S1. apply shape_update.
    intros q. apply IsCrest_SetSpoke_up_down, Hty. }
  unfold post in H.
  destruct spokeType; try congruence;
    match type of H with
    | context [for_upto ?n ?b (g, 0%nat)] =>
        destruct (for_upto n b (g, 0%nat)) as [[[]|e] [g' c]]
    end; try contradiction; eauto.
Qed.

Lemma GetSkeletalPoint_returns l s p (r : t) (Q : SkeletalPoint.t -> t -> Prop) Qe :
  EllipticalSRep.GetSkeletalPoint (Refiner.m_srep E r) l s = Ok p ->
  Q p r -> post (Refiner.GetSkeletalPoint E l s) Q Qe r.
Proof.
  intros Hp HQ. unfold Refiner.GetSkeletalPoint.
  apply post_bind, post_gets, post_lift. rewrite Hp. exact HQ.
Qed.

Lemma set_m_srep_steady (r : t) g :
  EllipticalSRep.shape g = EllipticalSRep.shape (Refiner.m_srep E r) ->
  steady r (Refiner.set_m_srep E g r).
Proof. intros H. eapply advanced_steady, set_m_srep_advanced, H. Qed.

Lemma RefineUpDownSpokes_steady spokeType (r : t) :
  good r -> spokeType <> SkeletalPoint.CrestOrientation ->
  post (Refiner.RefineUpDownSpokes E spokeType) (fun _ r' => steady r r')
    (fun _ _ => False) r.
Proof.
  intros Hgood Hty. unfold Refiner.RefineUpDownSpokes.
  apply post_bind, post_modify.
  set (r0 := Refiner.set_m_currentCoeff E _ r).
  assert (steady r r0) as A0
    by (split; [unfold same_config; simpl; tauto|reflexivity]).
  do 4 apply post_bind, post_gets. apply post_bind.
  eapply post_mono;
    [| |apply run_search_steady; intros;
        apply EvaluateObjectiveFunction_steady]; [|tauto].
  intros u r1 A1. cbv beta.
  assert (steady r r1) as A by exact (steady_trans _ _ _ A0 A1).
  clear A0 A1. clearbody r0.
  destruct (steady_good _ _ A Hgood) as [HV1 Hcb1].
  do 2 apply post_bind, post_gets. apply post_bind, post_lift.
  destruct (Refine_returns (Refiner.m_srep E r1)
              (Refiner.data (Refiner.current_coeff E r1)) spokeType HV1 Hty)
    as (refined & -> & Sref).
  apply post_bind.
  rewrite (GetNumberOfLines_shape _ _ Sref), Z.eqb_refl. apply post_ret.
  apply post_bind.
  rewrite (GetNumberOfSteps_shape _ _ Sref), Z.eqb_refl. apply post_ret.
  apply post_bind, post_gets.
  apply (post_for_upto_const _ _ (fun r2 => steady r r2)); [exact A|].
  intros l r2 Hl A2. apply post_bind, post_gets.
  apply (post_for_upto_const _ _ (fun r3 => steady r r3)); [exact A2|].
  intros s r3 Hs A3.
  destruct A as [_ S1]. destruct A2 as [_ S2]. pose proof A3 as [_ S3].
  assert (EllipticalSRep.shape refined
          = EllipticalSRep.shape (Refiner.m_srep E r)) as Sr by congruence.
  assert (EllipticalSRep.Valid (Refiner.m_srep E r)) as HV by apply Hgood.
  rewrite (GetNumberOfLines_shape _ _ S1) in Hl.
  rewrite (GetNumberOfSteps_shape _ _ S2) in Hs.
  apply post_bind, post_lift.
  destruct (Valid_cells refined) with (l := l) (s := s) as (p & Hp & _).
  { eapply Valid_shape; [symmetry; exact Sr|exact HV]. }
  { rewrite (GetNumberOfLines_shape _ _ Sr). exact Hl. }
  { rewrite (GetNumberOfSteps_shape _ _ Sr). exact Hs. }
  assert (exists spoke,
            Refiner.GetSpokeAt refined (Z.of_nat l) (Z.of_nat s) spokeType
            = Ok spoke) as [spoke ->].
  { unfold Refiner.GetSpokeAt. rewrite Hp. simpl.
    destruct spokeType; simpl; eauto; congruence. }
  destruct (Valid_cells (Refiner.m_srep E r3)) with (l := l) (s := s)
    as (q & Hq & _).
  { eapply Valid_shape; [symmetry; exact S3|exact HV]. }
  { rewrite (GetNumberOfLines_shape _ _ S3). exact Hl. }
  { rewrite (GetNumberOfSteps_shape _ _ S3). exact Hs. }
  apply post_bind. eapply GetSkeletalPoint_returns; [exact Hq|].
  apply post_modify. eapply steady_trans; [exact A3|].
  apply set_m_srep_steady, shape_update.
  intros q'. apply IsCrest_SetSpoke_up_down, Hty.
Qed.

Lemma on_crest_spoke_steady l s p spoke (body : St Spoke.t unit) (r : t) :
  EllipticalSRep.GetSkeletalPoint (Refiner.m_srep E r) l s = Ok p ->
  SkeletalPoint.GetCrestSpoke p = Some spoke ->
  (exists spoke', body spoke = (Ok tt, spoke')) ->
  post (Refiner.on_crest_spoke E l s body) (fun _ r' => steady r r')
    (fun _ _ => False) r.
Proof.
  intros Hp Hc [spoke' Hbody].
  pose proof (on_crest_spoke_advanced E l s body r) as H.
  destruct (GetSkeletalPoint_nonneg _ _ _ _ Hp) as [Hl Hs].
  specialize (H Hl Hs). unfold post, Refiner.on_crest_spoke in *.
  rewrite Hp in *. unfold SkeletalPoint.GetSpoke in *. rewrite Hc in *.
  rewrite Hbody in *. eapply advanced_steady, H.
Qed.

Lemma for_each_crest_spoke_steady (body : St Spoke.t unit) (r : t) :
  good r ->
  (forall spoke, exists spoke', body spoke = (Ok tt, spoke')) ->
  post (Refiner.for_each_crest_spoke E body) (fun _ r' => steady r r')
    (fun _ _ => False) r.
Proof.
  intros Hgood Hbody. unfold Refiner.for_each_crest_spoke.
  apply post_bind, post_gets.
  apply (post_for_upto_const _ _ (fun r1 => steady r r1)); [apply steady_refl|].
  intros l r1 Hl A1. apply post_bind, post_gets.
  apply (post_for_upto_const _ _ (fun r2 => steady r r2)); [exact A1|].
  intros s r2 Hs A2.
  destruct A1 as [_ S1]. pose proof A2 as [_ S2].
  destruct (steady_good _ _ A2 Hgood) as [HV2 Hcb2].
  rewrite (GetNumberOfSteps_shape _ _ S1) in Hs.
  destruct (Valid_cells _ HV2 l s) as (p & Hp & _).
  { rewrite (GetNumberOfLines_shape _ _ S2). exact Hl. }
  { rewrite (GetNumberOfSteps_shape _ _ S2). exact Hs. }
  apply post_bind. eapply GetSkeletalPoint_returns; [exact Hp|].
  destruct (SkeletalPoint.GetCrestSpoke p) as [spoke|] eqn:Hc.
  - rewrite (IsCrest_GetCrestSpoke p spoke Hc). apply post_bind.
    pose proof (IncrementIteration_steady r2 Hcb2) as H3.
    pose proof (IncrementIteration_srep E r2) as H3'.
    unfold post in H3, H3' |- *.
    destruct (Refiner.IncrementIteration E r2) as [[[]|e] r3]; [|contradiction].
    eapply post_mono; [| |eapply on_crest_spoke_steady];
      [| |rewrite H3'; exact Hp|exact Hc|apply Hbody]; [|tauto].
    intros u r4 A4. cbv beta in A4 |- *.
    exact (steady_trans _ _ _ A2 (steady_trans _ _ _ H3 A4)).
  - assert (SkeletalPoint.IsCrest p = false) as ->
      by (unfold SkeletalPoint.IsCrest; rewrite Hc; reflexivity).
    apply post_ret. exact A2.
Qed.

Hypothesis max_curvature : forall polyData, MaximumCurvature E polyData <> None.
Hypothesis min_curvature : forall polyData, MinimumCurvature E polyData <> None.

Lemma RefineCrestSpokes_steady (r : t) :
  good r ->
  post (Refiner.RefineCrestSpokes E) (fun _ r' => steady r r')
    (fun _ _ => False) r.
Proof.
  intros Hgood. unfold Refiner.RefineCrestSpokes.
  do 2 apply post_bind, post_gets. apply post_bind.
  unfold Refiner.OptimizeCrestSpokeLengths. apply post_bind, post_gets.
  eapply post_mono; [| |apply for_each_crest_spoke_steady]; [|tauto| |];
    [|exact Hgood|intros; apply optimize_crest_spoke_returns].
  intros u r1 A1. cbv beta in A1 |- *. apply post_bind, post_gets.
  pose proof (max_curvature (Refiner.m_polyData E r1)).
  pose proof (min_curvature (Refiner.m_polyData E r1)).
  destruct (MaximumCurvature E _) as [maxC|]; [|congruence].
  destruct (MinimumCurvature E _) as [minC|]; [|congruence].
  unfold Refiner.correct_crest_spokes. apply post_bind, post_gets.
  eapply post_mono; [| |apply for_each_crest_spoke_steady]; [|tauto| |];
    [|exact (steady_good _ _ A1 Hgood)|].
  - intros u' r2 A2. exact (steady_trans _ _ _ A1 A2).
  - intros spoke.
    destruct (correct_crest_spoke_result E (Refiner.m_polyData E r1) maxC minC
                spoke) as (spoke' & Hs & _).
    eauto.
Qed.

Lemma set_m_iteration_steady it (r : t) :
  steady r (Refiner.set_m_iteration E it r).
Proof. split; [unfold same_config; simpl; tauto|reflexivity]. Qed.

(** [Run] returns. *)
Lemma Run_returns (r : t) :
  good r ->
  post (Refiner.Run E) (fun _ _ => True) (fun _ _ => False) r.
Proof.
  intros Hgood. unfold Refiner.Run. apply post_bind, post_gets.
  destruct (negb _); apply post_bind; [|apply post_ret, post_gets; exact I].
  pose (stage := fun (m : Refiner.M E unit) =>
    forall r1, good r1 ->
      post m (fun _ r2 => good r2) (fun _ _ => False) r1).
  assert (forall it, stage (modify (Refiner.set_m_iteration E it))) as Hset.
  { intros it r1 H1. apply post_modify.
    eapply steady_good; [apply set_m_iteration_steady|exact H1]. }
  assert (stage (Refiner.ReportProgress E)) as Hrep.
  { intros r1 H1.
    eapply post_mono; [| |apply ReportProgress_steady, H1]; [|tauto].
    intros u r2 A. exact (steady_good _ _ A H1). }
  assert (forall spokeType, stage (Refiner.RefineSpokes E spokeType)) as Href.
  { intros spokeType r1 H1.
    destruct spokeType; cbn [Refiner.RefineSpokes];
      (eapply post_mono;
       [| |first [apply RefineUpDownSpokes_steady; [exact H1|discriminate]
                 |apply RefineCrestSpokes_steady; exact H1]]; [|tauto]);
      intros u r2 A; exact (steady_good _ _ A H1). }
  assert (forall (m1 m2 : Refiner.M E unit) Q r1,
            stage m1 -> good r1 ->
            (forall r2, good r2 -> post m2 Q (fun _ _ => False) r2) ->
            post (m1 ;; m2) Q (fun _ _ => False) r1) as Hseq.
  { intros m1 m2 Q r1 H1 Hg H2. apply post_bind.
    eapply post_mono; [| |apply H1, Hg]; [|tauto].
    intros u r2 Hg2. apply H2, Hg2. }
  apply Hseq; [apply Hset|exact Hgood|]. intros r1 H1.
  apply Hseq; [apply Hrep|exact H1|]. clear r1 H1. intros r1 H1.
  apply Hseq; [apply Href|exact H1|]. clear r1 H1. intros r1 H1.
  apply post_bind, post_modify.
  apply Hseq; [apply Hrep|
               eapply steady_good; [apply set_m_iteration_steady|exact H1]|].
  clear r1 H1. intros r1 H1.
  apply Hseq; [apply Href|exact H1|]. clear r1 H1. intros r1 H1.
  apply post_bind, post_modify.
  apply Hseq; [apply Hrep|
               eapply steady_good; [apply set_m_iteration_steady|exact H1]|].
  clear r1 H1. intros r1 H1.
  apply Hseq; [apply Href|exact H1|]. clear r1 H1. intros r1 H1.
  apply post_modify, post_gets. exact I.
Qed.

Lemma GetInitialCoefficients_returns (r : t) :
  EllipticalSRep.Valid (Refiner.m_srep E r) ->
  post (Refiner.GetInitialCoefficients E) (fun _ r' => same_but_coeffs E r r')
    (fun _ _ => False) r.
Proof.
  intros HV. unfold Refiner.GetInitialCoefficients.
  do 2 apply post_bind, post_gets.
  apply (post_for_upto_const _ _ (fun r1 => same_but_coeffs E r r1));
    [apply same_but_coeffs_refl|].
  intros l r1 Hl H1.
  apply (post_for_upto_const _ _ (fun r2 => same_but_coeffs E r r2));
    [exact H1|].
  clear r1 H1. intros s r1 Hs H1.
  destruct (Valid_cells _ HV l s Hl Hs) as (p & Hp & _).
  pose proof H1 as (C & S1 & I1 & R1).
  apply post_bind. eapply GetSkeletalPoint_returns; [rewrite S1; exact Hp|].
  apply post_bind, post_lift.
  destruct (Unit_returns (Spoke.GetDirection (SkeletalPoint.GetUpSpoke p)))
    as [up ->].
  apply post_bind, post_modify.
  apply post_bind. eapply GetSkeletalPoint_returns; [simpl; rewrite S1; exact Hp|].
  apply post_bind, post_lift.
  destruct (Unit_returns (Spoke.GetDirection (SkeletalPoint.GetDownSpoke p)))
    as [down ->].
  apply post_modify.
  split; [unfold same_config in *; simpl; tauto|]. simpl. auto.
Qed.

Hypothesis distance_map :
  forall image, exists sdf, ApproximateSignedDistanceMap E image = Ok sdf.
Hypothesis gradient :
  forall sdf, exists grad, GradientImage E sdf = Ok grad.

(** A refinement returns when the grid is valid and what it calls returns:
    [Vector3d::Unit], the two ITK filters, the curvature filter and the
    callback. *)
Lemma RefineSRep_returns srep polyData initialRegionSize finalRegionSize
    maxIterations interpolationLevel L0Weight L1Weight L2Weight callback
    (w : World) :
  EllipticalSRep.Valid srep ->
  (forall x, callback x = Ok tt) ->
  exists refined w',
    Logic.RefineSRep E srep (Some polyData) initialRegionSize finalRegionSize
      maxIterations interpolationLevel L0Weight L1Weight L2Weight
      (Some callback) w
    = (Ok refined, w').
Proof.
  intros HV Hcb. unfold Logic.RefineSRep, Logic.Refiner_new.
  unfold Fields.ComputeMasterBounds, Fields.CreateAntiAliasSignedDistanceMap,
    Fields.ConvertPolyDataToImageData, Fields.CreateApproximateSignedDistanceMap,
    Fields.CreateGradientDistanceFilter, EllipticalSRep.SmartClone.
  simpl. unfold lift. simpl.
  match goal with
  | |- context [ApproximateSignedDistanceMap E ?i] =>
      destruct (distance_map i) as [sdf ->]
  end. simpl.
  destruct (gradient sdf) as [grad ->]. simpl.
  match goal with
  | |- context [Refiner.GetInitialCoefficients E ?r0] =>
      pose proof (GetInitialCoefficients_returns r0 HV) as H0;
      unfold post in H0;
      destruct (Refiner.GetInitialCoefficients E r0) as [[[]|e] this]
  end; [|contradiction].
  simpl. destruct H0 as (C & S0 & _). simpl in S0.
  pose proof (Run_returns
                (Refiner.SetProgressCallback E (Some callback) this)) as H1.
  unfold post in H1.
  destruct (Refiner.Run E _) as [[refined|e] r1].
  - simpl. eauto.
  - exfalso. apply H1. split; simpl; [rewrite S0; exact HV|exact Hcb].
Qed.

End Returns.

(** ** The helpers of the distance field *)

Section Helpers.
Context (E : Externals).

(** [Clamp] returns a value of the interval, and leaves a value of the
    interval as it is. *)
Theorem Clamp_stays_in_the_interval (val min max : R) :
  min <= max ->
  min <= Fields.Clamp val min max <= max
  /\ (min <= val <= max -> Fields.Clamp val min max = val)
  /\ (val < min -> Fields.Clamp val min max = min)
  /\ (max < val -> Fields.Clamp val min max = max).
Proof.
  intros H. unfold Fields.Clamp.
  destruct (Rltb val min) eqn:A; [apply Rltb_true in A|apply Rltb_false in A];
    (destruct (Rgtb val max) eqn:B; [apply Rgtb_true in B|apply Rgtb_false in B]);
    repeat split; intros; lra.
Qed.

Lemma Pow_loop_power (count : nat) (val ret : Z) :
  (Fields.Pow_loop count val ret mod 2 ^ 64
   = (ret * val ^ Z.of_nat count) mod 2 ^ 64)%Z.
Proof.
  revert ret. induction count as [|count IH]; intros ret.
  - cbn [Fields.Pow_loop]. rewrite Z.pow_0_r, Z.mul_1_r. reflexivity.
  - cbn [Fields.Pow_loop]. rewrite IH. unfold Fields.size_t.
    rewrite Nat2Z.inj_succ, Z.pow_succ_r by lia.
    rewrite Z.mul_mod_idemp_l by lia. f_equal. ring.
Qed.

Lemma Pow_loop_word (count : nat) (val ret : Z) :
  (0 <= ret < 2 ^ 64)%Z -> (0 <= Fields.Pow_loop count val ret < 2 ^ 64)%Z.
Proof.
  revert ret. induction count as [|count IH]; intros ret H.
  - exact H.
  - cbn [Fields.Pow_loop]. apply IH. unfold Fields.size_t.
    apply Z.mod_pos_bound. lia.
Qed.

(** [Pow] is the power in the arithmetic of [size_t]: it wraps around at
    [2^64], so [Pow(2, 64)] is [0]. *)
Theorem Pow_is_the_power_modulo_the_word (val exp : Z) :
  (0 <= exp)%Z ->
  Fields.Pow val exp = (val ^ exp mod 2 ^ 64)%Z.
Proof.
  intros H. unfold Fields.Pow.
  rewrite <- (Z.mod_small (Fields.Pow_loop _ _ _) (2 ^ 64))
    by (apply Pow_loop_word; lia).
  rewrite Pow_loop_power, Z2Nat.id, Z.mul_1_l by lia. reflexivity.
Qed.

(** A box encloses another. *)
Definition encloses (outer inner : Bounds) : Prop :=
  b0 outer <= b0 inner /\ b1 inner <= b1 outer
  /\ b2 outer <= b2 inner /\ b3 inner <= b3 outer
  /\ b4 outer <= b4 inner /\ b5 inner <= b5 outer.

(** [ComputeMasterBounds] throws for a null mesh; otherwise it returns the
    smallest box that encloses the bounds of the s-rep and of the mesh. *)
Theorem master_bounds_are_the_smallest_enclosing_box
    (polyData : option (vtkPolyData E)) (srep : EllipticalSRep.t) :
  match polyData with
  | None =>
      Fields.ComputeMasterBounds E polyData srep
      = Throw (invalid_argument "Expected existing polydata for computing bounds")
  | Some mesh =>
      exists bounds,
        Fields.ComputeMasterBounds E polyData srep = Ok bounds
        /\ encloses bounds (GetSRepBounds E srep)
        /\ encloses bounds (GetBounds E mesh)
        /\ forall box,
             encloses box (GetSRepBounds E srep) ->
             encloses box (GetBounds E mesh) -> encloses box bounds
  end.
Proof.
  destruct polyData as [mesh|]; [|reflexivity].
  eexists. split; [reflexivity|]. unfold encloses. cbn [b0 b1 b2 b3 b4 b5].
  repeat split;
    try (intros box H1 H2; repeat split);
    try apply Rmin_l; try apply Rmin_r; try apply Rmax_l; try apply Rmax_r.
  all: try (apply Rmin_glb; tauto); try (apply Rmax_lub; tauto).
Qed.

(** The point of the image that [m_srepToImageCoordsTransform] gives for a
    point of the space of the mesh. *)
Definition to_image_coords (bounds : Bounds) (p : Point3d.t) : Point3d.t :=
  let '(x, y, z, _) :=
    Fields.MultiplyPoint (Fields.CreateBoundsToImageCoordsTransform bounds)
      (Point3d.x p, Point3d.y p, Point3d.z p, 1) in
  Point3d.mk x y z.

(** In exact arithmetic, the mesh is rasterised in the coordinates the
    s-rep is transformed to: for bounds with positive ranges, the point the
    loop of [ConvertPolyDataToImageData] inserts for a point of the mesh is
    the one the matrix of [CreateBoundsToImageCoordsTransform] sends it to.
    On doubles the two agree up to rounding only
    ([mesh_and_matrix_differ_in_doubles]), and the inserted point is
    stored as [float]. *)
Theorem mesh_and_srep_share_the_image_coordinates
    (polydata : vtkPolyData E) (bounds : Bounds) (voxelSpacing : R) :
  0 < range0 bounds -> 0 < range1 bounds -> 0 < range2 bounds ->
  let newBounds := Fields.ComputePolyDataToImageDataNewBounds E bounds in
  Fields.ConvertPolyDataToImageData E (Some polydata) bounds voxelSpacing
  = Ok (PolyDataToImageStencil E
          (map (to_image_coords bounds) (GetPoints E polydata))
          polydata voxelSpacing (trunc (1 / voxelSpacing))
          (Point3d.mk (b0 newBounds) (b2 newBounds) (b4 newBounds))).
Proof.
  intros H0 H1 H2 newBounds. unfold Fields.ConvertPolyDataToImageData.
  fold newBounds. do 2 f_equal. apply map_ext. intros p.
  unfold to_image_coords.
  rewrite (transform_of_positive_ranges E) by assumption. fold newBounds.
  assert (0 < dominant bounds) as Hd
    by (pose proof (dominant_bounds bounds); lra).
  subst newBounds. rewrite (new_bounds_of_positive_ranges E) by assumption.
  cbn [b0 b1 b2 b3 b4 b5]. unfold range0, range1, range2 in *.
  f_equal; field; lra.
Qed.

End Helpers.

(** ** The energy terms: what they read, and their sign *)

Lemma for_from_ext {S} (count : nat) (first : Z) (body body' : Z -> St S unit) :
  (forall i s, body i s = body' i s) ->
  forall s, for_from count first body s = for_from count first body' s.
Proof.
  intros H. revert first. induction count as [|count IH]; intros first s.
  - reflexivity.
  - cbn [for_from]. simpl. rewrite H.
    destruct (body' first s) as [[[]|e] s']; [apply IH|reflexivity].
Qed.

Lemma for_upto_ext {S} (n : Z) (body body' : Z -> St S unit) :
  (forall i s, body i s = body' i s) ->
  forall s, for_upto n body s = for_upto n body' s.
Proof. intros H s. apply for_from_ext, H. Qed.

Lemma Int_part_IZR (k : Z) : Int_part (IZR k) = k.
Proof. symmetry. apply Int_part_spec. lra. Qed.

Lemma trunc_IZR (k : Z) : trunc (IZR k) = k.
Proof.
  unfold trunc. destruct (Rle_dec 0 (IZR k)).
  - apply Int_part_IZR.
  - rewrite <- opp_IZR, Int_part_IZR. lia.
Qed.

(** The index [Clamp(std::lround(t / spacing), 0, maxIndex)], as a [long]. *)
Lemma clamped_index (a : Z) (maxIndex : Z) :
  (0 <= maxIndex)%Z ->
  (0 <= trunc (Fields.Clamp (IZR a) 0 (IZR maxIndex)) <= maxIndex)%Z.
Proof.
  intros H. unfold Fields.Clamp.
  destruct (Rltb (IZR a) 0) eqn:A.
  - change 0 with (IZR 0). rewrite trunc_IZR. lia.
  - apply Rltb_false in A. destruct (Rgtb (IZR a) (IZR maxIndex)) eqn:B.
    + rewrite trunc_IZR. lia.
    + apply Rgtb_false in B. rewrite trunc_IZR.
      apply le_IZR in A, B. lia.
Qed.

Lemma lround_at_least_1 (x : R) : 1 <= x -> (1 <= lround x)%Z.
Proof.
  intros H. unfold lround. destruct (Rle_dec 0 x) as [_|N]; [|lra].
  destruct (base_Int_part (x + / 2)) as [_ B].
  assert (0 < IZR (Int_part (x + / 2))) as P by lra.
  apply (lt_IZR 0) in P. lia.
Qed.

Section EnergyTerms.
Context (E : Externals).

Abbreviation t := (Refiner.t E).

(** The refiner with other images in [m_sdfAndGradient]. *)
Definition with_images (images : SDFAndGradient) (this : t) : t :=
  Refiner.mk E (Refiner.m_voxelSpacing E this) (Refiner.m_polyData E this)
    (Refiner.m_srep E this) (Refiner.m_masterBounds E this) images
    (Refiner.m_srepToImageCoordsTransform E this)
    (Refiner.m_flattenedUpCoeff E this) (Refiner.m_flattenedDownCoeff E this)
    (Refiner.m_initialRegionSize E this) (Refiner.m_finalRegionSize E this)
    (Refiner.m_maxIterations E this) (Refiner.m_interpolationLevel E this)
    (Refiner.m_currentCoeff E this) (Refiner.m_L0Weight E this)
    (Refiner.m_L1Weight E this) (Refiner.m_L2Weight E this)
    (Refiner.m_iteration E this) (Refiner.m_totalProgressIterations E this)
    (Refiner.m_progressCallback E this) (Refiner.reported E this).

(** [ComputeDistanceSquaredAndNormalToImage] reads the two images at
    indices from [0] to [maxIndex] only, wherever the boundary points are:
    images that agree there give the same two totals. *)
Theorem images_are_read_within_their_extent (this : t)
    (images : SDFAndGradient) (srep : EllipticalSRep.t)
    (spokeType : Refiner.SpokeType) :
  let maxIndex := (lround (1 / Refiner.m_voxelSpacing E this) - 1)%Z in
  (0 <= maxIndex)%Z ->
  (forall x y z : Z,
     (0 <= x <= maxIndex)%Z -> (0 <= y <= maxIndex)%Z ->
     (0 <= z <= maxIndex)%Z ->
     fst images x y z = fst (Refiner.m_sdfAndGradient E this) x y z
     /\ snd images x y z = snd (Refiner.m_sdfAndGradient E this) x y z) ->
  Refiner.ComputeDistanceSquaredAndNormalToImage E (with_images images this)
    srep spokeType
  = Refiner.ComputeDistanceSquaredAndNormalToImage E this srep spokeType.
Proof.
  intros maxIndex Hmax Hsame.
  unfold Refiner.ComputeDistanceSquaredAndNormalToImage.
  match goal with
  | |- match ?a _ with _ => _ end = match ?b _ with _ => _ end =>
      assert (forall s, a s = b s) as ->; [|reflexivity]
  end.
  apply for_upto_ext. intros l. apply for_upto_ext. intros s totals.
  unfold with_images.
  cbn [bind St_Monad lift Refiner.m_voxelSpacing Refiner.m_sdfAndGradient
       Refiner.m_srepToImageCoordsTransform].
  destruct (EllipticalSRep.GetSkeletalPoint srep l s) as [p|e]; [|reflexivity].
  destruct (SkeletalPoint.GetSpoke p spokeType) as [spoke|e]; [|reflexivity].
  destruct (Fields.MultiplyPoint _ _) as [[[t0 t1] t2] t3].
  fold maxIndex.
  destruct (Hsame _ _ _
              (clamped_index
                 (lround (t0 / Refiner.m_voxelSpacing E this)) maxIndex Hmax)
              (clamped_index
                 (lround (t1 / Refiner.m_voxelSpacing E this)) maxIndex Hmax)
              (clamped_index
                 (lround (t2 / Refiner.m_voxelSpacing E this)) maxIndex Hmax))
    as [-> ->].
  reflexivity.
Qed.

(** The sum of the squares of the components. *)
Definition norm2 (v : Vector3d.t) : R :=
  Vector3d.x v * Vector3d.x v + Vector3d.y v * Vector3d.y v
  + Vector3d.z v * Vector3d.z v.

Lemma Dot_at_most_1 a b : norm2 a <= 1 -> norm2 b <= 1 -> Refiner.Dot a b <= 1.
Proof.
  unfold norm2, Refiner.Dot. intros Ha Hb.
  pose proof (Rle_0_sqr (Vector3d.x a - Vector3d.x b)).
  pose proof (Rle_0_sqr (Vector3d.y a - Vector3d.y b)).
  pose proof (Rle_0_sqr (Vector3d.z a - Vector3d.z b)).
  unfold Rsqr in *. lra.
Qed.

Lemma norm2_div v :
  Vector3d.GetLength v <> 0 ->
  norm2 (Vector3d.div v (Vector3d.GetLength v)) = 1.
Proof.
  intros H. pose proof (GetLength_square v) as Sq. unfold norm2. simpl.
  set (n := Vector3d.GetLength v) in *.
  replace (_ + _ + _)
    with ((Vector3d.x v * Vector3d.x v + Vector3d.y v * Vector3d.y v
           + Vector3d.z v * Vector3d.z v) / (n * n)) by (field; exact H).
  rewrite <- Sq. field. exact H.
Qed.

Lemma norm2_Normalize v : norm2 (Refiner.Normalize v) <= 1.
Proof.
  unfold Refiner.Normalize. destruct (Reqb _ 0) eqn:D.
  - apply Reqb_true in D. pose proof (GetLength_square v) as Sq.
    rewrite D in Sq. unfold norm2. lra.
  - apply Reqb_false in D. rewrite norm2_div by exact D. lra.
Qed.

(** What [Unit] returns for the zero vector is no longer than a unit
    vector, when it returns. *)
Definition unit_of_zero_is_short : Prop :=
  forall w, UnitOfZero E = Ok w -> Vector3d.GetLength w <= 1.

Lemma norm2_Unit v u :
  unit_of_zero_is_short -> Refiner.Unit E v = Ok u -> norm2 u <= 1.
Proof.
  intros H0. unfold Refiner.Unit, Vector3d.Unit. destruct (Reqb _ 0) eqn:D.
  - intros Hu. specialize (H0 u Hu). pose proof (GetLength_square u) as Sq.
    pose proof (GetLength_nonneg u). unfold norm2. nra.
  - apply Reqb_false in D. intros [= <-]. rewrite norm2_div by exact D. lra.
Qed.

Lemma distance_and_normal_terms_nonneg (this : t) srep spokeType L0 L1 :
  unit_of_zero_is_short ->
  Refiner.ComputeDistanceSquaredAndNormalToImage E this srep spokeType
  = Ok (L0, L1) ->
  0 <= L0 /\ 0 <= L1.
Proof.
  intros H0. unfold Refiner.ComputeDistanceSquaredAndNormalToImage.
  match goal with
  | |- match ?loops ?s0 with _ => _ end = _ -> _ =>
      assert (post loops (fun _ totals => 0 <= fst totals /\ 0 <= snd totals)
                (fun _ _ => True) s0) as H
  end.
  { apply post_for_upto_const; [simpl; lra|]. intros l s1 _ I1.
    apply post_for_upto_const; [exact I1|]. clear s1 I1. intros s s1 _ I1.
    apply post_bind, post_lift.
    destruct (EllipticalSRep.GetSkeletalPoint srep _ _) as [p|e]; [|exact I].
    apply post_bind, post_lift.
    destruct (SkeletalPoint.GetSpoke p spokeType) as [spoke|e]; [|exact I].
    destruct (Fields.MultiplyPoint _ _) as [[[t0 t1] t2] t3].
    apply post_bind, post_lift.
    destruct (Refiner.Unit E (Spoke.GetDirection spoke)) as [u|e] eqn:Hu;
      [|exact I].
    apply post_modify. cbn [fst snd].
    match goal with
    | |- _ <= _ + ?d * ?d /\ _ <= _ + ?d * ?d * (1 - Refiner.Dot ?n u) =>
        pose proof (Rle_0_sqr d) as Hd;
        pose proof (Dot_at_most_1 n u (norm2_Normalize _) (norm2_Unit _ _ H0 Hu))
    end.
    unfold Rsqr in Hd. split; [lra|]. destruct I1. nra. }
  unfold post in H.
  match goal with
  | H : match ?x with _ => _ end |- _ => destruct x as [[[]|e] [d n]]
  end; [|discriminate].
  intros [= <- <-]. exact H.
Qed.

Lemma rSrad_term_nonneg (this : t) srep spokeType ii jj term :
  Refiner.rSrad_term E this srep spokeType ii jj = Ok term -> 0 <= term.
Proof.
  unfold Refiner.rSrad_term.
  destruct (Refiner.ComputeRSradDerivatives E this srep spokeType ii jj)
    as [d|e]; [|discriminate].
  cbn [bind Result_Monad].
  destruct (Refiner.GetSpokeAt srep ii jj spokeType) as [spoke|e];
    [|discriminate].
  destruct (Refiner.Unit E (Spoke.GetDirection spoke)) as [U|e];
    [|discriminate].
  intros [= <-]. apply Rmax_l.
Qed.

Lemma rSrad_penalty_nonneg (this : t) srep spokeType L2 :
  Refiner.ComputeRSradPenalty E this srep spokeType = Ok L2 -> 0 <= L2.
Proof.
  unfold Refiner.ComputeRSradPenalty.
  destruct (EllipticalSRep.IsEmpty srep); [intros [= <-]; lra|].
  match goal with
  | |- match ?loops ?s0 with _ => _ end = _ -> _ =>
      assert (post loops (fun _ penalty => 0 <= penalty) (fun _ _ => True) s0)
        as H
  end.
  { apply post_for_upto_const; [lra|]. intros i s1 _ I1.
    apply post_for_upto_const; [exact I1|]. clear s1 I1. intros j s1 _ I1.
    apply post_bind, post_lift.
    destruct (Refiner.rSrad_term E this srep spokeType _ _) as [term|e] eqn:Ht;
      [|exact I].
    apply post_modify. pose proof (rSrad_term_nonneg _ _ _ _ _ _ Ht). lra. }
  unfold post in H.
  match goal with
  | H : match ?x with _ => _ end |- _ => destruct x as [[[]|e] penalty]
  end; [|discriminate].
  intros [= <-]. exact H.
Qed.

(** The normal term on doubles: the gradient [(1, 1, 1)], normalised, has
    the dot product 1.0000000000000002 with itself, so [1 - dotProduct] is
    below zero by rounding. *)
Lemma normal_match_is_negative_in_doubles :
  (1 - Binary64.Fields.Dot (Binary64.Fields.Normalize (1, 1, 1))
         (Binary64.Fields.Normalize (1, 1, 1))
   =? -0x1p-52)%float = true.
Proof. vm_compute. reflexivity. Qed.

(** In exact arithmetic, with weights that are not negative and a [Unit]
    that returns nothing longer than a unit vector for the zero vector,
    the objective function returns a value that is not negative: each of
    the three energy terms is a sum of terms that are not negative, and
    the value of a failed evaluation is [1e10].  On doubles the normal
    term can be below zero by rounding
    ([normal_match_is_negative_in_doubles]). *)
Theorem objective_is_not_negative (coeff : nat -> R)
    (spokeType : Refiner.SpokeType) (this : t) :
  unit_of_zero_is_short ->
  0 <= Refiner.m_L0Weight E this -> 0 <= Refiner.m_L1Weight E this ->
  0 <= Refiner.m_L2Weight E this ->
  exists (val : R) (this' : t),
    Refiner.EvaluateObjectiveFunction E coeff spokeType this = (Ok val, this')
    /\ 0 <= val.
Proof.
  intros H0 W0 W1 W2. rewrite EvaluateObjectiveFunction_unfold.
  destruct (energy_terms E this coeff spokeType) as [[[L0 L1] L2]|e] eqn:He;
    [|do 2 eexists; split; [reflexivity|lra]].
  destruct (Refiner.IncrementIteration E this) as [[[]|e] this'];
    [|do 2 eexists; split; [reflexivity|lra]].
  do 2 eexists. split; [reflexivity|].
  unfold energy_terms in He.
  destruct (Refiner.Refine E _ coeff spokeType) as [tempSRep|e];
    [|discriminate].
  cbn [bind Result_Monad] in He.
  destruct (SmartInterpolateSRep E tempSRep _) as [interp|e]; [|discriminate].
  destruct (Refiner.ComputeDistanceSquaredAndNormalToImage E this interp
              spokeType) as [[d n]|e] eqn:H01; [|discriminate].
  destruct (Refiner.ComputeRSradPenalty E this interp spokeType)
    as [srad|e] eqn:H2; [|discriminate].
  injection He as <- <- <-.
  destruct (distance_and_normal_terms_nonneg _ _ _ _ _ H0 H01).
  pose proof (rSrad_penalty_nonneg _ _ _ _ H2). nra.
Qed.

End EnergyTerms.

(** ** The penalty reads inside the grid *)

Section PenaltyIndices.
Context (E : Externals).

Abbreviation t := (Refiner.t E).

Lemma Unit_throws v e :
  Refiner.Unit E v = Throw e -> UnitOfZero E = Throw e.
Proof.
  unfold Refiner.Unit, Vector3d.Unit. destruct (Reqb _ 0); [tauto|discriminate].
Qed.

Lemma GetSpokeAt_inside g l s spokeType :
  EllipticalSRep.Valid g -> spokeType <> SkeletalPoint.CrestOrientation ->
  (0 <= l < EllipticalSRep.GetNumberOfLines g)%Z ->
  (0 <= s < EllipticalSRep.GetNumberOfSteps g)%Z ->
  exists spoke, Refiner.GetSpokeAt g l s spokeType = Ok spoke.
Proof.
  intros HV Hty Hl Hs.
  destruct (Valid_cells g HV (Z.to_nat l) (Z.to_nat s)) as (p & Hp & _);
    [lia|lia|].
  rewrite !Z2Nat.id in Hp by lia. unfold Refiner.GetSpokeAt. rewrite Hp.
  destruct spokeType; simpl; eauto. congruence.
Qed.

(** The derivatives at a skeletal point of a valid grid read its
    neighbours, around the lines and up to the ends of the steps: they fail
    only where [Unit] fails. *)
Lemma ComputeRSradDerivatives_inside (this : t) g spokeType line step e :
  EllipticalSRep.Valid g -> spokeType <> SkeletalPoint.CrestOrientation ->
  (0 <= line < EllipticalSRep.GetNumberOfLines g)%Z ->
  (0 <= step < EllipticalSRep.GetNumberOfSteps g)%Z ->
  Refiner.ComputeRSradDerivatives E this g spokeType line step = Throw e ->
  UnitOfZero E = Throw e.
Proof.
  intros HV Hty Hl Hs. unfold Refiner.ComputeRSradDerivatives. cbv zeta.
  set (numLines := EllipticalSRep.GetNumberOfLines g) in *.
  set (numSteps := EllipticalSRep.GetNumberOfSteps g) in *.
  assert (0 <= (numLines + line - 1) mod numLines < numLines)%Z as Hprev
    by (apply Z.mod_pos_bound; lia).
  assert (0 <= (numLines + line + 1) mod numLines < numLines)%Z as Hnext
    by (apply Z.mod_pos_bound; lia).
  destruct (GetSpokeAt_inside g _ step spokeType HV Hty Hprev Hs) as [u1 ->].
  destruct (GetSpokeAt_inside g _ step spokeType HV Hty Hnext Hs) as [u2 ->].
  cbn [bind Result_Monad].
  destruct (Refiner.Unit E (Spoke.GetDirection u2)) as [u2Unit|e2] eqn:U2;
    [|intros [= <-]; exact (Unit_throws _ _ U2)].
  destruct (Refiner.Unit E (Spoke.GetDirection u1)) as [u1Unit|e1] eqn:U1;
    [|intros [= <-]; exact (Unit_throws _ _ U1)].
  assert (0 <= (if (step =? 0)%Z then 0 else step - 1) < numSteps)%Z as Hp
    by (destruct (step =? 0)%Z eqn:D; Zbool; lia).
  assert (0 <= (if (step =? numSteps - 1)%Z then numSteps - 1 else step + 1)
          < numSteps)%Z as Hn
    by (destruct (step =? numSteps - 1)%Z eqn:D; Zbool; lia).
  destruct (GetSpokeAt_inside g line _ spokeType HV Hty Hl Hp) as [v1 ->].
  destruct (GetSpokeAt_inside g line _ spokeType HV Hty Hl Hn) as [v2 ->].
  destruct (Refiner.Unit E (Spoke.GetDirection v2)) as [v2Unit|e2] eqn:V2;
    [|intros [= <-]; exact (Unit_throws _ _ V2)].
  destruct (Refiner.Unit E (Spoke.GetDirection v1)) as [v1Unit|e1] eqn:V1;
    [|intros [= <-]; exact (Unit_throws _ _ V1)].
  discriminate.
Qed.

(** [ComputeRSradPenalty] on a valid grid whose sizes fit an index, for the
    up or the down spokes and an interpolation level below 64: every
    skeletal point it asks for is one of the grid, the primary ones and
    their neighbours, so it throws only what [Unit] throws for a spoke of
    length zero; the penalty it returns is not negative. *)
Theorem penalty_reads_inside_the_grid (this : t)
    (interpolatedSRep : EllipticalSRep.t) (spokeType : Refiner.SpokeType) :
  EllipticalSRep.Valid interpolatedSRep ->
  spokeType <> SkeletalPoint.CrestOrientation ->
  (0 <= Refiner.m_interpolationLevel E this < 64)%Z ->
  (EllipticalSRep.GetNumberOfLines interpolatedSRep < 2 ^ 63)%Z ->
  (EllipticalSRep.GetNumberOfSteps interpolatedSRep < 2 ^ 63)%Z ->
  match Refiner.ComputeRSradPenalty E this interpolatedSRep spokeType with
  | Ok penalty => 0 <= penalty
  | Throw e => UnitOfZero E = Throw e
  end.
Proof.
  intros HV Hty Hlevel HL HS. unfold Refiner.ComputeRSradPenalty.
  destruct (EllipticalSRep.IsEmpty interpolatedSRep); [lra|].
  cbv zeta. rewrite (Pow_two _ Hlevel).
  set (density := (2 ^ Refiner.m_interpolationLevel E this)%Z).
  assert (1 <= density)%Z as Hd
    by (unfold density; pose proof (Z.pow_pos_nonneg 2
          (Refiner.m_interpolationLevel E this)); lia).
  set (numLines := EllipticalSRep.GetNumberOfLines interpolatedSRep) in *.
  set (numSteps := EllipticalSRep.GetNumberOfSteps interpolatedSRep) in *.
  assert (forall n i : Z, (0 <= i < n / density)%Z -> (n < 2 ^ 63)%Z ->
            (0 <= Fields.size_t (i * density) < n)%Z) as Hprimary.
  { intros n i Hi Hn.
    assert (i * density < n)%Z.
    { pose proof (Z.mul_div_le n density ltac:(lia)). nia. }
    unfold Fields.size_t. rewrite Z.mod_small; [nia|].
    change (2 ^ 63)%Z with 9223372036854775808%Z in Hn.
    change (2 ^ 64)%Z with 18446744073709551616%Z. nia. }
  match goal with
  | |- match match ?loops ?s0 with _ => _ end with _ => _ end =>
      assert (post loops (fun _ penalty => 0 <= penalty)
                (fun e' _ => UnitOfZero E = Throw e') s0) as H
  end.
  { apply post_for_upto_const; [lra|]. intros i s1 Hi I1.
    apply post_for_upto_const; [exact I1|]. clear s1 I1. intros j s2 Hj I2.
    apply post_bind, post_lift.
    destruct (Refiner.rSrad_term E this interpolatedSRep spokeType _ _)
      as [term|e'] eqn:Ht.
    { apply post_modify. revert Ht. unfold Refiner.rSrad_term.
      destruct (Refiner.ComputeRSradDerivatives E this interpolatedSRep
                  spokeType _ _) as [d|e1]; [|discriminate].
      cbn [bind Result_Monad].
      destruct (Refiner.GetSpokeAt interpolatedSRep _ _ spokeType)
        as [spoke|e1]; [|discriminate].
      destruct (Refiner.Unit E (Spoke.GetDirection spoke)) as [U|e2];
        [|discriminate].
      intros [= <-].
      match goal with |- _ <= _ + Rmax 0 ?x => pose proof (Rmax_l 0 x) end.
      lra. }
    revert Ht. unfold Refiner.rSrad_term.
    assert (0 <= Fields.size_t (Z.of_nat i * density) < numLines)%Z as Hii
      by (apply Hprimary; [lia|exact HL]).
    assert (0 <= Fields.size_t (Z.of_nat j * density) < numSteps)%Z as Hjj
      by (apply Hprimary; [lia|exact HS]).
    destruct (Refiner.ComputeRSradDerivatives E this interpolatedSRep spokeType _ _)
      as [d|e1] eqn:Hder.
    - cbn [bind Result_Monad].
      destruct (GetSpokeAt_inside interpolatedSRep _ _ spokeType HV Hty Hii Hjj)
        as [spoke ->].
      destruct (Refiner.Unit E (Spoke.GetDirection spoke)) as [U|e2] eqn:HU;
        [discriminate|].
      intros [= <-]. exact (Unit_throws _ _ HU).
    - intros [= <-].
      exact (ComputeRSradDerivatives_inside _ _ _ _ _ _ HV Hty Hii Hjj Hder). }
  unfold post in H.
  match goal with
  | H : match ?x with _ => _ end |- _ => destruct x as [[[]|e'] penalty]
  end; exact H.
Qed.

End PenaltyIndices.

(** ** What a stage changes of the grid *)

(** Two spokes with the same skeletal point, and any two spokes. *)
Definition anchored (spoke spoke' : Spoke.t) : Prop :=
  Spoke.GetSkeletalPoint spoke' = Spoke.GetSkeletalPoint spoke.
Definition any (spoke spoke' : Spoke.t) : Prop := True.

(** A skeletal point [p] and what a stage made of it: the up spokes are
    related by [U], the down spokes by [D], and both have a crest spoke or
    none, related by [C]. *)
Definition cell_rel (U D C : Spoke.t -> Spoke.t -> Prop)
    (p p' : SkeletalPoint.t) : Prop :=
  U (SkeletalPoint.GetUpSpoke p) (SkeletalPoint.GetUpSpoke p')
  /\ D (SkeletalPoint.GetDownSpoke p) (SkeletalPoint.GetDownSpoke p')
  /\ option_Forall2 C (SkeletalPoint.GetCrestSpoke p)
       (SkeletalPoint.GetCrestSpoke p').

(** Two grids with the same lines and steps, cell by cell in [Rel]. *)
Definition cells (Rel : SkeletalPoint.t -> SkeletalPoint.t -> Prop)
    (g g' : EllipticalSRep.t) : Prop :=
  Forall2 (Forall2 Rel) g g'.

(** What [Refine] changes at a skeletal point. *)
Definition turned (spokeType : SkeletalPoint.SpokeOrientation)
  : SkeletalPoint.t -> SkeletalPoint.t -> Prop :=
  match spokeType with
  | SkeletalPoint.UpOrientation => cell_rel anchored eq eq
  | SkeletalPoint.DownOrientation => cell_rel eq anchored eq
  | SkeletalPoint.CrestOrientation => fun _ _ => False
  end.

(** What a refinement keeps of a skeletal point: where its up and down
    spokes start, and whether it has a crest spoke. *)
Definition sheet : SkeletalPoint.t -> SkeletalPoint.t -> Prop :=
  cell_rel anchored anchored any.

Lemma option_Forall2_diag {A} (C : A -> A -> Prop) (o : option A) :
  (forall a, C a a) -> option_Forall2 C o o.
Proof. intros H. destruct o; constructor. apply H. Qed.

Lemma cell_rel_refl (U D C : Spoke.t -> Spoke.t -> Prop) p :
  (forall s, U s s) -> (forall s, D s s) -> (forall s, C s s) ->
  cell_rel U D C p p.
Proof.
  intros HU HD HC. split; [apply HU|]. split; [apply HD|].
  apply option_Forall2_diag, HC.
Qed.

Lemma cell_rel_impl (U D C U' D' C' : Spoke.t -> Spoke.t -> Prop) p p' :
  (forall s s', U s s' -> U' s s') -> (forall s s', D s s' -> D' s s') ->
  (forall s s', C s s' -> C' s s') ->
  cell_rel U D C p p' -> cell_rel U' D' C' p p'.
Proof.
  intros HU HD HC (H1 & H2 & H3). split; [apply HU, H1|].
  split; [apply HD, H2|]. destruct H3; constructor. apply HC. assumption.
Qed.

Lemma sheet_refl p : sheet p p.
Proof. apply cell_rel_refl; intros; reflexivity || exact I. Qed.

Lemma sheet_trans p q r : sheet p q -> sheet q r -> sheet p r.
Proof.
  unfold sheet, cell_rel, anchored. intros (U1 & D1 & C1) (U2 & D2 & C2).
  split; [congruence|]. split; [congruence|].
  destruct C1; inversion C2; constructor; exact I.
Qed.

Lemma turned_sheet spokeType p p' : turned spokeType p p' -> sheet p p'.
Proof.
  destruct spokeType; simpl; [| |tauto];
    apply cell_rel_impl; unfold anchored, any; intros; subst; auto.
Qed.

Lemma turned_refl spokeType p :
  spokeType <> SkeletalPoint.CrestOrientation -> turned spokeType p p.
Proof.
  destruct spokeType; intros H; try congruence;
    apply cell_rel_refl; intros; reflexivity.
Qed.

(** Writing a spoke with the anchor of the old one, in the orientation
    [Refine] works on. *)
Lemma turned_SetSpoke spokeType p p' spoke spoke' :
  turned spokeType p p' ->
  SkeletalPoint.GetSpoke p spokeType = Ok spoke -> anchored spoke spoke' ->
  turned spokeType p (SkeletalPoint.SetSpoke spokeType spoke' p').
Proof.
  destruct spokeType; simpl; [| |tauto];
    intros (H1 & H2 & H3) [= <-] A; repeat split; assumption.
Qed.

Lemma cells_refl Rel g : (forall p, Rel p p) -> cells Rel g g.
Proof.
  intros H. apply Forall_Forall2_diag, Forall_forall. intros line _.
  apply Forall_Forall2_diag, Forall_forall. intros p _. apply H.
Qed.

Lemma cells_impl (Rel Rel' : SkeletalPoint.t -> SkeletalPoint.t -> Prop) g g' :
  (forall p p', Rel p p' -> Rel' p p') -> cells Rel g g' -> cells Rel' g g'.
Proof.
  intros H C. eapply Forall2_impl; [exact C|]. intros line line' L.
  eapply Forall2_impl; [exact L|exact H].
Qed.

Lemma cells_trans (R1 R2 R3 : SkeletalPoint.t -> SkeletalPoint.t -> Prop)
    g1 g2 g3 :
  (forall p q r, R1 p q -> R2 q r -> R3 p r) ->
  cells R1 g1 g2 -> cells R2 g2 g3 -> cells R3 g1 g3.
Proof.
  intros H. unfold cells.
  apply (Forall2_trans (Forall2 R1) (Forall2 R2) (Forall2 R3)).
  intros l1 l2 l3. apply Forall2_trans. exact H.
Qed.

Lemma cells_update Rel g g' l s f :
  (0 <= l)%Z -> (0 <= s)%Z -> cells Rel g g' ->
  (forall p p',
     EllipticalSRep.GetSkeletalPoint g l s = Ok p ->
     EllipticalSRep.GetSkeletalPoint g' l s = Ok p' ->
     Rel p p' -> Rel p (f p')) ->
  cells Rel g (EllipticalSRep.update l s f g').
Proof.
  intros Hl Hs H Hf. unfold cells, EllipticalSRep.update.
  apply Forall2_alter_r; [exact H|]. intros line line' Hline Hline' HL.
  apply Forall2_alter_r; [exact HL|]. intros p p' Hp Hp'.
  apply Hf; apply GetSkeletalPoint_Ok; eauto 6.
Qed.

Lemma cells_lookup Rel g g' l s p :
  cells Rel g g' -> EllipticalSRep.GetSkeletalPoint g l s = Ok p ->
  exists p', EllipticalSRep.GetSkeletalPoint g' l s = Ok p' /\ Rel p p'.
Proof.
  intros H. rewrite GetSkeletalPoint_Ok. intros (Hl & Hs & line & Hline & Hp).
  destruct (Forall2_lookup_l _ _ _ _ _ H Hline) as (line' & Hline' & HL).
  destruct (Forall2_lookup_l _ _ _ _ _ HL Hp) as (p' & Hp' & HR).
  exists p'. split; [|exact HR]. apply GetSkeletalPoint_Ok. eauto 6.
Qed.

Lemma cells_lookup_r Rel g g' l s p' :
  cells Rel g g' -> EllipticalSRep.GetSkeletalPoint g' l s = Ok p' ->
  exists p, EllipticalSRep.GetSkeletalPoint g l s = Ok p /\ Rel p p'.
Proof.
  intros H. rewrite GetSkeletalPoint_Ok. intros (Hl & Hs & line' & Hline' & Hp').
  destruct (Forall2_lookup_r _ _ _ _ _ H Hline') as (line & Hline & HL).
  destruct (Forall2_lookup_r _ _ _ _ _ HL Hp') as (p & Hp & HR).
  exists p. split; [|exact HR]. apply GetSkeletalPoint_Ok. eauto 6.
Qed.

Lemma cells_lines Rel g g' :
  cells Rel g g' ->
  EllipticalSRep.GetNumberOfLines g' = EllipticalSRep.GetNumberOfLines g.
Proof.
  intros H. unfold EllipticalSRep.GetNumberOfLines.
  rewrite (Forall2_length _ _ _ H). reflexivity.
Qed.

Lemma cells_steps Rel g g' :
  cells Rel g g' ->
  EllipticalSRep.GetNumberOfSteps g' = EllipticalSRep.GetNumberOfSteps g.
Proof.
  intros H. destruct H as [|line line' g g' HL _]; [reflexivity|]. simpl.
  rewrite (Forall2_length _ _ _ HL). reflexivity.
Qed.

Section Stages.
Context (E : Externals).

Abbreviation t := (Refiner.t E).

Lemma refine_spoke_anchored tolerance coeff c spoke spoke' :
  Refiner.refine_spoke E tolerance coeff c spoke = Ok spoke' ->
  anchored spoke spoke'.
Proof.
  unfold Refiner.refine_spoke.
  destruct (Refiner.Unit E (Spoke.GetDirection spoke)) as [u|e];
    [|discriminate].
  cbn [bind Result_Monad ret].
  destruct (_ || _); intros [= <-]; reflexivity.
Qed.

Lemma Refine_cells srep coeff spokeType srep' :
  Refiner.Refine E srep coeff spokeType = Ok srep' ->
  spokeType <> SkeletalPoint.CrestOrientation
  /\ cells (turned spokeType) srep srep'.
Proof.
  intros H.
  assert (spokeType <> SkeletalPoint.CrestOrientation) as Hty
    by (intros ->; discriminate H).
  split; [exact Hty|]. revert H.
  unfold Refiner.Refine, EllipticalSRep.SmartClone.
  assert (post
    (for_upto (EllipticalSRep.GetNumberOfLines srep) (fun l =>
       for_upto (EllipticalSRep.GetNumberOfSteps srep) (fun s =>
         clone <- gets fst ;;
         c <- gets snd ;;
         skeletalPoint <- lift (EllipticalSRep.GetSkeletalPoint clone l s) ;;
         spoke <- lift (SkeletalPoint.GetSpoke skeletalPoint spokeType) ;;
         spoke' <- lift (Refiner.refine_spoke E 1e-13 coeff c spoke) ;;
         modify (fun st : EllipticalSRep.t * nat =>
           (EllipticalSRep.update l s
              (SkeletalPoint.SetSpoke spokeType spoke') (fst st),
            (snd st + 4)%nat)))))
    (fun _ st => cells (turned spokeType) srep (fst st))
    (fun _ _ => True) (srep, 0%nat)) as H.
  { apply (post_for_upto_const _ _
             (fun st : EllipticalSRep.t * nat =>
                cells (turned spokeType) srep (fst st)));
      [apply cells_refl; intros; apply turned_refl, Hty|].
    intros l st1 _ I1.
    apply (post_for_upto_const _ _
             (fun st : EllipticalSRep.t * nat =>
                cells (turned spokeType) srep (fst st))); [exact I1|].
    clear st1 I1. intros s st1 _ I1.
    do 2 apply post_bind, post_gets. apply post_bind, post_lift.
    destruct (EllipticalSRep.GetSkeletalPoint (fst st1) _ _) as [p1|e] eqn:Hp1;
      [|exact I].
    apply post_bind, post_lift.
    destruct (SkeletalPoint.GetSpoke p1 spokeType) as [spoke|e] eqn:Hs;
      [|exact I].
    apply post_bind, post_lift.
    destruct (Refiner.refine_spoke E 1e-13 coeff (snd st1) spoke)
      as [spoke'|e] eqn:Hr; [|exact I].
    apply post_modify. cbn [fst]. apply cells_update; [lia|lia|exact I1|].
    intros p q Hp Hq HR. rewrite Hp1 in Hq. injection Hq as <-.
    assert (exists spoke0, SkeletalPoint.GetSpoke p spokeType = Ok spoke0
                           /\ anchored spoke0 spoke) as (spoke0 & H0 & A0).
    { destruct spokeType; simpl in *; try congruence;
        destruct HR as (U & D & _); injection Hs as <-; eauto. }
    apply (turned_SetSpoke _ _ _ spoke0); [exact HR|exact H0|].
    apply refine_spoke_anchored in Hr. unfold anchored in *. congruence. }
  unfold post in H.
  destruct spokeType; try congruence;
    match type of H with
    | context [for_upto ?n ?b (srep, 0%nat)] =>
        destruct (for_upto n b (srep, 0%nat)) as [[[]|e] [g' c]]
    end; try discriminate; intros [= <-]; exact H.
Qed.

(** [Refine] returns for the up and the down spokes only.  The grid it
    returns has the lines and the steps of the grid it is given; at each
    skeletal point the spokes of the other orientations are those of the
    original, and the spoke of the orientation it refines starts at the
    same skeletal point: [Refine] turns and resizes spokes, and moves
    none. *)
Theorem Refine_turns_the_spokes_of_one_orientation
    (srep srep' : EllipticalSRep.t) (coeff : nat -> R)
    (spokeType : Refiner.SpokeType) :
  Refiner.Refine E srep coeff spokeType = Ok srep' ->
  spokeType <> SkeletalPoint.CrestOrientation
  /\ EllipticalSRep.GetNumberOfLines srep' = EllipticalSRep.GetNumberOfLines srep
  /\ EllipticalSRep.GetNumberOfSteps srep' = EllipticalSRep.GetNumberOfSteps srep
  /\ cells (turned spokeType) srep srep'.
Proof.
  intros H. destruct (Refine_cells _ _ _ _ H) as [Hty HC].
  split; [exact Hty|]. split; [exact (cells_lines _ _ _ HC)|].
  split; [exact (cells_steps _ _ _ HC)|exact HC].
Qed.

Lemma ReportProgress_srep (r : t) :
  post (Refiner.ReportProgress E)
    (fun _ r' => Refiner.m_srep E r' = Refiner.m_srep E r)
    (fun _ r' => Refiner.m_srep E r' = Refiner.m_srep E r) r.
Proof.
  eapply post_mono; [| |apply ReportProgress_post]; cbv beta;
    intros ? r' (_ & S1 & _); exact S1.
Qed.

Lemma EvaluateObjectiveFunction_srep coeff spokeType (r : t) :
  post (Refiner.EvaluateObjectiveFunction E coeff spokeType)
    (fun _ r' => Refiner.m_srep E r' = Refiner.m_srep E r)
    (fun _ r' => Refiner.m_srep E r' = Refiner.m_srep E r) r.
Proof.
  unfold post. rewrite EvaluateObjectiveFunction_unfold.
  destruct (energy_terms E r coeff spokeType) as [[[L0 L1] L2]|e];
    [|reflexivity].
  pose proof (IncrementIteration_srep E r) as H. unfold post in H.
  destruct (Refiner.IncrementIteration E r) as [[[]|e] r']; exact H.
Qed.

Lemma write_current_coeff_srep x (r : t) :
  Refiner.m_srep E (Refiner.write_current_coeff E x r) = Refiner.m_srep E r.
Proof.
  unfold Refiner.write_current_coeff.
  destruct (Refiner.m_currentCoeff E r); reflexivity.
Qed.

Lemma run_search_srep search f (r : t) :
  (forall coeff r1,
     post (f coeff) (fun _ r2 => Refiner.m_srep E r2 = Refiner.m_srep E r1)
          (fun _ r2 => Refiner.m_srep E r2 = Refiner.m_srep E r1) r1) ->
  post (Refiner.run_search E search f)
    (fun _ r' => Refiner.m_srep E r' = Refiner.m_srep E r)
    (fun _ r' => Refiner.m_srep E r' = Refiner.m_srep E r) r.
Proof.
  intros Hf. revert r. induction search as [x|x next IH]; intros r.
  - simpl. apply post_modify, write_current_coeff_srep.
  - cbn [Refiner.run_search]. apply post_bind, post_modify, post_bind.
    eapply post_mono; [| |apply Hf]; cbv beta.
    + intros v r1 S1. eapply post_mono; [| |apply IH]; cbv beta;
        intros ? r2 S2; rewrite S2, S1; apply write_current_coeff_srep.
    + intros e r1 S1. rewrite S1. apply write_current_coeff_srep.
Qed.

(** A stage of the up or the down spokes, whether it returns or throws. *)
Lemma RefineUpDownSpokes_cells spokeType (r : t) :
  spokeType <> SkeletalPoint.CrestOrientation ->
  post (Refiner.RefineUpDownSpokes E spokeType)
    (fun _ r' => cells (turned spokeType) (Refiner.m_srep E r) (Refiner.m_srep E r'))
    (fun _ r' => cells (turned spokeType) (Refiner.m_srep E r) (Refiner.m_srep E r'))
    r.
Proof.
  intros Hty. unfold Refiner.RefineUpDownSpokes.
  assert (forall g, cells (turned spokeType) g g) as Hrefl
    by (intros g; apply cells_refl; intros; apply turned_refl, Hty).
  apply post_bind, post_modify.
  set (r0 := Refiner.set_m_currentCoeff E _ r).
  assert (Refiner.m_srep E r0 = Refiner.m_srep E r) as S0 by reflexivity.
  clearbody r0.
  do 4 apply post_bind, post_gets. apply post_bind.
  eapply post_mono;
    [| |apply run_search_srep; intros; apply EvaluateObjectiveFunction_srep];
    cbv beta; [|intros e r1 S1; rewrite S1, S0; apply Hrefl].
  intros _ r1 S1. rewrite S0 in S1. clear r0 S0.
  do 2 apply post_bind, post_gets. apply post_bind, post_lift.
  rewrite S1.
  destruct (Refiner.Refine E _ _ spokeType) as [refinedSRep|e] eqn:HR;
    [|rewrite ?S1; apply Hrefl].
  apply Refine_cells in HR as [_ HR].
  apply post_bind.
  destruct (negb _); [apply post_throw; rewrite ?S1; apply Hrefl|].
  apply post_ret. apply post_bind.
  destruct (negb _); [apply post_throw; rewrite ?S1; apply Hrefl|].
  apply post_ret. apply post_bind, post_gets.
  set (inv := fun r2 : t =>
    cells (turned spokeType) (Refiner.m_srep E r) (Refiner.m_srep E r2)).
  apply (post_for_upto_const _ _ inv (fun _ => inv));
    [unfold inv; rewrite ?S1; apply Hrefl|].
  intros j r2 _ I2. apply post_bind, post_gets.
  apply (post_for_upto_const _ _ inv (fun _ => inv)); [exact I2|].
  clear I2. intros i r3 _ I2. apply post_bind, post_lift.
  destruct (Refiner.GetSpokeAt refinedSRep _ _ spokeType)
    as [refinedSpoke|e] eqn:Hq; [|exact I2].
  apply post_bind, GetSkeletalPoint_post; [|intros; exact I2]. intros p2 Hp2.
  apply post_modify. unfold inv. cbn [Refiner.m_srep Refiner.set_m_srep].
  apply cells_update; [lia|lia|exact I2|].
  intros p p' Hp Hp' Rel.
  unfold Refiner.GetSpokeAt in Hq.
  destruct (EllipticalSRep.GetSkeletalPoint refinedSRep _ _) as [q|e] eqn:Hcell;
    [|discriminate].
  cbn [bind Result_Monad] in Hq.
  destruct (cells_lookup _ _ _ _ _ _ HR Hp) as (q' & Hq' & Rq).
  rewrite Hcell in Hq'. injection Hq' as <-.
  assert (exists spoke0, SkeletalPoint.GetSpoke p spokeType = Ok spoke0
                         /\ anchored spoke0 refinedSpoke) as (spoke0 & H0 & A0).
  { destruct spokeType; simpl in *; try congruence;
      destruct Rq as (U & D & _); injection Hq as <-; eauto. }
  exact (turned_SetSpoke _ _ _ _ _ Rel H0 A0).
Qed.

(** A crest stage, whether it returns or throws: what [body] keeps of a
    crest spoke is kept of every crest spoke, and no other spoke changes. *)
Lemma for_each_crest_spoke_touches (K : Spoke.t -> Spoke.t -> Prop)
    (body : St Spoke.t unit) (r : t) :
  (forall spoke, K spoke spoke) ->
  (forall spoke0 spoke, K spoke0 spoke -> K spoke0 (snd (body spoke))) ->
  post (Refiner.for_each_crest_spoke E body)
    (fun _ r' => cells (cell_rel eq eq K) (Refiner.m_srep E r) (Refiner.m_srep E r'))
    (fun _ r' => cells (cell_rel eq eq K) (Refiner.m_srep E r) (Refiner.m_srep E r'))
    r.
Proof.
  intros Hrefl Hbody. unfold Refiner.for_each_crest_spoke.
  apply post_bind, post_gets.
  set (inv := fun r2 : t =>
    cells (cell_rel eq eq K) (Refiner.m_srep E r) (Refiner.m_srep E r2)).
  apply (post_for_upto_const _ _ inv (fun _ => inv));
    [apply cells_refl; intros; apply cell_rel_refl; auto|].
  intros j r1 _ I1. apply post_bind, post_gets.
  apply (post_for_upto_const _ _ inv (fun _ => inv)); [exact I1|].
  clear I1. intros k r1' _ I1. clear r1. rename r1' into r1.
  apply post_bind, GetSkeletalPoint_post; [|intros; exact I1]. intros p1 Hp1.
  destruct (SkeletalPoint.IsCrest p1); [|apply post_ret; exact I1].
  apply post_bind.
  eapply post_mono; [| |apply IncrementIteration_srep]; cbv beta;
    [|intros e r2 S2; unfold inv; rewrite S2; exact I1].
  intros _ r2 S2. unfold post, Refiner.on_crest_spoke. rewrite S2, Hp1.
  unfold SkeletalPoint.GetSpoke.
  destruct (SkeletalPoint.GetCrestSpoke p1) as [spoke|] eqn:Hc;
    [|unfold inv; rewrite S2; exact I1].
  assert (inv (Refiner.set_m_srep E
                 (EllipticalSRep.update (Z.of_nat j) (Z.of_nat k)
                    (SkeletalPoint.SetSpoke SkeletalPoint.CrestOrientation
                       (snd (body spoke)))
                    (Refiner.m_srep E r1)) r2)) as Hnew.
  { unfold inv. cbn [Refiner.m_srep Refiner.set_m_srep].
    apply cells_update; [lia|lia|exact I1|].
    intros p p' Hp Hp' (U & D & C). rewrite Hp1 in Hp'. injection Hp' as <-.
    split; [exact U|]. split; [exact D|]. cbn [SkeletalPoint.SetSpoke
      SkeletalPoint.GetCrestSpoke]. rewrite Hc in C. inversion C as [s0 s1 HK|].
    constructor. apply Hbody, HK. }
  destruct (body spoke) as [[[]|e] spoke']; exact Hnew.
Qed.

Lemma SetRadius_anchored radius spoke :
  anchored spoke (snd (Refiner.SetRadius E radius spoke)).
Proof.
  unfold Refiner.SetRadius, Spoke.SetRadius.
  destruct (Vector3d.Unit _ _); reflexivity.
Qed.

Lemma crest_length_loop_anchored polyData epsilon count dist oldDist step spoke :
  anchored spoke
    (snd (Refiner.crest_length_loop E polyData epsilon count dist oldDist step
            spoke)).
Proof.
  revert dist oldDist step spoke.
  induction count as [|count IH]; intros dist oldDist step spoke;
    cbn [Refiner.crest_length_loop]; [reflexivity|].
  destruct (Rleb _ _); [reflexivity|].
  cbn [bind St_Monad gets].
  match goal with
  | |- context [if ?c then _ else _] => destruct c
  end;
    match goal with
    | |- context [Refiner.SetRadius E ?x spoke] =>
        pose proof (SetRadius_anchored x spoke) as A;
        destruct (Refiner.SetRadius E x spoke) as [[[]|e] spoke1]
    end; cbn [snd] in A |- *; try exact A;
    unfold anchored in *; rewrite <- A; apply IH.
Qed.

(** [OptimizeCrestSpokeLengths], whether it returns or throws, leaves every
    up and down spoke as it was, and every crest spoke at its skeletal
    point: it changes the directions of crest spokes, and nothing else of
    the grid. *)
Theorem crest_length_pass_changes_crest_directions_only
    (stepSize : R) (maxIter : Z) (r : t) :
  cells (cell_rel eq eq anchored) (Refiner.m_srep E r)
    (Refiner.m_srep E (snd (Refiner.OptimizeCrestSpokeLengths E stepSize maxIter r))).
Proof.
  unfold Refiner.OptimizeCrestSpokeLengths. cbn [bind St_Monad gets].
  match goal with
  | |- context [Refiner.for_each_crest_spoke E ?body r] =>
      pose proof (for_each_crest_spoke_touches anchored body r) as H
  end.
  unfold post in H.
  match type of H with
  | _ -> _ -> match ?x with _ => _ end =>
      destruct x as [[[]|e] r']
  end; apply H; try reflexivity;
    intros spoke0 spoke A; unfold Refiner.optimize_crest_spoke;
    cbn [bind St_Monad gets]; unfold anchored in *; rewrite <- A;
    apply crest_length_loop_anchored.
Qed.

Lemma RefineCrestSpokes_cells (r : t) :
  post (Refiner.RefineCrestSpokes E)
    (fun _ r' => cells (cell_rel eq eq any) (Refiner.m_srep E r) (Refiner.m_srep E r'))
    (fun _ r' => cells (cell_rel eq eq any) (Refiner.m_srep E r) (Refiner.m_srep E r'))
    r.
Proof.
  assert (forall body (r1 : t),
            post (Refiner.for_each_crest_spoke E body)
              (fun _ r' => cells (cell_rel eq eq any) (Refiner.m_srep E r1)
                             (Refiner.m_srep E r'))
              (fun _ r' => cells (cell_rel eq eq any) (Refiner.m_srep E r1)
                             (Refiner.m_srep E r')) r1) as Hpass.
  { intros body r1. apply for_each_crest_spoke_touches; intros; exact I. }
  assert (forall g1 g2 g3,
            cells (cell_rel eq eq any) g1 g2 -> cells (cell_rel eq eq any) g2 g3 ->
            cells (cell_rel eq eq any) g1 g3) as Htrans.
  { intros g1 g2 g3. apply cells_trans.
    intros p q s (U1 & D1 & C1) (U2 & D2 & C2).
    split; [congruence|]. split; [congruence|].
    destruct C1; inversion C2; constructor; exact I. }
  unfold Refiner.RefineCrestSpokes.
  do 2 apply post_bind, post_gets. apply post_bind.
  unfold Refiner.OptimizeCrestSpokeLengths. apply post_bind, post_gets.
  eapply post_mono; [| |apply Hpass]; cbv beta; [|auto].
  intros _ r1 C1. apply post_bind, post_gets.
  destruct (MaximumCurvature E _) as [maxC|]; [|apply post_throw, C1].
  destruct (MinimumCurvature E _) as [minC|]; [|apply post_throw, C1].
  unfold Refiner.correct_crest_spokes. apply post_bind, post_gets.
  eapply post_mono; [| |apply Hpass]; cbv beta;
    intros ? r2 C2; exact (Htrans _ _ _ C1 C2).
Qed.

(** [Run], whether it returns or throws: the grid it leaves has the lines,
    the steps and the crest points of the grid it started from, and every
    up and down spoke starts where it did. *)
Lemma Run_cells (r : t) :
  post (Refiner.Run E)
    (fun srep r' =>
       srep = Refiner.m_srep E r'
       /\ cells sheet (Refiner.m_srep E r) (Refiner.m_srep E r'))
    (fun _ r' => cells sheet (Refiner.m_srep E r) (Refiner.m_srep E r')) r.
Proof.
  pose (kept := fun r1 r2 : t =>
    cells sheet (Refiner.m_srep E r1) (Refiner.m_srep E r2)).
  assert (forall r1, kept r1 r1) as Krefl
    by (intros r1; apply cells_refl, sheet_refl).
  assert (forall r1 r2 r3, kept r1 r2 -> kept r2 r3 -> kept r1 r3) as Ktrans
    by (intros r1 r2 r3; apply cells_trans, sheet_trans).
  pose (stage := fun (m : Refiner.M E unit) =>
    forall r1, post m (fun _ r2 => kept r1 r2) (fun _ r2 => kept r1 r2) r1).
  assert (forall f, (forall r1, Refiner.m_srep E (f r1) = Refiner.m_srep E r1) ->
                    stage (modify f)) as Hset.
  { intros f Hf r1. apply post_modify. unfold kept. rewrite Hf. apply Krefl. }
  assert (stage (Refiner.ReportProgress E)) as Hrep.
  { intros r1. eapply post_mono; [| |apply ReportProgress_srep]; cbv beta;
      intros ? r2 S2; unfold kept; rewrite S2; apply Krefl. }
  assert (forall spokeType, stage (Refiner.RefineSpokes E spokeType)) as Href.
  { intros spokeType r1. destruct spokeType; cbn [Refiner.RefineSpokes].
    - eapply post_mono; [| |apply RefineUpDownSpokes_cells; discriminate];
        cbv beta; intros ? r2; apply cells_impl, turned_sheet.
    - eapply post_mono; [| |apply RefineUpDownSpokes_cells; discriminate];
        cbv beta; intros ? r2; apply cells_impl, turned_sheet.
    - eapply post_mono; [| |apply RefineCrestSpokes_cells];
        cbv beta; intros ? r2; apply cells_impl; intros p p';
        apply cell_rel_impl; unfold anchored, any; intros; subst; auto. }
  assert (forall (m1 m2 : Refiner.M E unit), stage m1 -> stage m2 ->
            stage (m1 ;; m2)) as Hseq.
  { intros m1 m2 H1 H2 r1. apply post_bind.
    eapply post_mono; [| |apply H1]; cbv beta; [|auto].
    intros _ r2 K2. eapply post_mono; [| |apply H2]; cbv beta;
      intros ? r3 K3; exact (Ktrans _ _ _ K2 K3). }
  unfold Refiner.Run. apply post_bind, post_gets. apply post_bind.
  assert (stage
    (if negb (EllipticalSRep.IsEmpty (Refiner.m_srep E r))
     then
       modify (Refiner.set_m_iteration E 0%Z) ;; Refiner.ReportProgress E ;;
       Refiner.RefineSpokes E SkeletalPoint.UpOrientation ;;
       modify (fun r => Refiner.set_m_iteration E
                          (to_int (1 * Refiner.m_maxIterations E r)) r) ;;
       Refiner.ReportProgress E ;;
       Refiner.RefineSpokes E SkeletalPoint.DownOrientation ;;
       modify (fun r => Refiner.set_m_iteration E
                          (to_int (2 * Refiner.m_maxIterations E r)) r) ;;
       Refiner.ReportProgress E ;;
       Refiner.RefineSpokes E SkeletalPoint.CrestOrientation ;;
       modify (fun r => Refiner.set_m_iteration E
                          (Refiner.m_totalProgressIterations E r) r)
     else ret tt)) as Hall.
  { destruct (negb _); [|intros r1; apply post_ret, Krefl].
    repeat first [apply Hrep | apply Href
                 | apply Hset; intros; reflexivity | apply Hseq]. }
  eapply post_mono; [| |apply Hall]; cbv beta; [|auto].
  intros _ r1 K1. apply post_gets. split; [reflexivity|exact K1].
Qed.

End Stages.

(** ** The initial coefficients *)

Lemma update_same g l s p f :
  EllipticalSRep.GetSkeletalPoint g l s = Ok p -> f p = p ->
  EllipticalSRep.update l s f g = g.
Proof.
  rewrite GetSkeletalPoint_Ok. intros (Hl & Hs & line & Hline & Hp) Hf.
  unfold EllipticalSRep.update. apply list_eq. intros i.
  rewrite list_lookup_alter.
  destruct (decide (Z.to_nat l = i)) as [<-|]; [|reflexivity].
  rewrite Hline. simpl. f_equal. apply list_eq. intros j.
  rewrite list_lookup_alter.
  destruct (decide (Z.to_nat s = j)) as [<-|]; [|reflexivity].
  rewrite Hp. simpl. congruence.
Qed.

Lemma same_cell (S l s j k : nat) :
  (s < S)%nat -> (k < S)%nat -> (l * S + s = j * S + k)%nat -> l = j /\ s = k.
Proof. intros Hs Hk H. destruct (Nat.lt_trichotomy l j) as [|[|]]; nia. Qed.

Section InitialCoefficients.
Context (E : Externals).

Abbreviation t := (Refiner.t E).

(** The four coefficients of the cell [(l, s)] of a grid with [S] steps
    are at the index [4 * (l * S + s)] of [coeffs]: the unit direction of
    the spoke [spokeOf] selects, and [0]. *)
Definition coded (g : EllipticalSRep.t) (spokeOf : SkeletalPoint.t -> Spoke.t)
    (coeffs : list R) (S l s : nat) : Prop :=
  exists p u,
    EllipticalSRep.GetSkeletalPoint g (Z.of_nat l) (Z.of_nat s) = Ok p
    /\ Refiner.Unit E (Spoke.GetDirection (spokeOf p)) = Ok u
    /\ coeffs !! (4 * (l * S + s))%nat = Some (Vector3d.x u)
    /\ coeffs !! (4 * (l * S + s) + 1)%nat = Some (Vector3d.y u)
    /\ coeffs !! (4 * (l * S + s) + 2)%nat = Some (Vector3d.z u)
    /\ coeffs !! (4 * (l * S + s) + 3)%nat = Some 0.

Lemma coded_app g spokeOf coeffs more S l s :
  coded g spokeOf coeffs S l s -> coded g spokeOf (coeffs ++ more) S l s.
Proof.
  intros (p & u & Hp & Hu & H0 & H1 & H2 & H3). exists p, u.
  repeat split; try assumption; apply lookup_app_l_Some; assumption.
Qed.

Lemma coded_new g spokeOf coeffs S l s p u :
  EllipticalSRep.GetSkeletalPoint g (Z.of_nat l) (Z.of_nat s) = Ok p ->
  Refiner.Unit E (Spoke.GetDirection (spokeOf p)) = Ok u ->
  length coeffs = (4 * (l * S + s))%nat ->
  coded g spokeOf
    (coeffs ++ [Vector3d.x u; Vector3d.y u; Vector3d.z u; 0]) S l s.
Proof.
  intros Hp Hu Hlen. exists p, u. split; [exact Hp|]. split; [exact Hu|].
  rewrite <- Hlen.
  repeat split; rewrite lookup_app_r by lia;
    match goal with
    | |- _ !! ?i = _ =>
        first [replace i with 0%nat by lia | replace i with 1%nat by lia
              | replace i with 2%nat by lia | replace i with 3%nat by lia]
    end; reflexivity.
Qed.

(** What [GetInitialCoefficients] leaves in the two vectors, when they
    were empty and it returns. *)
Lemma GetInitialCoefficients_coded (r : t) :
  Refiner.m_flattenedUpCoeff E r = [] ->
  Refiner.m_flattenedDownCoeff E r = [] ->
  let g := Refiner.m_srep E r in
  let L := Z.to_nat (EllipticalSRep.GetNumberOfLines g) in
  let S := Z.to_nat (EllipticalSRep.GetNumberOfSteps g) in
  post (Refiner.GetInitialCoefficients E)
    (fun _ r' =>
       Refiner.m_srep E r' = g
       /\ length (Refiner.m_flattenedUpCoeff E r') = (4 * (L * S))%nat
       /\ length (Refiner.m_flattenedDownCoeff E r') = (4 * (L * S))%nat
       /\ forall l s, (l < L)%nat -> (s < S)%nat ->
            coded g SkeletalPoint.GetUpSpoke (Refiner.m_flattenedUpCoeff E r') S l s
            /\ coded g SkeletalPoint.GetDownSpoke
                 (Refiner.m_flattenedDownCoeff E r') S l s)
    (fun _ _ => True) r.
Proof.
  intros Hup Hdown g L S.
  set (Inv := fun (n : nat) (r1 : t) =>
    Refiner.m_srep E r1 = g
    /\ length (Refiner.m_flattenedUpCoeff E r1) = (4 * n)%nat
    /\ length (Refiner.m_flattenedDownCoeff E r1) = (4 * n)%nat
    /\ forall l s, (s < S)%nat -> (l * S + s < n)%nat ->
         coded g SkeletalPoint.GetUpSpoke (Refiner.m_flattenedUpCoeff E r1) S l s
         /\ coded g SkeletalPoint.GetDownSpoke
              (Refiner.m_flattenedDownCoeff E r1) S l s).
  unfold Refiner.GetInitialCoefficients. do 2 apply post_bind, post_gets.
  fold g.
  eapply post_mono;
    [| |apply (post_for_upto _ _ (fun j r1 => Inv (j * S)%nat r1)
                 (fun _ _ => True))]; cbv beta.
  - intros _ r' (Hg & Lu & Ld & Hc). fold L in Lu, Ld, Hc.
    split; [exact Hg|]. split; [exact Lu|]. split; [exact Ld|].
    intros l s Hl Hs. apply Hc; [exact Hs|nia].
  - tauto.
  - unfold Inv. rewrite Hup, Hdown. cbn [length].
    split; [reflexivity|]. split; [lia|]. split; [lia|]. intros l0 s0 _ H0. lia.
  - intros j r1 Hj I1.
    eapply post_mono;
      [| |apply (post_for_upto _ _ (fun k r2 => Inv (j * S + k)%nat r2)
                   (fun _ _ => True))]; cbv beta.
    + intros _ r2 I2. fold S in I2.
      replace (Datatypes.S j * S)%nat with (j * S + S)%nat by lia. exact I2.
    + tauto.
    + rewrite Nat.add_0_r. exact I1.
    + clear r1 I1. intros k r1 Hk (Hg & Lu & Ld & Hc).
      assert (k < S)%nat as HkS by (unfold S; lia).
      apply post_bind, GetSkeletalPoint_post; [|tauto]. intros p Hp.
      rewrite Hg in Hp.
      apply post_bind, post_lift.
      destruct (Refiner.Unit E (Spoke.GetDirection (SkeletalPoint.GetUpSpoke p)))
        as [up|e] eqn:Hu; [|exact I].
      apply post_bind, post_modify.
      apply post_bind, GetSkeletalPoint_post; [|tauto]. intros p' Hp'.
      cbn [Refiner.m_srep Refiner.set_m_flattenedUpCoeff] in Hp'.
      rewrite Hg, Hp in Hp'. injection Hp' as <-.
      apply post_bind, post_lift.
      destruct (Refiner.Unit E (Spoke.GetDirection (SkeletalPoint.GetDownSpoke p)))
        as [down|e] eqn:Hd; [|exact I].
      apply post_modify. unfold Inv.
      cbn [Refiner.m_srep Refiner.m_flattenedUpCoeff Refiner.m_flattenedDownCoeff
           Refiner.set_m_flattenedUpCoeff Refiner.set_m_flattenedDownCoeff].
      split; [exact Hg|]. rewrite !length_app. cbn [length].
      split; [lia|]. split; [lia|]. intros l s Hs Hls.
      destruct (decide (l * S + s < j * S + k)%nat) as [Hold|Hnew].
      * destruct (Hc l s Hs Hold) as [C1 C2].
        split; apply coded_app; assumption.
      * assert (l * S + s = j * S + k)%nat as Heq by lia.
        destruct (same_cell S l s j k Hs HkS Heq) as [-> ->].
        split; [apply (coded_new _ _ _ _ _ _ p up)
               |apply (coded_new _ _ _ _ _ _ p down)]; try assumption; lia.
Qed.

(** At coefficients that code the unit directions and [0], [Refine]
    returns the grid it is given. *)
Lemma Refine_at_coded g coeffs spokeType spokeOf :
  (forall p, SkeletalPoint.GetSpoke p spokeType = Ok (spokeOf p)) ->
  (forall p, SkeletalPoint.SetSpoke spokeType (spokeOf p) p = p) ->
  spokeType <> SkeletalPoint.CrestOrientation ->
  let L := Z.to_nat (EllipticalSRep.GetNumberOfLines g) in
  let S := Z.to_nat (EllipticalSRep.GetNumberOfSteps g) in
  (forall l s, (l < L)%nat -> (s < S)%nat -> coded g spokeOf coeffs S l s) ->
  Refiner.Refine E g (Refiner.data coeffs) spokeType = Ok g.
Proof.
  intros Hget Hset Hty L S Hc.
  unfold Refiner.Refine, EllipticalSRep.SmartClone.
  assert (post
    (for_upto (EllipticalSRep.GetNumberOfLines g) (fun l =>
       for_upto (EllipticalSRep.GetNumberOfSteps g) (fun s =>
         clone <- gets fst ;;
         c <- gets snd ;;
         skeletalPoint <- lift (EllipticalSRep.GetSkeletalPoint clone l s) ;;
         spoke <- lift (SkeletalPoint.GetSpoke skeletalPoint spokeType) ;;
         spoke' <- lift (Refiner.refine_spoke E 1e-13 (Refiner.data coeffs) c
                           spoke) ;;
         modify (fun st : EllipticalSRep.t * nat =>
           (EllipticalSRep.update l s
              (SkeletalPoint.SetSpoke spokeType spoke') (fst st),
            (snd st + 4)%nat)))))
    (fun _ st => fst st = g)
    (fun _ _ => False) (g, 0%nat)) as H.
  { eapply post_mono;
      [| |apply (post_for_upto _ _
                   (fun j (st : EllipticalSRep.t * nat) =>
                      st = (g, (4 * (j * S))%nat))
                   (fun _ _ => False))]; cbv beta.
    - intros _ st ->. reflexivity.
    - tauto.
    - reflexivity.
    - intros j st Hj ->.
      eapply post_mono;
        [| |apply (post_for_upto _ _
                     (fun k (st : EllipticalSRep.t * nat) =>
                        st = (g, (4 * (j * S + k))%nat))
                     (fun _ _ => False))]; cbv beta.
      + intros _ st ->. fold S. f_equal. lia.
      + tauto.
      + f_equal. lia.
      + intros k st Hk ->.
        destruct (Hc j k) as (p & u & Hp & Hu & H0 & H1 & H2 & H3);
          [unfold L; lia|unfold S; lia|].
        do 2 apply post_bind, post_gets. cbn [fst snd].
        apply post_bind, post_lift. rewrite Hp.
        apply post_bind, post_lift. rewrite Hget.
        apply post_bind, post_lift.
        assert (Refiner.refine_spoke E 1e-13 (Refiner.data coeffs)
                  (4 * (j * S + k)) (spokeOf p) = Ok (spokeOf p)) as ->.
        { unfold Refiner.refine_spoke. rewrite Hu. cbn [bind Result_Monad ret].
          unfold Refiner.data, Refiner.newRadius_in.
          rewrite (nth_lookup_Some _ _ _ _ H0), (nth_lookup_Some _ _ _ _ H1),
            (nth_lookup_Some _ _ _ _ H2), (nth_lookup_Some _ _ _ _ H3).
          cbn [Vector3d.x Vector3d.y Vector3d.z]. rewrite exp_0.
          assert (forall a, Rgeb (Rabs (a - a)) 1e-13 = false) as Z0.
          { intros a. apply Rgeb_false.
            replace (a - a) with 0 by ring. rewrite Rabs_R0. lra. }
          replace (Spoke.GetRadius (spokeOf p) - 1 * Spoke.GetRadius (spokeOf p))
            with (Spoke.GetRadius (spokeOf p) - Spoke.GetRadius (spokeOf p))
            by ring.
          rewrite !Z0. reflexivity. }
        apply post_modify. cbn [fst snd].
        rewrite (update_same _ _ _ p) by (auto using Hset). f_equal. lia. }
  unfold post in H.
  destruct spokeType; try congruence;
    match type of H with
    | context [for_upto ?n ?b (g, 0%nat)] =>
        destruct (for_upto n b (g, 0%nat)) as [[[]|e] [g' c]]
    end; try contradiction; simpl in H; congruence.
Qed.

(** The coefficients [GetInitialCoefficients] computes are those of the
    s-rep itself: there are four for each skeletal point, and at them
    [Refine] returns the s-rep unchanged, for the up spokes and for the
    down spokes. *)
Theorem initial_coefficients_reproduce_the_srep (r r' : t) :
  Refiner.m_flattenedUpCoeff E r = [] ->
  Refiner.m_flattenedDownCoeff E r = [] ->
  Refiner.GetInitialCoefficients E r = (Ok tt, r') ->
  let srep := Refiner.m_srep E r' in
  let cellCount :=
    (Z.to_nat (EllipticalSRep.GetNumberOfLines srep)
     * Z.to_nat (EllipticalSRep.GetNumberOfSteps srep))%nat in
  srep = Refiner.m_srep E r
  /\ length (Refiner.m_flattenedUpCoeff E r') = (4 * cellCount)%nat
  /\ length (Refiner.m_flattenedDownCoeff E r') = (4 * cellCount)%nat
  /\ Refiner.Refine E srep (Refiner.data (Refiner.m_flattenedUpCoeff E r'))
       SkeletalPoint.UpOrientation = Ok srep
  /\ Refiner.Refine E srep (Refiner.data (Refiner.m_flattenedDownCoeff E r'))
       SkeletalPoint.DownOrientation = Ok srep.
Proof.
  intros Hup Hdown Hrun srep cellCount.
  pose proof (GetInitialCoefficients_coded r Hup Hdown) as H.
  cbv zeta in H. unfold post in H. rewrite Hrun in H.
  destruct H as (Hg & Lu & Ld & Hc). subst srep cellCount. rewrite Hg.
  split; [reflexivity|]. split; [exact Lu|]. split; [exact Ld|].
  split.
  - apply (Refine_at_coded _ _ _ SkeletalPoint.GetUpSpoke);
      [reflexivity|intros []; reflexivity|discriminate|].
    intros l s Hl Hs. apply Hc; assumption.
  - apply (Refine_at_coded _ _ _ SkeletalPoint.GetDownSpoke);
      [reflexivity|intros []; reflexivity|discriminate|].
    intros l s Hl Hs. apply Hc; assumption.
Qed.

End InitialCoefficients.

(** ** A stage of the up or the down spokes commits what [Refine] returns *)

Lemma visited_other j k l s :
  (l, s) <> (Z.of_nat j, Z.of_nat k) -> visited j (S k) l s = visited j k l s.
Proof.
  intros Hne. unfold visited. f_equal.
  destruct (l =? Z.of_nat j)%Z eqn:El; [|reflexivity]. cbn [andb].
  apply Z.eqb_eq in El. subst l.
  destruct (s <? Z.of_nat k)%Z eqn:A, (s <? Z.of_nat (S k))%Z eqn:B;
    try reflexivity; Zbool; try lia.
  assert (s = Z.of_nat k) by lia. congruence.
Qed.

Lemma visited_now j k : visited j (S k) (Z.of_nat j) (Z.of_nat k) = true.
Proof.
  unfold visited. rewrite Z.eqb_refl.
  replace (Z.of_nat k <? Z.of_nat (S k))%Z with true
    by (symmetry; apply Z.ltb_lt; lia).
  apply orb_true_r.
Qed.

Lemma visited_before j k : visited j k (Z.of_nat j) (Z.of_nat k) = false.
Proof. unfold visited. rewrite !Z.ltb_irrefl, andb_false_r. reflexivity. Qed.

Lemma visited_none l s : (0 <= l)%Z -> (0 <= s)%Z -> visited 0 0 l s = false.
Proof.
  intros Hl Hs. unfold visited. change (Z.of_nat 0) with 0%Z.
  replace (l <? 0)%Z with false by (symmetry; apply Z.ltb_ge; lia).
  replace (s <? 0)%Z with false by (symmetry; apply Z.ltb_ge; lia).
  destruct (l =? 0)%Z; reflexivity.
Qed.

Lemma visited_line j (N : Z) l s :
  (0 <= s < N)%Z -> visited (S j) 0 l s = visited j (Z.to_nat N) l s.
Proof.
  intros Hs. unfold visited.
  replace (s <? Z.of_nat 0)%Z with false by (symmetry; apply Z.ltb_ge; lia).
  replace (s <? Z.of_nat (Z.to_nat N))%Z with true
    by (symmetry; apply Z.ltb_lt; lia).
  rewrite andb_false_r, andb_true_r, orb_false_r.
  destruct (l <? Z.of_nat j)%Z eqn:A, (l =? Z.of_nat j)%Z eqn:B,
           (l <? Z.of_nat (S j))%Z eqn:C; try reflexivity; Zbool; lia.
Qed.

(** Grids with the lines and steps of a third, and the same skeletal point
    in every cell, are one grid. *)
Lemma cells_same (R1 R2 : SkeletalPoint.t -> SkeletalPoint.t -> Prop)
    (g0 g1 g2 : EllipticalSRep.t) :
  cells R1 g0 g1 -> cells R2 g0 g2 ->
  (forall l s p1 p2,
     EllipticalSRep.GetSkeletalPoint g1 l s = Ok p1 ->
     EllipticalSRep.GetSkeletalPoint g2 l s = Ok p2 -> p1 = p2) ->
  g1 = g2.
Proof.
  intros C1 C2 H. apply list_eq. intros i.
  destruct (g0 !! i) as [line0|] eqn:H0.
  - destruct (Forall2_lookup_l _ _ _ _ _ C1 H0) as (line1 & H1 & L1).
    destruct (Forall2_lookup_l _ _ _ _ _ C2 H0) as (line2 & H2 & L2).
    rewrite H1, H2. f_equal. apply list_eq. intros j.
    destruct (line0 !! j) as [p0|] eqn:P0.
    + destruct (Forall2_lookup_l _ _ _ _ _ L1 P0) as (p1 & P1 & _).
      destruct (Forall2_lookup_l _ _ _ _ _ L2 P0) as (p2 & P2 & _).
      rewrite P1, P2. f_equal.
      apply (H (Z.of_nat i) (Z.of_nat j)); apply GetSkeletalPoint_Ok;
        rewrite !Nat2Z.id; (split; [lia|]); (split; [lia|]); eauto.
    + apply lookup_ge_None in P0.
      rewrite (lookup_ge_None_2 line1), (lookup_ge_None_2 line2);
        [reflexivity| |];
        [rewrite <- (Forall2_length _ _ _ L2)|rewrite <- (Forall2_length _ _ _ L1)];
        exact P0.
  - apply lookup_ge_None in H0.
    rewrite (lookup_ge_None_2 g1), (lookup_ge_None_2 g2);
      [reflexivity| |];
      [rewrite <- (Forall2_length _ _ _ C2)|rewrite <- (Forall2_length _ _ _ C1)];
      exact H0.
Qed.

(** The refined skeletal point has the spoke [Refine] made, and no other
    change. *)
Lemma turned_commit spokeType p q spoke :
  turned spokeType p q -> SkeletalPoint.GetSpoke q spokeType = Ok spoke ->
  SkeletalPoint.SetSpoke spokeType spoke p = q.
Proof.
  destruct spokeType, p as [u d c], q as [u' d' c']; simpl; [| |tauto];
    intros (U & D & C) [= <-]; simpl in *; subst;
    (assert (c = c') as -> by (destruct C; congruence)); reflexivity.
Qed.

Section Commit.
Context (E : Externals).

Abbreviation t := (Refiner.t E).

Lemma current_coeff_set_m_srep g (r : t) :
  Refiner.current_coeff E (Refiner.set_m_srep E g r) = Refiner.current_coeff E r.
Proof. unfold Refiner.current_coeff. simpl. reflexivity. Qed.

Lemma RefineUpDownSpokes_commits spokeType (r : t) :
  EllipticalSRep.Valid (Refiner.m_srep E r) ->
  spokeType <> SkeletalPoint.CrestOrientation ->
  post (Refiner.RefineUpDownSpokes E spokeType)
    (fun _ r' =>
       Refiner.Refine E (Refiner.m_srep E r)
         (Refiner.data (Refiner.current_coeff E r')) spokeType
       = Ok (Refiner.m_srep E r'))
    (fun _ _ => True) r.
Proof.
  intros HV Hty. unfold Refiner.RefineUpDownSpokes.
  apply post_bind, post_modify.
  set (r0 := Refiner.set_m_currentCoeff E _ r).
  assert (Refiner.m_srep E r0 = Refiner.m_srep E r) as S0 by reflexivity.
  clearbody r0.
  do 4 apply post_bind, post_gets. apply post_bind.
  eapply post_mono;
    [| |apply run_search_srep; intros; apply EvaluateObjectiveFunction_srep];
    cbv beta; [|tauto].
  intros _ r1 S1. rewrite S0 in S1. clear r0 S0.
  do 2 apply post_bind, post_gets. apply post_bind, post_lift.
  destruct (Refiner.Refine E _ _ spokeType) as [refinedSRep|e] eqn:HR;
    [|exact I].
  rewrite S1 in HR. pose proof (Refine_cells E _ _ _ _ HR) as [_ HC].
  apply post_bind. destruct (negb _); [exact I|]. apply post_ret.
  apply post_bind. destruct (negb _); [exact I|]. apply post_ret.
  apply post_bind, post_gets.
  set (g0 := Refiner.m_srep E r) in *.
  set (coeff1 := Refiner.current_coeff E r1) in *.
  set (committed := fun (l s : Z) (p : SkeletalPoint.t) =>
    match Refiner.GetSpokeAt refinedSRep l s spokeType with
    | Ok spoke => SkeletalPoint.SetSpoke spokeType spoke p
    | Throw _ => p
    end).
  set (inv := fun (j k : nat) (r2 : t) =>
    Refiner.current_coeff E r2 = coeff1
    /\ cells (turned spokeType) g0 (Refiner.m_srep E r2)
    /\ forall l s p,
         EllipticalSRep.GetSkeletalPoint g0 l s = Ok p ->
         EllipticalSRep.GetSkeletalPoint (Refiner.m_srep E r2) l s
         = Ok (if visited j k l s then committed l s p else p)).
  rewrite S1.
  eapply post_mono;
    [| |apply (post_for_upto _ _ (fun j r2 => inv j 0%nat r2) (fun _ _ => True))];
    cbv beta.
  - intros _ r' (Hc & HC' & Hcells). rewrite Hc, HR. f_equal. apply (cells_same _ _ g0 _ _ HC HC').
    intros l s q p' Hq Hp'.
    destruct (cells_lookup_r _ _ _ _ _ _ HC Hq) as (p & Hp & Rq).
    rewrite (Hcells l s p Hp) in Hp'.
    assert (visited (Z.to_nat (EllipticalSRep.GetNumberOfLines g0)) 0 l s = true)
      as Hv.
    { unfold visited. apply orb_true_iff. left. apply Z.ltb_lt.
      pose proof (GetSkeletalPoint_lines _ _ _ _ Hp). lia. }
    rewrite Hv in Hp'. injection Hp' as <-. unfold committed.
    unfold Refiner.GetSpokeAt. rewrite Hq. cbn [bind Result_Monad].
    destruct (SkeletalPoint.GetSpoke q spokeType) as [spoke|e] eqn:Hs.
    + symmetry. exact (turned_commit _ _ _ _ Rq Hs).
    + destruct spokeType; simpl in Hs; congruence.
  - tauto.
  - split; [reflexivity|].
    split; [rewrite S1; apply cells_refl; intros; apply turned_refl, Hty|].
    intros l s p Hp. destruct (GetSkeletalPoint_nonneg _ _ _ _ Hp) as [Hl Hs].
    rewrite visited_none by assumption. rewrite S1. exact Hp.
  - intros j r2 Hj (Hc2 & HC2 & Hcells2). apply post_bind, post_gets.
    rewrite (cells_steps _ _ _ HC2).
    set (N := EllipticalSRep.GetNumberOfSteps g0).
    eapply post_mono;
      [| |apply (post_for_upto N _ (fun k r3 => inv j k r3) (fun _ _ => True))];
      cbv beta.
    + intros _ r3 (Hc3 & HC3 & Hcells3). split; [exact Hc3|].
      split; [exact HC3|]. intros l s p Hp.
      rewrite (Hcells3 l s p Hp).
      rewrite (visited_line j N); [reflexivity|].
      pose proof (GetSkeletalPoint_steps _ _ _ _ HV Hp).
      destruct (GetSkeletalPoint_nonneg _ _ _ _ Hp). fold g0 N in H. lia.
    + tauto.
    + split; [exact Hc2|]. split; [exact HC2|exact Hcells2].
    + intros k r3 Hk (Hc3 & HC3 & Hcells3).
      destruct (Valid_cells _ HV j k Hj Hk) as (p0 & Hp0 & _). fold g0 in Hp0.
      destruct (cells_lookup _ _ _ _ _ _ HC Hp0) as (q & Hq & Rq).
      assert (exists spoke, SkeletalPoint.GetSpoke q spokeType = Ok spoke)
        as [refinedSpoke Hs] by (destruct spokeType; simpl; eauto; congruence).
      apply post_bind, post_lift. unfold Refiner.GetSpokeAt at 1.
      rewrite Hq. cbn [bind Result_Monad]. rewrite Hs.
      apply post_bind, GetSkeletalPoint_post; [|tauto]. intros p3 Hp3.
      apply post_modify. unfold inv.
      cbn [Refiner.m_srep Refiner.set_m_srep].
      rewrite current_coeff_set_m_srep. split; [exact Hc3|]. split.
      * apply cells_update; [lia|lia|exact HC3|].
        intros p p' Hp Hp' Rel. rewrite Hp0 in Hp. injection Hp as <-.
        assert (exists spoke0, SkeletalPoint.GetSpoke p0 spokeType = Ok spoke0
                               /\ anchored spoke0 refinedSpoke)
          as (spoke0 & H0 & A0).
        { destruct spokeType; simpl in *; try congruence;
            destruct Rq as (U & D & _); injection Hs as <-; eauto. }
        exact (turned_SetSpoke _ _ _ _ _ Rel H0 A0).
      * intros l s p Hp. rewrite GetSkeletalPoint_update by lia.
        rewrite (Hcells3 l s p Hp).
        destruct ((l =? Z.of_nat j)%Z && (s =? Z.of_nat k)%Z) eqn:Here.
        -- apply andb_true_iff in Here. destruct Here as [El Es].
           apply Z.eqb_eq in El, Es. subst l s.
           rewrite visited_now, visited_before. unfold committed.
           unfold Refiner.GetSpokeAt. rewrite Hq. cbn [bind Result_Monad].
           rewrite Hs. reflexivity.
        -- rewrite visited_other; [reflexivity|]. intros [= -> ->].
           rewrite !Z.eqb_refl in Here. discriminate.
Qed.

(** When a stage of the up or the down spokes returns on a valid grid, the
    s-rep of the refiner is the one [Refine] returns for the s-rep the
    stage started from and the coefficients the minimiser left: the stage
    copies every refined spoke. *)
Theorem stage_commits_the_refined_spokes
    (spokeType : Refiner.SpokeType) (r r' : t) :
  EllipticalSRep.Valid (Refiner.m_srep E r) ->
  spokeType <> SkeletalPoint.CrestOrientation ->
  Refiner.RefineUpDownSpokes E spokeType r = (Ok tt, r') ->
  Refiner.Refine E (Refiner.m_srep E r)
    (Refiner.data (Refiner.current_coeff E r')) spokeType
  = Ok (Refiner.m_srep E r').
Proof.
  intros HV Hty Hrun.
  pose proof (RefineUpDownSpokes_commits spokeType r HV Hty) as H.
  unfold post in H. rewrite Hrun in H. exact H.
Qed.

End Commit.

(** ** The entry points: what they leave outside the refiner *)

Section EntryPoints.
Context (E : Externals) (InvokeProgressEvent : R -> Result unit).

(** What [RefineSRep] does to the world, whether it returns or throws: it
    builds the distance field once at most, adds progress events, and
    neither logs nor writes to the destination. *)
Definition refined_only (w w' : World) : Prop :=
  (fieldBuilds w <= fieldBuilds w' <= fieldBuilds w + 1)%nat
  /\ progressEvents w `prefix_of` progressEvents w'
  /\ errorLog w' = errorLog w
  /\ destination w' = destination w.

Lemma refined_only_refl w : refined_only w w.
Proof. unfold refined_only. repeat split; try reflexivity; lia. Qed.

Lemma Refiner_new_world srep polyData initialRegionSize finalRegionSize
    maxIterations interpolationLevel L0Weight L1Weight L2Weight (w : World) :
  post (Logic.Refiner_new E srep polyData initialRegionSize finalRegionSize
          maxIterations interpolationLevel L0Weight L1Weight L2Weight)
    (fun this w' => Refiner.m_srep E this = srep /\ refined_only w w')
    (fun _ w' => refined_only w w') w.
Proof.
  assert (refined_only w (Logic.count_field_build w)) as Hcount.
  { unfold refined_only. simpl. repeat split; try reflexivity; lia. }
  unfold Logic.Refiner_new. apply post_bind, post_lift.
  destruct (Fields.ComputeMasterBounds E polyData _) as [bounds|e];
    [|apply refined_only_refl].
  destruct polyData as [polyData|]; [|apply post_throw, refined_only_refl].
  apply post_bind, post_modify, post_bind, post_lift.
  destruct (Fields.CreateAntiAliasSignedDistanceMap E _ _ _) as [field|e];
    [|exact Hcount].
  match goal with
  | |- context [Refiner.GetInitialCoefficients E ?r0] =>
      pose proof (GetInitialCoefficients_post E r0) as H; unfold post in H;
      destruct (Refiner.GetInitialCoefficients E r0) as [[[]|e] this]
  end; [|apply post_throw, Hcount].
  apply post_ret. split; [|exact Hcount].
  destruct H as (_ & S1 & _). exact S1.
Qed.

(** [RefineSRep]: the s-rep it returns is the s-rep it is given with its
    spokes turned, resized and, for crest spokes, moved. *)
Lemma RefineSRep_world srep polyData initialRegionSize finalRegionSize
    maxIterations interpolationLevel L0Weight L1Weight L2Weight callback
    (w : World) :
  post (Logic.RefineSRep E srep polyData initialRegionSize finalRegionSize
          maxIterations interpolationLevel L0Weight L1Weight L2Weight callback)
    (fun refined w' => cells sheet srep refined /\ refined_only w w')
    (fun _ w' => refined_only w w') w.
Proof.
  unfold Logic.RefineSRep. apply post_bind.
  eapply post_mono; [| |apply Refiner_new_world]; cbv beta; [|auto].
  intros this w1 [Hsrep W1].
  set (r0 := Refiner.SetProgressCallback E callback this).
  assert (Refiner.m_srep E r0 = srep) as S0 by exact Hsrep.
  pose proof (Run_cells E r0) as H. unfold post in H. rewrite S0 in H.
  assert (forall l, refined_only w (Logic.add_progressEvents l w1)) as Hadd.
  { intros l. destruct W1 as (F & P & L & D). unfold refined_only. simpl.
    repeat split; try assumption; try lia.
    etransitivity; [exact P|]. apply prefix_app_r. reflexivity. }
  destruct (Refiner.Run E r0) as [[refined|e] r1].
  - apply post_bind, post_modify, post_lift. destruct H as [-> H].
    split; [exact H|apply Hadd].
  - apply post_bind, post_modify, post_lift. apply Hadd.
Qed.

(** What [Run] leaves when it returns. *)
Lemma Run_result
    (model : option (Logic.vtkMRMLModelNode E))
    (srepNode : option Logic.vtkMRMLEllipticalSRepNode)
    (initialRegionSize finalRegionSize : R)
    (maxIterations interpolationLevel : Z) (L0Weight L1Weight L2Weight : R)
    (w w' : World) :
  Logic.Run E InvokeProgressEvent model srepNode initialRegionSize
    finalRegionSize maxIterations interpolationLevel L0Weight L1Weight L2Weight
    w = (Ok tt, w') ->
  exists (node : Logic.vtkMRMLEllipticalSRepNode) (srep refined : EllipticalSRep.t),
    srepNode = Some node
    /\ Logic.GetEllipticalSRep node = Some srep
    /\ destination w' = Some refined
    /\ cells sheet srep refined
    /\ errorLog w' = errorLog w.
Proof.
  unfold Logic.Run, try_catch.
  destruct model as [model|]; [|discriminate].
  destruct srepNode as [node|]; [|discriminate].
  unfold Logic.GetSRep.
  destruct (Logic.GetEllipticalSRep node) as [srep|] eqn:Hnode; [|discriminate].
  cbn [bind St_Monad ret throw].
  destruct (EllipticalSRep.IsEmpty srep); [discriminate|].
  destruct (maxIterations <? 1)%Z; [discriminate|].
  destruct (interpolationLevel <? 0)%Z; [discriminate|].
  pose proof (RefineSRep_world srep (Logic.GetPolyData E model)
                initialRegionSize finalRegionSize maxIterations
                interpolationLevel L0Weight L1Weight L2Weight
                (Some InvokeProgressEvent) w) as H.
  unfold post in H.
  destruct (Logic.RefineSRep E srep _ _ _ _ _ _ _ _ _ w) as [[refined|e] w1];
    [|destruct (Logic.what e); discriminate].
  cbn [modify]. intros [= <-]. destruct H as (HC & _ & _ & L & _).
  exists node, srep, refined. repeat split; try assumption; reflexivity.
Qed.

(** [vtkSlicerSRepRefinementLogic::Run] with a destination: when it
    returns, the destination holds an s-rep with the lines, the steps and
    the crest points of the s-rep of the source node, whose up and down
    spokes start at the skeletal points they started from; nothing was
    logged. *)
Theorem refined_srep_keeps_the_skeletal_sheet
    (model : option (Logic.vtkMRMLModelNode E))
    (srepNode : option Logic.vtkMRMLEllipticalSRepNode)
    (initialRegionSize finalRegionSize : R)
    (maxIterations interpolationLevel : Z) (L0Weight L1Weight L2Weight : R)
    (w w' : World) :
  Logic.Run E InvokeProgressEvent model srepNode initialRegionSize
    finalRegionSize maxIterations interpolationLevel L0Weight L1Weight L2Weight
    w = (Ok tt, w') ->
  exists (node : Logic.vtkMRMLEllipticalSRepNode) (srep refined : EllipticalSRep.t),
    srepNode = Some node
    /\ Logic.GetEllipticalSRep node = Some srep
    /\ destination w' = Some refined
    /\ cells sheet srep refined
    /\ errorLog w' = errorLog w.
Proof. apply Run_result. Qed.

(** The line the two [catch] clauses of [Run] log for an exception. *)
Definition logged (e : exception) : string :=
  match Logic.what e with
  | Some description => "Error running SRep refinement: " ++ description
  | None => "Unknown error running SRep refinement"
  end.

(** [vtkSlicerSRepRefinementLogic::Run] with a destination, when it throws,
    whatever the exception: the destination is as it was, and the log has
    one more line, with the description of a [std::exception] and without
    one for another exception. *)
Theorem Run_logs_what_it_throws
    (model : option (Logic.vtkMRMLModelNode E))
    (srepNode : option Logic.vtkMRMLEllipticalSRepNode)
    (initialRegionSize finalRegionSize : R)
    (maxIterations interpolationLevel : Z) (L0Weight L1Weight L2Weight : R)
    (w w' : World) (e : exception) :
  Logic.Run E InvokeProgressEvent model srepNode initialRegionSize
    finalRegionSize maxIterations interpolationLevel L0Weight L1Weight L2Weight
    w = (Throw e, w') ->
  destination w' = destination w
  /\ errorLog w' = errorLog w ++ [logged e]
  /\ (fieldBuilds w' <= fieldBuilds w + 1)%nat.
Proof.
  unfold Logic.Run.
  match goal with |- try_catch _ ?h w = _ -> _ => set (handler := h) end.
  assert (forall e0 w0,
            refined_only w w0 ->
            handler e0 w0 = (Throw e, w') ->
            destination w' = destination w
            /\ errorLog w' = errorLog w ++ [logged e]
            /\ (fieldBuilds w' <= fieldBuilds w + 1)%nat) as Hcatch.
  { intros e0 w0 (F & _ & L & D). unfold handler, logged.
    destruct (Logic.what e0) eqn:W; cbn [bind St_Monad modify throw];
      intros [= <- <-]; rewrite W; simpl; rewrite L;
      (repeat split; [exact D|lia]). }
  clearbody handler. unfold try_catch.
  destruct model as [model|];
    [|apply Hcatch, refined_only_refl].
  destruct srepNode as [node|]; [|apply Hcatch, refined_only_refl].
  unfold Logic.GetSRep.
  destruct (Logic.GetEllipticalSRep node) as [srep|];
    [|apply Hcatch, refined_only_refl].
  cbn [bind St_Monad ret throw].
  destruct (EllipticalSRep.IsEmpty srep); [apply Hcatch, refined_only_refl|].
  destruct (maxIterations <? 1)%Z; [apply Hcatch, refined_only_refl|].
  destruct (interpolationLevel <? 0)%Z; [apply Hcatch, refined_only_refl|].
  pose proof (RefineSRep_world srep (Logic.GetPolyData E model)
                initialRegionSize finalRegionSize maxIterations
                interpolationLevel L0Weight L1Weight L2Weight
                (Some InvokeProgressEvent) w) as H.
  unfold post in H.
  destruct (Logic.RefineSRep E srep _ _ _ _ _ _ _ _ _ w) as [[refined|e0] w1];
    [discriminate|].
  apply Hcatch, H.
Qed.

(** [vtkSlicerSRepRefinementLogic::Run] without a destination: it throws
    [std::runtime_error] and touches nothing when the scene is null; when
    it returns, the scene has one more node, which holds the refined
    s-rep; when the refinement throws, the scene has the nodes it had. *)
Theorem Run_in_new_node_adds_a_node_only_when_it_returns
    (scene : bool) (model : option (Logic.vtkMRMLModelNode E))
    (srepNode : option Logic.vtkMRMLEllipticalSRepNode)
    (initialRegionSize finalRegionSize : R)
    (maxIterations interpolationLevel : Z) (L0Weight L1Weight L2Weight : R)
    (nodes : nat) (w : World) :
  match Logic.Run_in_new_node E InvokeProgressEvent scene model srepNode
          initialRegionSize finalRegionSize maxIterations interpolationLevel
          L0Weight L1Weight L2Weight (nodes, w) with
  | (Ok _, (nodes', w')) =>
      scene = true /\ nodes' = S nodes
      /\ exists refined, destination w' = Some refined
  | (Throw e, (nodes', w')) =>
      nodes' = nodes
      /\ (scene = false ->
          e = runtime_error
                "Can't add new vtkMRMLEllipticalSRepNode with null scene"
          /\ w' = w)
  end.
Proof.
  unfold Logic.Run_in_new_node. destruct scene; cbn [negb].
  - set (w0 := mkWorld (fieldBuilds w) (progressEvents w) (errorLog w) None).
    pose proof (Run_result model srepNode initialRegionSize finalRegionSize
                  maxIterations interpolationLevel L0Weight L1Weight L2Weight
                  w0) as H.
    destruct (Logic.Run E InvokeProgressEvent model srepNode _ _ _ _ _ _ _ w0)
      as [[[]|e] w'].
    + split; [reflexivity|]. split; [reflexivity|].
      destruct (H w' eq_refl) as (node & srep & refined & _ & _ & Hd & _).
      eauto.
    + split; [reflexivity|discriminate].
  - split; [reflexivity|]. intros _. split; reflexivity.
Qed.


End EntryPoints.

(** ** The creation of an s-rep *)

Lemma map_nth_seq {A} (l : list A) (d : A) :
  map (fun i => nth i l d) (seq 0 (length l)) = l.
Proof.
  apply list_eq. intros i. rewrite list_lookup_fmap.
  destruct (decide (i < length l)%nat) as [H|H].
  - rewrite lookup_seq_lt by exact H. simpl.
    destruct (lookup_lt_is_Some_2 l i H) as [a Ha].
    rewrite Ha, (nth_lookup_Some _ _ _ _ Ha). reflexivity.
  - rewrite lookup_seq_ge, lookup_ge_None_2 by lia. reflexivity.
Qed.

Lemma map_fixes {A} (f : A -> A) (l : list A) :
  map f l = l <-> Forall (fun a => f a = a) l.
Proof.
  induction l as [|a l IH]; simpl.
  - split; [constructor|reflexivity].
  - split.
    + intros [= Ha Hl]. constructor; [exact Ha|apply IH, Hl].
    + intros H. inversion H as [|? ? Ha Hl]; subst.
      rewrite Ha. f_equal. apply IH, Hl.
Qed.

(** The points of a mesh come back from the way to a matrix and back in
    single precision: for the matrix [ConvertVTKPointsToEigen] makes of
    them, [ConvertEigenToVTKPoints] returns the points in their order,
    each coordinate as the new [vtkPoints] stores it; they are the points
    themselves exactly when the storage as [float] changes none of them. *)
Theorem points_come_back_in_single_precision (L : Creator.Libraries)
    (points : list Point3d.t) :
  let stored (p : Point3d.t) :=
    Creator.InsertNextPoint L (Point3d.x p) (Point3d.y p) (Point3d.z p) in
  Creator.ConvertEigenToVTKPoints L (Creator.ConvertVTKPointsToEigen points)
  = Ok (map stored points)
  /\ (Creator.ConvertEigenToVTKPoints L (Creator.ConvertVTKPointsToEigen points)
      = Ok points
      <-> Forall (fun p => stored p = p) points).
Proof.
  intros stored.
  assert (Creator.ConvertEigenToVTKPoints L
            (Creator.ConvertVTKPointsToEigen points)
          = Ok (map stored points)) as H.
  { unfold Creator.ConvertEigenToVTKPoints, Creator.ConvertVTKPointsToEigen.
    simpl. f_equal.
    rewrite <- (map_nth_seq points (Point3d.mk 0 0 0)) at 2.
    rewrite map_map. apply map_ext. intros i. reflexivity. }
  split; [exact H|]. rewrite H. rewrite <- map_fixes.
  split; [intros [= ->]; reflexivity|intros ->; reflexivity].
Qed.

Lemma pow_third_cube (x : R) :
  0 < x -> Creator.pow_third x * Creator.pow_third x * Creator.pow_third x = x.
Proof.
  intros H. unfold Creator.pow_third. rewrite <- !Rpower_plus.
  replace (1 / 3 + 1 / 3 + 1 / 3) with 1 by field. apply Rpower_1, H.
Qed.

Lemma pow_third_pos (x : R) : 0 < Creator.pow_third x.
Proof. unfold Creator.pow_third, Rpower. apply exp_pos. Qed.

Section Creation.
Context (L : Creator.Libraries).
Context (ellipse_scale eps crestShift : R).
Context (mrx_o mry_o : Creator.EllipsoidParameters -> R).

(** The best fitting ellipsoid has the volume of the mesh, when the mesh
    has a positive volume and the three radii are positive. *)
Theorem best_fit_ellipsoid_has_the_volume_of_the_mesh
    (alreadyFlowedMesh : Creator.vtkPolyData L) :
  let ellipsoid := Creator.CalculateBestFitEllipsoid L alreadyFlowedMesh in
  0 < Creator.GetVolume L alreadyFlowedMesh ->
  0 < Creator.at3 (Creator.radii ellipsoid) 0 ->
  0 < Creator.at3 (Creator.radii ellipsoid) 1 ->
  0 < Creator.at3 (Creator.radii ellipsoid) 2 ->
  Creator.VolumeOfEllipsoid (Creator.at3 (Creator.radii ellipsoid) 0)
    (Creator.at3 (Creator.radii ellipsoid) 1)
    (Creator.at3 (Creator.radii ellipsoid) 2)
  = Creator.GetVolume L alreadyFlowedMesh.
Proof.
  unfold Creator.CalculateBestFitEllipsoid. cbv zeta.
  destruct (Creator.eigenvalues L _) as [[e0 e1] e2].
  cbn [Creator.radii Creator.at3].
  set (r0 := R_sqrt.sqrt e0). set (r1 := R_sqrt.sqrt e1).
  set (r2 := R_sqrt.sqrt e2).
  set (V := Creator.VolumeOfEllipsoid r0 r1 r2).
  set (f := Creator.pow_third (Creator.GetVolume L alreadyFlowedMesh / V)).
  intros HV H0 H1 H2.
  assert (0 < f) as Hf by apply pow_third_pos.
  assert (0 < r0) as P0
    by (apply (Rmult_lt_reg_r f); [exact Hf|rewrite Rmult_0_l; exact H0]).
  assert (0 < r1) as P1
    by (apply (Rmult_lt_reg_r f); [exact Hf|rewrite Rmult_0_l; exact H1]).
  assert (0 < r2) as P2
    by (apply (Rmult_lt_reg_r f); [exact Hf|rewrite Rmult_0_l; exact H2]).
  assert (0 < V) as PV.
  { unfold V, Creator.VolumeOfEllipsoid. pose proof PI_RGT_0 as HPI.
    assert (0 < r0 * r1 * r2) as HP by (repeat apply Rmult_lt_0_compat; assumption).
    replace (4 / 3 * PI * r0 * r1 * r2) with (4 / 3 * (PI * (r0 * r1 * r2)))
      by ring.
    apply Rmult_lt_0_compat; [lra|]. apply Rmult_lt_0_compat; assumption. }
  assert (f * f * f = Creator.GetVolume L alreadyFlowedMesh / V) as Hcube
    by (apply pow_third_cube, Rdiv_lt_0_compat; assumption).
  unfold Creator.VolumeOfEllipsoid.
  replace (4 / 3 * PI * (r0 * f) * (r1 * f) * (r2 * f))
    with (V * (f * f * f)) by (unfold V, Creator.VolumeOfEllipsoid; ring).
  rewrite Hcube. field. lra.
Qed.

(** Every line of the medial sheet starts on the spine, which lies on the
    x axis, and ends on the ellipse of the two scaled medial radii; for a
    circle the spine is one point. *)
Theorem medial_sheet_runs_from_the_spine_to_the_ellipse
    (ellipsoid : Creator.EllipsoidParameters)
    (numFoldPoints numStepsToCrest i : nat) :
  let mra := mrx_o ellipsoid * ellipse_scale in
  let mrb := mry_o ellipsoid * ellipse_scale in
  let sheet :=
    Creator.GenerateMedialSkeletalSheet ellipse_scale mrx_o mry_o ellipsoid
      numFoldPoints numStepsToCrest in
  let x := Creator.coeff (fst sheet) i in
  let y := Creator.coeff (snd sheet) i in
  (i < numFoldPoints)%nat -> (1 <= numStepsToCrest)%nat ->
  mra <> 0 -> mrb <> 0 ->
  y 0%nat = 0
  /\ (x numStepsToCrest / mra) * (x numStepsToCrest / mra)
     + (y numStepsToCrest / mrb) * (y numStepsToCrest / mrb) = 1
  /\ (mra = mrb -> x 0%nat = 0).
Proof.
  intros mra mrb sheet x y _ Hn Ha Hb.
  subst x y sheet. unfold Creator.GenerateMedialSkeletalSheet.
  cbn [fst snd Creator.coeff]. fold mra mrb.
  unfold Creator.medial_point. cbn [fst snd].
  set (theta := PI - 2 * PI / INR numFoldPoints * INR i).
  assert (INR numStepsToCrest <> 0) as Hs by (apply not_0_INR; lia).
  assert (1 / INR numStepsToCrest * INR numStepsToCrest = 1) as Hone
    by (field; exact Hs).
  rewrite !Hone. change (INR 0) with 0.
  split; [ring|]. split.
  - replace (_ + _)
      with ((cos theta)² + (sin theta)²) by (unfold Rsqr; field; tauto).
    rewrite Rplus_comm. apply sin2_cos2.
  - intros ->. field. tauto.
Qed.

(** A point of the ellipsoid with the radii [rx], [ry] and [rz] along the
    axes, before the ellipsoid is rotated and translated. *)
Definition on_ellipsoid (ellipsoid : Creator.EllipsoidParameters)
    (p : Creator.Vector3) : Prop :=
  let rz := Creator.at3 (Creator.radii ellipsoid) 0 in
  let ry := Creator.at3 (Creator.radii ellipsoid) 1 in
  let rx := Creator.at3 (Creator.radii ellipsoid) 2 in
  let '(x, y, z) := p in
  (x / rx) * (x / rx) + (y / ry) * (y / ry) + (z / rz) * (z / rz) = 1.

Lemma at_row_of_point (numStepsToCrest i j : nat) :
  (j <= numStepsToCrest)%nat ->
  Creator.line_of numStepsToCrest (Creator.id_resampled numStepsToCrest i j) = i
  /\ Creator.step_of numStepsToCrest (Creator.id_resampled numStepsToCrest i j)
     = j.
Proof.
  intros Hj. unfold Creator.line_of, Creator.step_of, Creator.id_resampled.
  split.
  - rewrite Nat.div_add_l by lia. rewrite Nat.div_small by lia. lia.
  - rewrite Nat.add_comm, Nat.Div0.mod_add. apply Nat.mod_small. lia.
Qed.

(** Before the rotation and the translation, the row of the skeletal point
    [(i, j)] holds a point of the plane [z = 0], the boundary points of its
    up and down spokes are mirror images in that plane, and both lie on the
    ellipsoid, as long as the point [(mx, my)] of the medial sheet is
    inside the medial ellipse and at least [eps] away from its centre, in
    the measure [l] of the code. *)
Theorem spoke_tips_lie_on_the_ellipsoid
    (ellipsoid : Creator.EllipsoidParameters)
    (numFoldPoints numStepsToCrest i j : nat) :
  let sheet :=
    Creator.GenerateMedialSkeletalSheet ellipse_scale mrx_o mry_o ellipsoid
      numFoldPoints numStepsToCrest in
  let mx := Creator.coeff (fst sheet) i j in
  let my := Creator.coeff (snd sheet) i j in
  let l := R_sqrt.sqrt (my * mrx_o ellipsoid * (my * mrx_o ellipsoid)
                        + mx * mry_o ellipsoid * (mx * mry_o ellipsoid)) in
  let srep :=
    Creator.preTransformSRep ellipse_scale eps crestShift mrx_o mry_o
      ellipsoid numFoldPoints numStepsToCrest in
  let id := Creator.id_resampled numStepsToCrest i j in
  (i < numFoldPoints)%nat -> (j <= numStepsToCrest)%nat ->
  0 < l -> eps <= l -> l <= Rabs (mrx_o ellipsoid * mry_o ellipsoid) ->
  Creator.at3 (Creator.radii ellipsoid) 0 <> 0 ->
  Creator.at3 (Creator.radii ellipsoid) 1 <> 0 ->
  Creator.at3 (Creator.radii ellipsoid) 2 <> 0 ->
  Creator.row (Creator.skeletalPoints srep) id = (mx, my, 0)
  /\ on_ellipsoid ellipsoid (Creator.row (Creator.upSpokeBoundaryPoints srep) id)
  /\ on_ellipsoid ellipsoid (Creator.row (Creator.downSpokeBoundaryPoints srep) id)
  /\ (forall x y z,
        Creator.row (Creator.upSpokeBoundaryPoints srep) id = (x, y, z) ->
        Creator.row (Creator.downSpokeBoundaryPoints srep) id = (x, y, - z)).
Proof.
  intros sheet mx my l srep id _ Hj Hl Heps Hin Hz Hy Hx.
  destruct (at_row_of_point numStepsToCrest i j Hj) as [Hline Hstep].
  assert (forall f : nat -> Creator.Vector3,
            Creator.row (Creator.of_rows
                           (numFoldPoints * (numStepsToCrest + 1)) f) id
            = f id) as Hrow.
  { intros f. unfold Creator.row, Creator.of_rows. cbn [Creator.coeff].
    destruct (f id) as [[a b] c]. reflexivity. }
  subst srep. unfold Creator.preTransformSRep.
  cbn [Creator.skeletalPoints Creator.upSpokeBoundaryPoints
       Creator.downSpokeBoundaryPoints].
  rewrite !Hrow. subst id. rewrite Hline, Hstep. fold sheet. fold mx my.
  unfold Creator.spokes_of_point.
  cbn [Creator.skeletal Creator.upBoundary Creator.downBoundary].
  fold l.
  assert (Rltb l eps = false) as -> by (apply Rltb_false; exact Heps).
  set (a := mrx_o ellipsoid) in *. set (b := mry_o ellipsoid) in *.
  assert (a * b <> 0) as Hab.
  { intros H0. rewrite H0, Rabs_R0 in Hin. lra. }
  assert (l * l = my * a * (my * a) + mx * b * (mx * b)) as Hsq.
  { unfold l. apply sqrt_sqrt. nra. }
  assert (a <> 0) as Ha by (intros H0; apply Hab; rewrite H0; ring).
  assert (b <> 0) as Hb by (intros H0; apply Hab; rewrite H0; ring).
  set (cA := l / (a * b)).
  assert (cA * cA <= 1) as HcA.
  { set (D := a * b * (a * b)).
    assert (0 < D) as Hpos by (apply (Rsqr_pos_lt (a * b)), Hab).
    assert (l * l <= D) as Hle.
    { pose proof (Rabs_pos (a * b)).
      assert (l * l <= Rabs (a * b) * Rabs (a * b)) as H1 by nra.
      rewrite <- Rabs_mult, Rabs_pos_eq in H1 by (unfold D in Hpos; lra).
      exact H1. }
    unfold cA. replace (l / (a * b) * (l / (a * b))) with (l * l / D)
      by (unfold D; field; tauto).
    unfold Rdiv. apply (Rmult_le_reg_r D); [exact Hpos|].
    rewrite Rmult_assoc, Rinv_l, Rmult_1_r, Rmult_1_l by lra. exact Hle. }
  assert (R_sqrt.sqrt (1 - cA * cA) * R_sqrt.sqrt (1 - cA * cA) = 1 - cA * cA)
    as HsA by (apply sqrt_sqrt; lra).
  set (sA := R_sqrt.sqrt (1 - cA * cA)) in *.
  split; [reflexivity|]. unfold on_ellipsoid.
  set (rz := Creator.at3 (Creator.radii ellipsoid) 0) in *.
  set (ry := Creator.at3 (Creator.radii ellipsoid) 1) in *.
  set (rx := Creator.at3 (Creator.radii ellipsoid) 2) in *.
  assert ((rx * cA * (mx * b / l) - mx + mx) / rx
          * ((rx * cA * (mx * b / l) - mx + mx) / rx)
          + (ry * cA * (my * a / l) - my + my) / ry
            * ((ry * cA * (my * a / l) - my + my) / ry)
          = cA * cA) as Hxy.
  { replace (_ + _)
      with (cA * cA * ((my * a * (my * a) + mx * b * (mx * b)) / (l * l)))
      by (unfold cA; field; repeat split; lra).
    rewrite <- Hsq. field. lra. }
  split; [|split].
  - replace (rz * sA / rz * (rz * sA / rz)) with (sA * sA) by (field; exact Hz).
    rewrite Hxy, HsA. ring.
  - replace (- (rz * sA) / rz * (- (rz * sA) / rz)) with (sA * sA)
      by (field; exact Hz).
    rewrite Hxy, HsA. ring.
  - intros x y z [= <- <- <-]. reflexivity.
Qed.

(** An [EigenSRep] whose matrices have the rows the conversion reads: three
    columns and a row for each skeletal point for the up and the down
    spokes, a row for each line for the crest. *)
Definition has_its_rows (eigenSRep : Creator.EigenSRep) : Prop :=
  let count :=
    (Creator.numFoldPoints eigenSRep
     * (Creator.numStepsToCrest eigenSRep + 1))%nat in
  Forall (fun m => Creator.rows m = count /\ Creator.cols m = 3%nat)
    [Creator.skeletalPoints eigenSRep; Creator.upSpokeBoundaryPoints eigenSRep;
     Creator.downSpokeBoundaryPoints eigenSRep]
  /\ Forall (fun m => Creator.rows m = Creator.numFoldPoints eigenSRep
                      /\ Creator.cols m = 3%nat)
       [Creator.crestSkeletalPoints eigenSRep;
        Creator.crestSpokeBoundaryPoints eigenSRep].

Lemma GenerateEigenSRep_has_its_rows (ellipsoid : Creator.EllipsoidParameters)
    (numFoldPoints numStepsToCrest : nat) :
  has_its_rows
    (Creator.GenerateEigenSRep L ellipse_scale eps crestShift mrx_o mry_o
       ellipsoid numFoldPoints numStepsToCrest).
Proof. split; repeat constructor. Qed.

(** The grid that [ConvertEigenSRepToEllipticalSRep] makes of matrices with
    their rows has a line for each fold
    point and a skeletal point for each step, the last of a line being its
    only crest point: it has the invariant of the class, which the
    refinement relies on.  The spokes of a skeletal point start at its row
    of the skeletal points and end at its rows of the boundary points. *)
Theorem converted_srep_is_a_valid_grid (eigenSRep : Creator.EigenSRep) :
  let srep := Creator.ConvertEigenSRepToEllipticalSRep eigenSRep in
  let steps := (Creator.numStepsToCrest eigenSRep + 1)%nat in
  has_its_rows eigenSRep ->
  EllipticalSRep.Valid srep
  /\ EllipticalSRep.GetNumberOfLines srep
     = Z.of_nat (Creator.numFoldPoints eigenSRep)
  /\ forall i j : nat,
       (i < Creator.numFoldPoints eigenSRep)%nat -> (j < steps)%nat ->
       exists p,
         EllipticalSRep.GetSkeletalPoint srep (Z.of_nat i) (Z.of_nat j) = Ok p
         /\ EllipticalSRep.GetNumberOfSteps srep = Z.of_nat steps
         /\ SkeletalPoint.IsCrest p
            = (j =? Creator.numStepsToCrest eigenSRep)%nat
         /\ Spoke.GetSkeletalPoint (SkeletalPoint.GetUpSpoke p)
            = Creator.PointFromEigen
                (Creator.row (Creator.skeletalPoints eigenSRep) (i * steps + j))
         /\ Spoke.GetSkeletalPoint (SkeletalPoint.GetDownSpoke p)
            = Spoke.GetSkeletalPoint (SkeletalPoint.GetUpSpoke p)
         /\ Spoke.GetBoundaryPoint (SkeletalPoint.GetUpSpoke p)
            = Creator.PointFromEigen
                (Creator.row (Creator.upSpokeBoundaryPoints eigenSRep)
                   (i * steps + j))
         /\ Spoke.GetBoundaryPoint (SkeletalPoint.GetDownSpoke p)
            = Creator.PointFromEigen
                (Creator.row (Creator.downSpokeBoundaryPoints eigenSRep)
                   (i * steps + j)).
Proof.
  intros srep steps _. subst srep steps.
  set (n := Creator.numStepsToCrest eigenSRep).
  set (N := Creator.numFoldPoints eigenSRep).
  unfold Creator.ConvertEigenSRepToEllipticalSRep. fold n N.
  assert (forall p q : Point3d.t,
            Spoke.GetBoundaryPoint (Creator.spoke_to p q) = q) as Hto.
  { intros [px py pz] [qx qy qz]. unfold Spoke.GetBoundaryPoint, translate.
    simpl. f_equal; ring. }
  split; [|split].
  - exists n. unfold EllipticalSRep.shape. rewrite length_map, length_seq.
    apply list_eq. intros i. rewrite !list_lookup_fmap.
    destruct (decide (i < N)%nat) as [Hi|Hi].
    + rewrite lookup_seq_lt, lookup_replicate_2 by lia. simpl. f_equal.
      apply list_eq. intros j. rewrite !list_lookup_fmap.
      destruct (decide (j < n + 1)%nat) as [Hj|Hj].
      * rewrite lookup_seq_lt by lia. simpl.
        unfold Creator.skeletal_point_at. fold n.
        destruct (decide (j < n)%nat) as [Hlt|Hge].
        -- rewrite lookup_app_l by (rewrite length_replicate; lia).
           rewrite lookup_replicate_2 by lia.
           replace (j =? n)%nat with false by (symmetry; apply Nat.eqb_neq; lia).
           reflexivity.
        -- rewrite lookup_app_r by (rewrite length_replicate; lia).
           rewrite length_replicate. replace (j - n)%nat with 0%nat by lia.
           replace (j =? n)%nat with true by (symmetry; apply Nat.eqb_eq; lia).
           reflexivity.
      * rewrite lookup_seq_ge by lia. simpl. symmetry.
        apply lookup_ge_None_2. rewrite length_app, length_replicate. simpl. lia.
    + rewrite lookup_seq_ge by lia. simpl. symmetry.
      apply lookup_ge_None_2. rewrite length_replicate. lia.
  - unfold EllipticalSRep.GetNumberOfLines.
    rewrite length_map, length_seq. reflexivity.
  - intros i j Hi Hj. exists (Creator.skeletal_point_at eigenSRep i j).
    split.
    { apply GetSkeletalPoint_Ok. rewrite !Nat2Z.id.
      split; [lia|]. split; [lia|].
      eexists. split.
      - rewrite list_lookup_fmap, lookup_seq_lt by lia. reflexivity.
      - rewrite list_lookup_fmap, lookup_seq_lt by lia. reflexivity. }
    split.
    { destruct N as [|N']; [lia|]. simpl. rewrite length_map, length_seq.
      reflexivity. }
    unfold Creator.skeletal_point_at. fold n.
    destruct (j =? n)%nat; cbn [SkeletalPoint.IsCrest SkeletalPoint.GetCrestSpoke
      SkeletalPoint.GetUpSpoke SkeletalPoint.GetDownSpoke];
      rewrite !Hto; repeat split; reflexivity.
Qed.

End Creation.

(** * An example: one line of one skeletal point, on a flat surface *)

Definition unit_z : Vector3d.t := Vector3d.mk 0 0 1.
Definition example_spoke : Spoke.t := Spoke.mk (Point3d.mk 0 0 0) unit_z.
Definition example_point : SkeletalPoint.t :=
  SkeletalPoint.mk example_spoke example_spoke (Some example_spoke).
Definition example_grid : EllipticalSRep.t := [[example_point]].
Definition unit_box : Bounds := mkBounds 0 1 0 1 0 1.

(** The surface is at distance 0 of every point, its largest curvature is 2
    everywhere, and the minimiser evaluates the objective once, at the
    coefficients it is given, and returns them. *)
Definition example_externals : Externals := {|
  vtkPolyData := unit;
  vtkImageData := unit;
  UnitOfZero := Ok unit_z;
  indeterminate := unit_box;
  GetPoints := fun _ => [];
  GetBounds := fun _ => unit_box;
  PolyDataToImageStencil := fun _ _ _ _ _ => tt;
  ApproximateSignedDistanceMap := fun _ => Ok (fun _ _ _ => 0);
  GradientImage := fun _ => Ok (fun _ _ _ => unit_z);
  GetSRepBounds := fun _ => unit_box;
  SmartInterpolateSRep := fun srep _ => Ok srep;
  FunctionValue := fun _ _ => 0;
  MaximumCurvature := fun _ => Some (fun _ => 2);
  MinimumCurvature := fun _ => Some (fun _ => 0);
  FindClosestPoint := fun _ _ => 0%Z;
  Eigen_inverse := fun m => m;
  Eigen_eigenvalues := fun _ => (0, 0);
  min_newuoa := fun _ x _ _ max_iter =>
    if (1 <=? max_iter)%Z then Probe x (fun _ => Finish x) else Finish x
|}.

Definition example_world : World := mkWorld 0 [] [] None.

Definition example_refiner : Refiner.t example_externals :=
  Refiner.mk example_externals 0.005 tt example_grid unit_box
    (fun _ _ _ => 0, fun _ _ _ => unit_z)
    (Fields.CreateBoundsToImageCoordsTransform unit_box) [] [] 1 1 1%Z 0%Z
    Refiner.null_coeff 1 1 1 0%Z 4%Z None [].

Lemma example_grid_Valid : EllipticalSRep.Valid example_grid.
Proof. exists 0%nat. reflexivity. Qed.

Lemma example_capped : capped_minimiser example_externals.
Proof.
  intros n x r_start tol max_iter. simpl.
  destruct (1 <=? max_iter)%Z eqn:H; [|apply pam_Finish].
  apply Z.leb_le in H.
  replace (Z.to_nat max_iter) with (S (Z.to_nat max_iter - 1)) by lia.
  apply pam_Probe. intros v. apply pam_Finish.
Qed.

Lemma example_radius : Spoke.GetRadius example_spoke = 1.
Proof.
  unfold Spoke.GetRadius, Vector3d.GetLength. simpl.
  replace (0 * 0 + 0 * 0 + 1 * 1) with 1 by ring. apply sqrt_1.
Qed.

Lemma example_curvature :
  largest_curvature example_externals tt (fun _ => 2) (fun _ => 0) example_spoke
  = 2.
Proof.
  unfold largest_curvature. rewrite Rabs_R0, (Rabs_pos_eq 2) by lra.
  apply Rmax_left. lra.
Qed.

Lemma example_refiner_good : good example_externals example_refiner.
Proof. split; [apply example_grid_Valid|exact I]. Qed.

Lemma example_correction_returns :
  exists r',
    Refiner.correct_crest_spokes example_externals (fun _ => 2) (fun _ => 0)
      example_refiner
    = (Ok tt, r').
Proof.
  pose proof (for_each_crest_spoke_steady example_externals
                (Refiner.correct_crest_spoke example_externals tt
                   (fun _ => 2) (fun _ => 0))
                example_refiner example_refiner_good) as H.
  unfold post in H.
  change (Refiner.for_each_crest_spoke example_externals
            (Refiner.correct_crest_spoke example_externals tt
               (fun _ => 2) (fun _ => 0)) example_refiner)
    with (Refiner.correct_crest_spokes example_externals (fun _ => 2)
            (fun _ => 0) example_refiner) in H.
  destruct (Refiner.correct_crest_spokes example_externals _ _ example_refiner)
    as [[[]|e] r'].
  - eauto.
  - exfalso. apply H. intros spoke.
    destruct (correct_crest_spoke_result example_externals tt (fun _ => 2)
                (fun _ => 0) spoke) as (spoke' & Hs & _).
    eauto.
Qed.

Lemma example_run_returns :
  exists refined w',
    Logic.RefineSRep example_externals example_grid (Some tt) 1 1 1 0 1 1 1
      (Some (fun _ => Ok tt)) example_world
    = (Ok refined, w').
Proof.
  apply (RefineSRep_returns example_externals unit_z eq_refl).
  - discriminate.
  - discriminate.
  - intros image. eexists. reflexivity.
  - intros sdf. eexists. reflexivity.
  - apply example_grid_Valid.
  - reflexivity.
Qed.

Lemma EvaluateObjectiveFunction_never_throws_witness :
  exists (val : R) (this' : Refiner.t example_externals),
    Refiner.EvaluateObjectiveFunction example_externals (fun _ => 0)
      SkeletalPoint.UpOrientation example_refiner
    = (Ok val, this').
Proof.
  destruct (EvaluateObjectiveFunction_never_throws example_externals
              (fun _ => 0) SkeletalPoint.UpOrientation example_refiner)
    as (val & this' & H & _).
  - simpl. lia.
  - exists val, this'. exact H.
Defined.

Lemma new_radius_positive_in_exact_arithmetic_witness :
  0 < Refiner.newRadius_in Rmult exp (-1000) 1.
Proof. apply new_radius_positive_in_exact_arithmetic. lra. Defined.

Lemma progress_of_a_complete_run_witness :
  exists (refined : EllipticalSRep.t) (w' : World) (values : list R),
    Logic.RefineSRep example_externals example_grid (Some tt) 1 1 1 0 1 1 1
      (Some (fun _ => Ok tt)) example_world
    = (Ok refined, w')
    /\ progressEvents w' = values
    /\ last values = Some 1.
Proof.
  destruct example_run_returns as (refined & w' & Hrun).
  destruct (progress_of_a_complete_run example_externals example_grid
              (Some tt) 1 1 1 0 1 1 1 (fun _ => Ok tt) example_world w'
              refined example_capped example_grid_Valid eq_refl)
    as (values & Hev & _ & _ & Hlast).
  - lia.
  - vm_compute. discriminate.
  - exact Hrun.
  - exists refined, w', values. auto.
Defined.

(** C3.  A complete run with 1073741823 iterations on the grid of one
    line.  The total of iterations, 2147483648, is no [int]: the member
    holds -2147483648, and the value the callback gets at the start of the
    second stage, 1073741823 / -2147483648, is below 0. *)
Lemma progress_leaves_the_unit_interval :
  exists (refined : EllipticalSRep.t) (w' : World),
    Logic.RefineSRep example_externals example_grid (Some tt) 1 1 1073741823 0
      1 1 1 (Some (fun _ => Ok tt)) example_world
    = (Ok refined, w')
    /\ exists x : R, x ∈ progressEvents w' /\ x < 0.
Proof.
  destruct (RefineSRep_returns example_externals unit_z eq_refl
              ltac:(discriminate) ltac:(discriminate)
              ltac:(intros image; eexists; reflexivity)
              ltac:(intros sdf; eexists; reflexivity)
              example_grid tt 1 1 1073741823 0 1 1 1 (fun _ => Ok tt)
              example_world example_grid_Valid ltac:(reflexivity))
    as (refined & w' & Hrun).
  exists refined, w'. split; [exact Hrun|].
  pose proof (RefineSRep_events example_externals example_grid (Some tt)
                1 1 1073741823 0 1 1 1 (fun _ => Ok tt) example_world
                example_capped example_grid_Valid eq_refl) as H.
  unfold post in H.
  match type of H with
  | match ?run with _ => _ end =>
      assert (run = (Ok refined, w')) as Hrun' by exact Hrun;
      rewrite Hrun' in H
  end.
  destruct H as (k1 & k2 & _ & _ & Hev).
  exists (IZR 1073741823 / IZR (-2147483648)). split; [|lra].
  rewrite Hev. apply elem_of_app. right.
  apply list_elem_of_fmap. exists 1073741823%Z. split; [reflexivity|].
  unfold run_trace. apply elem_of_app. right. apply elem_of_app. right.
  apply elem_of_app. left. apply list_elem_of_singleton. reflexivity.
Qed.

Lemma Run_rejects_invalid_arguments_first_witness :
  exists (message : string) (w' : World),
    Logic.Run example_externals (fun _ => Ok tt) None None 1 1 0 0 1 1 1
      example_world
    = (Throw (invalid_argument message), w')
    /\ fieldBuilds w' = 0%nat.
Proof.
  destruct (Run_rejects_invalid_arguments_first example_externals
              (fun _ => Ok tt) None None 1 1 0 0 1 1 1 example_world)
    as (message & w' & H & Hf & _).
  - left. reflexivity.
  - exists message, w'. auto.
Defined.

Lemma normalized_bounds_preserve_aspect_witness :
  b3 (Fields.ComputePolyDataToImageDataNewBounds example_externals
        (mkBounds 0 4 0 2 0 1))
  - b2 (Fields.ComputePolyDataToImageDataNewBounds example_externals
          (mkBounds 0 4 0 2 0 1))
  = range1 (mkBounds 0 4 0 2 0 1) / dominant (mkBounds 0 4 0 2 0 1).
Proof.
  destruct (normalized_bounds_preserve_aspect example_externals
              (mkBounds 0 4 0 2 0 1))
    as (_ & (_ & H & _) & _); unfold range0, range1, range2; simpl; try lra.
  exact H.
Defined.

Lemma curvature_pass_corrects_crest_spokes_witness :
  exists (r' : Refiner.t example_externals) (spoke' : Spoke.t),
    Refiner.correct_crest_spokes example_externals (fun _ => 2) (fun _ => 0)
      example_refiner
    = (Ok tt, r')
    /\ EllipticalSRep.GetSkeletalPoint (Refiner.m_srep example_externals r') 0 0
       = Ok (SkeletalPoint.SetSpoke SkeletalPoint.CrestOrientation spoke'
               example_point).
Proof.
  destruct example_correction_returns as [r' Hrun].
  destruct (curvature_pass_corrects_crest_spokes example_externals
              example_refiner r' (fun _ => 2) (fun _ => 0) 0 0 example_point
              example_spoke example_grid_Valid Hrun eq_refl eq_refl)
    as (spoke' & H & _).
  exists r', spoke'. auto.
Defined.

Lemma crest_length_pass_keeps_spoke_on_surface_witness :
  EllipticalSRep.GetSkeletalPoint
    (Refiner.m_srep example_externals
       (snd (Refiner.OptimizeCrestSpokeLengths example_externals 1 1
               example_refiner))) 0 0
  = Ok example_point.
Proof.
  apply (crest_length_pass_keeps_spoke_on_surface example_externals
           example_refiner 1 1 0 0 example_point example_spoke
           example_grid_Valid eq_refl eq_refl eq_refl).
Defined.

Lemma curvature_pass_preserves_boundary_point_witness :
  exists (r' : Refiner.t example_externals) (p' : SkeletalPoint.t)
         (spoke' : Spoke.t),
    Refiner.correct_crest_spokes example_externals (fun _ => 2) (fun _ => 0)
      example_refiner
    = (Ok tt, r')
    /\ EllipticalSRep.GetSkeletalPoint (Refiner.m_srep example_externals r') 0 0
       = Ok p'
    /\ SkeletalPoint.GetCrestSpoke p' = Some spoke'
    /\ Spoke.GetRadius spoke' = 1 / 2
    /\ Spoke.GetBoundaryPoint spoke' = Spoke.GetBoundaryPoint example_spoke.
Proof.
  destruct example_correction_returns as [r' Hrun].
  destruct (curvature_pass_preserves_boundary_point example_externals
              example_refiner r' (fun _ => 2) (fun _ => 0) 0 0 example_point
              example_spoke (1 / 2) example_grid_Valid Hrun eq_refl eq_refl)
    as (p' & spoke' & H).
  - change (Refiner.m_polyData example_externals example_refiner) with tt.
    rewrite example_curvature. unfold one_over.
    destruct (Reqb 2 0) eqn:D; [apply Reqb_true in D; lra|reflexivity].
  - rewrite example_radius. lra.
  - exists r', p', spoke'. tauto.
Defined.

(** ** The other facts, on the examples *)

Lemma equality_of_points_witness :
  Binary64.Point3d.eq (Binary64.Point3d.mkPoint3d 0 2 3)
    (Binary64.Point3d.mkPoint3d (-0) 2 3)
  = (0 =? -0)%float && (2 =? 2)%float && (3 =? 3)%float.
Proof.
  destruct (Point3dClass.equality_of_points
              (Binary64.Point3d.mkPoint3d 0 2 3)
              (Binary64.Point3d.mkPoint3d (-0) 2 3)
              Binary64.Point3d.origin eq_refl eq_refl eq_refl) as (H & _).
  exact H.
Defined.

Lemma equal_points_are_at_distance_zero_witness :
  Binary64.Point3d.Distance (Binary64.Point3d.mkPoint3d 0 2 3)
    (Binary64.Point3d.mkPoint3d (-0) 2 3)
  = 0%float.
Proof.
  apply Point3dClass.equal_points_are_at_distance_zero; reflexivity.
Defined.

Lemma Clamp_stays_in_the_interval_witness : Fields.Clamp 250 0 199 = 199.
Proof.
  destruct (Clamp_stays_in_the_interval 250 0 199) as (_ & _ & _ & H);
    [lra|apply H; lra].
Defined.

Lemma Pow_is_the_power_modulo_the_word_witness : Fields.Pow 2 64 = 0%Z.
Proof.
  rewrite Pow_is_the_power_modulo_the_word by lia. reflexivity.
Defined.

Lemma mesh_and_srep_share_the_image_coordinates_witness :
  exists image,
    Fields.ConvertPolyDataToImageData example_externals (Some tt)
      (mkBounds 0 4 0 2 0 1) 0.005
    = Ok image.
Proof.
  eexists.
  apply (mesh_and_srep_share_the_image_coordinates example_externals tt
           (mkBounds 0 4 0 2 0 1) 0.005);
    [unfold range0|unfold range1|unfold range2]; simpl; lra.
Defined.

(** Images that differ from those of the example, outside the extent. *)
Definition other_images : SDFAndGradient :=
  (fun x _ _ => if (x <? 0)%Z then 1 else 0, fun _ _ _ => unit_z).

Lemma images_are_read_within_their_extent_witness :
  Refiner.ComputeDistanceSquaredAndNormalToImage example_externals
    (with_images example_externals other_images example_refiner)
    example_grid SkeletalPoint.UpOrientation
  = Refiner.ComputeDistanceSquaredAndNormalToImage example_externals
      example_refiner example_grid SkeletalPoint.UpOrientation.
Proof.
  apply images_are_read_within_their_extent.
  - cbn [Refiner.m_voxelSpacing example_refiner].
    assert (H : (1 <= lround (1 / 0.005))%Z)
      by (apply lround_at_least_1; lra).
    lia.
  - intros x y z Hx _ _. cbn [fst snd other_images example_refiner
      Refiner.m_sdfAndGradient].
    replace (x <? 0)%Z with false by (symmetry; apply Z.ltb_ge; lia).
    split; reflexivity.
Defined.

Lemma example_unit_of_zero : unit_of_zero_is_short example_externals.
Proof.
  intros w [= <-]. change (Spoke.GetRadius example_spoke <= 1).
  rewrite example_radius. lra.
Qed.

Lemma objective_is_not_negative_witness :
  exists (val : R) (this' : Refiner.t example_externals),
    Refiner.EvaluateObjectiveFunction example_externals (fun _ => 0)
      SkeletalPoint.UpOrientation example_refiner
    = (Ok val, this')
    /\ 0 <= val.
Proof.
  apply objective_is_not_negative;
    [apply example_unit_of_zero|simpl; lra..].
Defined.

Lemma penalty_reads_inside_the_grid_witness :
  match Refiner.ComputeRSradPenalty example_externals example_refiner
          example_grid SkeletalPoint.UpOrientation with
  | Ok penalty => 0 <= penalty
  | Throw e => UnitOfZero example_externals = Throw e
  end.
Proof.
  apply penalty_reads_inside_the_grid;
    [apply example_grid_Valid|discriminate|simpl; lia|reflexivity|reflexivity].
Defined.

Lemma Refine_turns_the_spokes_of_one_orientation_witness :
  exists srep' : EllipticalSRep.t,
    Refiner.Refine example_externals example_grid (fun _ => 0)
      SkeletalPoint.UpOrientation
    = Ok srep'
    /\ cells (turned SkeletalPoint.UpOrientation) example_grid srep'.
Proof.
  destruct (Refine_returns example_externals unit_z eq_refl example_grid
              (fun _ => 0) SkeletalPoint.UpOrientation example_grid_Valid)
    as (srep' & Hrun & _); [discriminate|].
  exists srep'. split; [exact Hrun|].
  apply (Refine_turns_the_spokes_of_one_orientation example_externals
           example_grid srep' (fun _ => 0) SkeletalPoint.UpOrientation Hrun).
Defined.

Lemma example_coefficients_return :
  exists r', Refiner.GetInitialCoefficients example_externals example_refiner
             = (Ok tt, r').
Proof.
  pose proof (GetInitialCoefficients_returns example_externals unit_z eq_refl
                example_refiner example_grid_Valid) as H.
  unfold post in H.
  destruct (Refiner.GetInitialCoefficients example_externals example_refiner)
    as [[[]|e] r']; [eauto|contradiction].
Qed.

Lemma initial_coefficients_reproduce_the_srep_witness :
  exists r' : Refiner.t example_externals,
    Refiner.GetInitialCoefficients example_externals example_refiner
    = (Ok tt, r')
    /\ Refiner.Refine example_externals (Refiner.m_srep example_externals r')
         (Refiner.data (Refiner.m_flattenedUpCoeff example_externals r'))
         SkeletalPoint.UpOrientation
       = Ok (Refiner.m_srep example_externals r').
Proof.
  destruct example_coefficients_return as [r' Hrun].
  exists r'. split; [exact Hrun|].
  apply (initial_coefficients_reproduce_the_srep example_externals
           example_refiner r' eq_refl eq_refl Hrun).
Defined.

Lemma example_stage_returns :
  exists r', Refiner.RefineUpDownSpokes example_externals
               SkeletalPoint.UpOrientation example_refiner
             = (Ok tt, r').
Proof.
  pose proof (RefineUpDownSpokes_steady example_externals unit_z eq_refl
                SkeletalPoint.UpOrientation example_refiner
                example_refiner_good) as H.
  unfold post in H.
  destruct (Refiner.RefineUpDownSpokes example_externals _ example_refiner)
    as [[[]|e] r']; [eauto|exfalso; apply H; discriminate].
Qed.

Lemma stage_commits_the_refined_spokes_witness :
  exists r' : Refiner.t example_externals,
    Refiner.RefineUpDownSpokes example_externals SkeletalPoint.UpOrientation
      example_refiner
    = (Ok tt, r')
    /\ Refiner.Refine example_externals example_grid
         (Refiner.data (Refiner.current_coeff example_externals r'))
         SkeletalPoint.UpOrientation
       = Ok (Refiner.m_srep example_externals r').
Proof.
  destruct example_stage_returns as [r' Hrun].
  exists r'. split; [exact Hrun|].
  apply (stage_commits_the_refined_spokes example_externals
           SkeletalPoint.UpOrientation example_refiner r' example_grid_Valid);
    [discriminate|exact Hrun].
Defined.

(** The two nodes of the example. *)
Definition example_model : Logic.vtkMRMLModelNode example_externals :=
  {| Logic.GetPolyData := Some (tt : vtkPolyData example_externals) |}.
Definition example_node : Logic.vtkMRMLEllipticalSRepNode :=
  {| Logic.GetEllipticalSRep := Some example_grid |}.


Lemma example_logic_run_returns :
  exists w',
    Logic.Run example_externals (fun _ => Ok tt) (Some example_model)
      (Some example_node) 1 1 1 0 1 1 1 example_world
    = (Ok tt, w').
Proof.
  destruct example_run_returns as (refined & w1 & Hrun).
  exists (Logic.SetEllipticalSRep refined w1).
  unfold Logic.Run, try_catch, Logic.GetSRep.
  cbn [bind St_Monad ret throw example_node example_model
       Logic.GetEllipticalSRep Logic.GetPolyData].
  replace (EllipticalSRep.IsEmpty example_grid) with false by reflexivity.
  cbn [Z.ltb Z.compare Pos.compare Pos.compare_cont].
  match goal with
  | |- context [Logic.RefineSRep ?E ?g ?m ?a ?b ?c ?d ?e ?f ?h ?cb ?w] =>
      change (Logic.RefineSRep E g m a b c d e f h cb w)
        with (Logic.RefineSRep example_externals example_grid (Some tt)
                1 1 1 0 1 1 1 (Some (fun _ => Ok tt)) example_world)
  end.
  rewrite Hrun. reflexivity.
Qed.

Lemma refined_srep_keeps_the_skeletal_sheet_witness :
  exists (w' : World) (refined : EllipticalSRep.t),
    Logic.Run example_externals (fun _ => Ok tt) (Some example_model)
      (Some example_node) 1 1 1 0 1 1 1 example_world
    = (Ok tt, w')
    /\ destination w' = Some refined
    /\ cells sheet example_grid refined.
Proof.
  destruct example_logic_run_returns as [w' Hrun].
  destruct (refined_srep_keeps_the_skeletal_sheet example_externals
              (fun _ => Ok tt) (Some example_model) (Some example_node)
              1 1 1 0 1 1 1 example_world w' Hrun)
    as (node & srep & refined & [= <-] & [= <-] & Hd & Hc & _).
  exists w', refined. auto.
Defined.

Lemma Run_logs_what_it_throws_witness :
  errorLog
    (snd (Logic.Run example_externals (fun _ => Ok tt) None None 1 1 1 0 1 1 1
            example_world))
  = ["Error running SRep refinement: Cannot refine an SRep with a null model"%string].
Proof.
  destruct (Run_logs_what_it_throws example_externals (fun _ => Ok tt)
              None None 1 1 1 0 1 1 1 example_world
              (snd (Logic.Run example_externals (fun _ => Ok tt) None None
                      1 1 1 0 1 1 1 example_world))
              (invalid_argument "Cannot refine an SRep with a null model")
              eq_refl) as (_ & H & _).
  exact H.
Defined.

(** An ellipsoid and the libraries of an example: the second moment has the
    eigenvalues 1, 1 and 1, and the mesh has the volume 1. *)
Definition example_libraries : Creator.Libraries := {|
  Creator.vtkPolyData := unit;
  Creator.GetPoints := fun _ => [];
  Creator.single := fun x => x;
  Creator.GetVolume := fun _ => 1;
  Creator.eigenvalues := fun _ => (1, 1, 1);
  Creator.eigenvectors := fun _ _ _ => 0
|}.

Definition example_ellipsoid : Creator.EllipsoidParameters :=
  Creator.mkEllipsoidParameters (1, 2, 3) (0, 0, 0) (fun _ _ => 0).

Lemma best_fit_ellipsoid_has_the_volume_of_the_mesh_witness :
  let ellipsoid := Creator.CalculateBestFitEllipsoid example_libraries tt in
  Creator.VolumeOfEllipsoid (Creator.at3 (Creator.radii ellipsoid) 0)
    (Creator.at3 (Creator.radii ellipsoid) 1)
    (Creator.at3 (Creator.radii ellipsoid) 2)
  = 1.
Proof.
  apply (best_fit_ellipsoid_has_the_volume_of_the_mesh example_libraries tt);
    [simpl; lra|..]; simpl; rewrite sqrt_1, Rmult_1_l; apply pow_third_pos.
Defined.

Lemma medial_sheet_runs_from_the_spine_to_the_ellipse_witness :
  Creator.coeff
    (snd (Creator.GenerateMedialSkeletalSheet 1 (fun _ => 2) (fun _ => 1)
            example_ellipsoid 4 1)) 0 0
  = 0.
Proof.
  destruct (medial_sheet_runs_from_the_spine_to_the_ellipse 1 (fun _ => 2)
              (fun _ => 1) example_ellipsoid 4 1 0) as (H & _);
    [lia|lia|lra|lra|exact H].
Defined.

Lemma example_medial_point :
  Creator.medial_point (2 * 1) (1 * 1) (2 * PI / INR 4) (1 / INR 1) 0 1
  = (-2, 0).
Proof.
  unfold Creator.medial_point. cbn [INR].
  replace (PI - 2 * PI / (1 + 1 + 1 + 1) * 0) with PI by field.
  rewrite cos_PI, sin_PI. f_equal; field.
Qed.

Lemma spoke_tips_lie_on_the_ellipsoid_witness :
  on_ellipsoid example_ellipsoid
    (Creator.row
       (Creator.upSpokeBoundaryPoints
          (Creator.preTransformSRep 1 (1 / 1000) 0 (fun _ => 2) (fun _ => 1)
             example_ellipsoid 4 1))
       (Creator.id_resampled 1 0 1)).
Proof.
  assert (Hl : R_sqrt.sqrt (0 * 2 * (0 * 2) + -2 * 1 * (-2 * 1)) = 2).
  { replace (0 * 2 * (0 * 2) + -2 * 1 * (-2 * 1)) with (2 * 2) by ring.
    apply sqrt_square. lra. }
  destruct (spoke_tips_lie_on_the_ellipsoid 1 (1 / 1000) 0 (fun _ => 2)
              (fun _ => 1) example_ellipsoid 4 1 0 1) as (_ & H & _);
    cbn [Creator.GenerateMedialSkeletalSheet fst snd Creator.coeff
         example_ellipsoid Creator.radii Creator.at3];
    rewrite ?example_medial_point; cbn [fst snd]; rewrite ?Hl;
    try lia; try lra.
  - rewrite Rabs_pos_eq; lra.
  - exact H.
Defined.

Lemma converted_srep_is_a_valid_grid_witness :
  EllipticalSRep.Valid
    (Creator.GenerateSRep example_libraries 1 (1 / 1000) 0 (fun _ => 2)
       (fun _ => 1) example_ellipsoid 4 1).
Proof.
  destruct (converted_srep_is_a_valid_grid
              (Creator.GenerateEigenSRep example_libraries 1 (1 / 1000) 0
                 (fun _ => 2) (fun _ => 1) example_ellipsoid 4 1)
              (GenerateEigenSRep_has_its_rows example_libraries 1 (1 / 1000) 0
                 (fun _ => 2) (fun _ => 1) example_ellipsoid 4 1))
    as (H & _).
  exact H.
Defined.
